(** * Motion-tracking kernel (blenkernel/intern/tracking.c): marker store,
    track join, clamping, reconstruction retrieval, 2D stabilization,
    channel blending and dopesheet coverage; and further the tracking
    step, track selection, tracking objects, camera lookup and
    interpolation, and the dopesheet segments.

    Conventions of the embedding.

    - A C [int] is a [Z].  Signed overflow is undefined in C, so the
      development speaks about executions in which frame numbers and
      counters stay inside the [int] range.
    - An array is a [list]; a pointer into [track->markers] is the index of
      the element ([nat]), a pointer that may be [NULL] is an [option].
    - A run that dereferences [NULL] or reads outside an array has no
      defined result: it is [Crash] in the [outcome] monad.
    - A C [float] is an element of a type [F] carrying the operations of
      [FloatOps].  Two instances are given: IEEE-754 binary32 (through
      [SpecFloat], bit exact and executable) and the real numbers (the
      idealised reading of the arithmetic, without rounding). *)

From Stdlib Require Import Reals Lra.
From Stdlib Require Import ZArith List Bool Lia.
From Stdlib Require Import Floats.SpecFloat.
Import ListNotations.

Local Open Scope Z_scope.

(** ** Runs that may hit undefined behaviour *)

Inductive outcome (A : Type) : Type :=
| Done (a : A)
| Crash.

Arguments Done {A} a.
Arguments Crash {A}.

Definition bind {A B : Type} (c : outcome A) (k : A -> outcome B) : outcome B :=
  match c with
  | Done a => k a
  | Crash => Crash
  end.

Notation "x <- c ;; k" := (bind c (fun x => k))
  (at level 61, c at next level, right associativity).
Notation "' p <- c ;; k" := (bind c (fun p => k))
  (at level 61, p pattern, c at next level, right associativity).

(** ** Flags

    Modelled from the spec: DNA_tracking_types.h is not part of the sources
    at hand.  The spec names the marker flags DISABLED and TRACKED and the
    track flags HAS_BUNDLE and USE_2D_STAB; they are single bits of the
    [flag] words, at the positions of Blender's header. *)

Definition MARKER_DISABLED : Z := Z.shiftl 1 0.
Definition MARKER_TRACKED : Z := Z.shiftl 1 1.
Definition TRACK_HAS_BUNDLE : Z := Z.shiftl 1 1.
Definition TRACK_USE_2D_STAB : Z := Z.shiftl 1 8.
Definition TRACKING_2D_STABILIZATION : Z := Z.shiftl 1 0.
Definition TRACKING_AUTOSCALE : Z := Z.shiftl 1 1.
Definition TRACKING_STABILIZE_ROTATION : Z := Z.shiftl 1 2.

(** [flag & bit] used as a C truth value. *)
Definition has_flag (flag bit : Z) : bool := negb (Z.land flag bit =? 0).

(** ** Arithmetic of C [float]

    The operations tracking.c applies to [float] values.  The code is
    written once over this interface. *)

Class FloatOps (F : Type) : Type := {
  f_of_int : Z -> F;          (* conversion of an [int], and integer literals *)
  f_neg : F -> F;
  f_add : F -> F -> F;
  f_sub : F -> F -> F;
  f_mul : F -> F -> F;
  f_div : F -> F -> F;
  f_lt : F -> F -> bool;      (* [a < b] *)
  f_le : F -> F -> bool;      (* [a <= b] *)
  f_eqb : F -> F -> bool      (* [a == b] *)
}.

(** libm, as far as tracking.c calls it. *)
Class LibmOps (F : Type) : Type := {
  f_atan2 : F -> F -> F;
  f_cos : F -> F;
  f_sin : F -> F
}.

Section FloatLiterals.

Context {F : Type} `{FloatOps F}.

(** A decimal literal [n/d] with [n] and [d] exactly representable: one
    correctly rounded division gives the value the compiler stores. *)
Definition f_lit (n d : Z) : F := f_div (f_of_int n) (f_of_int d).

Definition f_zero : F := f_of_int 0.         (* 0.0f *)
Definition f_one : F := f_of_int 1.          (* 1.0f *)
Definition f_two : F := f_of_int 2.          (* 2.0f *)
Definition f_half : F := f_lit 5 10.         (* 0.5f *)
Definition f_1e30 : F := f_of_int (10 ^ 30). (* 1.0e30f *)

(** [a > b] and [a >= b] are [b < a] and [b <= a]. *)
Definition f_gt (a b : F) : bool := f_lt b a.
Definition f_ge (a b : F) : bool := f_le b a.

End FloatLiterals.

(** *** IEEE-754 binary32 *)

Definition binary32 : Type := spec_float.

Definition b32_prec : Z := 24.
Definition b32_emax : Z := 128.

Definition b32_of_int (z : Z) : binary32 :=
  binary_normalize b32_prec b32_emax z 0 false.

#[export] Instance binary32_ops : FloatOps binary32 := {|
  f_of_int := b32_of_int;
  f_neg := SFopp;
  f_add := SFadd b32_prec b32_emax;
  f_sub := SFsub b32_prec b32_emax;
  f_mul := SFmul b32_prec b32_emax;
  f_div := SFdiv b32_prec b32_emax;
  f_lt := SFltb;
  f_le := SFleb;
  f_eqb := SFeqb
|}.

Definition b32_is_nan (x : binary32) : bool :=
  match x with
  | S754_nan => true
  | _ => false
  end.

(** *** The real numbers: arithmetic without rounding *)

Definition R_ltb (a b : R) : bool := if Rlt_dec a b then true else false.
Definition R_leb (a b : R) : bool := if Rle_dec a b then true else false.
Definition R_eqb (a b : R) : bool := if Req_dec_T a b then true else false.

#[export] Instance real_ops : FloatOps R := {|
  f_of_int := IZR;
  f_neg := Ropp;
  f_add := Rplus;
  f_sub := Rminus;
  f_mul := Rmult;
  f_div := Rdiv;
  f_lt := R_ltb;
  f_le := R_leb;
  f_eqb := R_eqb
|}.

(** [atan2] of C over the reals. *)
Definition R_atan2 (y x : R) : R :=
  if Rlt_dec 0 x then atan (y / x)
  else if Rlt_dec x 0 then
    (if Rle_dec 0 y then atan (y / x) + PI else atan (y / x) - PI)%R
  else if Rlt_dec 0 y then (PI / 2)%R
  else if Rlt_dec y 0 then (- PI / 2)%R
  else 0%R.

#[export] Instance real_libm : LibmOps R := {|
  f_atan2 := R_atan2;
  f_cos := cos;
  f_sin := sin
|}.

(** ** Markers and tracks *)

Definition vec2 (F : Type) : Type := (F * F)%type.

Section MarkerStore.

Context {F : Type}.

Record MovieTrackingMarker : Type := {
  pos : vec2 F;
  pattern_corners : vec2 F * vec2 F * vec2 F * vec2 F;
  search_min : vec2 F;
  search_max : vec2 F;
  framenr : Z;
  flag : Z
}.

Record MovieTrackingTrack : Type := {
  markers : list MovieTrackingMarker;
  last_marker : Z;
  track_flag : Z;
  bundle_pos : F * F * F;
  error : F
}.

Definition set_framenr (m : MovieTrackingMarker) (fr : Z) : MovieTrackingMarker :=
  {| pos := pos m; pattern_corners := pattern_corners m;
     search_min := search_min m; search_max := search_max m;
     framenr := fr; flag := flag m |}.

Definition set_flag (m : MovieTrackingMarker) (fl : Z) : MovieTrackingMarker :=
  {| pos := pos m; pattern_corners := pattern_corners m;
     search_min := search_min m; search_max := search_max m;
     framenr := framenr m; flag := fl |}.

Definition set_pos (m : MovieTrackingMarker) (p : vec2 F) : MovieTrackingMarker :=
  {| pos := p; pattern_corners := pattern_corners m;
     search_min := search_min m; search_max := search_max m;
     framenr := framenr m; flag := flag m |}.

Definition set_search (m : MovieTrackingMarker) (smin smax : vec2 F)
  : MovieTrackingMarker :=
  {| pos := pos m; pattern_corners := pattern_corners m;
     search_min := smin; search_max := smax;
     framenr := framenr m; flag := flag m |}.

Definition set_pattern_corners (m : MovieTrackingMarker)
  (c : vec2 F * vec2 F * vec2 F * vec2 F) : MovieTrackingMarker :=
  {| pos := pos m; pattern_corners := c;
     search_min := search_min m; search_max := search_max m;
     framenr := framenr m; flag := flag m |}.

Definition set_markers (t : MovieTrackingTrack) (ms : list MovieTrackingMarker)
  : MovieTrackingTrack :=
  {| markers := ms; last_marker := last_marker t; track_flag := track_flag t;
     bundle_pos := bundle_pos t; error := error t |}.

Definition set_last_marker (t : MovieTrackingTrack) (a : Z) : MovieTrackingTrack :=
  {| markers := markers t; last_marker := a; track_flag := track_flag t;
     bundle_pos := bundle_pos t; error := error t |}.

(** [track->markersnr]: the length of the marker array. *)
Definition markersnr (t : MovieTrackingTrack) : Z := Z.of_nat (length (markers t)).

(** [track->markers[a]]; reading outside the array is undefined. *)
Definition marker_at (ms : list MovieTrackingMarker) (a : Z)
  : outcome MovieTrackingMarker :=
  if a <? 0 then Crash
  else match nth_error ms (Z.to_nat a) with
       | Some m => Done m
       | None => Crash
       end.

Definition marker_disabled (m : MovieTrackingMarker) : bool :=
  has_flag (flag m) MARKER_DISABLED.

(** *** BKE_tracking_marker_get *)

(** The upward loop
    [while (a < markersnr && markers[a].framenr <= framenr) { ... a++; }]
    run on the part of the array from index [a] on.  [inl a]: the exact
    marker was found at [a]; [inr a]: the loop ended with this [a]. *)
Fixpoint get_scan_up (rest : list MovieTrackingMarker) (a : nat) (fr : Z)
  : nat + nat :=
  match rest with
  | [] => inr a
  | m :: rest' =>
      if framenr m <=? fr then
        if framenr m =? fr then inl a else get_scan_up rest' (S a) fr
      else inr a
  end.

(** The downward loop
    [while (a >= 0 && markers[a].framenr >= framenr) { ... a--; }],
    with [n = a + 1].  [Done (inl a)]: exact marker at [a];
    [Done (inr n)]: the loop ended with [a = n - 1]. *)
Fixpoint get_scan_down (ms : list MovieTrackingMarker) (n : nat) (fr : Z)
  : outcome (nat + nat) :=
  match n with
  | O => Done (inr O)
  | S a =>
      match nth_error ms a with
      | None => Crash
      | Some m =>
          if framenr m >=? fr then
            if framenr m =? fr then Done (inl a) else get_scan_down ms a fr
          else Done (inr (S a))
      end
  end.

(** The result is the returned pointer ([None] is [NULL]) and the track,
    whose cursor [last_marker] the function may have moved. *)
Definition BKE_tracking_marker_get (track : MovieTrackingTrack) (fr : Z)
  : outcome (option nat * MovieTrackingTrack) :=
  match markers track with
  | [] => Done (None, track)
  | first :: _ =>
      if fr <? framenr first then Done (Some O, track)
      else
        let a := if last_marker track <? markersnr track
                 then last_marker track
                 else markersnr track - 1 in
        m_a <- marker_at (markers track) a ;;
        if framenr m_a <=? fr then
          match get_scan_up (skipn (Z.to_nat a) (markers track)) (Z.to_nat a) fr with
          | inl a' => Done (Some a', set_last_marker track (Z.of_nat a'))
          | inr a' => Done (Some (a' - 1)%nat, track)
          end
        else
          r <- get_scan_down (markers track) (S (Z.to_nat a)) fr ;;
          match r with
          | inl a' => Done (Some a', set_last_marker track (Z.of_nat a'))
          | inr O => Crash
          | inr (S a') => Done (Some a', track)
          end
  end.

(** Dereferencing a marker pointer. *)
Definition deref (track : MovieTrackingTrack) (p : option nat)
  : outcome MovieTrackingMarker :=
  match p with
  | None => Crash
  | Some a => marker_at (markers track) (Z.of_nat a)
  end.

(** *** BKE_tracking_marker_get_exact *)

Definition BKE_tracking_marker_get_exact (track : MovieTrackingTrack) (fr : Z)
  : outcome (option nat * MovieTrackingTrack) :=
  '(marker, track) <- BKE_tracking_marker_get track fr ;;
  m <- deref track marker ;;
  if negb (framenr m =? fr) then Done (None, track) else Done (marker, track).

(** [BKE_tracking_track_has_marker_at_frame] *)
Definition BKE_tracking_track_has_marker_at_frame (track : MovieTrackingTrack) (fr : Z)
  : outcome (bool * MovieTrackingTrack) :=
  '(marker, track) <- BKE_tracking_marker_get_exact track fr ;;
  Done (match marker with Some _ => true | None => false end, track).

(** *** BKE_tracking_marker_insert *)

(** [while (a--) { if (markers[a].framenr < marker->framenr) break; }]
    started with [a = n]; the result is the value of [a] after the loop,
    [-1] when no marker lies before the new one. *)
Fixpoint insert_scan (ms : list MovieTrackingMarker) (n : nat) (fr : Z) : Z :=
  match n with
  | O => -1
  | S a =>
      match nth_error ms a with
      | Some m => if framenr m <? fr then Z.of_nat a else insert_scan ms a fr
      | None => insert_scan ms a fr
      end
  end.

(** Writing [*old_marker = *marker] at index [a]. *)
Fixpoint store_at (ms : list MovieTrackingMarker) (a : nat) (m : MovieTrackingMarker)
  : list MovieTrackingMarker :=
  match ms, a with
  | [], _ => []
  | _ :: ms', O => m :: ms'
  | x :: ms', S a' => x :: store_at ms' a' m
  end.

(** The array grown by one cell, the tail moved up from index [a] and the
    new marker put at [a]. *)
Definition shift_in (ms : list MovieTrackingMarker) (a : nat) (m : MovieTrackingMarker)
  : list MovieTrackingMarker :=
  firstn a ms ++ m :: skipn a ms.

Definition BKE_tracking_marker_insert (track : MovieTrackingTrack)
  (marker : MovieTrackingMarker) : outcome (nat * MovieTrackingTrack) :=
  '(old_marker, track) <-
     (if negb (markersnr track =? 0)
      then BKE_tracking_marker_get_exact track (framenr marker)
      else Done (None, track)) ;;
  match old_marker with
  | Some a => Done (a, set_markers track (store_at (markers track) a marker))
  | None =>
      let a := insert_scan (markers track) (length (markers track)) (framenr marker) in
      let ms := shift_in (markers track) (Z.to_nat (a + 1)) marker in
      Done (Z.to_nat (a + 1), set_last_marker (set_markers track ms) (a + 1))
  end.

(** *** BKE_tracking_marker_delete *)

(** The scan from index 0 for the marker of the frame; the first hit is
    taken out and the tail moved down. *)
Fixpoint delete_scan (ms : list MovieTrackingMarker) (fr : Z)
  : list MovieTrackingMarker :=
  match ms with
  | [] => []
  | m :: ms' => if framenr m =? fr then ms' else m :: delete_scan ms' fr
  end.

Definition BKE_tracking_marker_delete (track : MovieTrackingTrack) (fr : Z)
  : MovieTrackingTrack :=
  set_markers track (delete_scan (markers track) fr).

(** *** BKE_tracking_marker_ensure *)

Definition BKE_tracking_marker_ensure (track : MovieTrackingTrack) (fr : Z)
  : outcome (option nat * MovieTrackingTrack) :=
  '(marker, track) <- BKE_tracking_marker_get track fr ;;
  m <- deref track marker ;;
  if negb (framenr m =? fr) then
    let marker_new := set_framenr m fr in
    '(_, track) <- BKE_tracking_marker_insert track marker_new ;;
    BKE_tracking_marker_get track fr
  else Done (marker, track).

(** *** tracking_marker_insert_disabled *)

Definition tracking_marker_insert_disabled (track : MovieTrackingTrack)
  (ref_marker : MovieTrackingMarker) (before overwrite : bool)
  : outcome MovieTrackingTrack :=
  let marker_new := ref_marker in
  let marker_new :=
    set_flag marker_new (Z.land (flag marker_new) (Z.lnot MARKER_TRACKED)) in
  let marker_new :=
    set_flag marker_new (Z.lor (flag marker_new) MARKER_DISABLED) in
  let marker_new :=
    if before then set_framenr marker_new (framenr marker_new - 1)
    else set_framenr marker_new (framenr marker_new + 1) in
  if overwrite then
    '(_, track) <- BKE_tracking_marker_insert track marker_new ;;
    Done track
  else
    '(has, track) <- BKE_tracking_track_has_marker_at_frame track (framenr marker_new) ;;
    if negb has then
      '(_, track) <- BKE_tracking_marker_insert track marker_new ;;
      Done track
    else Done track.

(** *** BKE_tracking_track_path_clear *)

Inductive clear_action : Type :=
| TRACK_CLEAR_UPTO
| TRACK_CLEAR_REMAINED
| TRACK_CLEAR_ALL.

(** [a = 1; while (a < markersnr) { if (markers[a].framenr > ref_frame)
    { markersnr = a; break; } a++; }] on the array from index [a] on;
    the result is the new [markersnr]. *)
Fixpoint remained_scan (rest : list MovieTrackingMarker) (a : nat) (ref_frame : Z)
  : nat :=
  match rest with
  | [] => a
  | m :: rest' =>
      if framenr m >? ref_frame then a else remained_scan rest' (S a) ref_frame
  end.

(** [a = markersnr - 1; while (a >= 0) { if (markers[a].framenr <=
    ref_frame) { ... break; } a--; }] with [n = a + 1]; [Some a] is the
    index at which the loop broke. *)
Fixpoint upto_scan (ms : list MovieTrackingMarker) (n : nat) (ref_frame : Z)
  : option nat :=
  match n with
  | O => None
  | S a =>
      match nth_error ms a with
      | Some m => if framenr m <=? ref_frame then Some a else upto_scan ms a ref_frame
      | None => upto_scan ms a ref_frame
      end
  end.

Definition BKE_tracking_track_path_clear (track : MovieTrackingTrack)
  (ref_frame : Z) (action : clear_action) : outcome MovieTrackingTrack :=
  match action with
  | TRACK_CLEAR_REMAINED =>
      let n := match markers track with
               | [] => O
               | _ :: rest => remained_scan rest 1 ref_frame
               end in
      let track := set_markers track (firstn n (markers track)) in
      if negb (markersnr track =? 0) then
        m <- marker_at (markers track) (markersnr track - 1) ;;
        tracking_marker_insert_disabled track m false true
      else Done track
  | TRACK_CLEAR_UPTO =>
      let track :=
        match upto_scan (markers track) (length (markers track)) ref_frame with
        | Some a => set_markers track (skipn a (markers track))
        | None => track
        end in
      if negb (markersnr track =? 0) then
        m <- marker_at (markers track) 0 ;;
        tracking_marker_insert_disabled track m true true
      else Done track
  | TRACK_CLEAR_ALL =>
      '(marker, track) <- BKE_tracking_marker_get track ref_frame ;;
      marker_new <- deref track marker ;;
      let track := set_markers track [] in
      '(_, track) <- BKE_tracking_marker_insert track marker_new ;;
      track <- tracking_marker_insert_disabled track marker_new true true ;;
      tracking_marker_insert_disabled track marker_new false true
  end.

End MarkerStore.

Arguments MovieTrackingMarker F : clear implicits.
Arguments MovieTrackingTrack F : clear implicits.


(** ** Vocabulary of the marker-store statements *)

Section MarkerInvariants.

Context {F : Type}.

Local Abbreviation Marker := (MovieTrackingMarker F).
Local Abbreviation Track := (MovieTrackingTrack F).

(** The sort invariant, as the data model words it:
    [markers[i].framenr < markers[i+1].framenr] for every adjacent pair. *)
Definition strictly_ascending (ms : list Marker) : Prop :=
  forall (i : nat) (mi mj : Marker),
    nth_error ms i = Some mi -> nth_error ms (S i) = Some mj ->
    framenr mi < framenr mj.

Fixpoint ascendingb (ms : list Marker) : bool :=
  match ms with
  | m1 :: (m2 :: _) as rest => (framenr m1 <? framenr m2) && ascendingb rest
  | _ => true
  end.

(** A track of the data model: markers sorted, cursor not negative. *)
Definition track_ok (t : Track) : Prop :=
  strictly_ascending (markers t) /\ 0 <= last_marker t.

(** The marker the lookup has to deliver for [fr]: the first one when
    [fr] precedes the track, else the last one whose frame is [<= fr]. *)
Definition nearest_left (ms : list Marker) (fr : Z) (i : nat) : Prop :=
  exists m first,
    nth_error ms i = Some m /\ nth_error ms O = Some first /\
    (fr < framenr first -> i = O) /\
    (framenr first <= fr ->
     framenr m <= fr /\
     forall j mj, nth_error ms j = Some mj -> framenr mj <= fr -> (j <= i)%nat).

(** The fields an update of the marker array leaves alone. *)
Definition same_settings (t t' : Track) : Prop :=
  track_flag t' = track_flag t /\ bundle_pos t' = bundle_pos t /\ error t' = error t.

(** **** Sequences of store operations *)

Inductive store_op : Type :=
| OpInsert (m : Marker)
| OpDelete (fr : Z)
| OpEnsure (fr : Z)
| OpClear (ref_frame : Z) (action : clear_action).

Definition run_op (t : Track) (op : store_op) : outcome Track :=
  match op with
  | OpInsert m => '(_, t') <- BKE_tracking_marker_insert t m ;; Done t'
  | OpDelete fr => Done (BKE_tracking_marker_delete t fr)
  | OpEnsure fr => '(_, t') <- BKE_tracking_marker_ensure t fr ;; Done t'
  | OpClear ref_frame action => BKE_tracking_track_path_clear t ref_frame action
  end.

Fixpoint run_ops (t : Track) (ops : list store_op) : outcome Track :=
  match ops with
  | [] => Done t
  | op :: ops' => t' <- run_op t op ;; run_ops t' ops'
  end.

(** The operations that dereference the result of the lookup. *)
Definition needs_a_marker (op : store_op) : bool :=
  match op with
  | OpEnsure _ => true
  | OpClear _ TRACK_CLEAR_ALL => true
  | _ => false
  end.

Definition is_delete (op : store_op) : bool :=
  match op with
  | OpDelete _ => true
  | _ => false
  end.

(** The invariant as the data model states it: array sorted and, on a
    non-empty track, [last_marker < markersnr]. *)
Definition store_invariant (t : Track) : Prop :=
  strictly_ascending (markers t) /\
  (markers t <> [] -> 0 <= last_marker t < markersnr t).

(** The state in which the cursor points into the array. *)
Definition cursor_in_range (t : Track) : Prop :=
  markers t <> [] -> last_marker t < markersnr t.

(** The marker [tracking_marker_insert_disabled] builds from [ref_marker]. *)
Definition disabled_neighbour (ref_marker : Marker) (before : bool) : Marker :=
  set_framenr
    (set_flag ref_marker
       (Z.lor (Z.land (flag ref_marker) (Z.lnot MARKER_TRACKED)) MARKER_DISABLED))
    (if before then framenr ref_marker - 1 else framenr ref_marker + 1).

(** A disabled marker next to [ref_frame]. *)
Definition bracket_of (ref_frame : Z) (m : Marker) : Prop :=
  marker_disabled m = true /\
  (framenr m = ref_frame - 1 \/ framenr m = ref_frame + 1).

(** The outcome of path clearing as the description of the operation
    words it: survivors on the stated side of [ref_frame] (a single marker
    at [ref_frame] for ALL), anything else a disabled marker at
    [ref_frame - 1] or [ref_frame + 1]. *)
Definition path_clear_as_described (ref_frame : Z) (action : clear_action)
  (before after : list Marker) : Prop :=
  forall m, In m after ->
    match action with
    | TRACK_CLEAR_REMAINED => (In m before /\ framenr m <= ref_frame)
    | TRACK_CLEAR_UPTO => (In m before /\ ref_frame <= framenr m)
    | TRACK_CLEAR_ALL => (In m before /\ framenr m = ref_frame)
    end \/ bracket_of ref_frame m.

End MarkerInvariants.

(** ** Tests on the marker of a frame *)

Section MarkerTests.

Context {F : Type}.

Local Abbreviation Marker := (MovieTrackingMarker F).
Local Abbreviation Track := (MovieTrackingTrack F).

(** *** BKE_tracking_track_has_enabled_marker_at_frame

    [marker && (marker->flag & MARKER_DISABLED) == 0]: the flag is read
    only when the marker is there. *)
Definition BKE_tracking_track_has_enabled_marker_at_frame (track : Track) (fr : Z)
  : outcome (bool * Track) :=
  '(marker, track) <- BKE_tracking_marker_get_exact track fr ;;
  match marker with
  | None => Done (false, track)
  | Some a =>
      m <- marker_at (markers track) (Z.of_nat a) ;;
      Done (Z.land (flag m) MARKER_DISABLED =? 0, track)
  end.

(** The track holds a marker, or an enabled marker, for the frame. *)
Definition frame_held (ms : list Marker) (fr : Z) : Prop :=
  exists m, In m ms /\ framenr m = fr.

Definition frame_enabled (ms : list Marker) (fr : Z) : Prop :=
  exists m, In m ms /\ framenr m = fr /\ marker_disabled m = false.

End MarkerTests.

(** ** The keyframed marker a tracked marker goes back to *)

Section Keyframed.

Context {F : Type}.

Local Abbreviation Marker := (MovieTrackingMarker F).
Local Abbreviation Track := (MovieTrackingTrack F).

(** One round of the loop of [tracking_context_get_keyframed_marker] on
    [cur_marker = markers[a]] and [next_marker] ([None] when [next] is
    outside the array).  The result is [is_keyframed] and the fallback
    after the round. *)
Definition keyframed_round (a : nat) (cur_marker : Marker) (next_marker : option Marker)
  (fallback : option nat) : bool * option nat :=
  if Z.land (flag cur_marker) MARKER_DISABLED =? 0 then
    let fallback :=
      match next_marker with
      | Some nm =>
          if has_flag (flag nm) MARKER_DISABLED then
            match fallback with
            | None => Some a
            | Some _ => fallback
            end
          else fallback
      | None => fallback
      end in
    (Z.land (flag cur_marker) MARKER_TRACKED =? 0, fallback)
  else (false, fallback).

(** The loop [while (a >= 0 && a < markersnr) { ... a = next; }] for
    [next = a - 1], with [n = a + 1].  The result is [marker_keyed], or the
    fallback when the loop has run out of markers. *)
Fixpoint keyframed_scan_down (ms : list Marker) (n : nat) (fallback : option nat)
  : option nat :=
  match n with
  | O => fallback
  | S a =>
      match nth_error ms a with
      | None => fallback
      | Some cur_marker =>
          let next_marker :=
            match a with
            | O => None
            | S next => nth_error ms next
            end in
          let '(is_keyframed, fallback) :=
            keyframed_round a cur_marker next_marker fallback in
          if is_keyframed then Some a else keyframed_scan_down ms a fallback
      end
  end.

(** The same loop for [next = a + 1], on the array from index [a] on. *)
Fixpoint keyframed_scan_up (rest : list Marker) (a : nat) (fallback : option nat)
  : option nat :=
  match rest with
  | [] => fallback
  | cur_marker :: rest' =>
      let next_marker :=
        match rest' with
        | [] => None
        | nm :: _ => Some nm
        end in
      let '(is_keyframed, fallback) :=
        keyframed_round a cur_marker next_marker fallback in
      if is_keyframed then Some a else keyframed_scan_up rest' (S a) fallback
  end.

(** *** tracking_context_get_keyframed_marker

    [a] is the difference of the pointer the lookup returns and
    [track->markers]; with [NULL] from the lookup that difference is not
    defined.  The result is the pointer returned ([None] is [NULL]) and
    the track, whose cursor the lookup may have moved. *)
Definition tracking_context_get_keyframed_marker (track : Track) (curfra : Z)
  (backwards : bool) : outcome (option nat * Track) :=
  '(marker, track) <- BKE_tracking_marker_get track curfra ;;
  match marker with
  | None => Crash
  | Some a =>
      Done (if backwards
            then keyframed_scan_up (skipn a (markers track)) a None
            else keyframed_scan_down (markers track) (S a) None,
            track)
  end.

(** *** Vocabulary *)

(** An enabled marker that was not made by the tracker. *)
Definition is_keyframe (m : Marker) : bool :=
  negb (marker_disabled m) && negb (has_flag (flag m) MARKER_TRACKED).

(** [k] comes at or after [a] in the order of the walk. *)
Definition on_the_way (backwards : bool) (a k : nat) : Prop :=
  if backwards then (a <= k)%nat else (k <= a)%nat.

(** [j] is walked over before [k] is reached from [a]. *)
Definition walked_before (backwards : bool) (a k j : nat) : Prop :=
  if backwards then (a <= j < k)%nat else (k < j <= a)%nat.

(** The marker after [k] in the order of the walk. *)
Definition next_on_the_way (ms : list Marker) (backwards : bool) (k : nat)
  : option Marker :=
  if backwards then nth_error ms (S k)
  else match k with
       | O => None
       | S p => nth_error ms p
       end.

(** An enabled marker whose neighbour further on the way is disabled: the
    end of a tracked segment. *)
Definition is_segment_end (ms : list Marker) (backwards : bool) (k : nat) : Prop :=
  exists m nm,
    nth_error ms k = Some m /\ marker_disabled m = false /\
    next_on_the_way ms backwards k = Some nm /\ marker_disabled nm = true.

End Keyframed.

(** ** Selection flags of a track *)

Section TrackSelection.

(** TRACK_AREA_* (BKE_tracking.h), SELECT and TRACK_HIDDEN (DNA) are not
    part of the sources at hand: parameters. *)
Variable TRACK_AREA_NONE : Z.
Variable TRACK_AREA_POINT : Z.
Variable TRACK_AREA_PAT : Z.
Variable TRACK_AREA_SEARCH : Z.
Variable TRACK_AREA_ALL : Z.
Variable SELECT : Z.
Variable TRACK_HIDDEN : Z.

(** The three flag words of a track the selection functions work on:
    [track->flag], [track->pat_flag] and [track->search_flag]. *)
Record track_flags : Type := {
  point_flag : Z;
  pat_flag : Z;
  search_flag : Z
}.

(** *** BKE_tracking_track_flag_set *)
Definition BKE_tracking_track_flag_set (track : track_flags) (area flag : Z) : track_flags :=
  if area =? TRACK_AREA_NONE then track
  else
    {| point_flag := if negb (Z.land area TRACK_AREA_POINT =? 0)
                     then Z.lor (point_flag track) flag else point_flag track;
       pat_flag := if negb (Z.land area TRACK_AREA_PAT =? 0)
                   then Z.lor (pat_flag track) flag else pat_flag track;
       search_flag := if negb (Z.land area TRACK_AREA_SEARCH =? 0)
                      then Z.lor (search_flag track) flag else search_flag track |}.

(** *** BKE_tracking_track_flag_clear *)
Definition BKE_tracking_track_flag_clear (track : track_flags) (area flag : Z)
  : track_flags :=
  if area =? TRACK_AREA_NONE then track
  else
    {| point_flag := if negb (Z.land area TRACK_AREA_POINT =? 0)
                     then Z.land (point_flag track) (Z.lnot flag) else point_flag track;
       pat_flag := if negb (Z.land area TRACK_AREA_PAT =? 0)
                   then Z.land (pat_flag track) (Z.lnot flag) else pat_flag track;
       search_flag := if negb (Z.land area TRACK_AREA_SEARCH =? 0)
                      then Z.land (search_flag track) (Z.lnot flag)
                      else search_flag track |}.

(** *** BKE_tracking_track_select

    [track] is the place of the track in [tracksbase]; a track of another
    list is a place past the end.  The loop [while (cur)] with [cur] at
    place [i]. *)
Fixpoint select_loop (rest : list track_flags) (i track : nat) (area : Z)
  : list track_flags :=
  match rest with
  | [] => []
  | cur :: rest' =>
      (if Z.land (point_flag cur) TRACK_HIDDEN =? 0 then
         if (i =? track)%nat then
           BKE_tracking_track_flag_set
             (BKE_tracking_track_flag_clear cur TRACK_AREA_ALL SELECT) area SELECT
         else BKE_tracking_track_flag_clear cur TRACK_AREA_ALL SELECT
       else cur)
      :: select_loop rest' (S i) track area
  end.

Fixpoint flag_set_at (rest : list track_flags) (track : nat) (area flag : Z)
  : list track_flags :=
  match rest, track with
  | [], _ => []
  | cur :: rest', O => BKE_tracking_track_flag_set cur area flag :: rest'
  | cur :: rest', S k => cur :: flag_set_at rest' k area flag
  end.

Definition BKE_tracking_track_select (tracksbase : list track_flags) (track : nat)
  (area : Z) (extend : bool) : list track_flags :=
  if extend then flag_set_at tracksbase track area SELECT
  else select_loop tracksbase O track area.

(** The track the loop leaves at place [i]. *)
Definition select_one (track : nat) (area : Z) (i : nat) (cur : track_flags) : track_flags :=
  if Z.land (point_flag cur) TRACK_HIDDEN =? 0 then
    if (i =? track)%nat then
      BKE_tracking_track_flag_set
        (BKE_tracking_track_flag_clear cur TRACK_AREA_ALL SELECT) area SELECT
    else BKE_tracking_track_flag_clear cur TRACK_AREA_ALL SELECT
  else cur.

(** *** BKE_tracking_track_deselect *)
Definition BKE_tracking_track_deselect (track : track_flags) (area : Z) : track_flags :=
  BKE_tracking_track_flag_clear track area SELECT.

(** *** Vocabulary *)

(** SELECT is set in the word; the track is selected in some area
    (TRACK_SELECTED); the track is hidden. *)
Definition word_selected (w : Z) : bool := negb (Z.land w SELECT =? 0).

Definition track_selected (t : track_flags) : bool :=
  word_selected (point_flag t) || word_selected (pat_flag t) || word_selected (search_flag t).

Definition track_hidden (t : track_flags) : bool :=
  negb (Z.land (point_flag t) TRACK_HIDDEN =? 0).

(** The part of [area] the functions look at. *)
Definition area_has (area bit : Z) : bool := negb (Z.land area bit =? 0).

(** What the header states about the constants. *)
Definition area_constants : Prop :=
  TRACK_AREA_ALL <> TRACK_AREA_NONE /\
  area_has TRACK_AREA_ALL TRACK_AREA_POINT = true /\
  area_has TRACK_AREA_ALL TRACK_AREA_PAT = true /\
  area_has TRACK_AREA_ALL TRACK_AREA_SEARCH = true /\
  SELECT <> 0 /\ Z.land TRACK_HIDDEN SELECT = 0.

End TrackSelection.
(** ** Dopesheet coverage *)

Inductive coverage_class : Type :=
| TRACKING_COVERAGE_BAD
| TRACKING_COVERAGE_ACCEPTABLE
| TRACKING_COVERAGE_OK.

Definition coverage_eqb (a b : coverage_class) : bool :=
  match a, b with
  | TRACKING_COVERAGE_BAD, TRACKING_COVERAGE_BAD => true
  | TRACKING_COVERAGE_ACCEPTABLE, TRACKING_COVERAGE_ACCEPTABLE => true
  | TRACKING_COVERAGE_OK, TRACKING_COVERAGE_OK => true
  | _, _ => false
  end.

Definition coverage_from_count (count : Z) : coverage_class :=
  if count <? 8 then TRACKING_COVERAGE_BAD
  else if count <? 16 then TRACKING_COVERAGE_ACCEPTABLE
  else TRACKING_COVERAGE_OK.

Record MovieTrackingDopesheetCoverageSegment : Type := {
  coverage : coverage_class;
  start_frame : Z;
  end_frame : Z
}.

Definition INT_MAX : Z := 2147483647.

Section Coverage.

Context {F : Type}.

Local Abbreviation Marker := (MovieTrackingMarker F).
Local Abbreviation Track := (MovieTrackingTrack F).

(** "find frame boundaries": the first loop over the tracks. *)
Fixpoint coverage_bounds (tracks : list Track) (start_fr end_fr : Z)
  : outcome (Z * Z) :=
  match tracks with
  | [] => Done (start_fr, end_fr)
  | track :: rest =>
      first <- marker_at (markers track) 0 ;;
      last <- marker_at (markers track) (markersnr track - 1) ;;
      coverage_bounds rest (Z.min start_fr (framenr first)) (Z.max end_fr (framenr last))
  end.

(** [per_frame_counter[i]++]; a write outside the array is undefined. *)
Fixpoint counter_incr (counters : list Z) (i : nat) : outcome (list Z) :=
  match counters, i with
  | [], _ => Crash
  | c :: rest, O => Done ((c + 1) :: rest)
  | c :: rest, S i' => rest' <- counter_incr rest i' ;; Done (c :: rest')
  end.

(** "find per-frame markers count": the markers of one track. *)
Fixpoint count_markers (ms : list Marker) (start_fr : Z) (counters : list Z)
  : outcome (list Z) :=
  match ms with
  | [] => Done counters
  | marker :: ms' =>
      if Z.land (flag marker) MARKER_DISABLED =? 0 then
        if framenr marker - start_fr <? 0 then Crash
        else
          counters' <- counter_incr counters (Z.to_nat (framenr marker - start_fr)) ;;
          count_markers ms' start_fr counters'
      else count_markers ms' start_fr counters
  end.

Fixpoint count_tracks (tracks : list Track) (start_fr : Z) (counters : list Z)
  : outcome (list Z) :=
  match tracks with
  | [] => Done counters
  | track :: rest =>
      counters' <- count_markers (markers track) start_fr counters ;;
      count_tracks rest start_fr counters'
  end.

(** The loop [for (i = 1; i < frames; i++)] over [per_frame_counter[i]],
    [rest] being the counters from index [i] on.  The result lists the
    segments in the order [BLI_addtail] appends them. *)
Fixpoint coverage_loop (rest : list Z) (i frames start_fr : Z)
  (prev_coverage : coverage_class) (last_segment_frame : Z)
  : list MovieTrackingDopesheetCoverageSegment :=
  match rest with
  | [] => []
  | c :: rest' =>
      let cov := coverage_from_count c in
      let cov := if (i =? frames - 1) && (c =? 0) then TRACKING_COVERAGE_OK else cov in
      if negb (coverage_eqb cov prev_coverage) || (i =? frames - 1) then
        let end_segment_frame := i - 1 + start_fr in
        let end_segment_frame :=
          if end_segment_frame =? last_segment_frame
          then end_segment_frame + 1 else end_segment_frame in
        {| coverage := prev_coverage;
           start_frame := last_segment_frame;
           end_frame := end_segment_frame |}
        :: coverage_loop rest' (i + 1) frames start_fr cov end_segment_frame
      else coverage_loop rest' (i + 1) frames start_fr cov last_segment_frame
  end.

(** [tracks] is the track list of the active object.  An array of
    [frames <= 0] cells has no cell [per_frame_counter[0]] to read. *)
Definition tracking_dopesheet_calc_coverage (tracks : list Track)
  : outcome (list MovieTrackingDopesheetCoverageSegment) :=
  '(start_fr, end_fr) <- coverage_bounds tracks INT_MAX (- INT_MAX) ;;
  let frames := end_fr - start_fr + 1 in
  if frames <=? 0 then Crash
  else
    per_frame_counter <-
      count_tracks tracks start_fr (repeat 0 (Z.to_nat frames)) ;;
    match per_frame_counter with
    | [] => Crash
    | c0 :: rest =>
        let prev_coverage := coverage_from_count c0 in
        let prev_coverage :=
          if c0 =? 0 then TRACKING_COVERAGE_OK else prev_coverage in
        Done (coverage_loop rest 1 frames start_fr prev_coverage start_fr)
    end.

(** *** Vocabulary of the coverage statements *)

(** Enabled markers of a track, and of all tracks, at a frame. *)
Definition enabled_at (fr : Z) (m : Marker) : bool :=
  (Z.land (flag m) MARKER_DISABLED =? 0) && (framenr m =? fr).

Definition enabled_count (tracks : list Track) (fr : Z) : Z :=
  fold_right (fun t acc => Z.of_nat (length (filter (enabled_at fr) (markers t))) + acc)
             0 tracks.

(** The class the loop works with for a frame holding [count] enabled
    markers; [at_end] tells the first and the last frame of the range. *)
Definition frame_coverage (at_end : bool) (count : Z) : coverage_class :=
  if at_end && (count =? 0) then TRACKING_COVERAGE_OK else coverage_from_count count.

(** The classes of the maximal runs of equal class in [prev :: rest]. *)
Fixpoint run_classes (prev : coverage_class) (rest : list coverage_class)
  : list coverage_class :=
  match rest with
  | [] => [prev]
  | c :: rest' =>
      if coverage_eqb c prev then run_classes prev rest'
      else prev :: run_classes c rest'
  end.

(** Per-frame counts of the frames [start_fr], [start_fr + 1], ... *)
Definition counts_from (tracks : list Track) (start_fr : Z) (n : nat) : list Z :=
  map (fun k => enabled_count tracks (start_fr + Z.of_nat k)) (seq 0 n).

(** The first frame and the last frame of the global range. *)
Definition global_min (tracks : list Track) : Z :=
  fold_right (fun t acc => match markers t with
                           | m :: _ => Z.min (framenr m) acc
                           | [] => acc
                           end) INT_MAX tracks.

Definition global_max (tracks : list Track) : Z :=
  fold_right (fun t acc => match rev (markers t) with
                           | m :: _ => Z.max (framenr m) acc
                           | [] => acc
                           end) (- INT_MAX) tracks.

(** The classes of the frames [start_fr .. start_fr + n - 1], the first
    one taken as an end of the range. *)
Definition frame_classes (tracks : list Track) (start_fr : Z) (n : nat)
  : list coverage_class :=
  map (fun k => frame_coverage (k =? 0)%nat (enabled_count tracks (start_fr + Z.of_nat k)))
      (seq 0 n).

Definition collapse (classes : list coverage_class) : list coverage_class :=
  match classes with
  | [] => []
  | c :: rest => run_classes c rest
  end.

(** The tracks the function is defined on: at least one track, every
    track with markers, in ascending order. *)
Definition coverage_input (tracks : list Track) : Prop :=
  tracks <> [] /\
  forall t, In t tracks -> markers t <> [] /\ strictly_ascending (markers t).

(** The statement with the class of every frame of the range taken from
    the count alone. *)
Definition coverage_by_count_only (tracks : list Track)
  (segs : list MovieTrackingDopesheetCoverageSegment) : Prop :=
  let frames := Z.to_nat (global_max tracks - global_min tracks + 1) in
  map coverage segs =
  collapse (map (fun k => coverage_from_count
                            (enabled_count tracks (global_min tracks + Z.of_nat k)))
                (seq 0 frames)).

(** Segments that follow one another from [from] on, each of them at least
    one frame long. *)
Fixpoint chained (from : Z) (segs : list MovieTrackingDopesheetCoverageSegment) : Prop :=
  match segs with
  | [] => True
  | s :: rest => start_frame s = from /\ start_frame s < end_frame s /\
                 chained (end_frame s) rest
  end.

End Coverage.

(** ** Dopesheet channels: the tracked segments of a track *)

(** The fields [tracking_dopesheet_channels_segments_calc] writes.
    [segments] is the array of [2 * tot_segment] frame numbers, [None] for
    the pointer the zeroed channel starts with. *)
Record MovieTrackingDopesheetChannel : Type := {
  tot_segment : Z;
  max_segment : Z;
  total_frames : Z;
  segments : option (list Z)
}.

(** [array[k] = v]; a write outside the array is undefined. *)
Fixpoint array_set (cells : list Z) (k : nat) (v : Z) : outcome (list Z) :=
  match cells, k with
  | [], _ => Crash
  | _ :: rest, O => Done (v :: rest)
  | c :: rest, S k' => rest' <- array_set rest k' v ;; Done (c :: rest')
  end.

Section ChannelSegments.

Context {F : Type}.

Local Abbreviation Marker := (MovieTrackingMarker F).
Local Abbreviation Track := (MovieTrackingTrack F).

(** The inner loop
    [while (i < markersnr) { marker = &markers[i];
       if (marker->framenr != prev_fra + 1) break;
       if (marker->flag & MARKER_DISABLED) break;
       prev_fra = marker->framenr; len++; i++; }]
    on the array from index [i] on.  The result is [len] and [i] after the
    loop. *)
Fixpoint segment_scan (rest : list Marker) (prev_fra len : Z) (i : nat) : Z * nat :=
  match rest with
  | [] => (len, i)
  | marker :: rest' =>
      if negb (framenr marker =? prev_fra + 1) then (len, i)
      else if has_flag (flag marker) MARKER_DISABLED then (len, i)
      else segment_scan rest' (framenr marker) (len + 1) (S i)
  end.

(** The same loop in the second pass, where it counts [total_frames] as
    well. *)
Fixpoint segment_scan_frames (rest : list Marker) (prev_fra len total : Z) (i : nat)
  : Z * Z * nat :=
  match rest with
  | [] => (len, total, i)
  | marker :: rest' =>
      if negb (framenr marker =? prev_fra + 1) then (len, total, i)
      else if has_flag (flag marker) MARKER_DISABLED then (len, total, i)
      else segment_scan_frames rest' (framenr marker) (len + 1) (total + 1) (S i)
  end.

(** The first pass, "count": [while (i < markersnr) { ... i++; }].  Every
    round moves [i] forward, so [markersnr] rounds of [fuel] are enough; a
    run that needed more would be [Crash]. *)
Fixpoint segments_count (fuel : nat) (ms : list Marker) (i : nat) (tot : Z)
  : outcome Z :=
  match nth_error ms i with
  | None => Done tot
  | Some marker =>
      match fuel with
      | O => Crash
      | S fuel' =>
          if Z.land (flag marker) MARKER_DISABLED =? 0 then
            let '(_, i') := segment_scan (skipn (S i) ms) (framenr marker) 0 (S i) in
            segments_count fuel' ms (S i') (tot + 1)
          else segments_count fuel' ms (S i) tot
      end
  end.

(** The second pass, "create segments".  The state is the array, the index
    [segment], [total_frames] and [max_segment]. *)
Fixpoint segments_fill (fuel : nat) (ms : list Marker) (i : nat)
  (cells : list Z) (segment : nat) (total maxseg : Z)
  : outcome (list Z * Z * Z) :=
  match nth_error ms i with
  | None => Done (cells, total, maxseg)
  | Some marker =>
      match fuel with
      | O => Crash
      | S fuel' =>
          if Z.land (flag marker) MARKER_DISABLED =? 0 then
            let start_marker := marker in
            let '(len, total', i') :=
              segment_scan_frames (skipn (S i) ms) (framenr marker) 0 total (S i) in
            cells1 <- array_set cells (2 * segment) (framenr start_marker) ;;
            cells2 <- array_set cells1 (2 * segment + 1) (framenr start_marker + len) ;;
            segments_fill fuel' ms (S i') cells2 (S segment) total' (Z.max maxseg len)
          else segments_fill fuel' ms (S i) cells segment total maxseg
      end
  end.

(** *** tracking_dopesheet_channels_segments_calc

    The result is the channel's fields for the track. *)
Definition tracking_dopesheet_channels_segments_calc (track : Track)
  : outcome MovieTrackingDopesheetChannel :=
  let ms := markers track in
  tot <- segments_count (length ms) ms 0 0 ;;
  if tot =? 0 then
    Done {| tot_segment := 0; max_segment := 0; total_frames := 0; segments := None |}
  else
    '(cells, total, maxseg) <-
      segments_fill (length ms) ms 0 (repeat 0 (Z.to_nat (2 * tot))) 0 0 0 ;;
    Done {| tot_segment := tot; max_segment := maxseg; total_frames := total;
            segments := Some cells |}.

(** *** Vocabulary of the segment statements *)

(** The runs the two passes walk through, as [(start, len)], from index
    [i] on. *)
Fixpoint tracked_runs (fuel : nat) (ms : list Marker) (i : nat) : list (Z * Z) :=
  match nth_error ms i, fuel with
  | Some marker, S fuel' =>
      if Z.land (flag marker) MARKER_DISABLED =? 0 then
        let '(len, i') := segment_scan (skipn (S i) ms) (framenr marker) 0 (S i) in
        (framenr marker, len) :: tracked_runs fuel' ms (S i')
      else tracked_runs fuel' ms (S i)
  | _, _ => []
  end.

(** The array of a list of runs: [start] and [start + len] of each. *)
Definition run_cells (runs : list (Z * Z)) : list Z :=
  flat_map (fun '(start, len) => [start; start + len]) runs.

(** The pairs [(segments[2k], segments[2k+1])] of an array. *)
Fixpoint cell_pairs (cells : list Z) : list (Z * Z) :=
  match cells with
  | s :: e :: rest => (s, e) :: cell_pairs rest
  | _ => []
  end.

(** The frames the segments span beyond their first ones. *)
Definition segments_total (pairs : list (Z * Z)) : Z :=
  fold_right (fun '(s, e) acc => (e - s) + acc) 0 pairs.

(** The frame lies in a segment of the array. *)
Definition frame_in_segments (cells : list Z) (fr : Z) : Prop :=
  exists s e, In (s, e) (cell_pairs cells) /\ s <= fr <= e.

(** The markers [j .. j + n] are enabled and sit on the frames
    [s .. s + n]. *)
Definition run_at (ms : list Marker) (j : nat) (s : Z) (n : nat) : Prop :=
  forall k, (k <= n)%nat ->
    exists m, nth_error ms (j + k) = Some m /\
              framenr m = s + Z.of_nat k /\ marker_disabled m = false.

(** The runs with their places in the array: each starts at an index [j]
    at or after [i], and the next one is looked for two cells after its
    end. *)
Fixpoint runs_placed (ms : list Marker) (i : nat) (runs : list (Z * Z)) : Prop :=
  match runs with
  | [] => True
  | (s, len) :: rest =>
      exists (j n : nat),
        (i <= j)%nat /\ len = Z.of_nat n /\ run_at ms j s n /\
        (forall m, nth_error ms (j + n + 1) = Some m ->
           framenr m <> s + Z.of_nat n + 1 \/ marker_disabled m = true) /\
        (forall k m, (i <= k < j)%nat -> nth_error ms k = Some m ->
           marker_disabled m = true) /\
        runs_placed ms (j + n + 2) rest
  end.

(** The sum and the largest of the lengths of a list of runs. *)
Definition runs_total (runs : list (Z * Z)) : Z :=
  fold_right (fun '(_, len) acc => len + acc) 0 runs.

Definition runs_longest (from : Z) (runs : list (Z * Z)) : Z :=
  fold_left (fun acc '(_, len) => Z.max acc len) runs from.

(** Segments that follow one another with at least one frame between
    them. *)
Fixpoint segments_apart (pairs : list (Z * Z)) : Prop :=
  match pairs with
  | (_, e1) :: (((s2, _) :: _) as rest) => e1 + 2 <= s2 /\ segments_apart rest
  | _ => True
  end.

(** No enabled marker follows an enabled marker across a gap of frames. *)
Definition runs_closed_off (ms : list Marker) : Prop :=
  forall k p m,
    nth_error ms k = Some p -> nth_error ms (S k) = Some m ->
    marker_disabled p = false -> marker_disabled m = false ->
    framenr m = framenr p + 1.


End ChannelSegments.

(** ** Pattern bounding box and clamping *)

Section Clamp.

Context {F : Type} `{FloatOps F}.

Local Abbreviation Marker := (MovieTrackingMarker F).

(** Modelled from the spec: BLI_math (min_ff, max_ff, INIT_MINMAX2,
    minmax_v2v2_v2) is not part of the sources at hand.  The spec takes the
    pattern bounding box as the componentwise min/max over the four
    corners; the helpers are written the way BLI computes it, by
    comparisons starting from +-1.0e30f. *)
Definition min_ff (a b : F) : F := if f_lt a b then a else b.
Definition max_ff (a b : F) : F := if f_gt a b then a else b.

Definition INIT_MINMAX2 : vec2 F * vec2 F :=
  ((f_1e30, f_1e30), (f_neg f_1e30, f_neg f_1e30)).

Definition minmax_v2v2_v2 (mm : vec2 F * vec2 F) (vec : vec2 F) : vec2 F * vec2 F :=
  let '(mn, mx) := mm in
  let mn0 := if f_gt (fst mn) (fst vec) then fst vec else fst mn in
  let mn1 := if f_gt (snd mn) (snd vec) then snd vec else snd mn in
  let mx0 := if f_lt (fst mx) (fst vec) then fst vec else fst mx in
  let mx1 := if f_lt (snd mx) (snd vec) then snd vec else snd mx in
  ((mn0, mn1), (mx0, mx1)).

(** *** BKE_tracking_marker_pattern_minmax *)

Definition BKE_tracking_marker_pattern_minmax (marker : Marker) : vec2 F * vec2 F :=
  let '(c0, c1, c2, c3) := pattern_corners marker in
  let mm := INIT_MINMAX2 in
  let mm := minmax_v2v2_v2 mm c0 in
  let mm := minmax_v2v2_v2 mm c1 in
  let mm := minmax_v2v2_v2 mm c2 in
  let mm := minmax_v2v2_v2 mm c3 in
  mm.

(** *** BKE_tracking_marker_clamp *)

Inductive clamp_event : Type :=
| CLAMP_PAT_DIM
| CLAMP_PAT_POS
| CLAMP_SEARCH_DIM
| CLAMP_SEARCH_POS.

(** One axis of "pattern shouldn't be moved outside of search": the
    coordinate [c] of a corner after the two tests. *)
Definition clamp_pat_pos_axis (pat_min pat_max smin smax c : F) : F :=
  let c := if f_lt pat_min smin then f_add c (f_sub smin pat_min) else c in
  let c := if f_gt pat_max smax then f_sub c (f_sub pat_max smax) else c in
  c.

(** One axis of "search shouldn't be moved inside pattern". *)
Definition clamp_search_pos_axis (pat_min pat_max dim smin smax : F) : F * F :=
  let '(smin, smax) :=
    if f_gt smin pat_min then (pat_min, f_add pat_min dim) else (smin, smax) in
  let '(smin, smax) :=
    if f_lt smax pat_max then (f_sub pat_max dim, pat_max) else (smin, smax) in
  (smin, smax).

Definition BKE_tracking_marker_clamp (marker : Marker) (event : clamp_event) : Marker :=
  let '(pat_min, pat_max) := BKE_tracking_marker_pattern_minmax marker in
  match event with
  | CLAMP_PAT_DIM | CLAMP_SEARCH_DIM =>
      (* search shouldn't be resized smaller than pattern *)
      set_search marker
        (min_ff (fst pat_min) (fst (search_min marker)),
         min_ff (snd pat_min) (snd (search_min marker)))
        (max_ff (fst pat_max) (fst (search_max marker)),
         max_ff (snd pat_max) (snd (search_max marker)))
  | CLAMP_PAT_POS =>
      let move (c : vec2 F) : vec2 F :=
        (clamp_pat_pos_axis (fst pat_min) (fst pat_max)
           (fst (search_min marker)) (fst (search_max marker)) (fst c),
         clamp_pat_pos_axis (snd pat_min) (snd pat_max)
           (snd (search_min marker)) (snd (search_max marker)) (snd c)) in
      let '(c0, c1, c2, c3) := pattern_corners marker in
      set_pattern_corners marker (move c0, move c1, move c2, move c3)
  | CLAMP_SEARCH_POS =>
      let dim0 := f_sub (fst (search_max marker)) (fst (search_min marker)) in
      let dim1 := f_sub (snd (search_max marker)) (snd (search_min marker)) in
      let '(smin0, smax0) :=
        clamp_search_pos_axis (fst pat_min) (fst pat_max) dim0
          (fst (search_min marker)) (fst (search_max marker)) in
      let '(smin1, smax1) :=
        clamp_search_pos_axis (snd pat_min) (snd pat_max) dim1
          (snd (search_min marker)) (snd (search_max marker)) in
      set_search marker (smin0, smin1) (smax0, smax1)
  end.

End Clamp.

(** *** Vocabulary of the clamp statements (binary32) *)

(** The search area holds numbers, as the data model has it. *)
Definition search_is_number (m : MovieTrackingMarker binary32) : Prop :=
  b32_is_nan (fst (search_min m)) = false /\ b32_is_nan (snd (search_min m)) = false /\
  b32_is_nan (fst (search_max m)) = false /\ b32_is_nan (snd (search_max m)) = false.

(** [a <= b] on both axes, and "[a] is nowhere above [b]". *)
Definition vec2_le (a b : vec2 binary32) : Prop :=
  SFleb (fst a) (fst b) = true /\ SFleb (snd a) (snd b) = true.

Definition vec2_not_above (a b : vec2 binary32) : Prop :=
  SFltb (fst b) (fst a) = false /\ SFltb (snd b) (snd a) = false.

Definition box_is_number (mm : vec2 binary32 * vec2 binary32) : Prop :=
  b32_is_nan (fst (fst mm)) = false /\ b32_is_nan (snd (fst mm)) = false /\
  b32_is_nan (fst (snd mm)) = false /\ b32_is_nan (snd (snd mm)) = false.

(** ** The marker a tracking step leaves (tracking_insert_new_marker) *)

Section NewMarker.

Context {F : Type} `{FloatOps F}.

Local Abbreviation Marker := (MovieTrackingMarker F).
Local Abbreviation Track := (MovieTrackingTrack F).

(** The cast [(int)] of a [float]: undefined when the value does not fit.
    [double] values of the tracker, their sum, the literal [0.5] and the
    conversion to [float] on assignment. *)
Variable f_to_int : F -> outcome Z.
Variable D : Type.
Variable d_add : D -> D -> D.
Variable d_half : D.
Variable double_to_float : D -> F.
Variable float_to_double : F -> D.

(** [double search_pixel_x[5]]. *)
Definition double5 : Type := (D * D * D * D * D)%type.

(** *** Space transformation functions *)

Definition unified_to_pixel (frame_width frame_height : Z) (unified_coords : vec2 F)
  : vec2 F :=
  (f_mul (fst unified_coords) (f_of_int frame_width),
   f_mul (snd unified_coords) (f_of_int frame_height)).

Definition marker_to_frame_unified (marker : Marker) (marker_unified_coords : vec2 F)
  : vec2 F :=
  (f_add (fst marker_unified_coords) (fst (pos marker)),
   f_add (snd marker_unified_coords) (snd (pos marker))).

Definition marker_unified_to_frame_pixel_coordinates (frame_width frame_height : Z)
  (marker : Marker) (marker_unified_coords : vec2 F) : vec2 F :=
  unified_to_pixel frame_width frame_height
    (marker_to_frame_unified marker marker_unified_coords).

(** "Get the lower left coordinate of the search window and snap to pixel
    coordinates". *)
Definition get_search_origin_frame_pixel (frame_width frame_height : Z) (marker : Marker)
  : outcome (vec2 F) :=
  let frame_pixel :=
    marker_unified_to_frame_pixel_coordinates frame_width frame_height marker
      (search_min marker) in
  x <- f_to_int (fst frame_pixel) ;;
  y <- f_to_int (snd frame_pixel) ;;
  Done (f_of_int x, f_of_int y).

Definition pixel_to_unified (frame_width frame_height : Z) (pixel_coords : vec2 F)
  : vec2 F :=
  (f_div (fst pixel_coords) (f_of_int frame_width),
   f_div (snd pixel_coords) (f_of_int frame_height)).

Definition search_pixel_to_marker_unified (frame_width frame_height : Z) (marker : Marker)
  (search_pixel : vec2 F) : outcome (vec2 F) :=
  search_origin_frame_pixel <-
    get_search_origin_frame_pixel frame_width frame_height marker ;;
  let frame_unified :=
    (f_add (fst search_pixel) (fst search_origin_frame_pixel),
     f_add (snd search_pixel) (snd search_origin_frame_pixel)) in
  let frame_unified := pixel_to_unified frame_width frame_height frame_unified in
  Done (f_sub (fst frame_unified) (fst (pos marker)),
        f_sub (snd frame_unified) (snd (pos marker))).

Definition marker_unified_to_search_pixel (frame_width frame_height : Z) (marker : Marker)
  (marker_unified : vec2 F) : outcome (vec2 F) :=
  let frame_pixel :=
    marker_unified_to_frame_pixel_coordinates frame_width frame_height marker
      marker_unified in
  search_origin_frame_pixel <-
    get_search_origin_frame_pixel frame_width frame_height marker ;;
  Done (f_sub (fst frame_pixel) (fst search_origin_frame_pixel),
        f_sub (snd frame_pixel) (snd search_origin_frame_pixel)).

(** *** get_marker_coords_for_tracking: the four corners, then the
    centre; the result is [search_pixel_x] and [search_pixel_y]. *)
Definition get_marker_coords_for_tracking (frame_width frame_height : Z) (marker : Marker)
  : outcome (double5 * double5) :=
  let '(c0, c1, c2, c3) := pattern_corners marker in
  let shifted (c : F) : D := float_to_double (f_sub c f_half) in
  p0 <- marker_unified_to_search_pixel frame_width frame_height marker c0 ;;
  p1 <- marker_unified_to_search_pixel frame_width frame_height marker c1 ;;
  p2 <- marker_unified_to_search_pixel frame_width frame_height marker c2 ;;
  p3 <- marker_unified_to_search_pixel frame_width frame_height marker c3 ;;
  p4 <- marker_unified_to_search_pixel frame_width frame_height marker (f_zero, f_zero) ;;
  Done ((shifted (fst p0), shifted (fst p1), shifted (fst p2), shifted (fst p3),
         shifted (fst p4)),
        (shifted (snd p0), shifted (snd p1), shifted (snd p2), shifted (snd p3),
         shifted (snd p4))).

(** *** set_marker_coords_from_tracking: the loop over the four corners
    written out, then the centre and the shift. *)
Definition set_marker_coords_from_tracking (frame_width frame_height : Z) (marker : Marker)
  (search_pixel_x search_pixel_y : double5) : outcome Marker :=
  let '(x0, x1, x2, x3, x4) := search_pixel_x in
  let '(y0, y1, y2, y3, y4) := search_pixel_y in
  let search_pixel (x y : D) : vec2 F :=
    (double_to_float (d_add x d_half), double_to_float (d_add y d_half)) in
  let '(c0, c1, c2, c3) := pattern_corners marker in
  c0 <- search_pixel_to_marker_unified frame_width frame_height marker
          (search_pixel x0 y0) ;;
  let marker := set_pattern_corners marker (c0, c1, c2, c3) in
  c1 <- search_pixel_to_marker_unified frame_width frame_height marker
          (search_pixel x1 y1) ;;
  let marker := set_pattern_corners marker (c0, c1, c2, c3) in
  c2 <- search_pixel_to_marker_unified frame_width frame_height marker
          (search_pixel x2 y2) ;;
  let marker := set_pattern_corners marker (c0, c1, c2, c3) in
  c3 <- search_pixel_to_marker_unified frame_width frame_height marker
          (search_pixel x3 y3) ;;
  let marker := set_pattern_corners marker (c0, c1, c2, c3) in
  marker_unified <- search_pixel_to_marker_unified frame_width frame_height marker
                      (search_pixel x4 y4) ;;
  let shifted (c : vec2 F) : vec2 F :=
    (f_sub (fst c) (fst marker_unified), f_sub (snd c) (snd marker_unified)) in
  let marker :=
    set_pattern_corners marker (shifted c0, shifted c1, shifted c2, shifted c3) in
  Done (set_pos marker (f_add (fst (pos marker)) (fst marker_unified),
                        f_add (snd (pos marker)) (snd marker_unified))).

(** *** tracking_scale_marker_search *)
Definition tracking_scale_marker_search (old_marker new_marker : Marker) : Marker :=
  let '(old_pat_min, old_pat_max) := BKE_tracking_marker_pattern_minmax old_marker in
  let '(new_pat_min, new_pat_max) := BKE_tracking_marker_pattern_minmax new_marker in
  let scale_x := f_div (f_sub (fst new_pat_max) (fst new_pat_min))
                       (f_sub (fst old_pat_max) (fst old_pat_min)) in
  let scale_y := f_div (f_sub (snd new_pat_max) (snd new_pat_min))
                       (f_sub (snd old_pat_max) (snd old_pat_min)) in
  set_search new_marker
    (f_mul (fst (search_min new_marker)) scale_x,
     f_mul (snd (search_min new_marker)) scale_y)
    (f_mul (fst (search_max new_marker)) scale_x,
     f_mul (snd (search_max new_marker)) scale_y).

(** *** tracking_insert_new_marker, with [context->backwards] and
    [context->first_time] as [backwards] and [first_time].  [old_marker]
    is read before the first insertion only, so it is passed by value. *)
Definition tracking_insert_new_marker (backwards first_time : bool) (track : Track)
  (old_marker : Marker) (curfra : Z) (tracked : bool) (frame_width frame_height : Z)
  (dst_pixel_x dst_pixel_y : double5) : outcome Track :=
  let frame_delta := if backwards then -1 else 1 in
  let nextfra := curfra + frame_delta in
  let new_marker := old_marker in
  if tracked then
    new_marker <- set_marker_coords_from_tracking frame_width frame_height new_marker
                    dst_pixel_x dst_pixel_y ;;
    let new_marker := set_flag new_marker (Z.lor (flag new_marker) MARKER_TRACKED) in
    let new_marker := set_framenr new_marker nextfra in
    let new_marker := tracking_scale_marker_search old_marker new_marker in
    track <- (if first_time
              then tracking_marker_insert_disabled track old_marker (negb backwards) false
              else Done track) ;;
    '(_, track) <- BKE_tracking_marker_insert track new_marker ;;
    tracking_marker_insert_disabled track new_marker backwards false
  else
    let new_marker := set_framenr new_marker nextfra in
    let new_marker := set_flag new_marker (Z.lor (flag new_marker) MARKER_DISABLED) in
    '(_, track) <- BKE_tracking_marker_insert track new_marker ;;
    Done track.

(** The marker the tracked branch inserts, when the coordinates are
    defined. *)
Definition tracked_marker (old_marker : Marker) (nextfra : Z)
  (frame_width frame_height : Z) (dst_pixel_x dst_pixel_y : double5) : outcome Marker :=
  new_marker <- set_marker_coords_from_tracking frame_width frame_height old_marker
                  dst_pixel_x dst_pixel_y ;;
  Done (tracking_scale_marker_search old_marker
          (set_framenr (set_flag new_marker (Z.lor (flag new_marker) MARKER_TRACKED))
             nextfra)).

(** The marker the other branch inserts. *)
Definition lost_marker (old_marker : Marker) (nextfra : Z) : Marker :=
  set_flag (set_framenr old_marker nextfra) (Z.lor (flag old_marker) MARKER_DISABLED).

End NewMarker.
(** *** Vocabulary of the clamp statements (real numbers) *)

Definition corners_of {F : Type} (m : MovieTrackingMarker F) : list (vec2 F) :=
  let '(c0, c1, c2, c3) := pattern_corners m in [c0; c1; c2; c3].

(** [p] lies in the box from [lo] to [hi]. *)
Definition inside_box (lo hi p : vec2 R) : Prop :=
  (fst lo <= fst p <= fst hi)%R /\ (snd lo <= snd p <= snd hi)%R.

(** The pattern bounding box is not larger than the search area. *)
Definition pattern_fits (m : MovieTrackingMarker R) : Prop :=
  let pat_min := fst (BKE_tracking_marker_pattern_minmax m) in
  let pat_max := snd (BKE_tracking_marker_pattern_minmax m) in
  (fst pat_max - fst pat_min <= fst (search_max m) - fst (search_min m))%R /\
  (snd pat_max - snd pat_min <= snd (search_max m) - snd (search_min m))%R.
(** ** A new track (BKE_tracking_track_add) *)

Section TrackAdd.

Context {F : Type} `{FloatOps F}.

Local Abbreviation Marker := (MovieTrackingMarker F).
Local Abbreviation Track := (MovieTrackingTrack F).

(** [negate_v2_v2] of BLI_math, which is not part of the sources at hand:
    the opposite of both components. *)
Definition negate_v2_v2 (a : vec2 F) : vec2 F := (f_neg (fst a), f_neg (snd a)).

(** The marker the function builds, from [settings->default_pattern_size]
    and [settings->default_search_size]. *)
Definition track_add_marker (default_pattern_size default_search_size : Z)
  (x y : F) (fr width height : Z) : Marker :=
  let half_pattern := f_div (f_of_int default_pattern_size) f_two in
  let half_search := f_div (f_of_int default_search_size) f_two in
  let pat := (f_div half_pattern (f_of_int width), f_div half_pattern (f_of_int height)) in
  let search := (f_div half_search (f_of_int width), f_div half_search (f_of_int height)) in
  let c0 := (f_neg (fst pat), f_neg (snd pat)) in
  let c1 := (fst pat, f_neg (snd pat)) in
  {| pos := (x, y);
     pattern_corners := (c0, c1, negate_v2_v2 c0, negate_v2_v2 c1);
     search_min := negate_v2_v2 search;
     search_max := search;
     framenr := fr;
     flag := 0 |}.

(** BKE_tracking_track_add: the track list with the new track at its
    tail.  Of the settings copied into the track, [settings->default_flag]
    is the one the track record holds. *)
Definition BKE_tracking_track_add (default_pattern_size default_search_size default_flag : Z)
  (tracksbase : list Track) (x y : F) (fr width height : Z) : outcome (list Track) :=
  let track :=
    {| markers := []; last_marker := 0; track_flag := default_flag;
       bundle_pos := (f_zero, f_zero, f_zero); error := f_zero |} in
  let marker :=
    track_add_marker default_pattern_size default_search_size x y fr width height in
  '(_, track) <- BKE_tracking_marker_insert track marker ;;
  Done (tracksbase ++ [track]).

End TrackAdd.
(** ** Joining two tracks *)

Section Join.

Context {F : Type} `{FloatOps F}.

Local Abbreviation Marker := (MovieTrackingMarker F).
Local Abbreviation Track := (MovieTrackingTrack F).

(** Modelled from the spec: interp_v2_v2v2 (BLI_math) is not part of the
    sources at hand.  The spec has the join interpolate positions linearly
    between [dst] and [src]; this is BLI's formula, [(1 - t) * a + t * b]
    on both axes. *)
Definition interp_v2_v2v2 (a b : vec2 F) (t : F) : vec2 F :=
  let s := f_sub f_one t in
  (f_add (f_mul s (fst a)) (f_mul t (fst b)),
   f_add (f_mul s (snd a)) (f_mul t (snd b))).

(** "find length of intersection": the [while] loop run on the two arrays
    from [a] and [b] on; the result is [len]. *)
Fixpoint intersection_len (src_rest dst_rest : list Marker) (frame : Z) : nat :=
  match src_rest, dst_rest with
  | marker_a :: src_rest', marker_b :: dst_rest' =>
      if marker_disabled marker_a || marker_disabled marker_b then O
      else if negb (framenr marker_a =? frame) || negb (framenr marker_b =? frame) then O
      else S (intersection_len src_rest' dst_rest' (frame + 1))
  | _, _ => O
  end.

(** [fac] of the interpolation loop at index [j] of a segment of [len]
    frames. *)
Definition blend_fac (len j : Z) (inverse : bool) : F :=
  let fac := f_half in
  let fac := if 1 <? len
             then f_mul (f_div f_one (f_of_int (len - 1))) (f_of_int j)
             else fac in
  let fac := if inverse then f_sub f_one fac else fac in
  fac.

(** The marker the interpolation loop stores: [dst]'s marker with the
    blended position. *)
Definition blended (marker_a marker_b : Marker) (fac : F) : Marker :=
  set_pos marker_b (interp_v2_v2v2 (pos marker_b) (pos marker_a) fac).

(** "linear interpolation for intersecting frames": [n] rounds are left,
    the current one has index [j]. *)
Fixpoint blend_loop (src_rest dst_rest : list Marker) (n : nat) (j len : Z)
  (inverse : bool) {struct n} : outcome (list Marker) :=
  match n with
  | O => Done []
  | S n' =>
      match src_rest, dst_rest with
      | marker_a :: src_rest', marker_b :: dst_rest' =>
          rest <- blend_loop src_rest' dst_rest' n' (j + 1) len inverse ;;
          Done (blended marker_a marker_b (blend_fac len j inverse) :: rest)
      | _, _ => Crash
      end
  end.

(** The merge loop [while (a < src->markersnr || b < dst->markersnr)].
    Every round moves [a] or [b] forward, so [src->markersnr +
    dst->markersnr] rounds of [fuel] are enough; a run that needed more
    would be [Crash], like a read outside an array. *)
Fixpoint join_loop (fuel : nat) (src dst : list Marker) (a b : nat)
  : outcome (list Marker) :=
  if negb ((a <? length src)%nat || (b <? length dst)%nat) then Done []
  else
    match fuel with
    | O => Crash
    | S fuel' =>
        if (length dst <=? b)%nat then
          marker_a <- marker_at src (Z.of_nat a) ;;
          rest <- join_loop fuel' src dst (S a) b ;;
          Done (marker_a :: rest)
        else if (length src <=? a)%nat then
          marker_b <- marker_at dst (Z.of_nat b) ;;
          rest <- join_loop fuel' src dst a (S b) ;;
          Done (marker_b :: rest)
        else
          marker_a <- marker_at src (Z.of_nat a) ;;
          marker_b <- marker_at dst (Z.of_nat b) ;;
          if framenr marker_a <? framenr marker_b then
            rest <- join_loop fuel' src dst (S a) b ;;
            Done (marker_a :: rest)
          else if framenr marker_a >? framenr marker_b then
            rest <- join_loop fuel' src dst a (S b) ;;
            Done (marker_b :: rest)
          else if Z.land (flag marker_a) MARKER_DISABLED =? 0 then
            if Z.land (flag marker_b) MARKER_DISABLED =? 0 then
              (* both tracks are enabled on this frame *)
              let frame := framenr marker_a in
              inverse <-
                (if (b =? 0)%nat then Done true
                 else
                   prev <- marker_at dst (Z.of_nat b - 1) ;;
                   Done (has_flag (flag prev) MARKER_DISABLED
                         || negb (framenr prev =? frame - 1))) ;;
              let len := intersection_len (skipn a src) (skipn b dst) frame in
              segment <-
                blend_loop (skipn a src) (skipn b dst) len 0 (Z.of_nat len) inverse ;;
              rest <- join_loop fuel' src dst (a + len) (b + len) ;;
              Done (segment ++ rest)
            else
              rest <- join_loop fuel' src dst (S a) (S b) ;;
              Done (marker_a :: rest)
          else
            rest <- join_loop fuel' src dst (S a) (S b) ;;
            Done (marker_b :: rest)
    end.

(** *** BKE_tracking_tracks_join: the new marker array of [dst_track] *)

Definition BKE_tracking_tracks_join (dst_track src_track : Track) : outcome Track :=
  let tot := (length (markers dst_track) + length (markers src_track))%nat in
  merged <- join_loop tot (markers src_track) (markers dst_track) 0 0 ;;
  Done (set_markers dst_track merged).

(** *** Vocabulary of the join statements *)

Definition has_frame (ms : list Marker) (fr : Z) : Prop :=
  exists m, In m ms /\ framenr m = fr.

(** [dst] has an enabled marker at the frame. *)
Definition enabled_frame (ms : list Marker) (fr : Z) : bool :=
  existsb (fun m => (framenr m =? fr) && negb (marker_disabled m)) ms.

Definition both_enabled (src dst : list Marker) (fr : Z) : Prop :=
  enabled_frame src fr = true /\ enabled_frame dst fr = true.

(** A maximal run of [len] consecutive frames, from [f0] on, on which both
    tracks hold an enabled marker. *)
Definition blend_run (src dst : list Marker) (f0 : Z) (len : nat) : Prop :=
  (1 <= len)%nat /\
  (forall k, (k < len)%nat -> both_enabled src dst (f0 + Z.of_nat k)) /\
  ~ both_enabled src dst (f0 - 1) /\
  ~ both_enabled src dst (f0 + Z.of_nat len).

(** Where a marker of the joined array comes from. *)
Inductive joined (src dst : list Marker) : Marker -> Prop :=
| joined_src_only (ma : Marker) :
    In ma src -> ~ has_frame dst (framenr ma) -> joined src dst ma
| joined_dst_only (mb : Marker) :
    In mb dst -> ~ has_frame src (framenr mb) -> joined src dst mb
| joined_src_enabled (ma mb : Marker) :
    In ma src -> In mb dst -> framenr ma = framenr mb ->
    marker_disabled ma = false -> marker_disabled mb = true ->
    joined src dst ma
| joined_src_disabled (ma mb : Marker) :
    In ma src -> In mb dst -> framenr ma = framenr mb ->
    marker_disabled ma = true ->
    joined src dst mb
| joined_blend (ma mb : Marker) (f0 : Z) (len j : nat) :
    In ma src -> In mb dst ->
    framenr ma = f0 + Z.of_nat j -> framenr mb = f0 + Z.of_nat j ->
    marker_disabled ma = false -> marker_disabled mb = false ->
    blend_run src dst f0 len -> (j < len)%nat ->
    joined src dst
      (blended ma mb
         (blend_fac (Z.of_nat len) (Z.of_nat j) (negb (enabled_frame dst (f0 - 1))))).

(** **** The state of the merge loop *)

(** A frame held by [ms] at index [a] or later. *)
Definition frame_from (ms : list Marker) (a : nat) (fr : Z) : Prop :=
  exists i m, (a <= i)%nat /\ nth_error ms i = Some m /\ framenr m = fr.

(** Everything merged so far lies before everything still to merge. *)
Definition merged_before (src dst : list Marker) (a b : nat) : Prop :=
  (forall i j mi mj, (i < a)%nat -> (b <= j)%nat ->
     nth_error src i = Some mi -> nth_error dst j = Some mj ->
     framenr mi < framenr mj) /\
  (forall i j mi mj, (j < b)%nat -> (a <= i)%nat ->
     nth_error src i = Some mi -> nth_error dst j = Some mj ->
     framenr mj < framenr mi).

(** The loop does not stand in the middle of a run of common enabled
    frames. *)
Definition run_closed (src dst : list Marker) (a b : nat) : Prop :=
  forall a' b' pa pb ma mb,
    a = S a' -> b = S b' ->
    nth_error src a' = Some pa -> nth_error dst b' = Some pb ->
    nth_error src a = Some ma -> nth_error dst b = Some mb ->
    marker_disabled pa = false -> marker_disabled pb = false ->
    marker_disabled ma = false -> marker_disabled mb = false ->
    framenr pa = framenr pb ->
    framenr ma = framenr pa + 1 -> framenr mb = framenr pa + 1 -> False.

End Join.

(** ** Position of a track at a fractional frame *)

Section Subframe.

Context {F : Type} `{FloatOps F}.

Local Abbreviation Marker := (MovieTrackingMarker F).
Local Abbreviation Track := (MovieTrackingTrack F).

(** The cast [(int)] of a [float]: undefined when the value does not
    fit. *)
Variable f_to_int : F -> outcome Z.

(** BKE_tracking_marker_get_subframe_position, with [track->offset]
    passed as [offset].  The result is [pos] and the track, whose cursor
    the lookup may have moved.  [marker + 1] is read when [marker] is not
    the last marker, also for the [NULL] a track without markers gives. *)
Definition BKE_tracking_marker_get_subframe_position (track : Track) (offset : vec2 F)
  (framenr_f : F) : outcome (vec2 F * Track) :=
  fr <- f_to_int framenr_f ;;
  '(marker, track) <- BKE_tracking_marker_get track fr ;;
  match marker with
  | None => Crash
  | Some a =>
      m <- marker_at (markers track) (Z.of_nat a) ;;
      p <- (if negb (Z.of_nat a =? markersnr track - 1) then
              marker_next <- marker_at (markers track) (Z.of_nat a + 1) ;;
              if framenr marker_next =? framenr m + 1 then
                let fac := f_div (f_sub framenr_f (f_of_int fr))
                                 (f_of_int (framenr marker_next - framenr m)) in
                Done (interp_v2_v2v2 (pos m) (pos marker_next) fac)
              else Done (pos m)
            else Done (pos m)) ;;
      Done ((f_add (fst p) (fst offset), f_add (snd p) (snd offset)), track)
  end.

(** The position before the offset is added: between the marker [m] and
    the marker after it. *)
Definition subframe_between (m : Marker) (next : option Marker) (framenr_f : F) (fr : Z)
  : vec2 F :=
  match next with
  | Some marker_next =>
      if framenr marker_next =? framenr m + 1
      then interp_v2_v2v2 (pos m) (pos marker_next)
             (f_div (f_sub framenr_f (f_of_int fr)) (f_of_int 1))
      else pos m
  | None => pos m
  end.

End Subframe.
(** ** Channel disabling (BKE_tracking_disable_channels)

    The function converts between [float] and [char], which the
    arithmetic interface does not cover; it is written for binary32.  An
    [int] parameter used as a truth value is a [bool]. *)

(** Luminance weights: the literals 0.2126f, 0.7152f and 0.0722f. *)
Definition lum_r : binary32 := f_lit 2126 10000.
Definition lum_g : binary32 := f_lit 7152 10000.
Definition lum_b : binary32 := f_lit 722 10000.

(** Modelled from the spec: IMB_imbuf_types.h is not part of the sources
    at hand; [IB_RECT_INVALID] is a single bit of [userflags], at the
    position of Blender's header. *)
Definition IB_RECT_INVALID : Z := Z.shiftl 1 3.

(** An image: [rect_float] holds RGBA quadruples of floats when present,
    [rect] RGBA quadruples of [char]. *)
Record ImBuf : Type := {
  ib_x : Z;
  ib_y : Z;
  rect_float : option (list (binary32 * binary32 * binary32 * binary32));
  rect : option (list (Z * Z * Z * Z));
  userflags : Z
}.

(** Conversion of a [float] to a signed 8-bit [char]: the fraction is cut
    off; NaN, infinities and values out of the range of [char] have no
    defined result. *)
Definition b32_trunc (x : binary32) : outcome Z :=
  match x with
  | S754_zero _ => Done 0
  | S754_finite s m e =>
      let mag := Z.shiftl (Zpos m) e in
      Done (if s then - mag else mag)
  | S754_infinity _ | S754_nan => Crash
  end.

Definition float_to_char (x : binary32) : outcome Z :=
  v <- b32_trunc x ;;
  if (v <? -128) || (127 <? v) then Crash else Done v.

(** [scale]: the sum of the weights of the channels left enabled. *)
Definition channels_scale (disable_red disable_green disable_blue : bool) : binary32 :=
  f_add (f_add (if disable_red then f_zero else lum_r)
               (if disable_green then f_zero else lum_g))
        (if disable_blue then f_zero else lum_b).

(** The body of the pixel loop for a float buffer. *)
Definition disable_channels_float (disable_red disable_green disable_blue grayscale : bool)
  (scale : binary32) (px : binary32 * binary32 * binary32 * binary32)
  : binary32 * binary32 * binary32 * binary32 :=
  let '(p0, p1, p2, p3) := px in
  let r := if disable_red then f_zero else p0 in
  let g := if disable_green then f_zero else p1 in
  let b := if disable_blue then f_zero else p2 in
  if grayscale then
    let gray :=
      f_div (f_add (f_add (f_mul lum_r r) (f_mul lum_g g)) (f_mul lum_b b)) scale in
    (gray, gray, gray, p3)
  else (r, g, b, p3).

(** The body of the pixel loop for an 8-bit buffer. *)
Definition disable_channels_byte (disable_red disable_green disable_blue grayscale : bool)
  (scale : binary32) (px : Z * Z * Z * Z) : outcome (Z * Z * Z * Z) :=
  let '(p0, p1, p2, p3) := px in
  let r := if disable_red then 0 else p0 in
  let g := if disable_green then 0 else p1 in
  let b := if disable_blue then 0 else p2 in
  if grayscale then
    let gray :=
      f_div (f_add (f_add (f_mul lum_r (f_of_int r)) (f_mul lum_g (f_of_int g)))
                   (f_mul lum_b (f_of_int b))) scale in
    c <- float_to_char gray ;;
    Done (c, c, c, p3)
  else Done (r, g, b, p3).

Fixpoint map_outcome {A B : Type} (f : A -> outcome B) (l : list A) : outcome (list B) :=
  match l with
  | [] => Done []
  | a :: l' => b <- f a ;; bs <- map_outcome f l' ;; Done (b :: bs)
  end.

Definition BKE_tracking_disable_channels (ibuf : ImBuf)
  (disable_red disable_green disable_blue grayscale : bool) : outcome ImBuf :=
  if negb disable_red && negb disable_green && negb disable_blue && negb grayscale
  then Done ibuf
  else
    let scale := channels_scale disable_red disable_green disable_blue in
    match rect_float ibuf with
    | Some pixels =>
        Done {| ib_x := ib_x ibuf; ib_y := ib_y ibuf;
                rect_float :=
                  Some (map (disable_channels_float disable_red disable_green
                               disable_blue grayscale scale) pixels);
                rect := rect ibuf;
                userflags := Z.lor (userflags ibuf) IB_RECT_INVALID |}
    | None =>
        match rect ibuf with
        | Some pixels =>
            pixels' <- map_outcome (disable_channels_byte disable_red disable_green
                                      disable_blue grayscale scale) pixels ;;
            Done {| ib_x := ib_x ibuf; ib_y := ib_y ibuf;
                    rect_float := None;
                    rect := Some pixels';
                    userflags := userflags ibuf |}
        | None => if (0 <? ib_x ibuf) && (0 <? ib_y ibuf) then Crash else Done ibuf
        end
    end.

(** A black pixel. *)
Definition is_black (px : binary32 * binary32 * binary32 * binary32) : Prop :=
  let '(r, g, b, _) := px in
  SFeqb r f_zero = true /\ SFeqb g f_zero = true /\ SFeqb b f_zero = true.

(** ** Retrieval of the reconstruction (reconstruct_retrieve_libmv_tracks)

    The 4x4 matrix routines of BLI_math and the solver (libmv) are not
    part of the sources at hand: they are parameters of the section. *)

Section Reconstruction.

Context {F : Type}.

Local Abbreviation Track := (MovieTrackingTrack F).

(** [float mat[4][4]] with [unit_m4], [invert_m4_m4] (the matrix it
    writes), [mul_m4_m4m4] and [mul_v3_m4v3]. *)
Variable M4 : Type.
Variable unit_m4 : M4.
Variable invert_m4_m4 : M4 -> M4.
Variable mul_m4_m4m4 : M4 -> M4 -> M4.
Variable mul_v3_m4v3 : M4 -> F * F * F -> F * F * F.

(** [double] values and matrices of the solver, and their conversion to
    [float] on assignment. *)
Variable D : Type.
Variable MD : Type.
Variable double_to_float : D -> F.
Variable m4_of_double : MD -> M4.

(** The solver's answers: [None] is the return value 0. *)
Variable libmv_reporojectionPointForTrack : nat -> option (D * D * D).
Variable libmv_reporojectionErrorForTrack : nat -> D.
Variable libmv_reporojectionCameraForImage : Z -> option MD.
Variable libmv_reporojectionErrorForImage : Z -> D.

Record MovieReconstructedCamera : Type := {
  cam_framenr : Z;
  cam_error : F;
  cam_mat : M4
}.

Definition set_bundle (t : Track) (fl : Z) (p : F * F * F) (e : F) : Track :=
  {| markers := markers t; last_marker := last_marker t; track_flag := fl;
     bundle_pos := p; error := e |}.

(** First loop: bundles of the tracks, [tracknr] counting from the head of
    the list.  The result carries [ok]. *)
Fixpoint retrieve_bundles (tracks : list Track) (tracknr : nat) (ok : bool)
  : list Track * bool :=
  match tracks with
  | [] => ([], ok)
  | track :: rest =>
      match libmv_reporojectionPointForTrack tracknr with
      | Some (p0, p1, p2) =>
          let track' :=
            set_bundle track (Z.lor (track_flag track) TRACK_HAS_BUNDLE)
              (double_to_float p0, double_to_float p1, double_to_float p2)
              (double_to_float (libmv_reporojectionErrorForTrack tracknr)) in
          let '(rest', ok') := retrieve_bundles rest (S tracknr) ok in
          (track' :: rest', ok')
      | None =>
          let track' :=
            set_bundle track (Z.land (track_flag track) (Z.lnot TRACK_HAS_BUNDLE))
              (bundle_pos track) (error track) in
          let '(rest', ok') := retrieve_bundles rest (S tracknr) false in
          (track' :: rest', ok')
      end
  end.

(** Second loop, [for (a = sfra; a <= efra; a++)], with [n] frames left.
    The state is [origin_set], [imat] and [ok]. *)
Fixpoint retrieve_cameras (n : nat) (a : Z) (origin_set : bool) (imat : M4) (ok : bool)
  : list MovieReconstructedCamera * (bool * M4 * bool) :=
  match n with
  | O => ([], (origin_set, imat, ok))
  | S n' =>
      match libmv_reporojectionCameraForImage a with
      | Some matd =>
          let mat := m4_of_double matd in
          let err := double_to_float (libmv_reporojectionErrorForImage a) in
          let '(imat', mat') :=
            if negb origin_set then (invert_m4_m4 mat, unit_m4)
            else (imat, mul_m4_m4m4 imat mat) in
          let '(cams, st) := retrieve_cameras n' (a + 1) true imat' ok in
          ({| cam_framenr := a; cam_error := err; cam_mat := mat' |} :: cams, st)
      | None => retrieve_cameras n' (a + 1) origin_set imat false
      end
  end.

(** Third loop: the bundles are moved by [imat]. *)
Definition transform_bundles (tracks : list Track) (imat : M4) : list Track :=
  map (fun track =>
         if has_flag (track_flag track) TRACK_HAS_BUNDLE
         then set_bundle track (track_flag track)
                (mul_v3_m4v3 imat (bundle_pos track)) (error track)
         else track) tracks.

(** The tracks and cameras written back, and the return value. *)
Definition reconstruct_retrieve_libmv_tracks (tracks : list Track) (sfra efra : Z)
  : list Track * list MovieReconstructedCamera * bool :=
  let imat := unit_m4 in
  let '(tracks1, ok) := retrieve_bundles tracks 0 true in
  let '(cams, (origin_set, imat, ok)) :=
    retrieve_cameras (Z.to_nat (efra - sfra + 1)) sfra false imat ok in
  let tracks2 := if origin_set then transform_bundles tracks1 imat else tracks1 in
  (tracks2, cams, ok).

(** *** Vocabulary of the retrieval statements *)

(** [f0] is the first frame of [sfra..efra] with a camera, [m0] its pose. *)
Definition first_camera (sfra efra f0 : Z) (m0 : MD) : Prop :=
  sfra <= f0 <= efra /\
  libmv_reporojectionCameraForImage f0 = Some m0 /\
  forall f, sfra <= f < f0 -> libmv_reporojectionCameraForImage f = None.

(** The camera stored for frame [f] once [imat] is set. *)
Definition camera_after (imat : M4) (f : Z) : list MovieReconstructedCamera :=
  match libmv_reporojectionCameraForImage f with
  | Some matd =>
      [{| cam_framenr := f;
          cam_error := double_to_float (libmv_reporojectionErrorForImage f);
          cam_mat := mul_m4_m4m4 imat (m4_of_double matd) |}]
  | None => []
  end.

Definition frames_from (a : Z) (n : nat) : list Z :=
  map (fun k => a + Z.of_nat k) (seq 0 n).

End Reconstruction.

Arguments cam_framenr {F M4} _.
Arguments cam_error {F M4} _.
Arguments cam_mat {F M4} _.

(** ** Lookup of a reconstructed camera *)

Section CameraIndex.

Context {F : Type}.
Variable M4 : Type.

Local Abbreviation Camera := (MovieReconstructedCamera (F:=F) M4).

(** [camnr] is the length of [cameras]. *)
Record MovieTrackingReconstruction : Type := {
  cameras : list Camera;
  last_camera : Z
}.

Definition camnr (r : MovieTrackingReconstruction) : Z :=
  Z.of_nat (length (cameras r)).

Definition set_last_camera (r : MovieTrackingReconstruction) (a : Z)
  : MovieTrackingReconstruction :=
  {| cameras := cameras r; last_camera := a |}.

(** [cameras[a]]; reading outside the array is undefined. *)
Definition camera_at (cams : list Camera) (a : Z) : outcome Camera :=
  if a <? 0 then Crash
  else match nth_error cams (Z.to_nat a) with
       | Some c => Done c
       | None => Crash
       end.

(** *** reconstructed_camera_index_get

    The loop [while (a >= 0 && a < camnr) { ... a += d; }] for [d = 1],
    run on the part of the array from index [a] on.  [inl a]: the camera of
    the frame was found at [a] and the cursor is written; [inr r]: the
    function returns [r] without writing the cursor. *)
Fixpoint camera_scan_up (rest : list Camera) (a : Z) (fr : Z) (nearest : bool)
  : Z + Z :=
  match rest with
  | [] => inr (-1)
  | c :: rest' =>
      let cfra := cam_framenr c in
      if cfra >? fr then (if nearest then inr (a - 1) else inr (-1))
      else if cfra =? fr then inl a
      else camera_scan_up rest' (a + 1) fr nearest
  end.

(** The same loop for [d = -1], with [n = a + 1]; an index past the end
    ends the loop. *)
Fixpoint camera_scan_down (cams : list Camera) (n : nat) (fr : Z) (nearest : bool)
  : outcome (Z + Z) :=
  match n with
  | O => Done (inr (-1))
  | S a =>
      match nth_error cams a with
      | None => Done (inr (-1))
      | Some c =>
          let cfra := cam_framenr c in
          if cfra <? fr then
            (if nearest then Done (inr (Z.of_nat a)) else Done (inr (-1)))
          else if cfra =? fr then Done (inl (Z.of_nat a))
          else camera_scan_down cams a fr nearest
      end
  end.

(** The result is the index returned and the reconstruction, whose cursor
    [last_camera] the function may have moved. *)
Definition reconstructed_camera_index_get (reconstruction : MovieTrackingReconstruction)
  (fr : Z) (nearest : bool) : outcome (Z * MovieTrackingReconstruction) :=
  let cams := cameras reconstruction in
  match cams with
  | [] => Done (-1, reconstruction)
  | first :: _ =>
      if fr <? cam_framenr first then
        Done (if nearest then 0 else -1, reconstruction)
      else
        last <- camera_at cams (camnr reconstruction - 1) ;;
        if fr >? cam_framenr last then
          Done (if nearest then camnr reconstruction - 1 else -1, reconstruction)
        else
          let a := if last_camera reconstruction <? camnr reconstruction
                   then last_camera reconstruction else 0 in
          c_a <- camera_at cams a ;;
          r <- (if cam_framenr c_a >=? fr
                then camera_scan_down cams (S (Z.to_nat a)) fr nearest
                else Done (camera_scan_up (skipn (Z.to_nat a) cams) a fr nearest)) ;;
          match r with
          | inl a' => Done (a', set_last_camera reconstruction a')
          | inr a' => Done (a', reconstruction)
          end
  end.

(** *** BKE_tracking_camera_get_reconstructed, on the reconstruction
    [BKE_tracking_object_get_reconstruction] has picked.  The result is the
    pointer to the camera ([None] is [NULL]). *)
Definition BKE_tracking_camera_get_reconstructed
  (reconstruction : MovieTrackingReconstruction) (fr : Z)
  : outcome (option Z * MovieTrackingReconstruction) :=
  '(a, reconstruction) <- reconstructed_camera_index_get reconstruction fr false ;;
  if a =? -1 then Done (None, reconstruction) else Done (Some a, reconstruction).

(** *** Vocabulary *)

(** Cameras in strictly ascending frame order. *)
Definition cameras_ascending (cams : list Camera) : Prop :=
  forall (i : nat) (ci cj : Camera),
    nth_error cams i = Some ci -> nth_error cams (S i) = Some cj ->
    cam_framenr ci < cam_framenr cj.

Fixpoint cameras_ascendingb (cams : list Camera) : bool :=
  match cams with
  | c1 :: (c2 :: _) as rest => (cam_framenr c1 <? cam_framenr c2) && cameras_ascendingb rest
  | _ => true
  end.

(** The camera the lookup with [nearest] has to deliver for [fr]: the
    first one when [fr] precedes the reconstruction, else the last one
    whose frame is [<= fr]. *)
Definition camera_nearest_left (cams : list Camera) (fr : Z) (a : Z) : Prop :=
  exists c first,
    0 <= a /\ nth_error cams (Z.to_nat a) = Some c /\ nth_error cams O = Some first /\
    (fr < cam_framenr first -> a = 0) /\
    (cam_framenr first <= fr ->
     cam_framenr c <= fr /\
     forall j cj, nth_error cams j = Some cj -> cam_framenr cj <= fr -> Z.of_nat j <= a).

(** A camera is stored for the frame. *)
Definition camera_held (cams : list Camera) (fr : Z) : Prop :=
  exists c, In c cams /\ cam_framenr c = fr.

End CameraIndex.

Arguments cameras {F M4} _.
Arguments last_camera {F M4} _.

(** ** Camera pose between the reconstructed frames *)

Section CameraInterpolate.

Context {F : Type} `{FloatOps F}.

(** [float mat[4][4]] with [unit_m4], [blend_m4_m4m4], [scale_m4_fl] and
    [mul_m4_m4m4] of BLI_math, and the object flag of DNA: parameters. *)
Variable M4 : Type.
Variable unit_m4 : M4.
Variable blend_m4_m4m4 : M4 -> M4 -> F -> M4.
Variable scale_m4_fl : F -> M4.
Variable mul_m4_m4m4 : M4 -> M4 -> M4.
Variable TRACKING_OBJECT_CAMERA : Z.

(** reconstructed_camera_scale_set, on [object->flag] and
    [object->scale]. *)
Definition reconstructed_camera_scale_set (object_flag : Z) (object_scale : F) (mat : M4)
  : M4 :=
  if Z.land object_flag TRACKING_OBJECT_CAMERA =? 0
  then mul_m4_m4m4 mat (scale_m4_fl (f_div f_one object_scale))
  else mat.

(** BKE_tracking_camera_get_reconstructed_interpolate, on the
    reconstruction of the object.  The result is the matrix written to
    [mat] and the reconstruction, whose cursor the lookup may have moved. *)
Definition BKE_tracking_camera_get_reconstructed_interpolate
  (reconstruction : MovieTrackingReconstruction (F:=F) M4)
  (object_flag : Z) (object_scale : F) (fr : Z)
  : outcome (M4 * MovieTrackingReconstruction (F:=F) M4) :=
  let cams := cameras reconstruction in
  '(a, reconstruction) <- reconstructed_camera_index_get M4 reconstruction fr true ;;
  if a =? -1 then Done (unit_m4, reconstruction)
  else
    c_a <- camera_at M4 cams a ;;
    mat <- (if negb (cam_framenr c_a =? fr) && (a >? 0) && (a <? camnr M4 reconstruction - 1)
            then
              c_next <- camera_at M4 cams (a + 1) ;;
              let t := f_div (f_sub (f_of_int fr) (f_of_int (cam_framenr c_a)))
                             (f_of_int (cam_framenr c_next - cam_framenr c_a)) in
              Done (blend_m4_m4m4 (cam_mat c_a) (cam_mat c_next) t)
            else Done (cam_mat c_a)) ;;
    Done (reconstructed_camera_scale_set object_flag object_scale mat, reconstruction).

(** The blend factor for [fr] between the cameras [c] and [c_next]. *)
Definition blend_factor (fr : Z) (c c_next : MovieReconstructedCamera (F:=F) M4) : F :=
  f_div (f_sub (f_of_int fr) (f_of_int (cam_framenr c)))
        (f_of_int (cam_framenr c_next - cam_framenr c)).

End CameraInterpolate.
(** ** The check before a reconstruction *)

Section ReconstructionCheck.

Context {F : Type}.

Local Abbreviation Track := (MovieTrackingTrack F).

(** *** reconstruct_count_tracks_on_both_keyframes, on the track list
    [BKE_tracking_object_get_tracks] has picked and the keyframes of the
    object.  The second test is made only when the first one succeeds.
    The result is the count and the tracks, whose cursors the tests may
    have moved. *)
Fixpoint reconstruct_count_tracks_on_both_keyframes (tracks : list Track)
  (frame1 frame2 : Z) (tot : Z) : outcome (Z * list Track) :=
  match tracks with
  | [] => Done (tot, [])
  | track :: rest =>
      '(on1, track) <- BKE_tracking_track_has_enabled_marker_at_frame track frame1 ;;
      '(tot, track) <-
        (if on1 then
           '(on2, track) <- BKE_tracking_track_has_enabled_marker_at_frame track frame2 ;;
           Done (if on2 then tot + 1 else tot, track)
         else Done (tot, track)) ;;
      '(tot, rest) <- reconstruct_count_tracks_on_both_keyframes rest frame1 frame2 tot ;;
      Done (tot, track :: rest)
  end.

(** The bits of [settings.motion_flag] and [settings.reconstruction_flag]
    the check looks at (DNA_tracking_types.h is not part of the sources at
    hand), and whether the build has the solver ([WITH_LIBMV]). *)
Variable TRACKING_MOTION_MODAL : Z.
Variable TRACKING_USE_KEYFRAME_SELECTION : Z.
Variable WITH_LIBMV : bool.

Inductive check_message : Type :=
| MSG_TOO_FEW_COMMON_TRACKS   (* "At least 8 common tracks on both of keyframes
                                 are needed for reconstruction" *)
| MSG_NO_LIBMV.               (* "Blender is compiled without motion tracking
                                 library" *)

(** *** BKE_tracking_reconstruction_check

    The result is the return value, the message written to [error_msg]
    ([None]: the buffer is not written), and the tracks. *)
Definition BKE_tracking_reconstruction_check (motion_flag reconstruction_flag : Z)
  (tracks : list Track) (frame1 frame2 : Z)
  : outcome (bool * option check_message * list Track) :=
  if has_flag motion_flag TRACKING_MOTION_MODAL then
    Done (true, None, tracks)
  else
    '(failed, tracks) <-
      (if Z.land reconstruction_flag TRACKING_USE_KEYFRAME_SELECTION =? 0 then
         '(tot, tracks) <-
           reconstruct_count_tracks_on_both_keyframes tracks frame1 frame2 0 ;;
         Done (tot <? 8, tracks)
       else Done (false, tracks)) ;;
    if failed then Done (false, Some MSG_TOO_FEW_COMMON_TRACKS, tracks)
    else if WITH_LIBMV then Done (true, None, tracks)
    else Done (false, Some MSG_NO_LIBMV, tracks).

(** *** Vocabulary *)

(** The tracks with an enabled marker on both frames. *)
Definition common_tracks (tracks : list Track) (frame1 frame2 : Z) : list Track :=
  filter (fun t => enabled_frame (markers t) frame1 && enabled_frame (markers t) frame2)
         tracks.

End ReconstructionCheck.

(** ** 2D stabilization *)

Section Stabilization.

Context {F : Type} `{FloatOps F} `{LibmOps F}.

Local Abbreviation Marker := (MovieTrackingMarker F).
Local Abbreviation Track := (MovieTrackingTrack F).

(** [rot_track] is the track the pointer leads to, [None] for [NULL];
    [stab_ok] is the cache flag [ok]. *)
Record MovieTrackingStabilization : Type := {
  stab_flag : Z;
  rot_track : option Track;
  stab_scale : F;
  scaleinf : F;
  locinf : F;
  rotinf : F;
  stab_ok : bool
}.

Record MovieTracking : Type := {
  tracks : list Track;
  stabilization : MovieTrackingStabilization
}.

Definition set_stab_scale (stab : MovieTrackingStabilization) (s : F)
  : MovieTrackingStabilization :=
  {| stab_flag := stab_flag stab; rot_track := rot_track stab; stab_scale := s;
     scaleinf := scaleinf stab; locinf := locinf stab; rotinf := rotinf stab;
     stab_ok := stab_ok stab |}.

Definition set_stab_ok (stab : MovieTrackingStabilization) (ok : bool)
  : MovieTrackingStabilization :=
  {| stab_flag := stab_flag stab; rot_track := rot_track stab;
     stab_scale := stab_scale stab;
     scaleinf := scaleinf stab; locinf := locinf stab; rotinf := rotinf stab;
     stab_ok := ok |}.

Definition set_stabilization (tracking : MovieTracking)
  (stab : MovieTrackingStabilization) : MovieTracking :=
  {| tracks := tracks tracking; stabilization := stab |}.

(** [BKE_tracking_marker_get(track, framenr)->pos].  The cursor the lookup
    moves is not kept: on the tracks of the data model the marker returned
    does not depend on it. *)
Definition marker_pos_at (track : Track) (fr : Z) : outcome (vec2 F) :=
  '(marker, track') <- BKE_tracking_marker_get track fr ;;
  m <- deref track' marker ;;
  Done (pos m).

(** *** stabilization_median_point_get *)

Fixpoint median_minmax (trks : list Track) (fr : Z) (ok : bool) (mm : vec2 F * vec2 F)
  : outcome (bool * (vec2 F * vec2 F)) :=
  match trks with
  | [] => Done (ok, mm)
  | track :: rest =>
      if has_flag (track_flag track) TRACK_USE_2D_STAB then
        p <- marker_pos_at track fr ;;
        median_minmax rest fr true (minmax_v2v2_v2 mm p)
      else median_minmax rest fr ok mm
  end.

Definition stabilization_median_point_get (tracking : MovieTracking) (fr : Z)
  : outcome (bool * vec2 F) :=
  '(ok, (mn, mx)) <- median_minmax (tracks tracking) fr false INIT_MINMAX2 ;;
  Done (ok, (f_div (f_add (fst mx) (fst mn)) f_two,
             f_div (f_add (snd mx) (snd mn)) f_two)).

(** *** stabilization_calculate_data

    The result is [(translation, scale, angle)].  The source calls the
    [double] function [atan2] on [float] arguments and stores the negated
    result in a [float]: [f_atan2] stands for that call with its
    conversions. *)
Definition stabilization_calculate_data (tracking : MovieTracking) (fr : Z)
  (width height : F) (firstmedian median : vec2 F) : outcome (vec2 F * F * F) :=
  let stab := stabilization tracking in
  let scale := f_add (f_mul (f_sub (stab_scale stab) f_one) (scaleinf stab)) f_one in
  let angle := f_zero in
  let t0 := f_mul (f_mul (f_sub (fst firstmedian) (fst median)) width) scale in
  let t1 := f_mul (f_mul (f_sub (snd firstmedian) (snd median)) height) scale in
  let t0 := f_mul t0 (locinf stab) in
  let t1 := f_mul t1 (locinf stab) in
  match rot_track stab with
  | Some rot =>
      if has_flag (stab_flag stab) TRACKING_STABILIZE_ROTATION
         && negb (f_eqb (rotinf stab) f_zero)
      then
        let x0 := f_div width f_two in
        let y0 := f_div height f_two in
        let x := f_mul (fst median) width in
        let y := f_mul (snd median) height in
        p1 <- marker_pos_at rot 1 ;;
        let a0 := f_mul (f_sub (fst p1) (fst firstmedian)) width in
        let a1 := f_mul (f_sub (snd p1) (snd firstmedian)) height in
        p2 <- marker_pos_at rot fr ;;
        let b0 := f_mul (f_sub (fst p2) (fst median)) width in
        let b1 := f_mul (f_sub (snd p2) (snd median)) height in
        let angle :=
          f_neg (f_atan2 (f_sub (f_mul a0 b1) (f_mul a1 b0))
                         (f_add (f_mul a0 b0) (f_mul a1 b1))) in
        let angle := f_mul angle (rotinf stab) in
        (* convert to rotation around image center *)
        let t0 :=
          f_sub t0
            (f_mul (f_sub (f_sub (f_add x0 (f_mul (f_sub x x0) (f_cos angle)))
                                 (f_mul (f_sub y y0) (f_sin angle))) x) scale) in
        let t1 :=
          f_sub t1
            (f_mul (f_sub (f_add (f_add y0 (f_mul (f_sub x x0) (f_sin angle)))
                                 (f_mul (f_sub y y0) (f_cos angle))) y) scale) in
        Done ((t0, t1), scale, angle)
      else Done ((t0, t1), scale, angle)
  | None => Done ((t0, t1), scale, angle)
  end.

(** The value [stabilization_calculate_autoscale_factor] stores into
    [stab->scale] when the cache is not valid.  It is computed with the
    matrix routines of BLI_math, which are not part of the sources at
    hand: a parameter. *)
Variable autoscale_scale : MovieTracking -> Z -> Z -> F.

(** *** BKE_tracking_stabilization_data_get

    The result is the tracking with the cached [scale] and [ok], and
    [(translation, scale, angle)]. *)
Definition BKE_tracking_stabilization_data_get (tracking : MovieTracking) (fr : Z)
  (width height : Z) : outcome (MovieTracking * (vec2 F * F * F)) :=
  let stab := stabilization tracking in
  if Z.land (stab_flag stab) TRACKING_2D_STABILIZATION =? 0 then
    Done (tracking, ((f_zero, f_zero), f_one, f_zero))
  else
    '(ok1, firstmedian) <- stabilization_median_point_get tracking 1 ;;
    if ok1 then
      '(_, median) <- stabilization_median_point_get tracking fr ;;
      let stab :=
        if Z.land (stab_flag stab) TRACKING_AUTOSCALE =? 0
        then set_stab_scale stab f_one else stab in
      let tracking := set_stabilization tracking stab in
      if negb (stab_ok stab) then
        let stab :=
          if negb (Z.land (stab_flag stab) TRACKING_AUTOSCALE =? 0)
          then set_stab_ok (set_stab_scale stab (autoscale_scale tracking width height)) true
          else stab in
        let tracking := set_stabilization tracking stab in
        r <- stabilization_calculate_data tracking fr (f_of_int width) (f_of_int height)
               firstmedian median ;;
        Done (set_stabilization tracking (set_stab_ok stab true), r)
      else
        r <- stabilization_calculate_data tracking fr (f_of_int width) (f_of_int height)
               firstmedian median ;;
        Done (tracking, r)
    else Done (tracking, ((f_zero, f_zero), f_one, f_zero)).

(** The translation before the rotation is taken into account. *)
Definition plain_translation (stab : MovieTrackingStabilization)
  (width height : F) (firstmedian median : vec2 F) : vec2 F :=
  let scale := f_add (f_mul (f_sub (stab_scale stab) f_one) (scaleinf stab)) f_one in
  (f_mul (f_mul (f_mul (f_sub (fst firstmedian) (fst median)) width) scale) (locinf stab),
   f_mul (f_mul (f_mul (f_sub (snd firstmedian) (snd median)) height) scale) (locinf stab)).

(** The settings [stabilization_calculate_data] runs with: the scale is
    reset without AUTOSCALE, recomputed when the cache is not valid. *)
Definition effective_stab (tracking : MovieTracking) (width height : Z)
  : MovieTrackingStabilization :=
  let stab := stabilization tracking in
  let stab :=
    if Z.land (stab_flag stab) TRACKING_AUTOSCALE =? 0
    then set_stab_scale stab f_one else stab in
  if negb (stab_ok stab) && negb (Z.land (stab_flag stab) TRACKING_AUTOSCALE =? 0)
  then set_stab_ok
         (set_stab_scale stab
            (autoscale_scale (set_stabilization tracking stab) width height)) true
  else stab.

(** *** BKE_tracking_stabilize_frame

    [Img] is the image buffer with its size; [warp] stands for the
    resampling of the frame by the inverse of the stabilization matrix
    (IMB interpolation and BLI_math, not part of the sources at hand).  The
    out-parameters [translation], [scale] and [angle] are taken to be
    given.  The source hands the frame size over as [float] and
    [BKE_tracking_stabilization_data_get] takes it as [int] again, which
    leaves a size up to 2^24 as it is. *)
Variable Img : Type.
Variable img_x : Img -> Z.
Variable img_y : Img -> Z.
Variable warp : Img -> vec2 F -> F -> F -> Img.

Definition BKE_tracking_stabilize_frame (tracking : MovieTracking) (fr : Z) (ibuf : Img)
  : outcome (MovieTracking * Img * (vec2 F * F * F)) :=
  let stab := stabilization tracking in
  if Z.land (stab_flag stab) TRACKING_2D_STABILIZATION =? 0 then
    Done (tracking, ibuf, ((f_zero, f_zero), f_one, f_zero))
  else
    '(tracking', (tloc, tscale, tangle)) <-
      BKE_tracking_stabilization_data_get tracking fr (img_x ibuf) (img_y ibuf) ;;
    Done (tracking', warp ibuf tloc tscale tangle, (tloc, tscale, tangle)).

(** *** Vocabulary of the stabilization statements *)

(** Exactly one track of the list is flagged USE_2D_STAB; it has markers,
    sorted, all at position [p]. *)
Definition one_steady_track (trks : list Track) (p : vec2 F) : Prop :=
  exists before t after,
    trks = before ++ t :: after /\
    has_flag (track_flag t) TRACK_USE_2D_STAB = true /\
    (forall t', In t' (before ++ after) ->
                has_flag (track_flag t') TRACK_USE_2D_STAB = false) /\
    markers t <> [] /\ track_ok t /\
    forall m, In m (markers t) -> pos m = p.

(** The median of a single position: what [stabilization_median_point_get]
    computes from the bounding box of [p] alone. *)
Definition steady_median (p : vec2 F) : vec2 F :=
  let '(mn, mx) := minmax_v2v2_v2 INIT_MINMAX2 p in
  (f_div (f_add (fst mx) (fst mn)) f_two, f_div (f_add (snd mx) (snd mn)) f_two).

(** Rotation stabilization is in use. *)
Definition rotation_active (stab : MovieTrackingStabilization) : bool :=
  match rot_track stab with
  | Some _ =>
      has_flag (stab_flag stab) TRACKING_STABILIZE_ROTATION
      && negb (f_eqb (rotinf stab) f_zero)
  | None => false
  end.

End Stabilization.

Arguments stab_flag {F} _.
Arguments rot_track {F} _.
Arguments stab_scale {F} _.
Arguments scaleinf {F} _.
Arguments locinf {F} _.
Arguments rotinf {F} _.
Arguments stab_ok {F} _.
Arguments tracks {F} _.
Arguments stabilization {F} _.

(** Zeros (of either sign) and finite numbers of binary32. *)
Definition b32_is_zero (x : binary32) : bool :=
  match x with
  | S754_zero _ => true
  | _ => false
  end.

Definition b32_finite (x : binary32) : bool :=
  match x with
  | S754_zero _ | S754_finite _ _ _ => true
  | _ => false
  end.

(** ** Scaling a reconstruction (tracking_scale_reconstruction) *)

Section ScaleReconstruction.

Context {F : Type} `{FloatOps F}.

Local Abbreviation Track := (MovieTrackingTrack F).

(** [float mat[4][4]] as its four rows.  BLI_math is not part of the
    sources at hand: [mul_v3_v3v3] and [sub_v3_v3v3] are the componentwise
    product and difference their names tell; [mul_v3_v3 (r, a)] is
    [r = mul_v3_v3v3 r a] and [sub_v3_v3 (r, a)] is [r = sub_v3_v3v3 r a]. *)
Definition vec3 : Type := (F * F * F)%type.
Definition vec4 : Type := (F * F * F * F)%type.
Definition mat4 : Type := (vec4 * vec4 * vec4 * vec4)%type.

Definition mul_v3_v3v3 (a b : vec3) : vec3 :=
  let '(a0, a1, a2) := a in
  let '(b0, b1, b2) := b in
  (f_mul a0 b0, f_mul a1 b1, f_mul a2 b2).

Definition sub_v3_v3v3 (a b : vec3) : vec3 :=
  let '(a0, a1, a2) := a in
  let '(b0, b1, b2) := b in
  (f_sub a0 b0, f_sub a1 b1, f_sub a2 b2).

(** [mat[3]] read as a [float[3]], and written as one: [mat[3][3]]
    stays. *)
Definition mat_row3 (m : mat4) : vec3 :=
  let '(_, _, _, (x, y, z, _)) := m in (x, y, z).

Definition set_mat_row3 (m : mat4) (v : vec3) : mat4 :=
  let '(r0, r1, r2, (_, _, _, w)) := m in
  let '(x, y, z) := v in
  (r0, r1, r2, (x, y, z, w)).

Definition set_cam_mat (c : MovieReconstructedCamera (F:=F) mat4) (m : mat4)
  : MovieReconstructedCamera (F:=F) mat4 :=
  {| cam_framenr := cam_framenr c; cam_error := cam_error c; cam_mat := m |}.

(** The result is the track list and the reconstruction after the two
    loops. *)
Definition tracking_scale_reconstruction (tracks : list Track)
  (reconstruction : MovieTrackingReconstruction (F:=F) mat4) (scale : vec3)
  : list Track * MovieTrackingReconstruction (F:=F) mat4 :=
  let first_camera_delta :=
    match cameras reconstruction with
    | [] => (f_zero, f_zero, f_zero)
    | camera0 :: _ => mul_v3_v3v3 (mat_row3 (cam_mat camera0)) scale
    end in
  let cams :=
    map (fun camera =>
           set_cam_mat camera
             (set_mat_row3 (cam_mat camera)
                (sub_v3_v3v3 (mul_v3_v3v3 (mat_row3 (cam_mat camera)) scale)
                             first_camera_delta)))
        (cameras reconstruction) in
  let tracks' :=
    map (fun track =>
           if has_flag (track_flag track) TRACK_HAS_BUNDLE
           then set_bundle track (track_flag track)
                  (sub_v3_v3v3 (mul_v3_v3v3 (bundle_pos track) scale) first_camera_delta)
                  (error track)
           else track)
        tracks in
  (tracks', {| cameras := cams; last_camera := last_camera reconstruction |}).

End ScaleReconstruction.

(** binary32: the three components are finite. *)
Definition v3_finite (v : vec3 (F:=binary32)) : bool :=
  let '(x, y, z) := v in b32_finite x && b32_finite y && b32_finite z.
(** ** Tracking objects *)

Section Objects.

Context {F : Type} `{FloatOps F}.

Local Abbreviation Track := (MovieTrackingTrack F).

(** [char name[64]] with "Camera" and "Object", [BLI_strncpy] into the
    field (the name, cut to the size of the field) and [BLI_uniquename]
    (from the names of the other members of the list, the default name and
    the name: the name made unique); [float mat[4][4]]; the object flag of
    DNA: parameters. *)
Variable M4 : Type.
Variable Name : Type.
Variable name_Camera : Name.
Variable name_Object : Name.
Variable BLI_strncpy : Name -> Name.
Variable BLI_uniquename : list Name -> Name -> Name -> Name.
Variable TRACKING_OBJECT_CAMERA : Z.

(** A track in a [ListBase]: the address of the struct, which pointers to
    the track are compared by, and its content. *)
Record track_node : Type := {
  track_addr : Z;
  track_data : Track
}.

Record MovieTrackingObject : Type := {
  object_name : Name;
  object_flag : Z;
  object_tracks : list track_node;
  object_reconstruction : MovieTrackingReconstruction (F:=F) M4;
  object_scale : F;
  keyframe1 : Z;
  keyframe2 : Z
}.

(** The part of [MovieTracking] the object functions work on:
    [tracking->tracks], [tracking->reconstruction], [tracking->objects],
    [tot_object], [objectnr], [act_track] ([None] is [NULL]) and
    [dopesheet.ok]. *)
Record MovieTrackingObjects : Type := {
  camera_tracks : list track_node;
  camera_reconstruction : MovieTrackingReconstruction (F:=F) M4;
  objects : list MovieTrackingObject;
  tot_object : Z;
  objectnr : Z;
  act_track : option Z;
  dopesheet_ok : bool
}.

(** A pointer to a [ListBase] of tracks: [&tracking->tracks] or
    [&object->tracks] of the object at a place of [tracking->objects]. *)
Inductive tracksbase_ref : Type :=
| tracks_of_tracking
| tracks_of_object (place : nat).

Definition is_camera (object : MovieTrackingObject) : bool :=
  negb (Z.land (object_flag object) TRACKING_OBJECT_CAMERA =? 0).

(** *** BKE_tracking_object_add

    The result is the place of the new object in [tracking->objects] and
    the tracking. *)
Definition BKE_tracking_object_add (tracking : MovieTrackingObjects) (name : Name)
  : nat * MovieTrackingObjects :=
  let '(object_name0, object_flag0) :=
    if tot_object tracking =? 0
    then (BLI_strncpy name_Camera, Z.lor 0 TRACKING_OBJECT_CAMERA)
    else (BLI_strncpy name, 0) in
  let object :=
    {| object_name :=
         BLI_uniquename (map object_name (objects tracking)) name_Object object_name0;
       object_flag := object_flag0;
       object_tracks := [];
       object_reconstruction := {| cameras := []; last_camera := 0 |};
       object_scale := f_one;
       keyframe1 := 1;
       keyframe2 := 30 |} in
  let objects' := objects tracking ++ [object] in
  (length (objects tracking),
   {| camera_tracks := camera_tracks tracking;
      camera_reconstruction := camera_reconstruction tracking;
      objects := objects';
      tot_object := tot_object tracking + 1;
      objectnr := Z.of_nat (length objects') - 1;
      act_track := act_track tracking;
      dopesheet_ok := false |}).

(** *** BKE_tracking_object_delete

    [object] is the place of the object in [tracking->objects]; an object
    that is not in the list is a place past the end ([BLI_findindex]
    gives -1). *)
Fixpoint clear_act_track (tracks : list track_node) (act : option Z) : option Z :=
  match tracks with
  | [] => act
  | track :: rest =>
      clear_act_track rest
        (match act with
         | Some a => if track_addr track =? a then None else act
         | None => act
         end)
  end.

Fixpoint remove_at {A : Type} (l : list A) (i : nat) : list A :=
  match l, i with
  | [], _ => []
  | _ :: rest, O => rest
  | x :: rest, S k => x :: remove_at rest k
  end.

Definition BKE_tracking_object_delete (tracking : MovieTrackingObjects) (object : nat)
  : bool * MovieTrackingObjects :=
  match nth_error (objects tracking) object with
  | None => (false, tracking)
  | Some obj =>
      let index := Z.of_nat object in
      if is_camera obj then (false, tracking)
      else
        (true,
         {| camera_tracks := camera_tracks tracking;
            camera_reconstruction := camera_reconstruction tracking;
            objects := remove_at (objects tracking) object;
            tot_object := tot_object tracking - 1;
            objectnr := if negb (index =? 0) then index - 1 else 0;
            act_track := clear_act_track (object_tracks obj) (act_track tracking);
            dopesheet_ok := false |})
  end.

(** *** BKE_tracking_object_get_active: [BLI_findlink], [None] is
    [NULL]; the result is the place of the object. *)
Definition BKE_tracking_object_get_active (tracking : MovieTrackingObjects) : option nat :=
  if objectnr tracking <? 0 then None
  else match nth_error (objects tracking) (Z.to_nat (objectnr tracking)) with
       | Some _ => Some (Z.to_nat (objectnr tracking))
       | None => None
       end.

(** *** BKE_tracking_object_get_camera *)
Fixpoint camera_scan (rest : list MovieTrackingObject) (i : nat) : option nat :=
  match rest with
  | [] => None
  | object :: rest' => if is_camera object then Some i else camera_scan rest' (S i)
  end.

Definition BKE_tracking_object_get_camera (tracking : MovieTrackingObjects) : option nat :=
  camera_scan (objects tracking) O.

(** *** BKE_tracking_object_get_tracks and
    BKE_tracking_object_get_reconstruction, for the object at [place] *)
Definition BKE_tracking_object_get_tracks (object : MovieTrackingObject) (place : nat)
  : tracksbase_ref :=
  if is_camera object then tracks_of_tracking else tracks_of_object place.

Definition tracksbase (tracking : MovieTrackingObjects) (r : tracksbase_ref)
  : list track_node :=
  match r with
  | tracks_of_tracking => camera_tracks tracking
  | tracks_of_object place =>
      match nth_error (objects tracking) place with
      | Some object => object_tracks object
      | None => []
      end
  end.

Definition BKE_tracking_object_get_reconstruction (tracking : MovieTrackingObjects)
  (object : MovieTrackingObject) : MovieTrackingReconstruction (F:=F) M4 :=
  if is_camera object then camera_reconstruction tracking
  else object_reconstruction object.

(** *** BKE_tracking_get_active_tracks and
    BKE_tracking_get_active_reconstruction; the second reads the flag of
    the active object without a test for [NULL]. *)
Definition BKE_tracking_get_active_tracks (tracking : MovieTrackingObjects)
  : tracksbase_ref :=
  match BKE_tracking_object_get_active tracking with
  | Some place =>
      match nth_error (objects tracking) place with
      | Some object =>
          if negb (is_camera object) then tracks_of_object place else tracks_of_tracking
      | None => tracks_of_tracking
      end
  | None => tracks_of_tracking
  end.

Definition BKE_tracking_get_active_reconstruction (tracking : MovieTrackingObjects)
  : outcome (MovieTrackingReconstruction (F:=F) M4) :=
  match BKE_tracking_object_get_active tracking with
  | Some place =>
      match nth_error (objects tracking) place with
      | Some object => Done (BKE_tracking_object_get_reconstruction tracking object)
      | None => Crash
      end
  | None => Crash
  end.

(** *** BKE_tracking_track_get_active: the address of the active track
    when it is in the active list. *)
Definition BKE_tracking_track_get_active (tracking : MovieTrackingObjects) : option Z :=
  match act_track tracking with
  | None => None
  | Some a =>
      if existsb (fun track => track_addr track =? a)
           (tracksbase tracking (BKE_tracking_get_active_tracks tracking))
      then Some a else None
  end.

(** *** BKE_tracking_track_get_indexed

    The inner loop over a track list: [inl track] when the track numbered
    [tracknr] is met, else [inr cur] with the counter after the list. *)
Fixpoint indexed_scan (rest : list track_node) (cur tracknr : Z) : track_node + Z :=
  match rest with
  | [] => inr cur
  | track :: rest' =>
      if negb (Z.land (track_flag (track_data track)) TRACK_HAS_BUNDLE =? 0) then
        if cur =? tracknr then inl track
        else indexed_scan rest' (cur + 1) tracknr
      else indexed_scan rest' cur tracknr
  end.

(** The outer loop, with [object] at place [i].  The result is the track
    and [*tracksbase_r]; [None] is [NULL] for both. *)
Fixpoint indexed_scan_objects (tracking : MovieTrackingObjects)
  (rest : list MovieTrackingObject) (i : nat) (cur tracknr : Z)
  : option (track_node * tracksbase_ref) :=
  match rest with
  | [] => None
  | object :: rest' =>
      let r := BKE_tracking_object_get_tracks object i in
      match indexed_scan (tracksbase tracking r) cur tracknr with
      | inl track => Some (track, r)
      | inr cur' => indexed_scan_objects tracking rest' (S i) cur' tracknr
      end
  end.

Definition BKE_tracking_track_get_indexed (tracking : MovieTrackingObjects) (tracknr : Z)
  : option (track_node * tracksbase_ref) :=
  indexed_scan_objects tracking (objects tracking) O 1 tracknr.

(** *** Vocabulary *)

(** The state the object functions keep: [tot_object] counts the list,
    the camera object is the first object and the only one with the camera
    flag, and [objectnr] is a place of the list. *)
Definition objects_ok (tracking : MovieTrackingObjects) : Prop :=
  tot_object tracking = Z.of_nat (length (objects tracking)) /\
  (forall i object, nth_error (objects tracking) i = Some object ->
                    (is_camera object = true <-> i = O)) /\
  (objects tracking <> [] ->
   0 <= objectnr tracking < Z.of_nat (length (objects tracking))).

(** Calls of the two functions that change the list. *)
Inductive object_op : Type :=
| OpObjectAdd (name : Name)
| OpObjectDelete (place : nat).

Definition run_object_op (tracking : MovieTrackingObjects) (op : object_op)
  : MovieTrackingObjects :=
  match op with
  | OpObjectAdd name => snd (BKE_tracking_object_add tracking name)
  | OpObjectDelete place => snd (BKE_tracking_object_delete tracking place)
  end.

(** The tracks with a bundle, object after object. *)
Definition has_bundle (track : track_node) : bool :=
  negb (Z.land (track_flag (track_data track)) TRACK_HAS_BUNDLE =? 0).

Definition bundle_tracks (tracking : MovieTrackingObjects)
  : list (track_node * tracksbase_ref) :=
  flat_map (fun '(i, object) =>
              let r := BKE_tracking_object_get_tracks object i in
              map (fun track => (track, r)) (filter has_bundle (tracksbase tracking r)))
           (combine (seq 0 (length (objects tracking))) (objects tracking)).

End Objects.

Arguments object_name {F M4 Name} _.
Arguments object_flag {F M4 Name} _.
Arguments object_tracks {F M4 Name} _.
Arguments object_reconstruction {F M4 Name} _.
Arguments object_scale {F M4 Name} _.
Arguments keyframe1 {F M4 Name} _.
Arguments keyframe2 {F M4 Name} _.
Arguments camera_tracks {F M4 Name} _.
Arguments camera_reconstruction {F M4 Name} _.
Arguments objects {F M4 Name} _.
Arguments tot_object {F M4 Name} _.
Arguments objectnr {F M4 Name} _.
Arguments act_track {F M4 Name} _.
Arguments dopesheet_ok {F M4 Name} _.
(** ** Concrete markers and tracks (binary32) used by the examples *)

Definition b32_zero : binary32 := f_zero.
Definition b32_one : binary32 := f_one.

(** A marker at frame [fr] with flag word [fl], position [(x, y)] and a
    degenerate pattern and search area. *)
Definition marker_at_frame (fr fl : Z) (x y : binary32) : MovieTrackingMarker binary32 :=
  {| pos := (x, y);
     pattern_corners :=
       ((b32_zero, b32_zero), (b32_zero, b32_zero),
        (b32_zero, b32_zero), (b32_zero, b32_zero));
     search_min := (b32_zero, b32_zero);
     search_max := (b32_zero, b32_zero);
     framenr := fr; flag := fl |}.

Definition track_of (ms : list (MovieTrackingMarker binary32)) (cursor : Z)
  : MovieTrackingTrack binary32 :=
  {| markers := ms; last_marker := cursor; track_flag := 0;
     bundle_pos := (b32_zero, b32_zero, b32_zero); error := b32_zero |}.

(** Scenario S1: markers at frames 5, 10 and 20. *)
Definition track_5_10_20 (cursor : Z) : MovieTrackingTrack binary32 :=
  track_of [marker_at_frame 5 0 b32_zero b32_zero;
            marker_at_frame 10 0 b32_zero b32_zero;
            marker_at_frame 20 0 b32_zero b32_zero] cursor.

(** Enabled markers on the frames [from], [from + 1], ..., [n] of them. *)
Definition enabled_run (from : Z) (n : nat) : list (MovieTrackingMarker binary32) :=
  map (fun k => marker_at_frame (from + Z.of_nat k) 0 b32_zero b32_zero) (seq 0 n).

(** A track that starts with a disabled marker at frame 1, followed by
    enabled markers at frames 2 and 3. *)
Definition track_bracketed : MovieTrackingTrack binary32 :=
  track_of (marker_at_frame 1 MARKER_DISABLED b32_zero b32_zero :: enabled_run 2 2) 0.

(** Scenario S6: three tracks on frames 1..10, 5..15 and 20..30. *)
Definition tracks_S6 : list (MovieTrackingTrack binary32) :=
  [track_of (enabled_run 1 10) 0; track_of (enabled_run 5 11) 0;
   track_of (enabled_run 20 11) 0].

(** Scenario S3: pattern box [-0.1,-0.1]..[0.1,0.1], search area
    [-0.05,-0.05]..[0.05,0.05]. *)
Definition b32_0_1 : binary32 := f_lit 1 10.
Definition b32_0_05 : binary32 := f_lit 5 100.

Definition marker_S3 : MovieTrackingMarker binary32 :=
  {| pos := (b32_zero, b32_zero);
     pattern_corners :=
       ((f_neg b32_0_1, f_neg b32_0_1), (b32_0_1, f_neg b32_0_1),
        (b32_0_1, b32_0_1), (f_neg b32_0_1, b32_0_1));
     search_min := (f_neg b32_0_05, f_neg b32_0_05);
     search_max := (b32_0_05, b32_0_05);
     framenr := 1; flag := 0 |}.

(** Scenario S2: [dst] enabled on frames 1..5 at (0,0), [src] enabled on
    frames 3..7 at (1,1); [dst_S2_gap] has its marker of frame 2 disabled. *)
Definition dst_S2 : MovieTrackingTrack binary32 :=
  track_of (map (fun k => marker_at_frame (1 + Z.of_nat k) 0 b32_zero b32_zero) (seq 0 5)) 0.

Definition src_S2 : MovieTrackingTrack binary32 :=
  track_of (map (fun k => marker_at_frame (3 + Z.of_nat k) 0 b32_one b32_one) (seq 0 5)) 0.

Definition dst_S2_gap : MovieTrackingTrack binary32 :=
  track_of [marker_at_frame 1 0 b32_zero b32_zero;
            marker_at_frame 2 MARKER_DISABLED b32_zero b32_zero;
            marker_at_frame 3 0 b32_zero b32_zero;
            marker_at_frame 4 0 b32_zero b32_zero;
            marker_at_frame 5 0 b32_zero b32_zero] 0.

Definition b32_half : binary32 := f_half.

(** Frames and positions of the markers of a run's result. *)
Definition frames_and_positions (r : outcome (MovieTrackingTrack binary32))
  : option (list (Z * vec2 binary32)) :=
  match r with
  | Done t => Some (map (fun m => (framenr m, pos m)) (markers t))
  | Crash => None
  end.

(** A one-pixel float image, mid grey, opaque. *)
Definition grey_pixel : binary32 * binary32 * binary32 * binary32 :=
  (b32_half, b32_half, b32_half, b32_one).

Definition grey_image : ImBuf :=
  {| ib_x := 1; ib_y := 1; rect_float := Some [grey_pixel]; rect := None;
     userflags := 0 |}.

Definition grey_image_byte : ImBuf :=
  {| ib_x := 1; ib_y := 1; rect_float := None; rect := Some [(100, 100, 100, 127)];
     userflags := 0 |}.

(** Scenario S5: a synthetic solver with a pose for the frames 5..20.
    Poses are translations along one axis, written as the distance moved:
    the unit is 0, the inverse is the opposite, the product is the sum.
    The pose of frame [i] is the translation by [i]. *)
Definition synthetic_camera (f : Z) : option Z :=
  if (5 <=? f) && (f <=? 20) then Some f else None.

Definition synthetic_point (tracknr : nat) : option (Z * Z * Z) :=
  match tracknr with
  | O => Some (1, 2, 3)
  | _ => None
  end.

Definition translate_v3 (d : Z) (p : binary32 * binary32 * binary32)
  : binary32 * binary32 * binary32 :=
  let '(x, y, z) := p in (f_add x (b32_of_int d), y, z).

Definition synthetic_retrieve (tracks : list (MovieTrackingTrack binary32)) (sfra efra : Z) :=
  reconstruct_retrieve_libmv_tracks Z 0 Z.opp Z.add translate_v3
    Z Z b32_of_int (fun m => m) synthetic_point (fun _ => 0)
    synthetic_camera (fun _ => 0) tracks sfra efra.


(** Stabilization: a marker at frame [fr] and position [p], and a track
    with the flag word [fl], over any arithmetic. *)
Definition marker_at_pos {F : Type} (fr : Z) (p : vec2 F) : MovieTrackingMarker F :=
  {| pos := p; pattern_corners := (p, p, p, p); search_min := p; search_max := p;
     framenr := fr; flag := 0 |}.

Definition flagged_track {F : Type} `{FloatOps F} (fl : Z) (ms : list (MovieTrackingMarker F))
  : MovieTrackingTrack F :=
  {| markers := ms; last_marker := 0; track_flag := fl;
     bundle_pos := (f_zero, f_zero, f_zero); error := f_zero |}.

(** A track that stays at [p] on the frames 1 and 2, used for
    stabilization. *)
Definition steady_track {F : Type} `{FloatOps F} (p : vec2 F) : MovieTrackingTrack F :=
  flagged_track TRACK_USE_2D_STAB [marker_at_pos 1 p; marker_at_pos 2 p].

(** A track that moves from [q1] at frame 1 to [q2] at frame 2, not used
    for the median. *)
Definition moving_track {F : Type} `{FloatOps F} (q1 q2 : vec2 F) : MovieTrackingTrack F :=
  flagged_track 0 [marker_at_pos 1 q1; marker_at_pos 2 q2].

(** Over the reals: the steady track at (1/4, 0); the rotation track goes
    from (5/4, 0) to (-3/4, 0), half a turn around the steady one.  All
    influences are 1, the cache is valid. *)
Definition tracking_half_turn : MovieTracking (F:=R) :=
  let rot := moving_track (5 / 4, 0)%R (- 3 / 4, 0)%R in
  {| tracks := [steady_track (1 / 4, 0)%R; rot];
     stabilization :=
       {| stab_flag := Z.lor TRACKING_2D_STABILIZATION TRACKING_STABILIZE_ROTATION;
          rot_track := Some rot;
          stab_scale := 1%R; scaleinf := 1%R; locinf := 1%R; rotinf := 1%R;
          stab_ok := true |} |}.

(** The same tracks with rotation stabilization switched off. *)
Definition tracking_no_rotation : MovieTracking (F:=R) :=
  {| tracks := tracks tracking_half_turn;
     stabilization :=
       {| stab_flag := TRACKING_2D_STABILIZATION;
          rot_track := rot_track (stabilization tracking_half_turn);
          stab_scale := 1%R; scaleinf := 1%R; locinf := 1%R; rotinf := 1%R;
          stab_ok := true |} |}.

(** binary32: the steady track at (0.25, 0.5), stabilization switched off
    or on, without rotation. *)
Definition tracking_b32 (fl : Z) : MovieTracking (F:=binary32) :=
  {| tracks := [steady_track (f_lit 1 4, b32_half)];
     stabilization :=
       {| stab_flag := fl; rot_track := None;
          stab_scale := b32_one; scaleinf := b32_one; locinf := b32_one;
          rotinf := b32_one; stab_ok := true |} |}.

(** A frame is its size, here; resampling is left out. *)
Definition frame_size : Type := (Z * Z)%type.
Definition no_warp {F : Type} (ibuf : frame_size) (t : vec2 F) (s a : F) : frame_size := ibuf.

(** A libm that answers NaN.  Without rotation stabilization its functions
    are not called: the results stated with it hold for every libm. *)
Definition libm_nan : LibmOps binary32 :=
  {| f_atan2 := fun _ _ => S754_nan;
     f_cos := fun _ => S754_nan;
     f_sin := fun _ => S754_nan |}.
(** ** Further concrete data used by the examples *)

(** Cameras stored for the frames 5, 6 and 8, poses written as in
    scenario S5, with the cursor at [cursor]. *)
Definition camera_of_frame (f : Z) : MovieReconstructedCamera (F:=binary32) Z :=
  {| cam_framenr := f; cam_error := b32_zero; cam_mat := f - 5 |}.

Definition cameras_5_6_8 (cursor : Z) : MovieTrackingReconstruction (F:=binary32) Z :=
  {| cameras := [camera_of_frame 5; camera_of_frame 6; camera_of_frame 8];
     last_camera := cursor |}.

(** A segment tracked from the keyframe at frame 1 up to frame 3 and
    closed by a disabled marker at frame 4; and the same segment with the
    keyframe replaced by a disabled marker. *)
Definition track_keyed : MovieTrackingTrack binary32 :=
  track_of [marker_at_frame 1 0 b32_zero b32_zero;
            marker_at_frame 2 MARKER_TRACKED b32_zero b32_zero;
            marker_at_frame 3 MARKER_TRACKED b32_zero b32_zero;
            marker_at_frame 4 MARKER_DISABLED b32_zero b32_zero] 0.

Definition track_unkeyed : MovieTrackingTrack binary32 :=
  track_of [marker_at_frame 1 MARKER_DISABLED b32_zero b32_zero;
            marker_at_frame 2 MARKER_TRACKED b32_zero b32_zero;
            marker_at_frame 3 MARKER_TRACKED b32_zero b32_zero;
            marker_at_frame 4 MARKER_DISABLED b32_zero b32_zero] 0.


(** Stabilization switched on with a single track: one that is not
    flagged USE_2D_STAB, and one that is flagged and has no marker. *)
Definition tracking_with (t : MovieTrackingTrack binary32) : MovieTracking (F:=binary32) :=
  {| tracks := [t];
     stabilization :=
       {| stab_flag := TRACKING_2D_STABILIZATION; rot_track := None;
          stab_scale := b32_half; scaleinf := b32_one; locinf := b32_one;
          rotinf := b32_one; stab_ok := false |} |}.

Definition tracking_unflagged : MovieTracking (F:=binary32) :=
  tracking_with (moving_track (b32_zero, b32_zero) (b32_one, b32_one)).

Definition tracking_flagged_empty : MovieTracking (F:=binary32) :=
  tracking_with (flagged_track TRACK_USE_2D_STAB []).

Definition tracking_flagged_steady : MovieTracking (F:=binary32) :=
  tracking_with (steady_track (f_lit 1 4, b32_half)).

(** Poses written as terms, to see which matrix routine is applied to
    what: the pose reconstructed for a frame, the unit matrix, a blend, a
    scale matrix and a product. *)
Inductive pose : Type :=
| pose_unit
| pose_of (f : Z)
| pose_blend (a b : pose) (t : binary32)
| pose_scale (s : binary32)
| pose_mul (a b : pose).

(** Cameras stored for the frames 2, 5, 6 and 8. *)
Definition cameras_2_5_6_8 : MovieTrackingReconstruction (F:=binary32) pose :=
  {| cameras := map (fun f => {| cam_framenr := f; cam_error := b32_zero;
                                 cam_mat := pose_of f |}) [2; 5; 6; 8];
     last_camera := 0 |}.

(** The interpolated pose for the object flag [fl] (the camera bit is 1)
    and the object scale 2. *)
Definition interpolated_pose (fl : Z) (fr : Z) : option pose :=
  match BKE_tracking_camera_get_reconstructed_interpolate pose pose_unit pose_blend
          pose_scale pose_mul 1 cameras_2_5_6_8 fl f_two fr with
  | Done (mat, _) => Some mat
  | Crash => None
  end.

(** A pose without rotation at the translation [(x, y, z)], and a
    reconstruction with the cameras of the frames 1 and 2 at (1, 2, 3)
    and (2, 4, 6). *)
Definition b32_int (n : Z) : binary32 := f_of_int n.

Definition mat4_translation (x y z : Z) : mat4 (F:=binary32) :=
  ((b32_one, b32_zero, b32_zero, b32_zero),
   (b32_zero, b32_one, b32_zero, b32_zero),
   (b32_zero, b32_zero, b32_one, b32_zero),
   (b32_int x, b32_int y, b32_int z, b32_one)).

Definition cameras_moved : MovieTrackingReconstruction (F:=binary32) mat4 :=
  {| cameras := [ {| cam_framenr := 1; cam_error := b32_zero;
                     cam_mat := mat4_translation 1 2 3 |};
                  {| cam_framenr := 2; cam_error := b32_zero;
                     cam_mat := mat4_translation 2 4 6 |} ];
     last_camera := 1 |}.

(** A track with a bundle at (1, 1, 1) and a track without one. *)
Definition tracks_one_bundle : list (MovieTrackingTrack binary32) :=
  [ {| markers := []; last_marker := 0; track_flag := TRACK_HAS_BUNDLE;
       bundle_pos := (b32_one, b32_one, b32_one); error := b32_zero |};
    track_of [] 0 ].

(** The cast [(int)] of a binary32: the fraction is cut off; NaN,
    infinities and values out of the range of [int] have no defined
    result. *)
Definition b32_to_int (x : binary32) : outcome Z :=
  v <- b32_trunc x ;;
  if (v <? - 2 ^ 31) || (2 ^ 31 - 1 <? v) then Crash else Done v.

(** A tracking step in binary32, with the tracker's [double] values
    rounded to binary32. *)
Definition insert_new_b32 :=
  tracking_insert_new_marker (F:=binary32) b32_to_int binary32 f_add b32_half (fun d => d).

Definition tracked_marker_b32 :=
  tracked_marker (F:=binary32) b32_to_int binary32 f_add b32_half (fun d => d).

Definition double5_zero : double5 binary32 :=
  (b32_zero, b32_zero, b32_zero, b32_zero, b32_zero).

(** Frames and flags of the markers of a step's result. *)
Definition frames_and_flags (r : outcome (MovieTrackingTrack binary32))
  : option (list (Z * Z)) :=
  match r with
  | Done t => Some (map (fun m => (framenr m, flag m)) (markers t))
  | Crash => None
  end.

(** Flag words of three tracks: selected at the point; not selected;
    hidden (bit 5) and selected in all areas. *)
Definition selection_three : list track_flags :=
  [ {| point_flag := 1; pat_flag := 0; search_flag := 0 |};
    {| point_flag := 0; pat_flag := 0; search_flag := 0 |};
    {| point_flag := 33; pat_flag := 1; search_flag := 1 |} ].

(** Objects: names as terms, copied and kept as they are; the camera flag
    is bit 0; poses as terms. *)
Inductive clip_name : Type :=
| name_camera
| name_object
| name_of (n : nat).

Definition clip_objects : Type := MovieTrackingObjects (F:=binary32) pose clip_name.

Definition clip_object_add :=
  BKE_tracking_object_add (F:=binary32) pose clip_name name_camera name_object
    (fun name => name) (fun _ _ name => name) 1.

Definition clip_run_op :=
  run_object_op (F:=binary32) pose clip_name name_camera name_object
    (fun name => name) (fun _ _ name => name) 1.

(** A track at the address [a], with or without a bundle. *)
Definition node_at (a : Z) (bundle : bool) : track_node (F:=binary32) :=
  {| track_addr := a;
     track_data := {| markers := []; last_marker := 0;
                      track_flag := if bundle then TRACK_HAS_BUNDLE else 0;
                      bundle_pos := (b32_zero, b32_zero, b32_zero);
                      error := b32_zero |} |}.

(** A clip without objects, and a clip with the camera object and one
    object: two camera tracks (100 with a bundle, 101 without), two tracks
    of the object (200 and 201, with bundles); 200 is the active track and
    the object the active object. *)
Definition clip_empty : clip_objects :=
  {| camera_tracks := []; camera_reconstruction := {| cameras := []; last_camera := 0 |};
     objects := []; tot_object := 0; objectnr := 0; act_track := None;
     dopesheet_ok := true |}.

Definition clip_two_objects : clip_objects :=
  {| camera_tracks := [node_at 100 true; node_at 101 false];
     camera_reconstruction := {| cameras := []; last_camera := 0 |};
     objects :=
       [ {| object_name := name_camera; object_flag := 1; object_tracks := [];
            object_reconstruction := {| cameras := []; last_camera := 0 |};
            object_scale := b32_one; keyframe1 := 1; keyframe2 := 30 |};
         {| object_name := name_of 1; object_flag := 0;
            object_tracks := [node_at 200 true; node_at 201 true];
            object_reconstruction := {| cameras := []; last_camera := 0 |};
            object_scale := b32_one; keyframe1 := 1; keyframe2 := 30 |} ];
     tot_object := 2; objectnr := 1; act_track := Some 200; dopesheet_ok := true |}.

(** The clip after two objects were added to [clip_empty] and the second
    one deleted. *)
Definition clip_camera_only : clip_objects :=
  fold_left clip_run_op
    [OpObjectAdd clip_name (name_of 7); OpObjectAdd clip_name (name_of 1);
     OpObjectDelete clip_name 1%nat] clip_empty.

(** The cast [(int)] over the reals: the fraction is cut off; values out
    of the range of [int] have no defined result. *)
Definition R_to_int (x : R) : outcome Z :=
  let v := if Rle_dec 0 x then Int_part x else - Int_part (- x) in
  if (v <? - 2 ^ 31) || (2 ^ 31 - 1 <? v) then Crash else Done v.

(** A marker at the origin of the frame with a square pattern, over the
    reals. *)
Definition marker_R_square : MovieTrackingMarker R :=
  {| pos := (0, 0)%R;
     pattern_corners := ((-1, -1), (1, -1), (1, 1), (-1, 1))%R;
     search_min := (0, 0)%R; search_max := (2, 2)%R;
     framenr := 1; flag := 0 |}.

(** A track over the frames 1, 2 and 4 at (0, 0), (1, 1) and (3, 3), and
    its position at a fractional frame with the offset (0, 0). *)
Definition track_ramp : MovieTrackingTrack binary32 :=
  track_of [marker_at_frame 1 0 b32_zero b32_zero;
            marker_at_frame 2 0 b32_one b32_one;
            marker_at_frame 4 0 (b32_int 3) (b32_int 3)] 0.

Definition position_at (n d : Z) : option (vec2 binary32) :=
  match BKE_tracking_marker_get_subframe_position b32_to_int track_ramp
          (b32_zero, b32_zero) (f_lit n d) with
  | Done (p, _) => Some p
  | Crash => None
  end.
(** ** Facts on lists *)

Lemma skipn_cons_nth {A : Type} (l : list A) (k : nat) (x : A) :
  nth_error l k = Some x -> skipn k l = x :: skipn (S k) l.
Proof.
  revert k. induction l as [|y l IH]; intros [|k] Hk; try discriminate Hk.
  - inversion Hk. reflexivity.
  - exact (IH k Hk).
Qed.

(** ** Facts on the marker store *)

Section MarkerStoreFacts.

Context {F : Type}.

Local Abbreviation Marker := (MovieTrackingMarker F).
Local Abbreviation Track := (MovieTrackingTrack F).

Lemma ascending_tail (m : Marker) (ms : list Marker) :
  strictly_ascending (m :: ms) -> strictly_ascending ms.
Proof.
  intros H i mi mj Hi Hj. exact (H (S i) mi mj Hi Hj).
Qed.

Lemma ascendingb_spec (ms : list Marker) :
  ascendingb ms = true <-> strictly_ascending ms.
Proof.
  induction ms as [|m1 [|m2 rest] IH].
  - split; [intros _ [|i] ? ? Hi; discriminate Hi | reflexivity].
  - split; [intros _ [|[|i]] ? ? Hi Hj; discriminate Hj | reflexivity].
  - change (ascendingb (m1 :: m2 :: rest))
      with ((framenr m1 <? framenr m2) && ascendingb (m2 :: rest)).
    rewrite andb_true_iff, Z.ltb_lt, IH. split.
    + intros [H12 Hr] [|i] mi mj Hi Hj.
      * simpl in Hi, Hj. congruence.
      * exact (Hr i mi mj Hi Hj).
    + intros H. split.
      * apply (H O); reflexivity.
      * eapply ascending_tail; eassumption.
Qed.

(** Adjacent order gives the order of any two cells. *)
Lemma ascending_pairwise (ms : list Marker) :
  strictly_ascending ms ->
  forall (i j : nat) (mi mj : Marker),
    (i < j)%nat -> nth_error ms i = Some mi -> nth_error ms j = Some mj ->
    framenr mi < framenr mj.
Proof.
  intros Hs i j. induction j as [|j IH]; intros mi mj Hij Hi Hj; [lia|].
  destruct (nth_error ms j) as [mk|] eqn:Hk.
  - assert (framenr mk < framenr mj) by (eapply Hs; eassumption).
    destruct (Nat.eq_dec i j) as [->|Hne].
    + congruence.
    + assert (framenr mi < framenr mk) by (apply IH; [lia|assumption|reflexivity]).
      lia.
  - apply nth_error_None in Hk.
    assert (Hjn : nth_error ms (S j) <> None) by congruence.
    apply nth_error_Some in Hjn. lia.
Qed.

Lemma ascending_frame_inj (ms : list Marker) (i j : nat) (mi mj : Marker) :
  strictly_ascending ms ->
  nth_error ms i = Some mi -> nth_error ms j = Some mj ->
  framenr mi = framenr mj -> i = j.
Proof.
  intros Hs Hi Hj Heq.
  destruct (Nat.lt_trichotomy i j) as [Hlt|[->|Hgt]]; [|reflexivity|].
  - pose proof (ascending_pairwise ms Hs i j mi mj Hlt Hi Hj). lia.
  - pose proof (ascending_pairwise ms Hs j i mj mi Hgt Hj Hi). lia.
Qed.

Lemma nearest_left_unique (ms : list Marker) (fr : Z) (i j : nat) :
  strictly_ascending ms ->
  nearest_left ms fr i -> nearest_left ms fr j -> i = j.
Proof.
  intros Hs (mi & f1 & Hi & Hf1 & Hpre1 & Hin1) (mj & f2 & Hj & Hf2 & Hpre2 & Hin2).
  assert (f1 = f2) by congruence. subst f2.
  destruct (Z.lt_ge_cases fr (framenr f1)) as [Hlt|Hge].
  - rewrite (Hpre1 Hlt), (Hpre2 Hlt). reflexivity.
  - destruct (Hin1 Hge) as [Hle1 Hmax1]. destruct (Hin2 Hge) as [Hle2 Hmax2].
    pose proof (Hmax1 j mj Hj Hle2). pose proof (Hmax2 i mi Hi Hle1). lia.
Qed.

Lemma nearest_left_exact (ms : list Marker) (fr : Z) (i j : nat) (mj : Marker) :
  strictly_ascending ms ->
  nearest_left ms fr i ->
  nth_error ms j = Some mj -> framenr mj = fr -> i = j.
Proof.
  intros Hs (mi & f1 & Hi & Hf1 & Hpre & Hin) Hj Hfr.
  assert (Hge : framenr f1 <= fr).
  { destruct j as [|j'].
    - assert (f1 = mj) by congruence. subst. lia.
    - pose proof (ascending_pairwise ms Hs O (S j') f1 mj ltac:(lia) Hf1 Hj). lia. }
  destruct (Hin Hge) as [Hle Hmax].
  pose proof (Hmax j mj Hj ltac:(lia)) as Hji.
  destruct (Nat.eq_dec i j) as [|Hne]; [assumption|].
  pose proof (ascending_pairwise ms Hs j i mj mi ltac:(lia) Hj Hi). lia.
Qed.

(** *** The two scans of the lookup *)

Lemma get_scan_up_inl (rest : list Marker) (a : nat) (fr : Z) (a' : nat) :
  get_scan_up rest a fr = inl a' ->
  (a <= a')%nat /\ exists m, nth_error rest (a' - a) = Some m /\ framenr m = fr.
Proof.
  revert a. induction rest as [|m rest IH]; intros a H; simpl in H; [discriminate|].
  destruct (framenr m <=? fr) eqn:Hle; [|discriminate].
  destruct (framenr m =? fr) eqn:Heq.
  - inversion H; subst a'. split; [lia|]. exists m.
    rewrite Nat.sub_diag. split; [reflexivity|]. now apply Z.eqb_eq.
  - apply IH in H. destruct H as [Hle' (m' & Hn & Hf)].
    split; [lia|]. exists m'. split; [|assumption].
    replace (a' - a)%nat with (S (a' - S a)) by lia. exact Hn.
Qed.

Lemma get_scan_up_inr (rest : list Marker) (a : nat) (fr : Z) (a' : nat) :
  get_scan_up rest a fr = inr a' ->
  (a <= a')%nat /\ (a' - a <= length rest)%nat /\
  (forall k m, (k < a' - a)%nat -> nth_error rest k = Some m -> framenr m < fr) /\
  (forall m, nth_error rest (a' - a) = Some m -> fr < framenr m).
Proof.
  revert a. induction rest as [|m rest IH]; intros a H; simpl in H.
  - inversion H; subst a'. rewrite Nat.sub_diag.
    repeat split; [lia | simpl; lia | intros; lia | intros ? Hn; discriminate Hn].
  - destruct (framenr m <=? fr) eqn:Hle.
    + destruct (framenr m =? fr) eqn:Heq; [discriminate|].
      apply Z.leb_le in Hle. apply Z.eqb_neq in Heq.
      apply IH in H. destruct H as (H1 & H2 & H3 & H4).
      replace (a' - a)%nat with (S (a' - S a)) by lia.
      repeat split; [lia | simpl; lia | |].
      * intros [|k] m' Hk Hn; simpl in Hn.
        -- inversion Hn; subst. lia.
        -- apply (H3 k); [lia|assumption].
      * intros m' Hn. simpl in Hn. auto.
    + inversion H; subst a'. apply Z.leb_gt in Hle. rewrite Nat.sub_diag.
      repeat split; [lia | lia | intros; lia |].
      intros m' Hn. simpl in Hn. inversion Hn; subst. assumption.
Qed.

Lemma get_scan_down_inl (ms : list Marker) (n : nat) (fr : Z) (a : nat) :
  get_scan_down ms n fr = Done (inl a) ->
  (a < n)%nat /\ exists m, nth_error ms a = Some m /\ framenr m = fr.
Proof.
  induction n as [|n IH]; intros H; simpl in H; [discriminate|].
  destruct (nth_error ms n) as [m|] eqn:Hn; [|discriminate].
  destruct (framenr m >=? fr) eqn:Hge; [|discriminate].
  destruct (framenr m =? fr) eqn:Heq.
  - inversion H; subst a. split; [lia|]. exists m. split; [assumption|].
    now apply Z.eqb_eq.
  - apply IH in H. destruct H as [Hlt Hex]. split; [lia|assumption].
Qed.

Lemma get_scan_down_inr (ms : list Marker) (n : nat) (fr : Z) (k : nat) :
  get_scan_down ms n fr = Done (inr k) ->
  (k <= n)%nat /\
  (forall j m, (k <= j < n)%nat -> nth_error ms j = Some m -> fr < framenr m) /\
  (forall k', k = S k' -> exists m, nth_error ms k' = Some m /\ framenr m < fr).
Proof.
  induction n as [|n IH]; intros H; simpl in H.
  - inversion H; subst k.
    split; [lia|]. split; [intros; lia | intros k' Hk; discriminate Hk].
  - destruct (nth_error ms n) as [m|] eqn:Hn; [|discriminate].
    destruct (framenr m >=? fr) eqn:Hge.
    + destruct (framenr m =? fr) eqn:Heq; [discriminate|].
      apply Z.geb_le in Hge. apply Z.eqb_neq in Heq.
      apply IH in H. destruct H as (H1 & H2 & H3).
      repeat split; [lia | | assumption].
      intros j m' Hj Hm'. destruct (Nat.eq_dec j n) as [->|Hne].
      * assert (m' = m) by congruence. subst. lia.
      * apply (H2 j); [lia|assumption].
    + inversion H; subst k. 
      assert (framenr m < fr).
      { rewrite Z.geb_leb in Hge. apply Z.leb_gt in Hge. assumption. }
      repeat split; [lia | intros; lia |].
      intros k' Hk. inversion Hk; subst k'. exists m. split; assumption.
Qed.

Lemma get_scan_down_total (ms : list Marker) (n : nat) (fr : Z) :
  (n <= length ms)%nat -> exists r, get_scan_down ms n fr = Done r.
Proof.
  induction n as [|n IH]; intros Hn; simpl; [eexists; reflexivity|].
  destruct (nth_error ms n) as [m|] eqn:Hm.
  - destruct (framenr m >=? fr); [|eexists; reflexivity].
    destruct (framenr m =? fr); [eexists; reflexivity|]. apply IH. lia.
  - apply nth_error_None in Hm. lia.
Qed.

(** *** What the lookup returns *)

Lemma get_start_index (t : Track) :
  markers t <> [] -> 0 <= last_marker t ->
  let a := if last_marker t <? markersnr t then last_marker t else markersnr t - 1 in
  0 <= a < markersnr t.
Proof.
  intros Hne Hc. unfold markersnr. cbv zeta.
  assert (0 < Z.of_nat (length (markers t))).
  { destruct (markers t); [congruence | simpl length; lia]. }
  destruct (last_marker t <? Z.of_nat (length (markers t))) eqn:Hlt.
  - apply Z.ltb_lt in Hlt. lia.
  - lia.
Qed.

Lemma marker_at_in_range (ms : list Marker) (a : Z) :
  0 <= a < Z.of_nat (length ms) ->
  exists m, marker_at ms a = Done m /\ nth_error ms (Z.to_nat a) = Some m.
Proof.
  intros Ha. unfold marker_at.
  destruct (a <? 0) eqn:Hneg; [apply Z.ltb_lt in Hneg; lia|].
  destruct (nth_error ms (Z.to_nat a)) as [m|] eqn:Hn.
  - exists m. split; reflexivity.
  - apply nth_error_None in Hn. lia.
Qed.

Lemma marker_get_spec (t : Track) (fr : Z) :
  markers t <> [] -> track_ok t ->
  exists i m,
    nth_error (markers t) i = Some m /\
    nearest_left (markers t) fr i /\
    BKE_tracking_marker_get t fr =
      Done (Some i, if framenr m =? fr then set_last_marker t (Z.of_nat i) else t).
Proof.
  intros Hne [Hs Hc].
  pose proof (get_start_index t Hne Hc) as Ha. cbv zeta in Ha.
  unfold BKE_tracking_marker_get.
  destruct (markers t) as [|first rest] eqn:Hms; [congruence|].
  destruct (fr <? framenr first) eqn:Hpre.
  - apply Z.ltb_lt in Hpre. exists O, first.
    replace (framenr first =? fr) with false by (symmetry; apply Z.eqb_neq; lia).
    split; [reflexivity|]. split; [|reflexivity].
    exists first, first. repeat split; try reflexivity; intros; lia.
  - apply Z.ltb_ge in Hpre.
    set (a := if last_marker t <? markersnr t then last_marker t else markersnr t - 1) in *.
    unfold markersnr in Ha. rewrite Hms in Ha.
    destruct (marker_at_in_range (first :: rest) a Ha) as (m_a & Hat & Hna).
    rewrite Hat. cbn [bind].
    set (A := Z.to_nat a) in *.
    assert (HA : (A < length (first :: rest))%nat) by (subst A; lia).
    destruct (framenr m_a <=? fr) eqn:Hle.
    + apply Z.leb_le in Hle.
      destruct (get_scan_up (skipn A (first :: rest)) A fr) as [a'|a'] eqn:Hscan.
      * apply get_scan_up_inl in Hscan. destruct Hscan as (HAa & m & Hn & Hf).
        rewrite nth_error_skipn in Hn. replace (A + (a' - A))%nat with a' in Hn by lia.
        exists a', m. rewrite Hf, Z.eqb_refl.
        split; [assumption|]. split; [|reflexivity].
        exists m, first. repeat split; try assumption; try reflexivity; try lia.
        intros j mj Hj Hjle.
        destruct (Nat.le_gt_cases j a') as [|Hgt]; [assumption|].
        pose proof (ascending_pairwise _ Hs a' j m mj Hgt Hn Hj). lia.
      * apply get_scan_up_inr in Hscan. destruct Hscan as (HAa & Hlen & Hbelow & Hat').
        assert (Hstep : (A < a')%nat).
        { destruct (Nat.eq_dec a' A) as [->|]; [|lia].
          rewrite Nat.sub_diag in Hat'. specialize (Hat' m_a).
          rewrite nth_error_skipn, Nat.add_0_r in Hat'. specialize (Hat' Hna). lia. }
        rewrite length_skipn in Hlen.
        destruct (nth_error (first :: rest) (a' - 1)) as [m|] eqn:Hm.
        2:{ apply nth_error_None in Hm. lia. }
        assert (Hmlt : framenr m < fr).
        { apply (Hbelow (a' - 1 - A)%nat); [lia|].
          rewrite nth_error_skipn. replace (A + (a' - 1 - A))%nat with (a' - 1)%nat by lia.
          assumption. }
        exists (a' - 1)%nat, m.
        replace (framenr m =? fr) with false by (symmetry; apply Z.eqb_neq; lia).
        split; [assumption|]. split; [|reflexivity].
        exists m, first. repeat split; try assumption; try reflexivity; try lia.
        intros j mj Hj Hjle.
        destruct (Nat.le_gt_cases j (a' - 1)) as [|Hgt]; [assumption|].
        destruct (nth_error (first :: rest) a') as [mk|] eqn:Hk.
        -- assert (fr < framenr mk).
           { apply Hat'. rewrite nth_error_skipn.
             replace (A + (a' - A))%nat with a' by lia. assumption. }
           destruct (Nat.eq_dec j a') as [->|].
           ++ assert (mj = mk) by congruence. subst. lia.
           ++ pose proof (ascending_pairwise _ Hs a' j mk mj ltac:(lia) Hk Hj). lia.
        -- apply nth_error_None in Hk.
           assert (Hjn : nth_error (first :: rest) j <> None) by congruence.
           apply nth_error_Some in Hjn. lia.
    + apply Z.leb_gt in Hle.
      destruct (get_scan_down_total (first :: rest) (S A) fr ltac:(lia)) as [r Hr].
      rewrite Hr. cbn [bind].
      destruct r as [a'|k].
      * apply get_scan_down_inl in Hr. destruct Hr as (HaA & m & Hn & Hf).
        exists a', m. rewrite Hf, Z.eqb_refl.
        split; [assumption|]. split; [|reflexivity].
        exists m, first. repeat split; try assumption; try reflexivity; try lia.
        intros j mj Hj Hjle.
        destruct (Nat.le_gt_cases j a') as [|Hgt]; [assumption|].
        pose proof (ascending_pairwise _ Hs a' j m mj Hgt Hn Hj). lia.
      * apply get_scan_down_inr in Hr. destruct Hr as (HkA & Habove & Hk).
        destruct k as [|k'].
        { specialize (Habove O first ltac:(lia) eq_refl). lia. }
        destruct (Hk k' eq_refl) as (m & Hn & Hf).
        exists k', m.
        replace (framenr m =? fr) with false by (symmetry; apply Z.eqb_neq; lia).
        split; [assumption|]. split; [|reflexivity].
        exists m, first. repeat split; try assumption; try reflexivity; try lia.
        intros j mj Hj Hjle.
        destruct (Nat.le_gt_cases j k') as [|Hgt]; [assumption|].
        destruct (Nat.lt_ge_cases j (S A)) as [Hlt|Hge'].
        -- specialize (Habove j mj ltac:(lia) Hj). lia.
        -- pose proof (ascending_pairwise _ Hs A j m_a mj ltac:(lia) Hna Hj). lia.
Qed.

End MarkerStoreFacts.

(** ** The marker store: lookup *)

Section MarkerLookup.

Context {F : Type}.

Local Abbreviation Marker := (MovieTrackingMarker F).
Local Abbreviation Track := (MovieTrackingTrack F).

Lemma marker_get_empty (t : Track) (fr : Z) :
  markers t = [] -> BKE_tracking_marker_get t fr = Done (None, t).
Proof.
  intros H. unfold BKE_tracking_marker_get. rewrite H. reflexivity.
Qed.

Lemma nth_error_map_framenr (ms : list Marker) (i : nat) :
  nth_error (map framenr ms) i = option_map framenr (nth_error ms i).
Proof.
  revert i. induction ms as [|m ms IH]; intros [|i]; simpl; auto.
Qed.

(** C1.  On a track with at least one marker, [BKE_tracking_marker_get]
    never returns [NULL]: it returns the marker of the queried frame when
    there is one, else the nearest marker to the left, and the first marker
    when the query precedes the track.  The marker returned does not depend
    on the cursor [last_marker], and the cursor moves only on an exact
    match.  With markers at frames 5, 10 and 20 the queries 7, 10, 25 and 3
    give the markers at 5, 10, 20 and 5. *)
Theorem marker_get_nearest (t : Track) (fr : Z)
  (Hne : markers t <> []) (Hok : track_ok t) :
  exists (i : nat) (m : Marker) (t' : Track),
    BKE_tracking_marker_get t fr = Done (Some i, t') /\
    nth_error (markers t) i = Some m /\
    (* the exact marker, when there is one *)
    (forall j mj, nth_error (markers t) j = Some mj -> framenr mj = fr -> j = i) /\
    (* else the nearest one to the left *)
    ((exists mj, In mj (markers t) /\ framenr mj <= fr) ->
     framenr m <= fr /\
     forall mj, In mj (markers t) -> framenr mj <= fr -> framenr mj <= framenr m) /\
    (* the first one when the query precedes the track *)
    ((forall mj, In mj (markers t) -> fr < framenr mj) -> i = O) /\
    (* whatever the cursor *)
    (forall h, 0 <= h ->
       exists t'', BKE_tracking_marker_get (set_last_marker t h) fr = Done (Some i, t'')) /\
    (* the cursor moves on an exact match only *)
    t' = (if framenr m =? fr then set_last_marker t (Z.of_nat i) else t) /\
    (* scenario S1 *)
    (map framenr (markers t) = [5; 10; 20] ->
     (fr = 7 -> i = 0%nat) /\ (fr = 10 -> i = 1%nat) /\
     (fr = 25 -> i = 2%nat) /\ (fr = 3 -> i = 0%nat)).
Proof.
  destruct Hok as [Hs Hc].
  destruct (marker_get_spec t fr Hne (conj Hs Hc)) as (i & m & Hi & Hnear & Hget).
  exists i, m, (if framenr m =? fr then set_last_marker t (Z.of_nat i) else t).
  assert (Hfirst : exists first, nth_error (markers t) O = Some first).
  { destruct (markers t) as [|f ?]; [congruence|]. exists f. reflexivity. }
  destruct Hfirst as [first Hf].
  assert (Hexact : forall j mj,
             nth_error (markers t) j = Some mj -> framenr mj = fr -> j = i).
  { intros j mj Hj Hfr. symmetry. eapply nearest_left_exact; eassumption. }
  assert (Hleft : (exists mj, In mj (markers t) /\ framenr mj <= fr) ->
                  framenr m <= fr /\
                  forall mj, In mj (markers t) -> framenr mj <= fr ->
                             framenr mj <= framenr m).
  { intros (m0 & Hin0 & Hle0).
    destruct Hnear as (m' & first' & Hi' & Hf' & Hpre & Hin).
    assert (m' = m) by congruence. assert (first' = first) by congruence. subst.
    assert (Hge : framenr first <= fr).
    { apply In_nth_error in Hin0. destruct Hin0 as [[|j0] Hj0].
      - assert (m0 = first) by congruence. subst. assumption.
      - pose proof (ascending_pairwise _ Hs O (S j0) first m0 ltac:(lia) Hf Hj0). lia. }
    destruct (Hin Hge) as [Hmle Hmax]. split; [assumption|].
    intros mj Hinj Hlej. apply In_nth_error in Hinj. destruct Hinj as [j Hj].
    pose proof (Hmax j mj Hj Hlej) as Hji.
    destruct (Nat.eq_dec j i) as [->|Hne'].
    - assert (mj = m) by congruence. subst. lia.
    - pose proof (ascending_pairwise _ Hs j i mj m ltac:(lia) Hj Hi). lia. }
  assert (Hbefore : (forall mj, In mj (markers t) -> fr < framenr mj) -> i = O).
  { intros Hall. destruct Hnear as (m' & first' & Hi' & Hf' & Hpre & Hin).
    apply Hpre. apply Hall. eapply nth_error_In. eassumption. }
  assert (Hhint : forall h, 0 <= h ->
             exists t'', BKE_tracking_marker_get (set_last_marker t h) fr
                         = Done (Some i, t'')).
  { intros h Hh.
    assert (Hne' : markers (set_last_marker t h) <> []) by exact Hne.
    assert (Hok' : track_ok (set_last_marker t h)) by (split; [exact Hs | exact Hh]).
    destruct (marker_get_spec (set_last_marker t h) fr Hne' Hok')
      as (i' & m' & Hi' & Hnear' & Hget').
    assert (i = i') by (eapply nearest_left_unique; eassumption). subst i'.
    eexists. exact Hget'. }
  split; [exact Hget|]. split; [exact Hi|]. split; [exact Hexact|].
  split; [exact Hleft|]. split; [exact Hbefore|]. split; [exact Hhint|].
  split; [reflexivity|].
  intros Hmap.
  destruct (markers t) as [|m0 [|m1 [|m2 [|? ?]]]] eqn:Hms; try discriminate Hmap.
  simpl in Hmap. injection Hmap as H5 H10 H20.
  assert (Hidx : i = 0%nat \/ i = 1%nat \/ i = 2%nat).
  { destruct i as [|[|[|i]]]; auto. destruct i; discriminate Hi. }
  repeat split; intros ->.
  - destruct Hleft as [Hle _]; [exists m0; simpl; split; [auto | lia]|].
    destruct Hidx as [->|[->| ->]]; auto; simpl in Hi; injection Hi as <-; lia.
  - symmetry. apply (Hexact 1%nat m1); [reflexivity | assumption].
  - destruct Hleft as [_ Hmax]; [exists m0; simpl; split; [auto | lia]|].
    pose proof (Hmax m2 ltac:(simpl; auto) ltac:(lia)).
    destruct Hidx as [->|[->| ->]]; auto; simpl in Hi; injection Hi as <-; lia.
  - apply Hbefore. simpl. intros mj [<-|[<-|[<-|[]]]]; lia.
Qed.

End MarkerLookup.

Example get_at_7 :
  BKE_tracking_marker_get (track_5_10_20 0) 7 = Done (Some 0%nat, track_5_10_20 0).
Proof. reflexivity. Qed.

Example get_at_10 :
  BKE_tracking_marker_get (track_5_10_20 0) 10 = Done (Some 1%nat, track_5_10_20 1).
Proof. reflexivity. Qed.

Example get_at_25_from_stale_cursor :
  BKE_tracking_marker_get (track_5_10_20 7) 25 = Done (Some 2%nat, track_5_10_20 7).
Proof. reflexivity. Qed.

Example get_at_3 :
  BKE_tracking_marker_get (track_5_10_20 2) 3 = Done (Some 0%nat, track_5_10_20 2).
Proof. reflexivity. Qed.

Lemma track_5_10_20_ok (cursor : Z) : 0 <= cursor -> track_ok (track_5_10_20 cursor).
Proof.
  intros Hc. split; [apply ascendingb_spec; reflexivity | exact Hc].
Qed.

Lemma marker_get_nearest_witness :
  exists i m t',
    BKE_tracking_marker_get (track_5_10_20 2) 7 = Done (Some i, t') /\
    nth_error (markers (track_5_10_20 2)) i = Some m /\
    i = 0%nat.
Proof.
  assert (Hne : markers (track_5_10_20 2) <> []) by discriminate.
  assert (Hok : track_ok (track_5_10_20 2)) by (apply track_5_10_20_ok; lia).
  destruct (marker_get_nearest (track_5_10_20 2) 7 Hne Hok)
    as (i & m & t' & Hget & Hi & _ & _ & _ & _ & _ & HS1).
  exists i, m, t'. split; [exact Hget|]. split; [exact Hi|].
  exact (proj1 (HS1 eq_refl) eq_refl).
Defined.

(** ** The marker store: updates keep the array sorted *)

Section MarkerUpdates.

Context {F : Type}.

Local Abbreviation Marker := (MovieTrackingMarker F).
Local Abbreviation Track := (MovieTrackingTrack F).

Lemma marker_at_of_nat (ms : list Marker) (i : nat) (m : Marker) :
  nth_error ms i = Some m -> marker_at ms (Z.of_nat i) = Done m.
Proof.
  intros H. unfold marker_at.
  destruct (Z.of_nat i <? 0) eqn:Hneg; [apply Z.ltb_lt in Hneg; lia|].
  rewrite Nat2Z.id, H. reflexivity.
Qed.

Lemma marker_at_Done (ms : list Marker) (a : Z) (m : Marker) :
  marker_at ms a = Done m -> 0 <= a /\ nth_error ms (Z.to_nat a) = Some m.
Proof.
  unfold marker_at. destruct (a <? 0) eqn:Hneg; [discriminate|].
  apply Z.ltb_ge in Hneg.
  destruct (nth_error ms (Z.to_nat a)) as [m'|]; [|discriminate].
  intros H. inversion H; subst. split; [assumption|reflexivity].
Qed.

(** *** [get_exact] *)

Lemma get_cursor_markers (t : Track) (a m_fr fr : Z) :
  markers (if m_fr =? fr then set_last_marker t a else t) = markers t.
Proof. destruct (m_fr =? fr); reflexivity. Qed.

Lemma get_exact_found (t : Track) (fr : Z) (j : nat) (mj : Marker) :
  track_ok t ->
  nth_error (markers t) j = Some mj -> framenr mj = fr ->
  BKE_tracking_marker_get_exact t fr = Done (Some j, set_last_marker t (Z.of_nat j)).
Proof.
  intros Hok Hj Hfr.
  assert (Hne : markers t <> []) by (intros E; rewrite E in Hj; destruct j; discriminate).
  destruct (marker_get_spec t fr Hne Hok) as (i & m & Hi & Hnear & Hget).
  assert (i = j) by (eapply nearest_left_exact; try eassumption; apply Hok). subst i.
  assert (m = mj) by congruence. subst m.
  unfold BKE_tracking_marker_get_exact. rewrite Hget. cbn [bind].
  rewrite Hfr, Z.eqb_refl. unfold deref. cbn [markers set_last_marker].
  rewrite (marker_at_of_nat _ _ _ Hj). cbn [bind]. rewrite Hfr, Z.eqb_refl.
  reflexivity.
Qed.

Lemma get_exact_missing (t : Track) (fr : Z) :
  markers t <> [] -> track_ok t ->
  (forall mj, In mj (markers t) -> framenr mj <> fr) ->
  BKE_tracking_marker_get_exact t fr = Done (None, t).
Proof.
  intros Hne Hok Hnone.
  destruct (marker_get_spec t fr Hne Hok) as (i & m & Hi & Hnear & Hget).
  assert (Hm : framenr m <> fr) by (apply Hnone; eapply nth_error_In; eassumption).
  apply Z.eqb_neq in Hm.
  unfold BKE_tracking_marker_get_exact. rewrite Hget, Hm. cbn [bind].
  unfold deref. rewrite (marker_at_of_nat _ _ _ Hi). cbn [bind]. rewrite Hm.
  reflexivity.
Qed.

Lemma get_exact_empty (t : Track) (fr : Z) :
  markers t = [] -> BKE_tracking_marker_get_exact t fr = Crash.
Proof.
  intros H. unfold BKE_tracking_marker_get_exact.
  rewrite (marker_get_empty t fr H). reflexivity.
Qed.

(** Either there is a marker at the frame or there is none. *)
Lemma frame_present_dec (ms : list Marker) (fr : Z) :
  (exists j mj, nth_error ms j = Some mj /\ framenr mj = fr) \/
  (forall mj, In mj ms -> framenr mj <> fr).
Proof.
  induction ms as [|m ms IH].
  - right. intros mj [].
  - destruct (Z.eq_dec (framenr m) fr) as [Heq|Hne].
    + left. exists O, m. split; [reflexivity|assumption].
    + destruct IH as [(j & mj & Hj & Hf)|Hnone].
      * left. exists (S j), mj. split; assumption.
      * right. intros mj [<-|Hin]; [assumption|auto].
Qed.

(** *** The position scan of [insert] *)

Lemma insert_scan_spec (ms : list Marker) (n : nat) (fr : Z) :
  (n <= length ms)%nat ->
  -1 <= insert_scan ms n fr < Z.of_nat n /\
  (forall j mj, insert_scan ms n fr < Z.of_nat j < Z.of_nat n ->
                nth_error ms j = Some mj -> fr <= framenr mj) /\
  (0 <= insert_scan ms n fr ->
   exists m, nth_error ms (Z.to_nat (insert_scan ms n fr)) = Some m /\ framenr m < fr).
Proof.
  induction n as [|n IH]; intros Hn.
  - simpl. split; [lia|]. split; intros; lia.
  - simpl. destruct (nth_error ms n) as [m|] eqn:Hm.
    2:{ apply nth_error_None in Hm. lia. }
    destruct (framenr m <? fr) eqn:Hlt.
    + apply Z.ltb_lt in Hlt. split; [lia|]. split.
      * intros; lia.
      * intros _. exists m. rewrite Nat2Z.id. split; assumption.
    + apply Z.ltb_ge in Hlt. destruct (IH ltac:(lia)) as (H1 & H2 & H3).
      split; [lia|]. split; [|assumption].
      intros j mj Hj Hmj. destruct (Nat.eq_dec j n) as [->|Hne].
      * assert (mj = m) by congruence. subst. assumption.
      * apply (H2 j); [lia|assumption].
Qed.

Lemma nth_error_shift_in (ms : list Marker) (k : nat) (m : Marker) (i : nat) :
  (k <= length ms)%nat ->
  nth_error (shift_in ms k m) i =
    if (i <? k)%nat then nth_error ms i
    else if (i =? k)%nat then Some m
    else nth_error ms (i - 1).
Proof.
  intros Hk. unfold shift_in. rewrite nth_error_app, length_firstn.
  replace (Nat.min k (length ms)) with k by lia.
  destruct (i <? k)%nat eqn:Hlt.
  - rewrite nth_error_firstn, Hlt. reflexivity.
  - apply Nat.ltb_ge in Hlt. destruct (i =? k)%nat eqn:Heq.
    + apply Nat.eqb_eq in Heq. subst. rewrite Nat.sub_diag. reflexivity.
    + apply Nat.eqb_neq in Heq.
      replace (i - k)%nat with (S (i - k - 1)) by lia. simpl.
      rewrite nth_error_skipn. f_equal. lia.
Qed.

Lemma shift_in_length (ms : list Marker) (k : nat) (m : Marker) :
  length (shift_in ms k m) = S (length ms).
Proof.
  unfold shift_in. rewrite length_app. simpl. rewrite length_firstn, length_skipn. lia.
Qed.

Lemma shift_in_ascending (ms : list Marker) (k : nat) (m : Marker) :
  strictly_ascending ms -> (k <= length ms)%nat ->
  (forall j mj, (j < k)%nat -> nth_error ms j = Some mj -> framenr mj < framenr m) ->
  (forall j mj, (k <= j)%nat -> nth_error ms j = Some mj -> framenr m < framenr mj) ->
  strictly_ascending (shift_in ms k m).
Proof.
  intros Hs Hk Hlow Hhigh i mi mj Hi Hj.
  rewrite nth_error_shift_in in Hi, Hj by assumption.
  destruct (i <? k)%nat eqn:Hik.
  - apply Nat.ltb_lt in Hik.
    destruct (S i <? k)%nat eqn:Hsik.
    + eapply Hs; eassumption.
    + apply Nat.ltb_ge in Hsik. assert (S i = k) by lia.
      replace (S i =? k)%nat with true in Hj by (symmetry; apply Nat.eqb_eq; assumption).
      inversion Hj; subst mj. eapply Hlow; eassumption.
  - apply Nat.ltb_ge in Hik.
    replace (S i <? k)%nat with false in Hj by (symmetry; apply Nat.ltb_ge; lia).
    replace (S i =? k)%nat with false in Hj by (symmetry; apply Nat.eqb_neq; lia).
    replace (S i - 1)%nat with i in Hj by lia.
    destruct (i =? k)%nat eqn:Heq.
    + apply Nat.eqb_eq in Heq. inversion Hi; subst mi. eapply Hhigh; [|eassumption]. lia.
    + apply Nat.eqb_neq in Heq.
      apply (ascending_pairwise ms Hs (i - 1) i mi mj); [lia|assumption|assumption].
Qed.

Lemma nth_error_store_at (ms : list Marker) (a : nat) (m : Marker) (i : nat) :
  nth_error (store_at ms a m) i =
    if (i =? a)%nat then option_map (fun _ => m) (nth_error ms i) else nth_error ms i.
Proof.
  revert a i. induction ms as [|x ms IH]; intros a i.
  - simpl. destruct (i =? a)%nat; destruct i; reflexivity.
  - destruct a as [|a]; destruct i as [|i]; simpl; try reflexivity. apply IH.
Qed.

Lemma store_at_length (ms : list Marker) (a : nat) (m : Marker) :
  length (store_at ms a m) = length ms.
Proof.
  revert a. induction ms as [|x ms IH]; intros a; [reflexivity|].
  destruct a; simpl; [reflexivity|]. f_equal. apply IH.
Qed.

Lemma store_at_ascending (ms : list Marker) (a : nat) (m old : Marker) :
  strictly_ascending ms ->
  nth_error ms a = Some old -> framenr old = framenr m ->
  strictly_ascending (store_at ms a m).
Proof.
  intros Hs Ha Hfr i mi mj Hi Hj.
  rewrite nth_error_store_at in Hi, Hj.
  assert (Hfi : exists oi, nth_error ms i = Some oi /\ framenr oi = framenr mi).
  { destruct (i =? a)%nat eqn:E.
    - apply Nat.eqb_eq in E. subst i. rewrite Ha in Hi. simpl in Hi.
      inversion Hi; subst mi. exists old. split; [assumption|assumption].
    - exists mi. split; [assumption|reflexivity]. }
  assert (Hfj : exists oj, nth_error ms (S i) = Some oj /\ framenr oj = framenr mj).
  { destruct (S i =? a)%nat eqn:E.
    - apply Nat.eqb_eq in E. rewrite E in Hj. rewrite Ha in Hj. simpl in Hj.
      inversion Hj; subst mj. exists old. rewrite E. split; [assumption|assumption].
    - exists mj. split; [assumption|reflexivity]. }
  destruct Hfi as (oi & Hoi & Ei). destruct Hfj as (oj & Hoj & Ej).
  rewrite <- Ei, <- Ej. eapply Hs; eassumption.
Qed.

(** *** [insert] *)

Lemma marker_insert_spec (t : Track) (m : Marker) :
  track_ok t ->
  exists i t',
    BKE_tracking_marker_insert t m = Done (i, t') /\
    nth_error (markers t') i = Some m /\
    strictly_ascending (markers t') /\
    last_marker t' = Z.of_nat i /\
    same_settings t t' /\
    ((exists old, nth_error (markers t) i = Some old /\ framenr old = framenr m /\
                  markers t' = store_at (markers t) i m) \/
     ((forall mj, In mj (markers t) -> framenr mj <> framenr m) /\
      (i <= length (markers t))%nat /\
      markers t' = shift_in (markers t) i m)).
Proof.
  intros Hok. pose proof Hok as [Hs Hc].
  unfold BKE_tracking_marker_insert.
  destruct (frame_present_dec (markers t) (framenr m)) as [(j & mj & Hj & Hf)|Hnone].
  - (* a marker of that frame exists: it is overwritten *)
    assert (Hnz : (markersnr t =? 0) = false).
    { apply Z.eqb_neq. unfold markersnr.
      destruct (markers t); [destruct j; discriminate | simpl length; lia]. }
    rewrite Hnz. cbn [negb].
    rewrite (get_exact_found t (framenr m) j mj Hok Hj Hf). cbn [bind].
    exists j. eexists. split; [reflexivity|].
    cbn [markers last_marker set_markers set_last_marker].
    split.
    { rewrite nth_error_store_at, Nat.eqb_refl, Hj. reflexivity. }
    split; [eapply store_at_ascending; eassumption|].
    split; [reflexivity|]. split; [repeat split|].
    left. exists mj. repeat split; assumption.
  - (* no marker of that frame: a cell is opened *)
    assert (Hold : (if negb (markersnr t =? 0)
                    then BKE_tracking_marker_get_exact t (framenr m)
                    else Done (None, t)) = Done (None, t)).
    { destruct (markersnr t =? 0) eqn:Hnz; [reflexivity|]. cbn [negb].
      apply get_exact_missing; try assumption.
      intros E. unfold markersnr in Hnz. rewrite E in Hnz. discriminate. }
    rewrite Hold. cbn [bind].
    destruct (insert_scan_spec (markers t) (length (markers t)) (framenr m) (le_n _))
      as (Hrange & Habove & Hbelow).
    set (a := insert_scan (markers t) (length (markers t)) (framenr m)) in *.
    set (k := Z.to_nat (a + 1)).
    assert (Hk : (k <= length (markers t))%nat) by (subst k; lia).
    exists k. eexists. split; [reflexivity|].
    cbn [markers last_marker set_markers set_last_marker].
    split.
    { rewrite nth_error_shift_in by assumption.
      rewrite Nat.ltb_irrefl, Nat.eqb_refl. reflexivity. }
    split.
    { apply shift_in_ascending; try assumption.
      - intros j mj Hjk Hj.
        assert (Ha0 : 0 <= a) by (subst k; lia).
        destruct (Hbelow Ha0) as (ma & Hma & Hlt).
        destruct (Nat.eq_dec j (Z.to_nat a)) as [->|Hne].
        + assert (mj = ma) by congruence. subst. assumption.
        + pose proof (ascending_pairwise _ Hs j (Z.to_nat a) mj ma
                        ltac:(subst k; lia) Hj Hma). lia.
      - intros j mj Hkj Hj.
        assert (Hjn : (j < length (markers t))%nat).
        { apply nth_error_Some. congruence. }
        assert (framenr m <= framenr mj) by (apply (Habove j); [subst k; lia|assumption]).
        assert (framenr mj <> framenr m) by (apply Hnone; eapply nth_error_In; eassumption).
        lia. }
    split; [subst k; lia|]. split; [repeat split|].
    right. repeat split; assumption.
Qed.

Lemma marker_insert_in (t t' : Track) (m : Marker) (i : nat) :
  track_ok t ->
  BKE_tracking_marker_insert t m = Done (i, t') ->
  forall x, In x (markers t') <->
            x = m \/ (In x (markers t) /\ framenr x <> framenr m).
Proof.
  intros Hok Hins x. pose proof Hok as [Hs Hc].
  destruct (marker_insert_spec t m Hok)
    as (i' & t'' & Hins' & Hnth & Hasc & Hlast & Hsame & Hshape).
  rewrite Hins in Hins'. inversion Hins'; subst i' t''. clear Hins'.
  destruct Hshape as [(old & Hold & Hf & Hms)|(Hnone & Hi & Hms)]; rewrite Hms.
  - split.
    + intros Hin. apply In_nth_error in Hin. destruct Hin as [k Hk].
      rewrite nth_error_store_at in Hk. destruct (k =? i)%nat eqn:E.
      * destruct (nth_error (markers t) k); simpl in Hk; [|discriminate].
        left. congruence.
      * right. split; [eapply nth_error_In; eassumption|].
        intros Hfx. apply Nat.eqb_neq in E. apply E.
        apply (ascending_frame_inj (markers t) k i x old Hs Hk Hold). congruence.
    + intros [->|[Hin Hfx]].
      * apply (nth_error_In _ i). rewrite nth_error_store_at, Nat.eqb_refl, Hold.
        reflexivity.
      * apply In_nth_error in Hin. destruct Hin as [k Hk].
        apply (nth_error_In _ k). rewrite nth_error_store_at.
        destruct (k =? i)%nat eqn:E; [|assumption].
        apply Nat.eqb_eq in E. subst k. congruence.
  - assert (Hsplit : forall y, In y (markers t) <->
                               In y (firstn i (markers t)) \/ In y (skipn i (markers t))).
    { intros y. rewrite <- in_app_iff, firstn_skipn. reflexivity. }
    unfold shift_in. rewrite in_app_iff. simpl. rewrite Hsplit.
    split.
    + intros [Hin|[<-|Hin]]; [right|left; reflexivity|right].
      * split; [left; assumption|]. apply Hnone. apply Hsplit. left. assumption.
      * split; [right; assumption|]. apply Hnone. apply Hsplit. right. assumption.
    + intros [->|[[Hin|Hin] _]]; [right; left; reflexivity | left | right; right]; assumption.
Qed.

End MarkerUpdates.

(** ** The marker store: [get_exact] and [ensure] *)

Section MarkerEnsure.

Context {F : Type}.

Local Abbreviation Marker := (MovieTrackingMarker F).
Local Abbreviation Track := (MovieTrackingTrack F).

Lemma marker_ensure_empty (t : Track) (fr : Z) :
  markers t = [] -> BKE_tracking_marker_ensure t fr = Crash.
Proof.
  intros H. unfold BKE_tracking_marker_ensure.
  rewrite (marker_get_empty t fr H). reflexivity.
Qed.

Lemma marker_ensure_spec (t : Track) (fr : Z) :
  markers t <> [] -> track_ok t ->
  exists i m t',
    BKE_tracking_marker_ensure t fr = Done (Some i, t') /\
    nth_error (markers t') i = Some m /\ framenr m = fr /\
    strictly_ascending (markers t') /\
    last_marker t' = Z.of_nat i /\
    same_settings t t' /\
    ((exists mj, In mj (markers t) /\ framenr mj = fr) -> markers t' = markers t) /\
    ((forall mj, In mj (markers t) -> framenr mj <> fr) ->
     exists k near t0,
       BKE_tracking_marker_get t fr = Done (Some k, t0) /\
       nth_error (markers t) k = Some near /\
       m = set_framenr near fr /\
       markers t' = shift_in (markers t) i m).
Proof.
  intros Hne Hok. pose proof Hok as [Hs Hc].
  destruct (marker_get_spec t fr Hne Hok) as (k & near & Hk & Hnear & Hget).
  unfold BKE_tracking_marker_ensure. rewrite Hget. cbn [bind].
  unfold deref. rewrite get_cursor_markers, (marker_at_of_nat _ _ _ Hk). cbn [bind].
  destruct (framenr near =? fr) eqn:Heq.
  - apply Z.eqb_eq in Heq. cbn [negb].
    exists k, near. eexists. split; [reflexivity|].
    cbn [markers last_marker set_last_marker].
    repeat split; try assumption; try reflexivity.
    intros Hnone. exfalso. apply (Hnone near); [eapply nth_error_In; eassumption|assumption].
  - apply Z.eqb_neq in Heq. cbn [negb].
    assert (Hnone : forall mj, In mj (markers t) -> framenr mj <> fr).
    { intros mj Hin Hfr. apply In_nth_error in Hin. destruct Hin as [j Hj].
      assert (k = j) by (eapply nearest_left_exact; eassumption). subst j.
      congruence. }
    destruct (marker_insert_spec t (set_framenr near fr) Hok)
      as (i & t1 & Hins & Hnth & Hasc & Hlast & Hsame & Hshape).
    rewrite Hins. cbn [bind].
    destruct Hshape as [(old & Hold & Hf & _)|(_ & Hi & Hms)].
    { exfalso. apply (Hnone old); [eapply nth_error_In; eassumption|exact Hf]. }
    assert (Hne1 : markers t1 <> []).
    { intros E. rewrite E in Hnth. destruct i; discriminate. }
    assert (Hok1 : track_ok t1) by (split; [assumption|lia]).
    destruct (marker_get_spec t1 fr Hne1 Hok1) as (i' & m' & Hi' & Hnear' & Hget').
    assert (i' = i).
    { eapply nearest_left_exact; try eassumption. reflexivity. }
    subst i'. assert (m' = set_framenr near fr) by congruence. subst m'.
    rewrite Hget'. cbn [framenr set_framenr]. rewrite Z.eqb_refl.
    exists i, (set_framenr near fr). eexists. split; [reflexivity|].
    cbn [markers last_marker set_last_marker].
    repeat split; try assumption; try reflexivity; try apply Hsame.
    + intros (mj & Hin & Hfr). exfalso. exact (Hnone mj Hin Hfr).
    + intros _. exists k, near. eexists. split; [reflexivity|].
      repeat split; assumption.
Qed.

(** C10.  [BKE_tracking_marker_get_exact] and [BKE_tracking_marker_ensure]
    dereference the result of [BKE_tracking_marker_get] without a test: on
    a track without markers both runs are undefined.  On a track with at
    least one marker neither run crashes; [get_exact] returns the marker of
    exactly the queried frame when there is one and [NULL] otherwise;
    [ensure] returns a marker of the queried frame, and when there was none
    the marker is a copy of the nearest one, put in at its sorted place. *)
Theorem get_exact_ensure_need_a_marker (t : Track) (fr : Z) :
  (markers t = [] ->
   BKE_tracking_marker_get_exact t fr = Crash /\
   BKE_tracking_marker_ensure t fr = Crash) /\
  (markers t <> [] -> track_ok t ->
   (exists r t',
      BKE_tracking_marker_get_exact t fr = Done (r, t') /\
      markers t' = markers t /\
      (forall j mj, nth_error (markers t) j = Some mj -> framenr mj = fr ->
                    r = Some j) /\
      ((forall mj, In mj (markers t) -> framenr mj <> fr) -> r = None)) /\
   (exists i m t',
      BKE_tracking_marker_ensure t fr = Done (Some i, t') /\
      nth_error (markers t') i = Some m /\ framenr m = fr /\
      ((exists mj, In mj (markers t) /\ framenr mj = fr) -> markers t' = markers t) /\
      ((forall mj, In mj (markers t) -> framenr mj <> fr) ->
       exists k near t0,
         BKE_tracking_marker_get t fr = Done (Some k, t0) /\
         nth_error (markers t) k = Some near /\
         m = set_framenr near fr /\
         markers t' = shift_in (markers t) i m))).
Proof.
  split.
  - intros He. split; [apply get_exact_empty | apply marker_ensure_empty]; assumption.
  - intros Hne Hok. split.
    + destruct (frame_present_dec (markers t) fr) as [(j & mj & Hj & Hf)|Hnone].
      * exists (Some j), (set_last_marker t (Z.of_nat j)).
        split; [eapply get_exact_found; eassumption|].
        split; [reflexivity|]. split.
        -- intros j' mj' Hj' Hf'. f_equal.
           eapply ascending_frame_inj; try eassumption; [apply Hok|congruence].
        -- intros Hnone. exfalso.
           apply (Hnone mj); [eapply nth_error_In; eassumption|assumption].
      * exists None, t. split; [apply get_exact_missing; assumption|].
        split; [reflexivity|]. split; [|reflexivity].
        intros j mj Hj Hf. exfalso.
        apply (Hnone mj); [eapply nth_error_In; eassumption|assumption].
    + destruct (marker_ensure_spec t fr Hne Hok)
        as (i & m & t' & He & Hn & Hf & _ & _ & _ & Hsame & Hnew).
      exists i, m, t'. repeat split; assumption.
Qed.

End MarkerEnsure.

Example ensure_at_7 :
  option_map (fun '(p, t) => (p, map framenr (markers t), last_marker t))
    (match BKE_tracking_marker_ensure (track_5_10_20 0) 7 with
     | Done r => Some r
     | Crash => None
     end)
  = Some (Some 1%nat, [5; 7; 10; 20], 1).
Proof. reflexivity. Qed.

Lemma get_exact_ensure_need_a_marker_witness :
  exists i m t',
    BKE_tracking_marker_ensure (track_5_10_20 0) 7 = Done (Some i, t') /\
    nth_error (markers t') i = Some m /\ framenr m = 7.
Proof.
  assert (Hne : markers (track_5_10_20 0) <> []) by discriminate.
  assert (Hok : track_ok (track_5_10_20 0)) by (apply track_5_10_20_ok; lia).
  destruct (proj2 (get_exact_ensure_need_a_marker (track_5_10_20 0) 7) Hne Hok)
    as [_ (i & m & t' & He & Hn & Hf & _)].
  exists i, m, t'. split; [exact He|]. split; [exact Hn | exact Hf].
Defined.

(** ** The marker store: [delete] and [path_clear] *)

Section MarkerClear.

Context {F : Type}.

Local Abbreviation Marker := (MovieTrackingMarker F).
Local Abbreviation Track := (MovieTrackingTrack F).

Lemma ascending_cons_iff (m : Marker) (ms : list Marker) :
  strictly_ascending (m :: ms) <->
  strictly_ascending ms /\ forall x, In x ms -> framenr m < framenr x.
Proof.
  split.
  - intros H. split; [eapply ascending_tail; eassumption|].
    intros x Hin. apply In_nth_error in Hin. destruct Hin as [j Hj].
    apply (ascending_pairwise _ H O (S j) m x); [lia|reflexivity|assumption].
  - intros [Hs Hall] [|i] mi mj Hi Hj.
    + simpl in Hi, Hj. inversion Hi; subst mi.
      apply Hall. eapply (nth_error_In _ O). eassumption.
    + exact (Hs i mi mj Hi Hj).
Qed.

Lemma delete_scan_in (ms : list Marker) (fr : Z) (x : Marker) :
  In x (delete_scan ms fr) -> In x ms.
Proof.
  induction ms as [|m ms IH]; simpl; [auto|].
  destruct (framenr m =? fr); [auto|]. intros [<-|Hin]; auto.
Qed.

Lemma delete_scan_ascending (ms : list Marker) (fr : Z) :
  strictly_ascending ms -> strictly_ascending (delete_scan ms fr).
Proof.
  induction ms as [|m ms IH]; intros Hs; [assumption|].
  apply ascending_cons_iff in Hs. destruct Hs as [Hs Hall]. simpl.
  destruct (framenr m =? fr); [assumption|].
  apply ascending_cons_iff. split; [auto|].
  intros x Hin. apply Hall. eapply delete_scan_in; eassumption.
Qed.

(** After [delete] no marker of the frame is left, the others stay. *)
Lemma delete_scan_spec (ms : list Marker) (fr : Z) (x : Marker) :
  strictly_ascending ms ->
  (In x (delete_scan ms fr) <-> In x ms /\ framenr x <> fr).
Proof.
  induction ms as [|m ms IH]; intros Hs; simpl; [tauto|].
  apply ascending_cons_iff in Hs. destruct Hs as [Hs Hall].
  destruct (framenr m =? fr) eqn:E.
  - apply Z.eqb_eq in E. split.
    + intros Hin. split; [auto|]. specialize (Hall x Hin). lia.
    + intros [[<-|Hin] Hne]; [congruence|assumption].
  - apply Z.eqb_neq in E. simpl. rewrite (IH Hs). split.
    + intros [<-|[Hin Hne]]; auto.
    + intros [[<-|Hin] Hne]; auto.
Qed.

Lemma firstn_ascending (ms : list Marker) (n : nat) :
  strictly_ascending ms -> strictly_ascending (firstn n ms).
Proof.
  intros Hs i mi mj Hi Hj. rewrite nth_error_firstn in Hi, Hj.
  destruct (i <? n)%nat; [|discriminate]. destruct (S i <? n)%nat; [|discriminate].
  eapply Hs; eassumption.
Qed.

Lemma skipn_ascending (ms : list Marker) (n : nat) :
  strictly_ascending ms -> strictly_ascending (skipn n ms).
Proof.
  intros Hs i mi mj Hi Hj. rewrite nth_error_skipn in Hi, Hj.
  apply (Hs (n + i)%nat); [assumption|]. rewrite <- Nat.add_succ_r. assumption.
Qed.

Lemma insert_disabled_overwrite (t : Track) (ref_marker : Marker) (before : bool) :
  tracking_marker_insert_disabled t ref_marker before true =
  ('(_, t') <- BKE_tracking_marker_insert t (disabled_neighbour ref_marker before) ;;
   Done t').
Proof.
  unfold tracking_marker_insert_disabled, disabled_neighbour.
  destruct before; reflexivity.
Qed.

Lemma disabled_neighbour_disabled (m : Marker) (before : bool) :
  marker_disabled (disabled_neighbour m before) = true.
Proof.
  unfold marker_disabled, has_flag, disabled_neighbour. cbn [flag set_framenr set_flag].
  apply negb_true_iff, Z.eqb_neq. intros H.
  assert (Hb : Z.testbit
                 (Z.land (Z.lor (Z.land (flag m) (Z.lnot MARKER_TRACKED)) MARKER_DISABLED)
                         MARKER_DISABLED) 0 = true).
  { rewrite Z.land_spec, Z.lor_spec. unfold MARKER_DISABLED. simpl Z.shiftl.
    change (Z.testbit 1 0) with true. rewrite orb_true_r. reflexivity. }
  rewrite H in Hb. discriminate Hb.
Qed.

Lemma insert_keeps_store (t : Track) (m : Marker) :
  track_ok t ->
  exists i t', BKE_tracking_marker_insert t m = Done (i, t') /\
               track_ok t' /\ markers t' <> [] /\ last_marker t' < markersnr t'.
Proof.
  intros Hok.
  destruct (marker_insert_spec t m Hok) as (i & t' & Hins & Hn & Hasc & Hlast & _ & _).
  exists i, t'. split; [assumption|].
  assert (Hlen : (i < length (markers t'))%nat) by (apply nth_error_Some; congruence).
  repeat split; try assumption; try lia.
  - intros E. rewrite E in Hlen. simpl in Hlen. lia.
  - unfold markersnr. lia.
Qed.

Lemma insert_disabled_keeps_store (t : Track) (m : Marker) (before : bool) :
  track_ok t ->
  exists t', tracking_marker_insert_disabled t m before true = Done t' /\
             track_ok t' /\ markers t' <> [] /\ last_marker t' < markersnr t'.
Proof.
  intros Hok. rewrite insert_disabled_overwrite.
  destruct (insert_keeps_store t (disabled_neighbour m before) Hok)
    as (i & t' & Hins & H). rewrite Hins. exists t'. split; [reflexivity|exact H].
Qed.

Lemma path_clear_keeps_store (t : Track) (ref_frame : Z) (action : clear_action) :
  track_ok t ->
  (markers t <> [] \/ action <> TRACK_CLEAR_ALL) ->
  exists t', BKE_tracking_track_path_clear t ref_frame action = Done t' /\
             track_ok t' /\ cursor_in_range t'.
Proof.
  intros Hok Hdef. pose proof Hok as [Hs Hc].
  unfold BKE_tracking_track_path_clear. destruct action.
  - (* UPTO *)
    set (t1 := match upto_scan (markers t) (length (markers t)) ref_frame with
               | Some a => set_markers t (skipn a (markers t))
               | None => t
               end).
    assert (Hok1 : track_ok t1).
    { subst t1. destruct (upto_scan _ _ _); [|assumption].
      split; [apply skipn_ascending; assumption | exact Hc]. }
    destruct (markersnr t1 =? 0) eqn:Hz.
    + exists t1. split; [reflexivity|]. split; [assumption|].
      intros Hne. exfalso. apply Hne. apply Z.eqb_eq in Hz. unfold markersnr in Hz.
      destruct (markers t1); [reflexivity | simpl in Hz; lia].
    + cbn [negb]. apply Z.eqb_neq in Hz.
      destruct (marker_at_in_range (markers t1) 0) as (m & Hat & _).
      { unfold markersnr in Hz. lia. }
      rewrite Hat. cbn [bind].
      destruct (insert_disabled_keeps_store t1 m true Hok1) as (t' & Hr & Hok' & Hne' & Hcur).
      exists t'. split; [assumption|]. split; [assumption|]. intros _. assumption.
  - (* REMAINED *)
    set (n := match markers t with
              | [] => O
              | _ :: rest => remained_scan rest 1 ref_frame
              end).
    set (t1 := set_markers t (firstn n (markers t))).
    assert (Hok1 : track_ok t1).
    { split; [apply firstn_ascending; assumption | exact Hc]. }
    destruct (markersnr t1 =? 0) eqn:Hz.
    + exists t1. split; [reflexivity|]. split; [assumption|].
      intros Hne. exfalso. apply Hne. apply Z.eqb_eq in Hz. unfold markersnr in Hz.
      destruct (markers t1); [reflexivity | simpl in Hz; lia].
    + cbn [negb]. apply Z.eqb_neq in Hz.
      destruct (marker_at_in_range (markers t1) (markersnr t1 - 1)) as (m & Hat & _).
      { unfold markersnr in *. lia. }
      rewrite Hat. cbn [bind].
      destruct (insert_disabled_keeps_store t1 m false Hok1) as (t' & Hr & Hok' & Hne' & Hcur).
      exists t'. split; [assumption|]. split; [assumption|]. intros _. assumption.
  - (* ALL *)
    assert (Hne : markers t <> []) by (destruct Hdef; congruence).
    destruct (marker_get_spec t ref_frame Hne Hok) as (k & near & Hk & _ & Hget).
    rewrite Hget. cbn [bind]. unfold deref.
    rewrite get_cursor_markers, (marker_at_of_nat _ _ _ Hk). cbn [bind].
    set (t0 := set_markers _ []).
    assert (Hok0 : track_ok t0).
    { split.
      - intros i ? ? Hi. destruct i; discriminate Hi.
      - subst t0. cbn [last_marker set_markers].
        destruct (framenr near =? ref_frame); cbn [last_marker set_last_marker]; lia. }
    destruct (insert_keeps_store t0 near Hok0) as (i1 & t1 & Hr1 & Hok1 & _).
    rewrite Hr1. cbn [bind].
    destruct (insert_disabled_keeps_store t1 near true Hok1) as (t2 & Hr2 & Hok2 & _).
    rewrite Hr2. cbn [bind].
    destruct (insert_disabled_keeps_store t2 near false Hok2) as (t3 & Hr3 & Hok3 & _ & Hcur).
    exists t3. split; [assumption|]. split; [assumption|]. intros _. assumption.
Qed.

Lemma path_clear_all_empty (t : Track) (ref_frame : Z) :
  markers t = [] -> BKE_tracking_track_path_clear t ref_frame TRACK_CLEAR_ALL = Crash.
Proof.
  intros H. unfold BKE_tracking_track_path_clear.
  rewrite (marker_get_empty t ref_frame H). reflexivity.
Qed.

End MarkerClear.

(** ** The marker store: the sort invariant along operation sequences *)

Section MarkerSequences.

Context {F : Type}.

Local Abbreviation Marker := (MovieTrackingMarker F).
Local Abbreviation Track := (MovieTrackingTrack F).

Lemma run_op_keeps_store (t t' : Track) (op : store_op) :
  track_ok t -> run_op t op = Done t' ->
  track_ok t' /\ (is_delete op = false -> cursor_in_range t').
Proof.
  intros Hok Hrun. pose proof Hok as [Hs Hc]. destruct op as [m|fr|fr|ref action];
    cbn [run_op is_delete] in *.
  - destruct (insert_keeps_store t m Hok) as (i & t1 & Hins & Hok1 & _ & Hcur).
    rewrite Hins in Hrun. cbn [bind] in Hrun. inversion Hrun; subst t1.
    split; [assumption|]. intros _ _. assumption.
  - inversion Hrun; subst t'. split; [|discriminate].
    split; [apply delete_scan_ascending; assumption | exact Hc].
  - destruct (markers t) as [|m0 ms0] eqn:Hms.
    + rewrite (marker_ensure_empty t fr Hms) in Hrun. discriminate Hrun.
    + assert (Hne : markers t <> []) by (rewrite Hms; discriminate).
      destruct (marker_ensure_spec t fr Hne Hok)
        as (i & m & t1 & He & Hn & _ & Hasc & Hlast & _).
      rewrite He in Hrun. cbn [bind] in Hrun. inversion Hrun; subst t1.
      assert (Hlen : (i < length (markers t'))%nat) by (apply nth_error_Some; congruence).
      split; [split; [assumption|lia]|]. intros _ _. unfold markersnr. lia.
  - destruct (markers t) as [|m0 ms0] eqn:Hms.
    + destruct action.
      * destruct (path_clear_keeps_store t ref TRACK_CLEAR_UPTO Hok)
          as (t1 & Hr & Hok1 & Hcur); [right; discriminate|].
        rewrite Hr in Hrun. inversion Hrun; subst t1. split; [assumption|auto].
      * destruct (path_clear_keeps_store t ref TRACK_CLEAR_REMAINED Hok)
          as (t1 & Hr & Hok1 & Hcur); [right; discriminate|].
        rewrite Hr in Hrun. inversion Hrun; subst t1. split; [assumption|auto].
      * rewrite (path_clear_all_empty t ref Hms) in Hrun. discriminate Hrun.
    + destruct (path_clear_keeps_store t ref action Hok)
        as (t1 & Hr & Hok1 & Hcur); [left; rewrite Hms; discriminate|].
      rewrite Hr in Hrun. inversion Hrun; subst t1. split; [assumption|auto].
Qed.

(** An operation has a defined outcome unless it dereferences the lookup
    on a track without markers. *)
Lemma run_op_defined (t : Track) (op : store_op) :
  track_ok t -> markers t <> [] \/ needs_a_marker op = false ->
  exists t', run_op t op = Done t'.
Proof.
  intros Hok Hdef. destruct op as [m|fr|fr|ref action]; cbn [run_op].
  - destruct (insert_keeps_store t m Hok) as (i & t1 & Hins & _).
    rewrite Hins. eexists. reflexivity.
  - eexists. reflexivity.
  - destruct Hdef as [Hne|Hn]; [|discriminate Hn].
    destruct (marker_ensure_spec t fr Hne Hok) as (i & m & t1 & He & _).
    rewrite He. eexists. reflexivity.
  - destruct (path_clear_keeps_store t ref action Hok) as (t1 & Hr & _).
    + destruct Hdef as [Hne|Hn]; [left; assumption|].
      right. intros ->. discriminate Hn.
    + exists t1. assumption.
Qed.

Lemma run_ops_app (t : Track) (ops1 ops2 : list store_op) :
  run_ops t (ops1 ++ ops2) = (t1 <- run_ops t ops1 ;; run_ops t1 ops2).
Proof.
  revert t. induction ops1 as [|op ops1 IH]; intros t; [reflexivity|].
  simpl. destruct (run_op t op) as [t1|]; [|reflexivity]. cbn [bind]. apply IH.
Qed.

Lemma run_ops_keep_order (t t' : Track) (ops : list store_op) :
  track_ok t -> run_ops t ops = Done t' -> track_ok t'.
Proof.
  revert t. induction ops as [|op ops IH]; intros t Hok Hrun; simpl in Hrun.
  - inversion Hrun; subst. assumption.
  - destruct (run_op t op) as [t1|] eqn:Hop; [|discriminate Hrun].
    cbn [bind] in Hrun. apply (IH t1); [|assumption].
    eapply run_op_keeps_store; eassumption.
Qed.

(** C4 (as amended).  Along every sequence of [insert], [delete],
    [ensure] and [path_clear] that starts on a sorted track with a
    non-negative cursor, the marker array stays strictly ascending by frame
    and the cursor stays non-negative.  [last_marker < markersnr] holds on a
    non-empty track right after an [insert], an [ensure] or a [path_clear];
    [delete] leaves the cursor as it is.  Every operation has a defined
    outcome on the states reached, [ensure] and [path_clear ALL] on a track
    without markers apart. *)
Theorem store_ops_keep_markers_sorted (t t' : Track) (ops : list store_op) :
  track_ok t -> run_ops t ops = Done t' ->
  strictly_ascending (markers t') /\ 0 <= last_marker t' /\
  (forall ops0 op, ops = ops0 ++ [op] -> is_delete op = false ->
                   markers t' <> [] -> last_marker t' < markersnr t') /\
  (forall op, markers t' <> [] \/ needs_a_marker op = false ->
              exists t'', run_op t' op = Done t'').
Proof.
  intros Hok Hrun.
  pose proof (run_ops_keep_order t t' ops Hok Hrun) as Hok'.
  split; [apply Hok'|]. split; [apply Hok'|]. split.
  - intros ops0 op -> Hnd. rewrite run_ops_app in Hrun.
    destruct (run_ops t ops0) as [t1|] eqn:H0; [|discriminate Hrun].
    cbn [bind] in Hrun. simpl in Hrun.
    destruct (run_op t1 op) as [t2|] eqn:Hop; [|discriminate Hrun].
    cbn [bind] in Hrun. inversion Hrun; subst t2.
    pose proof (run_ops_keep_order t t1 ops0 Hok H0) as Hok1.
    destruct (run_op_keeps_store t1 t' op Hok1 Hop) as [_ Hcur]. exact (Hcur Hnd).
  - intros op Hdef. apply run_op_defined; assumption.
Qed.

End MarkerSequences.

(** C4, as stated, fails: a [delete] leaves the cursor where it was, one
    past the end here. *)
Lemma store_invariant_lost_by_delete :
  ~ (forall (t t' : MovieTrackingTrack binary32) (ops : list store_op),
       store_invariant t -> run_ops t ops = Done t' -> store_invariant t').
Proof.
  intros H.
  assert (Hinv : store_invariant (track_5_10_20 2)).
  { split; [apply ascendingb_spec; reflexivity|]. intros _. cbv. split; [discriminate|reflexivity]. }
  specialize (H (track_5_10_20 2) _ [OpDelete 5] Hinv eq_refl).
  destruct H as [_ Hcur]. 
  assert (Hne : markers (BKE_tracking_marker_delete (track_5_10_20 2) 5) <> [])
    by discriminate.
  specialize (Hcur Hne). cbv in Hcur. destruct Hcur as [_ Hlt]. discriminate Hlt.
Qed.

Example insert_then_delete_cursor :
  option_map (fun t => (map framenr (markers t), last_marker t))
    (match run_ops (track_5_10_20 0)
             [OpInsert (marker_at_frame 30 0 b32_zero b32_zero); OpDelete 5] with
     | Done t => Some t
     | Crash => None
     end)
  = Some ([10; 20; 30], 3).
Proof. reflexivity. Qed.

Lemma store_ops_keep_markers_sorted_witness :
  exists t',
    run_ops (track_5_10_20 0)
      [OpInsert (marker_at_frame 30 0 b32_zero b32_zero); OpDelete 5;
       OpEnsure 7; OpClear 10 TRACK_CLEAR_REMAINED] = Done t' /\
    strictly_ascending (markers t') /\ 0 <= last_marker t' /\
    last_marker t' < markersnr t'.
Proof.
  eexists. split; [reflexivity|].
  assert (Hok : track_ok (track_5_10_20 0)) by (apply track_5_10_20_ok; lia).
  pose proof (store_ops_keep_markers_sorted (track_5_10_20 0) _
                [OpInsert (marker_at_frame 30 0 b32_zero b32_zero); OpDelete 5;
                 OpEnsure 7; OpClear 10 TRACK_CLEAR_REMAINED] Hok eq_refl)
    as (Hs & Hc & Hcur & _).
  split; [exact Hs|]. split; [exact Hc|].
  apply (Hcur [OpInsert (marker_at_frame 30 0 b32_zero b32_zero); OpDelete 5; OpEnsure 7]
              (OpClear 10 TRACK_CLEAR_REMAINED) eq_refl eq_refl).
  discriminate.
Defined.

(** ** The marker store: what [path_clear] leaves *)

Section MarkerPathClear.

Context {F : Type}.

Local Abbreviation Marker := (MovieTrackingMarker F).
Local Abbreviation Track := (MovieTrackingTrack F).

Lemma shift_in_end (ms : list Marker) (m : Marker) :
  shift_in ms (length ms) m = ms ++ [m].
Proof.
  unfold shift_in. rewrite firstn_all, skipn_all. reflexivity.
Qed.

Lemma insert_after_all (t : Track) (d : Marker) :
  track_ok t ->
  (forall x, In x (markers t) -> framenr x < framenr d) ->
  exists i t', BKE_tracking_marker_insert t d = Done (i, t') /\
               markers t' = markers t ++ [d] /\ track_ok t'.
Proof.
  intros Hok Hall.
  destruct (marker_insert_spec t d Hok)
    as (i & t' & Hins & Hn & Hasc & Hlast & _ & Hshape).
  exists i, t'. split; [assumption|].
  destruct Hshape as [(old & Hold & Hf & _)|(_ & Hi & Hms)].
  { exfalso. apply nth_error_In in Hold. specialize (Hall old Hold). lia. }
  assert (i = length (markers t)).
  { destruct (Nat.eq_dec i (length (markers t))) as [|Hne]; [assumption|exfalso].
    destruct (nth_error (markers t) i) as [x|] eqn:Hx.
    2:{ apply nth_error_None in Hx. lia. }
    assert (Hx' : nth_error (markers t') (S i) = Some x).
    { rewrite Hms, nth_error_shift_in by assumption.
      replace (S i <? i)%nat with false by (symmetry; apply Nat.ltb_ge; lia).
      replace (S i =? i)%nat with false by (symmetry; apply Nat.eqb_neq; lia).
      replace (S i - 1)%nat with i by lia. assumption. }
    pose proof (Hasc i d x Hn Hx'). apply nth_error_In in Hx.
    specialize (Hall x Hx). lia. }
  subst i. rewrite shift_in_end in Hms. split; [assumption|]. split; [assumption|lia].
Qed.

Lemma insert_before_all (t : Track) (d : Marker) :
  track_ok t ->
  (forall x, In x (markers t) -> framenr d < framenr x) ->
  exists i t', BKE_tracking_marker_insert t d = Done (i, t') /\
               markers t' = d :: markers t /\ track_ok t'.
Proof.
  intros Hok Hall.
  destruct (marker_insert_spec t d Hok)
    as (i & t' & Hins & Hn & Hasc & Hlast & _ & Hshape).
  exists i, t'. split; [assumption|].
  destruct Hshape as [(old & Hold & Hf & _)|(_ & Hi & Hms)].
  { exfalso. apply nth_error_In in Hold. specialize (Hall old Hold). lia. }
  assert (i = O).
  { destruct i as [|i']; [reflexivity|exfalso].
    destruct (nth_error (markers t) i') as [x|] eqn:Hx.
    2:{ apply nth_error_None in Hx. lia. }
    assert (Hx' : nth_error (markers t') i' = Some x).
    { rewrite Hms, nth_error_shift_in by assumption.
      replace (i' <? S i')%nat with true by (symmetry; apply Nat.ltb_lt; lia).
      assumption. }
    pose proof (Hasc i' x d Hx' Hn). apply nth_error_In in Hx.
    specialize (Hall x Hx). lia. }
  subst i. split; [exact Hms|]. split; [assumption|lia].
Qed.

Lemma remained_scan_spec (rest : list Marker) (a : nat) (ref_frame : Z) :
  (a <= remained_scan rest a ref_frame <= a + length rest)%nat /\
  (forall k x, (k < remained_scan rest a ref_frame - a)%nat ->
               nth_error rest k = Some x -> framenr x <= ref_frame) /\
  (forall x, nth_error rest (remained_scan rest a ref_frame - a) = Some x ->
             ref_frame < framenr x).
Proof.
  revert a. induction rest as [|m rest IH]; intros a; simpl.
  - rewrite Nat.sub_diag. split; [lia|]. split; [intros; lia|].
    intros x Hx. discriminate Hx.
  - destruct (framenr m >? ref_frame) eqn:Hgt.
    + rewrite Nat.sub_diag. split; [lia|]. split; [intros; lia|].
      intros x Hx. inversion Hx; subst x. apply Z.gtb_lt in Hgt. assumption.
    + destruct (IH (S a)) as (H1 & H2 & H3).
      assert (Hle : framenr m <= ref_frame).
      { rewrite Z.gtb_ltb in Hgt. apply Z.ltb_ge in Hgt. assumption. }
      replace (remained_scan rest (S a) ref_frame - a)%nat
        with (S (remained_scan rest (S a) ref_frame - S a)) by lia.
      split; [lia|]. split.
      * intros [|k] x Hk Hx; simpl in Hx.
        -- inversion Hx; subst. assumption.
        -- apply (H2 k); [lia|assumption].
      * intros x Hx. simpl in Hx. auto.
Qed.

Lemma upto_scan_spec (ms : list Marker) (n : nat) (ref_frame : Z) :
  (n <= length ms)%nat ->
  match upto_scan ms n ref_frame with
  | Some a => (a < n)%nat /\
              (exists x, nth_error ms a = Some x /\ framenr x <= ref_frame) /\
              (forall k x, (a < k < n)%nat -> nth_error ms k = Some x ->
                           ref_frame < framenr x)
  | None => forall k x, (k < n)%nat -> nth_error ms k = Some x -> ref_frame < framenr x
  end.
Proof.
  induction n as [|n IH]; intros Hn; simpl.
  - intros; lia.
  - destruct (nth_error ms n) as [m|] eqn:Hm.
    2:{ apply nth_error_None in Hm. lia. }
    destruct (framenr m <=? ref_frame) eqn:Hle.
    + apply Z.leb_le in Hle. split; [lia|]. split; [exists m; split; assumption|].
      intros; lia.
    + apply Z.leb_gt in Hle. specialize (IH ltac:(lia)).
      destruct (upto_scan ms n ref_frame) as [a|].
      * destruct IH as (H1 & H2 & H3). split; [lia|]. split; [assumption|].
        intros k x Hk Hx. destruct (Nat.eq_dec k n) as [->|Hne].
        -- assert (x = m) by congruence. subst. assumption.
        -- apply (H3 k); [lia|assumption].
      * intros k x Hk Hx. destruct (Nat.eq_dec k n) as [->|Hne].
        -- assert (x = m) by congruence. subst. assumption.
        -- apply (IH k); [lia|assumption].
Qed.

Lemma in_firstn_frames (ms : list Marker) (j : nat) (mj x : Marker) :
  strictly_ascending ms -> nth_error ms j = Some mj ->
  (In x (firstn (S j) ms) <-> In x ms /\ framenr x <= framenr mj).
Proof.
  intros Hs Hj. split.
  - intros Hin. apply In_nth_error in Hin. destruct Hin as [k Hk].
    rewrite nth_error_firstn in Hk. destruct (k <? S j)%nat eqn:Hlt; [|discriminate].
    apply Nat.ltb_lt in Hlt. split; [eapply nth_error_In; eassumption|].
    destruct (Nat.eq_dec k j) as [->|Hne].
    + assert (x = mj) by congruence. subst. lia.
    + pose proof (ascending_pairwise _ Hs k j x mj ltac:(lia) Hk Hj). lia.
  - intros [Hin Hle]. apply In_nth_error in Hin. destruct Hin as [k Hk].
    apply (nth_error_In _ k). rewrite nth_error_firstn.
    replace (k <? S j)%nat with true; [assumption|].
    symmetry. apply Nat.ltb_lt.
    destruct (Nat.lt_ge_cases k (S j)) as [|Hge]; [assumption|].
    pose proof (ascending_pairwise _ Hs j k mj x ltac:(lia) Hj Hk). lia.
Qed.

Lemma in_skipn_frames (ms : list Marker) (j : nat) (mj x : Marker) :
  strictly_ascending ms -> nth_error ms j = Some mj ->
  (In x (skipn j ms) <-> In x ms /\ framenr mj <= framenr x).
Proof.
  intros Hs Hj. split.
  - intros Hin. apply In_nth_error in Hin. destruct Hin as [k Hk].
    rewrite nth_error_skipn in Hk. split; [eapply nth_error_In; eassumption|].
    destruct k as [|k].
    + rewrite Nat.add_0_r in Hk. assert (x = mj) by congruence. subst. lia.
    + pose proof (ascending_pairwise _ Hs j (j + S k) mj x ltac:(lia) Hj Hk). lia.
  - intros [Hin Hle]. apply In_nth_error in Hin. destruct Hin as [k Hk].
    assert (Hjk : (j <= k)%nat).
    { destruct (Nat.le_gt_cases j k) as [|Hgt]; [assumption|].
      pose proof (ascending_pairwise _ Hs k j x mj Hgt Hk Hj). lia. }
    apply (nth_error_In _ (k - j)). rewrite nth_error_skipn.
    replace (j + (k - j))%nat with k by lia. assumption.
Qed.

Lemma path_clear_remained_at (t : Track) (j : nat) (m_ref : Marker) :
  track_ok t -> nth_error (markers t) j = Some m_ref ->
  exists t',
    BKE_tracking_track_path_clear t (framenr m_ref) TRACK_CLEAR_REMAINED = Done t' /\
    markers t' = firstn (S j) (markers t) ++ [disabled_neighbour m_ref false].
Proof.
  intros Hok Hj. pose proof Hok as [Hs Hc].
  unfold BKE_tracking_track_path_clear.
  destruct (markers t) as [|first rest] eqn:Hms; [destruct j; discriminate|].
  rewrite <- Hms in *.
  destruct (remained_scan_spec rest 1 (framenr m_ref)) as (Hrange & Hlow & Hhigh).
  set (n := remained_scan rest 1 (framenr m_ref)) in *.
  assert (Hlen : length (markers t) = S (length rest)) by (rewrite Hms; reflexivity).
  assert (Hrest : forall k, nth_error rest k = nth_error (markers t) (S k))
    by (intros k; rewrite Hms; reflexivity).
  assert (Hjlen : (j < length (markers t))%nat) by (apply nth_error_Some; congruence).
  assert (Hn : n = S j).
  { destruct (Nat.lt_trichotomy n (S j)) as [Hlt|[Heq|Hgt]]; [exfalso|assumption|exfalso].
    - destruct (nth_error rest (n - 1)) as [x|] eqn:Hx.
      2:{ apply nth_error_None in Hx. lia. }
      pose proof (Hhigh x eq_refl) as Hx'. rewrite Hrest in Hx.
      replace (S (n - 1)) with n in Hx by lia.
      destruct (Nat.eq_dec n j) as [E|E].
      + rewrite E in Hx. assert (x = m_ref) by congruence. subst. lia.
      + pose proof (ascending_pairwise _ Hs n j x m_ref ltac:(lia) Hx Hj). lia.
    - destruct (nth_error rest j) as [x|] eqn:Hx.
      2:{ apply nth_error_None in Hx. lia. }
      pose proof (Hlow j x ltac:(lia) Hx) as Hx'. rewrite Hrest in Hx.
      pose proof (ascending_pairwise _ Hs j (S j) m_ref x ltac:(lia) Hj Hx). lia. }
  rewrite Hn.
  set (t1 := set_markers t (firstn (S j) (markers t))).
  assert (Hok1 : track_ok t1).
  { split; [apply firstn_ascending; assumption | exact Hc]. }
  assert (Hnr : markersnr t1 = Z.of_nat (S j)).
  { unfold markersnr, t1. cbn [markers set_markers]. rewrite length_firstn. lia. }
  rewrite Hnr. replace (Z.of_nat (S j) =? 0) with false by (symmetry; apply Z.eqb_neq; lia).
  cbn [negb]. replace (Z.of_nat (S j) - 1) with (Z.of_nat j) by lia.
  assert (Hat : nth_error (markers t1) j = Some m_ref).
  { unfold t1. cbn [markers set_markers]. rewrite nth_error_firstn.
    replace (j <? S j)%nat with true by (symmetry; apply Nat.ltb_lt; lia). assumption. }
  rewrite (marker_at_of_nat _ _ _ Hat). cbn [bind].
  rewrite insert_disabled_overwrite.
  destruct (insert_after_all t1 (disabled_neighbour m_ref false) Hok1)
    as (i & t' & Hins & Hres & _).
  { intros x Hin. unfold t1 in Hin. cbn [markers set_markers] in Hin.
    apply (in_firstn_frames _ j m_ref x Hs Hj) in Hin.
    unfold disabled_neighbour. cbn [framenr set_framenr]. lia. }
  rewrite Hins. cbn [bind]. exists t'. split; [reflexivity|exact Hres].
Qed.

Lemma path_clear_upto_at (t : Track) (j : nat) (m_ref : Marker) :
  track_ok t -> nth_error (markers t) j = Some m_ref ->
  exists t',
    BKE_tracking_track_path_clear t (framenr m_ref) TRACK_CLEAR_UPTO = Done t' /\
    markers t' = disabled_neighbour m_ref true :: skipn j (markers t).
Proof.
  intros Hok Hj. pose proof Hok as [Hs Hc].
  unfold BKE_tracking_track_path_clear.
  assert (Hjlen : (j < length (markers t))%nat) by (apply nth_error_Some; congruence).
  pose proof (upto_scan_spec (markers t) (length (markers t)) (framenr m_ref) (le_n _))
    as Hscan.
  destruct (upto_scan (markers t) (length (markers t)) (framenr m_ref)) as [a|].
  2:{ specialize (Hscan j m_ref Hjlen Hj). lia. }
  destruct Hscan as (Ha & (x & Hx & Hxle) & Hhigh).
  assert (a = j).
  { destruct (Nat.lt_trichotomy a j) as [Hlt|[Heq|Hgt]]; [exfalso|assumption|exfalso].
    - specialize (Hhigh j m_ref ltac:(lia) Hj). lia.
    - pose proof (ascending_pairwise _ Hs j a m_ref x Hgt Hj Hx). lia. }
  subst a. assert (x = m_ref) by congruence. subst x.
  set (t1 := set_markers t (skipn j (markers t))).
  assert (Hok1 : track_ok t1).
  { split; [apply skipn_ascending; assumption | exact Hc]. }
  assert (Hat : nth_error (markers t1) O = Some m_ref).
  { unfold t1. cbn [markers set_markers]. rewrite nth_error_skipn, Nat.add_0_r.
    assumption. }
  assert (Hnz : (markersnr t1 =? 0) = false).
  { apply Z.eqb_neq. unfold markersnr.
    destruct (markers t1); [discriminate Hat | simpl length; lia]. }
  rewrite Hnz. cbn [negb].
  change 0 with (Z.of_nat O). rewrite (marker_at_of_nat _ O _ Hat). cbn [bind].
  rewrite insert_disabled_overwrite.
  destruct (insert_before_all t1 (disabled_neighbour m_ref true) Hok1)
    as (i & t' & Hins & Hres & _).
  { intros y Hin. unfold t1 in Hin. cbn [markers set_markers] in Hin.
    apply (in_skipn_frames _ j m_ref y Hs Hj) in Hin.
    unfold disabled_neighbour. cbn [framenr set_framenr]. lia. }
  rewrite Hins. cbn [bind]. exists t'. split; [reflexivity|exact Hres].
Qed.

Lemma path_clear_all_at (t : Track) (j : nat) (m_ref : Marker) :
  track_ok t -> nth_error (markers t) j = Some m_ref ->
  exists t',
    BKE_tracking_track_path_clear t (framenr m_ref) TRACK_CLEAR_ALL = Done t' /\
    markers t' =
      [disabled_neighbour m_ref true; m_ref; disabled_neighbour m_ref false].
Proof.
  intros Hok Hj. pose proof Hok as [Hs Hc].
  unfold BKE_tracking_track_path_clear.
  assert (Hne : markers t <> []) by (intros E; rewrite E in Hj; destruct j; discriminate).
  destruct (marker_get_spec t (framenr m_ref) Hne Hok) as (i & m & Hi & Hnear & Hget).
  assert (i = j) by (eapply nearest_left_exact; try eassumption; reflexivity). subst i.
  assert (m = m_ref) by congruence. subst m.
  rewrite Hget. cbn [bind]. rewrite Z.eqb_refl. unfold deref.
  cbn [markers set_last_marker]. rewrite (marker_at_of_nat _ _ _ Hj). cbn [bind].
  set (t0 := set_markers (set_last_marker t (Z.of_nat j)) []).
  assert (Hok0 : track_ok t0).
  { split; [intros k ? ? Hk; destruct k; discriminate Hk|].
    unfold t0. cbn [last_marker set_markers set_last_marker]. lia. }
  destruct (insert_after_all t0 m_ref Hok0) as (i1 & t1 & Hins1 & Hres1 & Hok1).
  { intros x []. }
  rewrite Hins1. cbn [bind]. rewrite insert_disabled_overwrite.
  destruct (insert_before_all t1 (disabled_neighbour m_ref true) Hok1)
    as (i2 & t2 & Hins2 & Hres2 & Hok2).
  { rewrite Hres1. unfold t0. cbn [markers set_markers]. simpl.
    intros x [<-|[]]. unfold disabled_neighbour. cbn [framenr set_framenr]. lia. }
  rewrite Hins2. cbn [bind]. rewrite insert_disabled_overwrite.
  destruct (insert_after_all t2 (disabled_neighbour m_ref false) Hok2)
    as (i3 & t3 & Hins3 & Hres3 & _).
  { rewrite Hres2, Hres1. unfold t0. cbn [markers set_markers]. simpl.
    intros x [<-|[<-|[]]]; unfold disabled_neighbour; cbn [framenr set_framenr]; lia. }
  rewrite Hins3. cbn [bind]. exists t3. split; [reflexivity|].
  rewrite Hres3, Hres2, Hres1. reflexivity.
Qed.


End MarkerPathClear.

Example clear_remained_off_marker :
  option_map (fun t => map (fun m => (framenr m, marker_disabled m)) (markers t))
    (match BKE_tracking_track_path_clear (track_5_10_20 0) 13 TRACK_CLEAR_REMAINED with
     | Done t => Some t
     | Crash => None
     end)
  = Some [(5, false); (10, false); (11, true)].
Proof. reflexivity. Qed.

Example clear_upto_off_marker :
  option_map (fun t => map (fun m => (framenr m, marker_disabled m)) (markers t))
    (match BKE_tracking_track_path_clear (track_5_10_20 0) 13 TRACK_CLEAR_UPTO with
     | Done t => Some t
     | Crash => None
     end)
  = Some [(9, true); (10, false); (20, false)].
Proof. reflexivity. Qed.

Example clear_all_off_marker :
  option_map (fun t => map (fun m => (framenr m, marker_disabled m)) (markers t))
    (match BKE_tracking_track_path_clear (track_5_10_20 0) 13 TRACK_CLEAR_ALL with
     | Done t => Some t
     | Crash => None
     end)
  = Some [(9, true); (10, false); (11, true)].
Proof. reflexivity. Qed.


(** ** Tests, insertion and deletion seen through the lookup *)

Section MarkerTestFacts.

Context {F : Type}.

Local Abbreviation Marker := (MovieTrackingMarker F).
Local Abbreviation Track := (MovieTrackingTrack F).

Lemma set_last_marker_same (t : Track) : set_last_marker t (last_marker t) = t.
Proof. destruct t; reflexivity. Qed.

Lemma marker_disabled_test (m : Marker) :
  (Z.land (flag m) MARKER_DISABLED =? 0) = negb (marker_disabled m).
Proof. unfold marker_disabled, has_flag. rewrite negb_involutive. reflexivity. Qed.

Lemma has_marker_found (t : Track) (fr : Z) (j : nat) (mj : Marker) :
  track_ok t -> nth_error (markers t) j = Some mj -> framenr mj = fr ->
  BKE_tracking_track_has_marker_at_frame t fr
    = Done (true, set_last_marker t (Z.of_nat j)) /\
  BKE_tracking_track_has_enabled_marker_at_frame t fr
    = Done (negb (marker_disabled mj), set_last_marker t (Z.of_nat j)).
Proof.
  intros Hok Hj Hfr.
  unfold BKE_tracking_track_has_marker_at_frame,
    BKE_tracking_track_has_enabled_marker_at_frame.
  rewrite (get_exact_found t fr j mj Hok Hj Hfr). cbn [bind].
  split; [reflexivity|].
  cbn [markers set_last_marker]. rewrite (marker_at_of_nat _ _ _ Hj). cbn [bind].
  rewrite marker_disabled_test. reflexivity.
Qed.

Lemma has_marker_missing (t : Track) (fr : Z) :
  markers t <> [] -> track_ok t ->
  (forall mj, In mj (markers t) -> framenr mj <> fr) ->
  BKE_tracking_track_has_marker_at_frame t fr = Done (false, t) /\
  BKE_tracking_track_has_enabled_marker_at_frame t fr = Done (false, t).
Proof.
  intros Hne Hok Hno.
  unfold BKE_tracking_track_has_marker_at_frame,
    BKE_tracking_track_has_enabled_marker_at_frame.
  rewrite (get_exact_missing t fr Hne Hok Hno). split; reflexivity.
Qed.

(** X1.  The two tests dereference the result of the lookup: on a track without
    markers they have no defined result.  On a sorted track with markers
    they answer whether a marker, or an enabled marker, sits on the frame,
    and leave the marker array alone. *)
Theorem has_marker_at_frame_tests (t : Track) (fr : Z) :
  (markers t = [] ->
   BKE_tracking_track_has_marker_at_frame t fr = Crash /\
   BKE_tracking_track_has_enabled_marker_at_frame t fr = Crash) /\
  (markers t <> [] -> track_ok t ->
   exists b1 b2 t1 t2,
     BKE_tracking_track_has_marker_at_frame t fr = Done (b1, t1) /\
     BKE_tracking_track_has_enabled_marker_at_frame t fr = Done (b2, t2) /\
     markers t1 = markers t /\ markers t2 = markers t /\
     (b1 = true <-> frame_held (markers t) fr) /\
     (b2 = true <-> frame_enabled (markers t) fr)).
Proof.
  split.
  - intros Hempty.
    unfold BKE_tracking_track_has_marker_at_frame,
      BKE_tracking_track_has_enabled_marker_at_frame.
    rewrite (get_exact_empty t fr Hempty). split; reflexivity.
  - intros Hne Hok.
    destruct (frame_present_dec (markers t) fr) as [(j & mj & Hj & Hfr)|Hno].
    + destruct (has_marker_found t fr j mj Hok Hj Hfr) as [E1 E2].
      rewrite E1, E2. do 4 eexists.
      split; [reflexivity|]. split; [reflexivity|].
      split; [reflexivity|]. split; [reflexivity|].
      split.
      * split; [intros _|reflexivity].
        exists mj. split; [exact (nth_error_In _ _ Hj)|exact Hfr].
      * split.
        -- intros Hb. apply negb_true_iff in Hb.
           exists mj. split; [exact (nth_error_In _ _ Hj)|]. split; assumption.
        -- intros (m & Hin & Hm & Hdis).
           destruct (In_nth_error _ _ Hin) as [k Hk].
           destruct Hok as [Hs _].
           assert (k = j)
             by (apply (ascending_frame_inj (markers t) k j m mj Hs Hk Hj); congruence).
           subst k. rewrite Hj in Hk. inversion Hk; subst m.
           rewrite Hdis. reflexivity.
    + destruct (has_marker_missing t fr Hne Hok Hno) as [E1 E2].
      rewrite E1, E2. do 4 eexists.
      split; [reflexivity|]. split; [reflexivity|].
      split; [reflexivity|]. split; [reflexivity|].
      split; (split; [discriminate|]).
      * intros (m & Hin & Hm). destruct (Hno m Hin Hm).
      * intros (m & Hin & Hm & _). destruct (Hno m Hin Hm).
Qed.

Lemma insert_other_frames (t t' : Track) (m : Marker) (i : nat) :
  track_ok t -> BKE_tracking_marker_insert t m = Done (i, t') ->
  forall x, framenr x <> framenr m -> (In x (markers t') <-> In x (markers t)).
Proof.
  intros Hok Hins x Hx.
  rewrite (marker_insert_in t t' m i Hok Hins x).
  split.
  - intros [->|[Hin _]]; [destruct (Hx eq_refl)|exact Hin].
  - intros Hin. right. split; assumption.
Qed.

(** X2.  Insertion seen through the lookup.  On a sorted track the insertion
    returns; the exact lookup of the marker's frame then gives the cell
    the insertion returned, holding the marker; the array is sorted; the
    markers of the other frames are the ones the track had; the array has
    grown by one cell when the frame was free and kept its length when the
    marker of the frame was replaced. *)
Theorem marker_insert_then_get_exact (t : Track) (m : Marker) :
  track_ok t ->
  exists i t',
    BKE_tracking_marker_insert t m = Done (i, t') /\
    BKE_tracking_marker_get_exact t' (framenr m) = Done (Some i, t') /\
    BKE_tracking_track_has_marker_at_frame t' (framenr m) = Done (true, t') /\
    nth_error (markers t') i = Some m /\
    strictly_ascending (markers t') /\
    (forall x, framenr x <> framenr m -> (In x (markers t') <-> In x (markers t))) /\
    (frame_held (markers t) (framenr m) -> length (markers t') = length (markers t)) /\
    (~ frame_held (markers t) (framenr m) ->
     length (markers t') = S (length (markers t))).
Proof.
  intros Hok.
  destruct (marker_insert_spec t m Hok)
    as (i & t' & Hins & Hi & Hs' & Hcur & _ & Hcase).
  exists i, t'.
  assert (Hok' : track_ok t') by (split; [exact Hs'|rewrite Hcur; lia]).
  assert (Hget : BKE_tracking_marker_get_exact t' (framenr m) = Done (Some i, t')).
  { rewrite (get_exact_found t' (framenr m) i m Hok' Hi eq_refl).
    rewrite <- Hcur, set_last_marker_same. reflexivity. }
  split; [exact Hins|]. split; [exact Hget|].
  split.
  { unfold BKE_tracking_track_has_marker_at_frame. rewrite Hget. reflexivity. }
  split; [exact Hi|]. split; [exact Hs'|].
  split; [exact (insert_other_frames t t' m i Hok Hins)|].
  destruct Hcase as [(old & Hold & Hfr & Hms)|(Hno & Hle & Hms)].
  - split.
    + intros _. rewrite Hms. apply store_at_length.
    + intros Hn. destruct Hn. exists old.
      split; [exact (nth_error_In _ _ Hold)|exact Hfr].
  - split.
    + intros (x & Hin & Hx). destruct (Hno x Hin Hx).
    + intros _. rewrite Hms. apply shift_in_length.
Qed.

Lemma delete_scan_absent (ms : list Marker) (fr : Z) :
  (forall x, In x ms -> framenr x <> fr) -> delete_scan ms fr = ms.
Proof.
  induction ms as [|m ms IH]; intros Hno; [reflexivity|].
  cbn [delete_scan].
  destruct (framenr m =? fr) eqn:E.
  - apply Z.eqb_eq in E. destruct (Hno m (or_introl eq_refl) E).
  - rewrite IH; [reflexivity|]. intros x Hx. apply Hno. right. exact Hx.
Qed.

Lemma delete_scan_length (ms : list Marker) (fr : Z) :
  (exists x, In x ms /\ framenr x = fr) ->
  S (length (delete_scan ms fr)) = length ms.
Proof.
  induction ms as [|m ms IH]; intros (x & Hin & Hx); [destruct Hin|].
  cbn [delete_scan].
  destruct (framenr m =? fr) eqn:E; [reflexivity|].
  apply Z.eqb_neq in E. cbn [length]. f_equal. apply IH.
  destruct Hin as [->|Hin]; [destruct (E Hx)|]. exists x. split; assumption.
Qed.

(** X3.  Deletion seen through the lookup.  On a sorted track the deletion takes
    out the marker of the frame and nothing else, and keeps the order;
    deleting a frame that holds no marker, and so deleting twice, changes
    nothing; the cursor is not written.  Afterwards the test for a marker
    on the frame answers no, unless the track has become empty: then the
    test has no defined result. *)
Theorem marker_delete_then_lookup (t : Track) (fr : Z) :
  track_ok t ->
  let t' := BKE_tracking_marker_delete t fr in
  strictly_ascending (markers t') /\
  (forall x, In x (markers t') <-> In x (markers t) /\ framenr x <> fr) /\
  (frame_held (markers t) fr -> S (length (markers t')) = length (markers t)) /\
  (~ frame_held (markers t) fr -> t' = t) /\
  BKE_tracking_marker_delete t' fr = t' /\
  last_marker t' = last_marker t /\
  (markers t' <> [] ->
   BKE_tracking_track_has_marker_at_frame t' fr = Done (false, t')) /\
  (markers t' = [] -> BKE_tracking_track_has_marker_at_frame t' fr = Crash).
Proof.
  intros [Hs Hc] t'. subst t'. unfold BKE_tracking_marker_delete.
  cbn [markers set_markers last_marker].
  assert (Hs' : strictly_ascending (delete_scan (markers t) fr))
    by (apply delete_scan_ascending; exact Hs).
  assert (Hin : forall x, In x (delete_scan (markers t) fr) <->
                          In x (markers t) /\ framenr x <> fr)
    by (intros x; apply delete_scan_spec; exact Hs).
  assert (Hgone : forall x, In x (delete_scan (markers t) fr) -> framenr x <> fr)
    by (intros x Hx; apply Hin in Hx; tauto).
  split; [exact Hs'|]. split; [exact Hin|].
  split; [apply delete_scan_length|].
  split.
  { intros Hn. rewrite delete_scan_absent; [destruct t; reflexivity|].
    intros x Hx E. apply Hn. exists x. split; assumption. }
  split.
  { rewrite (delete_scan_absent _ fr Hgone). reflexivity. }
  split; [reflexivity|].
  split.
  - intros Hne.
    apply (has_marker_missing (set_markers t (delete_scan (markers t) fr)) fr);
      [exact Hne | split; [exact Hs'|exact Hc] | exact Hgone].
  - intros He. unfold BKE_tracking_track_has_marker_at_frame.
    rewrite get_exact_empty by exact He. reflexivity.
Qed.

(** X4.  [tracking_marker_insert_disabled] without [overwrite].  It tests the
    track for a marker on the neighbour frame first, so a track without
    markers has no defined result.  On a sorted track with markers, a
    marker already on the neighbour frame is left as it is, array
    unchanged; else the disabled copy of the reference marker is added
    there and nothing else changes. *)
Theorem insert_disabled_keeps_existing (t : Track) (ref_marker : Marker) (before : bool) :
  let d := disabled_neighbour ref_marker before in
  (markers t = [] -> tracking_marker_insert_disabled t ref_marker before false = Crash) /\
  (markers t <> [] -> track_ok t ->
   exists t',
     tracking_marker_insert_disabled t ref_marker before false = Done t' /\
     strictly_ascending (markers t') /\
     marker_disabled d = true /\
     framenr d = (if before then framenr ref_marker - 1 else framenr ref_marker + 1) /\
     (frame_held (markers t) (framenr d) -> markers t' = markers t) /\
     (~ frame_held (markers t) (framenr d) ->
      forall x, In x (markers t') <-> x = d \/ In x (markers t))).
Proof.
  intros d.
  assert (Hunf : tracking_marker_insert_disabled t ref_marker before false =
                 ('(has, t1) <- BKE_tracking_track_has_marker_at_frame t (framenr d) ;;
                  if negb has then
                    '(_, t2) <- BKE_tracking_marker_insert t1 d ;; Done t2
                  else Done t1)).
  { unfold tracking_marker_insert_disabled, d, disabled_neighbour.
    destruct before; reflexivity. }
  split.
  - intros He. rewrite Hunf.
    unfold BKE_tracking_track_has_marker_at_frame.
    rewrite get_exact_empty by exact He. reflexivity.
  - intros Hne Hok. rewrite Hunf.
    assert (Hfd : framenr d
                  = (if before then framenr ref_marker - 1 else framenr ref_marker + 1))
      by reflexivity.
    destruct (frame_present_dec (markers t) (framenr d)) as [(j & mj & Hj & Hfr)|Hno].
    + destruct (has_marker_found t (framenr d) j mj Hok Hj Hfr) as [E _].
      rewrite E. cbn [bind negb]. eexists. split; [reflexivity|].
      cbn [markers set_last_marker].
      split; [exact (proj1 Hok)|].
      split; [apply disabled_neighbour_disabled|].
      split; [exact Hfd|].
      split; [reflexivity|].
      intros Hn. destruct Hn. exists mj.
      split; [exact (nth_error_In _ _ Hj)|exact Hfr].
    + destruct (has_marker_missing t (framenr d) Hne Hok Hno) as [E _].
      rewrite E. cbn [bind negb].
      destruct (marker_insert_spec t d Hok) as (i & t' & Hins & _ & Hs' & _).
      rewrite Hins. cbn [bind]. exists t'. split; [reflexivity|].
      split; [exact Hs'|].
      split; [apply disabled_neighbour_disabled|].
      split; [exact Hfd|].
      split.
      * intros (x & Hin & Hx). destruct (Hno x Hin Hx).
      * intros _ x. rewrite (marker_insert_in t t' d i Hok Hins x).
        split.
        -- intros [->|[Hin _]]; [left; reflexivity|right; exact Hin].
        -- intros [->|Hin]; [left; reflexivity|].
           right. split; [exact Hin|exact (Hno x Hin)].
Qed.

End MarkerTestFacts.

Lemma has_marker_at_frame_tests_witness :
  exists b1 b2 t1 t2,
    BKE_tracking_track_has_marker_at_frame (track_5_10_20 0) 10 = Done (b1, t1) /\
    BKE_tracking_track_has_enabled_marker_at_frame (track_5_10_20 0) 10 = Done (b2, t2) /\
    (b1 = true <-> frame_held (markers (track_5_10_20 0)) 10) /\
    (b2 = true <-> frame_enabled (markers (track_5_10_20 0)) 10).
Proof.
  assert (Hok : track_ok (track_5_10_20 0)) by (apply track_5_10_20_ok; lia).
  destruct (proj2 (has_marker_at_frame_tests (track_5_10_20 0) 10)
              ltac:(discriminate) Hok)
    as (b1 & b2 & t1 & t2 & E1 & E2 & _ & _ & H1 & H2).
  exists b1, b2, t1, t2. repeat split; try assumption; apply H1 || apply H2.
Defined.

Example insert_at_7_then_get :
  option_map (fun '(i, t) => (i, map framenr (markers t), last_marker t))
    (match BKE_tracking_marker_insert (track_5_10_20 2)
             (marker_at_frame 7 0 b32_one b32_one) with
     | Done r => Some r
     | Crash => None
     end)
  = Some (1%nat, [5; 7; 10; 20], 1).
Proof. reflexivity. Qed.

Lemma marker_insert_then_get_exact_witness :
  exists i t',
    BKE_tracking_marker_insert (track_5_10_20 2) (marker_at_frame 7 0 b32_one b32_one)
      = Done (i, t') /\
    BKE_tracking_marker_get_exact t' 7 = Done (Some i, t') /\
    nth_error (markers t') i = Some (marker_at_frame 7 0 b32_one b32_one).
Proof.
  assert (Hok : track_ok (track_5_10_20 2)) by (apply track_5_10_20_ok; lia).
  destruct (marker_insert_then_get_exact (track_5_10_20 2)
              (marker_at_frame 7 0 b32_one b32_one) Hok)
    as (i & t' & Hins & Hget & _ & Hi & _).
  exists i, t'. split; [exact Hins|]. split; [exact Hget|exact Hi].
Defined.

Lemma marker_delete_then_lookup_witness :
  map framenr (markers (BKE_tracking_marker_delete (track_5_10_20 2) 10)) = [5; 20] /\
  BKE_tracking_track_has_marker_at_frame
    (BKE_tracking_marker_delete (track_5_10_20 2) 10) 10
  = Done (false, BKE_tracking_marker_delete (track_5_10_20 2) 10).
Proof.
  assert (Hok : track_ok (track_5_10_20 2)) by (apply track_5_10_20_ok; lia).
  destruct (marker_delete_then_lookup (track_5_10_20 2) 10 Hok)
    as (_ & _ & _ & _ & _ & _ & Hhas & _).
  split; [reflexivity|]. apply Hhas. discriminate.
Defined.

Example insert_disabled_next_to_10 :
  option_map (fun t => map (fun m => (framenr m, marker_disabled m)) (markers t))
    (match tracking_marker_insert_disabled (track_5_10_20 0)
             (marker_at_frame 10 0 b32_zero b32_zero) false false with
     | Done t => Some t
     | Crash => None
     end)
  = Some [(5, false); (10, false); (11, true); (20, false)].
Proof. reflexivity. Qed.

Lemma insert_disabled_keeps_existing_witness :
  exists t',
    tracking_marker_insert_disabled (track_5_10_20 0)
      (marker_at_frame 9 0 b32_zero b32_zero) false false = Done t' /\
    markers t' = markers (track_5_10_20 0).
Proof.
  assert (Hok : track_ok (track_5_10_20 0)) by (apply track_5_10_20_ok; lia).
  destruct (proj2 (insert_disabled_keeps_existing (track_5_10_20 0)
                     (marker_at_frame 9 0 b32_zero b32_zero) false)
              ltac:(discriminate) Hok)
    as (t' & Hrun & _ & _ & _ & Hkeep & _).
  exists t'. split; [exact Hrun|]. apply Hkeep.
  exists (marker_at_frame 10 0 b32_zero b32_zero).
  split; [right; left; reflexivity|reflexivity].
Defined.
(** ** Facts on the keyframed marker *)

Section KeyframedFacts.

Context {F : Type}.

Local Abbreviation Marker := (MovieTrackingMarker F).
Local Abbreviation Track := (MovieTrackingTrack F).

(** A keyframe sits at index [j]. *)
Local Abbreviation keyframe_at ms j :=
  (exists m : Marker, nth_error ms j = Some m /\ is_keyframe m = true).

Lemma keyframed_round_spec (a : nat) (cur : Marker) (next_marker : option Marker)
  (fb : option nat) :
  keyframed_round a cur next_marker fb =
    (is_keyframe cur,
     if negb (marker_disabled cur)
        && match next_marker with
           | Some nm => marker_disabled nm
           | None => false
           end
     then match fb with None => Some a | Some _ => fb end
     else fb).
Proof.
  unfold keyframed_round, is_keyframe. rewrite marker_disabled_test.
  destruct (marker_disabled cur) eqn:Hdis; cbn [negb andb]; [reflexivity|].
  unfold has_flag at 2. rewrite negb_involutive.
  destruct next_marker as [nm|]; [|reflexivity].
  unfold marker_disabled. destruct (has_flag (flag nm) MARKER_DISABLED); reflexivity.
Qed.

Lemma not_keyframe_at (ms : list Marker) (j : nat) (m : Marker) :
  nth_error ms j = Some m -> is_keyframe m = false -> ~ keyframe_at ms j.
Proof. intros Hj Hk (m' & Hj' & Hk'). rewrite Hj in Hj'. inversion Hj'; subst. congruence. Qed.

Lemma keyframed_scan_down_spec (ms : list Marker) (a0 : nat) (n : nat) (fb : option nat) :
  (n <= S a0)%nat -> (n <= length ms)%nat ->
  (forall j, (n <= j <= a0)%nat -> ~ keyframe_at ms j) ->
  (fb = None -> forall j, (n <= j <= a0)%nat -> ~ is_segment_end ms false j) ->
  (forall k, fb = Some k ->
     (n <= k <= a0)%nat /\ is_segment_end ms false k /\
     forall j, (k < j <= a0)%nat -> ~ is_segment_end ms false j) ->
  let r := keyframed_scan_down ms n fb in
  match r with
  | Some k =>
      ((k <= a0)%nat /\ keyframe_at ms k /\
       forall j, (k < j <= a0)%nat -> ~ keyframe_at ms j) \/
      ((forall j, (j <= a0)%nat -> ~ keyframe_at ms j) /\
       (k <= a0)%nat /\ is_segment_end ms false k /\
       forall j, (k < j <= a0)%nat -> ~ is_segment_end ms false j)
  | None =>
      forall j, (j <= a0)%nat -> ~ keyframe_at ms j /\ ~ is_segment_end ms false j
  end.
Proof.
  revert fb. induction n as [|n IH]; intros fb Hn Hlen Hnokey Hnoend Hfb; cbv zeta.
  - cbn [keyframed_scan_down]. destruct fb as [k|].
    + right. destruct (Hfb k eq_refl) as (Hk & Hend & Hlast).
      split; [intros j Hj; apply Hnokey; lia|]. split; [lia|]. split; assumption.
    + intros j Hj. split; [apply Hnokey; lia|apply (Hnoend eq_refl); lia].
  - cbn [keyframed_scan_down].
    destruct (nth_error ms n) as [cur|] eqn:Hcur;
      [|apply nth_error_None in Hcur; lia].
    rewrite keyframed_round_spec.
    destruct (is_keyframe cur) eqn:Hkey.
    + left. split; [lia|]. split; [exists cur; split; assumption|].
      intros j Hj. apply Hnokey. lia.
    + set (next_marker := match n with O => None | S next => nth_error ms next end).
      assert (Hnext : next_marker = next_on_the_way ms false n) by reflexivity.
      set (is_end := negb (marker_disabled cur)
                     && match next_marker with
                        | Some nm => marker_disabled nm
                        | None => false
                        end).
      assert (Hend_iff : is_end = true <-> is_segment_end ms false n).
      { unfold is_end, is_segment_end. rewrite <- Hnext. split.
        - intros H. apply andb_true_iff in H. destruct H as [Hen Hnm].
          apply negb_true_iff in Hen.
          destruct next_marker as [nm|]; [|discriminate Hnm].
          exists cur, nm. repeat split; assumption.
        - intros (m & nm & Hm & Hen & Hnm & Hdis). rewrite Hcur in Hm.
          inversion Hm; subst m. rewrite Hnm, Hen, Hdis. reflexivity. }
      fold next_marker. fold is_end.
      apply IH; [lia|lia| | |].
      * intros j Hj. destruct (Nat.eq_dec j n) as [->|Hne].
        -- exact (not_keyframe_at ms n cur Hcur Hkey).
        -- apply Hnokey. lia.
      * destruct is_end eqn:Hend.
        -- destruct fb; discriminate.
        -- intros -> j Hj. destruct (Nat.eq_dec j n) as [->|Hne].
           ++ intros H. apply Hend_iff in H. discriminate H.
           ++ apply (Hnoend eq_refl). lia.
      * intros k Hk. destruct is_end eqn:Hend.
        -- destruct fb as [k'|].
           ++ inversion Hk; subst k'. destruct (Hfb k eq_refl) as (Hr & He & Hl).
              split; [lia|]. split; assumption.
           ++ inversion Hk; subst k. split; [lia|].
              split; [apply Hend_iff; reflexivity|].
              intros j Hj. apply (Hnoend eq_refl). lia.
        -- subst fb. destruct (Hfb k eq_refl) as (Hr & He & Hl).
           split; [lia|]. split; assumption.
Qed.

Lemma skipn_head (ms : list Marker) (n : nat) :
  match skipn n ms with
  | [] => None
  | nm :: _ => Some nm
  end = nth_error ms n.
Proof.
  revert n. induction ms as [|m ms IH]; intros [|n]; try reflexivity. apply IH.
Qed.

Lemma keyframed_scan_up_spec (ms : list Marker) (a0 : nat) (d : nat) :
  forall (n : nat) (fb : option nat),
  d = (length ms - n)%nat ->
  (a0 <= n <= length ms)%nat ->
  (forall j, (a0 <= j < n)%nat -> ~ keyframe_at ms j) ->
  (fb = None -> forall j, (a0 <= j < n)%nat -> ~ is_segment_end ms true j) ->
  (forall k, fb = Some k ->
     (a0 <= k < n)%nat /\ is_segment_end ms true k /\
     forall j, (a0 <= j < k)%nat -> ~ is_segment_end ms true j) ->
  match keyframed_scan_up (skipn n ms) n fb with
  | Some k =>
      ((a0 <= k)%nat /\ keyframe_at ms k /\
       forall j, (a0 <= j < k)%nat -> ~ keyframe_at ms j) \/
      ((forall j, (a0 <= j)%nat -> ~ keyframe_at ms j) /\
       (a0 <= k)%nat /\ is_segment_end ms true k /\
       forall j, (a0 <= j < k)%nat -> ~ is_segment_end ms true j)
  | None =>
      forall j, (a0 <= j)%nat -> ~ keyframe_at ms j /\ ~ is_segment_end ms true j
  end.
Proof.
  induction d as [|d IH]; intros n fb Hd Hn Hnokey Hnoend Hfb.
  - assert (n = length ms) by lia. subst n. rewrite skipn_all.
    cbn [keyframed_scan_up].
    assert (Hout : forall j, (length ms <= j)%nat ->
                     ~ keyframe_at ms j /\ ~ is_segment_end ms true j).
    { intros j Hj. assert (Hnone : nth_error ms j = None) by (apply nth_error_None; lia).
      split.
      - intros (m & Hm & _). congruence.
      - intros (m & nm & Hm & _). congruence. }
    destruct fb as [k|].
    + right. destruct (Hfb k eq_refl) as (Hk & Hend & Hfirst).
      split; [|split; [lia|split; assumption]].
      intros j Hj. destruct (Nat.lt_ge_cases j (length ms)) as [Hlt|Hge].
      * apply Hnokey. lia.
      * exact (proj1 (Hout j Hge)).
    + intros j Hj. destruct (Nat.lt_ge_cases j (length ms)) as [Hlt|Hge].
      * split; [apply Hnokey; lia|apply (Hnoend eq_refl); lia].
      * exact (Hout j Hge).
  - destruct (nth_error ms n) as [cur|] eqn:Hcur;
      [|apply nth_error_None in Hcur; lia].
    rewrite (skipn_cons_nth ms n cur Hcur). cbn [keyframed_scan_up].
    rewrite skipn_head, keyframed_round_spec.
    destruct (is_keyframe cur) eqn:Hkey.
    + left. split; [lia|]. split; [exists cur; split; assumption|].
      intros j Hj. apply Hnokey. lia.
    + set (is_end := negb (marker_disabled cur)
                     && match nth_error ms (S n) with
                        | Some nm => marker_disabled nm
                        | None => false
                        end).
      assert (Hend_iff : is_end = true <-> is_segment_end ms true n).
      { unfold is_end, is_segment_end, next_on_the_way. split.
        - intros H. apply andb_true_iff in H. destruct H as [Hen Hnm].
          apply negb_true_iff in Hen.
          destruct (nth_error ms (S n)) as [nm|]; [|discriminate Hnm].
          exists cur, nm. repeat split; assumption.
        - intros (m & nm & Hm & Hen & Hnm & Hdis). rewrite Hcur in Hm.
          inversion Hm; subst m. rewrite Hnm, Hen, Hdis. reflexivity. }
      apply IH; [lia|lia| | |].
      * intros j Hj. destruct (Nat.eq_dec j n) as [->|Hne].
        -- exact (not_keyframe_at ms n cur Hcur Hkey).
        -- apply Hnokey. lia.
      * destruct is_end eqn:Hend.
        -- destruct fb; discriminate.
        -- intros -> j Hj. destruct (Nat.eq_dec j n) as [->|Hne].
           ++ intros H. apply Hend_iff in H. discriminate H.
           ++ apply (Hnoend eq_refl). lia.
      * intros k Hk. destruct is_end eqn:Hend.
        -- destruct fb as [k'|].
           ++ inversion Hk; subst k'. destruct (Hfb k eq_refl) as (Hr & He & Hl).
              split; [lia|]. split; assumption.
           ++ inversion Hk; subst k. split; [lia|].
              split; [apply Hend_iff; reflexivity|].
              intros j Hj. apply (Hnoend eq_refl). lia.
        -- subst fb. destruct (Hfb k eq_refl) as (Hr & He & Hl).
           split; [lia|]. split; assumption.
Qed.

(** X11.  The marker [tracking_context_get_keyframed_marker] returns.  On a
    sorted track with markers the walk starts at the marker the lookup
    gives for [curfra] and goes towards lower indices, or towards higher
    ones with [backwards].  It returns the first keyframe on the way: an
    enabled marker without MARKER_TRACKED.  When there is no keyframe on
    the way it returns the first enabled marker on the way whose next
    neighbour on the way is disabled, and [NULL] when there is none
    either.  The marker array is left alone. *)
Theorem keyframed_marker_found (track : Track) (curfra : Z) (backwards : bool) :
  markers track <> [] -> track_ok track ->
  exists a r track',
    BKE_tracking_marker_get track curfra = Done (Some a, track') /\
    tracking_context_get_keyframed_marker track curfra backwards = Done (r, track') /\
    markers track' = markers track /\
    match r with
    | Some k =>
        on_the_way backwards a k /\
        ((keyframe_at (markers track) k /\
          forall j, walked_before backwards a k j -> ~ keyframe_at (markers track) j) \/
         ((forall j, on_the_way backwards a j -> ~ keyframe_at (markers track) j) /\
          is_segment_end (markers track) backwards k /\
          forall j, walked_before backwards a k j ->
                    ~ is_segment_end (markers track) backwards j))
    | None =>
        forall j, on_the_way backwards a j ->
                  ~ keyframe_at (markers track) j /\
                  ~ is_segment_end (markers track) backwards j
    end.
Proof.
  intros Hne Hok.
  destruct (marker_get_spec track curfra Hne Hok) as (a & m & Ha & _ & Eget).
  set (track' := if framenr m =? curfra then set_last_marker track (Z.of_nat a) else track)
    in *.
  assert (Hms : markers track' = markers track) by apply get_cursor_markers.
  assert (Hlen : (a < length (markers track))%nat)
    by (apply nth_error_Some; rewrite Ha; discriminate).
  unfold tracking_context_get_keyframed_marker. rewrite Eget. cbn [bind].
  rewrite Hms.
  eexists a, _, track'. split; [reflexivity|]. split; [reflexivity|].
  split; [exact Hms|].
  destruct backwards; unfold on_the_way, walked_before.
  - pose proof (keyframed_scan_up_spec (markers track) a (length (markers track) - a)
                  a None eq_refl ltac:(lia)) as Hup.
    specialize (Hup ltac:(intros j Hj; lia) ltac:(intros _ j Hj; lia)
                    ltac:(intros k Hk; discriminate Hk)).
    destruct (keyframed_scan_up (skipn a (markers track)) a None) as [k|].
    + destruct Hup as [(Hk & Hkey & Hfirst)|(Hnone & Hk & Hend & Hfirst)].
      * split; [exact Hk|]. left. split; assumption.
      * split; [exact Hk|]. right. split; [exact Hnone|]. split; assumption.
    + exact Hup.
  - pose proof (keyframed_scan_down_spec (markers track) a (S a) None
                  ltac:(lia) ltac:(lia)) as Hdown.
    specialize (Hdown ltac:(intros j Hj; lia) ltac:(intros _ j Hj; lia)
                      ltac:(intros k Hk; discriminate Hk)).
    cbv zeta in Hdown.
    destruct (keyframed_scan_down (markers track) (S a) None) as [k|].
    + destruct Hdown as [(Hk & Hkey & Hfirst)|(Hnone & Hk & Hend & Hfirst)].
      * split; [exact Hk|]. left. split; assumption.
      * split; [exact Hk|]. right. split; [exact Hnone|]. split; assumption.
    + exact Hdown.
Qed.

End KeyframedFacts.

Example keyframed_markers :
  map (fun '(t, backwards) =>
         option_map fst
           (match tracking_context_get_keyframed_marker t 3 backwards with
            | Done r => Some r
            | Crash => None
            end))
      [(track_keyed, false); (track_keyed, true);
       (track_unkeyed, false); (track_unkeyed, true)]
  = [Some (Some 0%nat); Some (Some 2%nat); Some (Some 1%nat); Some (Some 2%nat)].
Proof. reflexivity. Qed.

Lemma keyframed_marker_found_witness :
  exists a r track',
    BKE_tracking_marker_get track_unkeyed 3 = Done (Some a, track') /\
    tracking_context_get_keyframed_marker track_unkeyed 3 false = Done (r, track') /\
    r = Some 1%nat.
Proof.
  assert (Hok : track_ok track_unkeyed).
  { split; [apply ascendingb_spec; reflexivity|simpl; lia]. }
  destruct (keyframed_marker_found track_unkeyed 3 false ltac:(discriminate) Hok)
    as (a & r & track' & Eget & Ekey & _).
  exists a, r, track'. split; [exact Eget|]. split; [exact Ekey|].
  assert (E : tracking_context_get_keyframed_marker track_unkeyed 3 false
              = Done (Some 1%nat, set_last_marker track_unkeyed 2)) by reflexivity.
  rewrite E in Ekey. inversion Ekey. reflexivity.
Defined.
(** ** Selection flags: what a selection leaves selected *)

Lemma land_lor_same (x s : Z) : Z.land (Z.lor x s) s = s.
Proof.
  apply Z.bits_inj'. intros n Hn. rewrite Z.land_spec, Z.lor_spec.
  destruct (Z.testbit x n), (Z.testbit s n); reflexivity.
Qed.

Lemma land_clear_same (x s : Z) : Z.land (Z.land x (Z.lnot s)) s = 0.
Proof.
  apply Z.bits_inj'. intros n Hn.
  rewrite !Z.land_spec, Z.lnot_spec, Z.bits_0 by exact Hn.
  destruct (Z.testbit x n), (Z.testbit s n); reflexivity.
Qed.

Lemma land_lor_others (x s : Z) : Z.land (Z.lor x s) (Z.lnot s) = Z.land x (Z.lnot s).
Proof.
  apply Z.bits_inj'. intros n Hn.
  rewrite !Z.land_spec, Z.lor_spec, Z.lnot_spec by exact Hn.
  destruct (Z.testbit x n), (Z.testbit s n); reflexivity.
Qed.

Lemma land_clear_others (x s : Z) :
  Z.land (Z.land x (Z.lnot s)) (Z.lnot s) = Z.land x (Z.lnot s).
Proof.
  apply Z.bits_inj'. intros n Hn.
  rewrite !Z.land_spec, Z.lnot_spec by exact Hn.
  destruct (Z.testbit x n), (Z.testbit s n); reflexivity.
Qed.

Lemma land_clear_disjoint (x s h : Z) :
  Z.land h s = 0 -> Z.land (Z.land x (Z.lnot s)) h = Z.land x h.
Proof.
  intros Hd. apply Z.bits_inj'. intros n Hn.
  assert (Hb : Z.testbit (Z.land h s) n = false) by (rewrite Hd; apply Z.bits_0).
  rewrite Z.land_spec in Hb.
  rewrite !Z.land_spec, Z.lnot_spec by exact Hn.
  destruct (Z.testbit x n), (Z.testbit s n), (Z.testbit h n);
    try reflexivity; discriminate Hb.
Qed.

Lemma land_lor_disjoint (x s h : Z) :
  Z.land h s = 0 -> Z.land (Z.lor x s) h = Z.land x h.
Proof.
  intros Hd. apply Z.bits_inj'. intros n Hn.
  assert (Hb : Z.testbit (Z.land h s) n = false) by (rewrite Hd; apply Z.bits_0).
  rewrite Z.land_spec in Hb.
  rewrite !Z.land_spec, Z.lor_spec.
  destruct (Z.testbit x n), (Z.testbit s n), (Z.testbit h n);
    try reflexivity; discriminate Hb.
Qed.

Section TrackSelectionFacts.

Variable TRACK_AREA_NONE : Z.
Variable TRACK_AREA_POINT : Z.
Variable TRACK_AREA_PAT : Z.
Variable TRACK_AREA_SEARCH : Z.
Variable TRACK_AREA_ALL : Z.
Variable SELECT : Z.
Variable TRACK_HIDDEN : Z.

Local Abbreviation flag_set :=
  (BKE_tracking_track_flag_set TRACK_AREA_NONE TRACK_AREA_POINT TRACK_AREA_PAT
     TRACK_AREA_SEARCH).
Local Abbreviation flag_clear :=
  (BKE_tracking_track_flag_clear TRACK_AREA_NONE TRACK_AREA_POINT TRACK_AREA_PAT
     TRACK_AREA_SEARCH).
Local Abbreviation select :=
  (BKE_tracking_track_select TRACK_AREA_NONE TRACK_AREA_POINT TRACK_AREA_PAT
     TRACK_AREA_SEARCH TRACK_AREA_ALL SELECT TRACK_HIDDEN).
Local Abbreviation selected := (word_selected SELECT).
Local Abbreviation constants_ok :=
  (area_constants TRACK_AREA_NONE TRACK_AREA_POINT TRACK_AREA_PAT TRACK_AREA_SEARCH
     TRACK_AREA_ALL SELECT TRACK_HIDDEN).

Local Abbreviation loop_one :=
  (select_one TRACK_AREA_NONE TRACK_AREA_POINT TRACK_AREA_PAT TRACK_AREA_SEARCH
     TRACK_AREA_ALL SELECT TRACK_HIDDEN).

Lemma select_loop_nth (rest : list track_flags) (i0 track : nat) (area : Z) (k : nat) :
  nth_error (select_loop TRACK_AREA_NONE TRACK_AREA_POINT TRACK_AREA_PAT TRACK_AREA_SEARCH
               TRACK_AREA_ALL SELECT TRACK_HIDDEN rest i0 track area) k
  = option_map (loop_one track area (i0 + k)) (nth_error rest k).
Proof.
  revert i0 k. induction rest as [|cur rest IH]; intros i0 k.
  - destruct k; reflexivity.
  - destruct k as [|k]; cbn [select_loop nth_error option_map].
    + rewrite Nat.add_0_r. reflexivity.
    + rewrite IH. replace (S i0 + k)%nat with (i0 + S k)%nat by lia. reflexivity.
Qed.

Lemma flag_set_at_nth (rest : list track_flags) (track : nat) (area fl : Z) (k : nat) :
  nth_error (flag_set_at TRACK_AREA_NONE TRACK_AREA_POINT TRACK_AREA_PAT TRACK_AREA_SEARCH
               rest track area fl) k
  = option_map (fun cur => if (k =? track)%nat then flag_set cur area fl else cur)
      (nth_error rest k).
Proof.
  revert track k. induction rest as [|cur rest IH]; intros track k.
  - destruct track, k; reflexivity.
  - destruct track as [|track], k as [|k]; cbn [flag_set_at nth_error option_map Nat.eqb];
      try reflexivity.
    + destruct (nth_error rest k); reflexivity.
    + apply IH.
Qed.

Lemma clear_all_select (cur : track_flags) :
  constants_ok ->
  flag_clear cur TRACK_AREA_ALL SELECT
  = {| point_flag := Z.land (point_flag cur) (Z.lnot SELECT);
       pat_flag := Z.land (pat_flag cur) (Z.lnot SELECT);
       search_flag := Z.land (search_flag cur) (Z.lnot SELECT) |}.
Proof.
  intros (Hnone & Hp & Ht & Hs & _).
  unfold BKE_tracking_track_flag_clear, area_has in *.
  apply Z.eqb_neq in Hnone. rewrite Hnone, Hp, Ht, Hs. reflexivity.
Qed.

Lemma selected_after_set (w : Z) : SELECT <> 0 -> selected (Z.lor w SELECT) = true.
Proof.
  intros Hs. unfold word_selected. rewrite land_lor_same.
  apply negb_true_iff, Z.eqb_neq. exact Hs.
Qed.

Lemma selected_after_clear (w : Z) : selected (Z.land w (Z.lnot SELECT)) = false.
Proof.
  unfold word_selected. rewrite land_clear_same. reflexivity.
Qed.

(** X18.  BKE_tracking_track_select, with the constants as the headers give
    them.  Without [extend]: a hidden track is not touched; every other
    track of the list loses SELECT in its three areas, and the track
    asked for, when it is in the list and not hidden, is then selected in
    exactly the areas of [area] (none for TRACK_AREA_NONE); so no visible
    track but this one is selected afterwards.  With [extend]: only the
    track asked for changes, hidden or not, and it gains SELECT in the
    areas of [area].  Bits other than SELECT are never changed. *)
Theorem track_select_exclusive (tracksbase : list track_flags) (track : nat) (area : Z)
  (extend : bool) :
  constants_ok ->
  let after := select tracksbase track area extend in
  length after = length tracksbase /\
  forall i cur,
    nth_error tracksbase i = Some cur ->
    exists cur',
      nth_error after i = Some cur' /\
      Z.land (point_flag cur') (Z.lnot SELECT) = Z.land (point_flag cur) (Z.lnot SELECT) /\
      Z.land (pat_flag cur') (Z.lnot SELECT) = Z.land (pat_flag cur) (Z.lnot SELECT) /\
      Z.land (search_flag cur') (Z.lnot SELECT) = Z.land (search_flag cur) (Z.lnot SELECT) /\
      track_hidden TRACK_HIDDEN cur' = track_hidden TRACK_HIDDEN cur /\
      (i <> track -> extend = true -> cur' = cur) /\
      (track_hidden TRACK_HIDDEN cur = true -> extend = false -> cur' = cur) /\
      (i <> track -> track_hidden TRACK_HIDDEN cur = false -> extend = false ->
       track_selected SELECT cur' = false) /\
      (i = track -> extend = true \/ track_hidden TRACK_HIDDEN cur = false ->
       let keep (w : Z) := extend && selected w in
       let on (bit : Z) := negb (area =? TRACK_AREA_NONE) && area_has area bit in
       selected (point_flag cur') = keep (point_flag cur) || on TRACK_AREA_POINT /\
       selected (pat_flag cur') = keep (pat_flag cur) || on TRACK_AREA_PAT /\
       selected (search_flag cur') = keep (search_flag cur) || on TRACK_AREA_SEARCH).
Proof.
  intros Hc after.
  pose proof Hc as (_ & _ & _ & _ & Hsel & Hdis).
  assert (Hlen : length after = length tracksbase).
  { unfold after, BKE_tracking_track_select. destruct extend.
    - clear. revert track. induction tracksbase as [|c r IH]; intros [|k];
        cbn [flag_set_at length]; try reflexivity. rewrite IH. reflexivity.
    - clear. generalize O. induction tracksbase as [|c r IH]; intros i0;
        cbn [select_loop length]; [reflexivity|]. rewrite IH. reflexivity. }
  split; [exact Hlen|].
  intros i cur Hi.
  assert (Hafter : nth_error after i
                   = Some (if extend
                           then (if (i =? track)%nat then flag_set cur area SELECT else cur)
                           else loop_one track area i cur)).
  { unfold after, BKE_tracking_track_select. destruct extend.
    - rewrite flag_set_at_nth, Hi. reflexivity.
    - rewrite select_loop_nth, Hi. reflexivity. }
  eexists. split; [exact Hafter|]. clear Hafter Hlen after Hi.
  unfold select_one, track_hidden, track_selected.
  rewrite (clear_all_select cur Hc).
  unfold BKE_tracking_track_flag_set, area_has.
  destruct extend, (Nat.eqb_spec i track) as [Heq|Hne],
           (Z.land (point_flag cur) TRACK_HIDDEN =? 0) eqn:Hh,
           (area =? TRACK_AREA_NONE),
           (negb (Z.land area TRACK_AREA_POINT =? 0)),
           (negb (Z.land area TRACK_AREA_PAT =? 0)),
           (negb (Z.land area TRACK_AREA_SEARCH =? 0));
    cbn [negb andb orb point_flag pat_flag search_flag];
    rewrite ?land_lor_others, ?land_clear_others,
      ?(land_lor_disjoint _ _ _ Hdis), ?(land_clear_disjoint _ _ _ Hdis), ?Hh;
    cbn [negb];
    (split; [reflexivity|]); (split; [reflexivity|]); (split; [reflexivity|]);
    (split; [reflexivity|]);
    (split; [intros; first [reflexivity|congruence]|]);
    (split; [intros; first [reflexivity|congruence]|]);
    (split; [intros; rewrite ?selected_after_clear; first [reflexivity|congruence]|]);
    intros H1 H2; cbv zeta; cbn [negb andb orb];
    rewrite ?(selected_after_set _ Hsel), ?selected_after_clear, ?orb_true_r, ?orb_false_r;
    try (destruct H2 as [H2|H2]; discriminate H2);
    try congruence;
    repeat split.
Qed.

End TrackSelectionFacts.

(** Three tracks: one selected at its point, one not selected, and a
    hidden one selected in all areas; the second is selected in its
    pattern and search areas. *)
Example select_second_of_three :
  BKE_tracking_track_select (-1) 1 2 4 7 1 32 selection_three 1 6 false
  = [ {| point_flag := 0; pat_flag := 0; search_flag := 0 |};
      {| point_flag := 0; pat_flag := 1; search_flag := 1 |};
      {| point_flag := 33; pat_flag := 1; search_flag := 1 |} ] /\
  BKE_tracking_track_select (-1) 1 2 4 7 1 32 selection_three 2 6 false
  = [ {| point_flag := 0; pat_flag := 0; search_flag := 0 |};
      {| point_flag := 0; pat_flag := 0; search_flag := 0 |};
      {| point_flag := 33; pat_flag := 1; search_flag := 1 |} ].
Proof. split; reflexivity. Qed.

Lemma track_select_exclusive_witness :
  exists cur',
    nth_error (BKE_tracking_track_select (-1) 1 2 4 7 1 32 selection_three 1 6 false) 0
    = Some cur' /\
    track_selected 1 cur' = false.
Proof.
  assert (Hc : area_constants (-1) 1 2 4 7 1 32)
    by (repeat split; try reflexivity; discriminate).
  destruct (track_select_exclusive (-1) 1 2 4 7 1 32 selection_three 1 6 false Hc)
    as [_ Hall].
  destruct (Hall O _ eq_refl) as (cur' & E & _ & _ & _ & _ & _ & _ & Hoff & _).
  exists cur'. split; [exact E|].
  apply Hoff; [lia|reflexivity|reflexivity].
Defined.

(** ** Dopesheet coverage *)

Section CoverageFacts.

Context {F : Type}.

Local Abbreviation Marker := (MovieTrackingMarker F).
Local Abbreviation Track := (MovieTrackingTrack F).

Lemma coverage_from_count_spec (count : Z) :
  (count < 8 -> coverage_from_count count = TRACKING_COVERAGE_BAD) /\
  (8 <= count < 16 -> coverage_from_count count = TRACKING_COVERAGE_ACCEPTABLE) /\
  (16 <= count -> coverage_from_count count = TRACKING_COVERAGE_OK).
Proof.
  unfold coverage_from_count.
  destruct (count <? 8) eqn:H8; destruct (count <? 16) eqn:H16;
    try apply Z.ltb_lt in H8; try apply Z.ltb_ge in H8;
    try apply Z.ltb_lt in H16; try apply Z.ltb_ge in H16;
    repeat split; intros; try reflexivity; lia.
Qed.

Lemma coverage_eqb_eq (a b : coverage_class) : coverage_eqb a b = true <-> a = b.
Proof. destruct a, b; simpl; split; congruence. Qed.

(** *** The segment loop *)

Lemma coverage_loop_classes (rest : list Z) (i frames start_fr : Z)
  (prev : coverage_class) (last : Z) :
  rest <> [] -> i + Z.of_nat (length rest) = frames ->
  map coverage (coverage_loop rest i frames start_fr prev last)
  = run_classes prev (map coverage_from_count (removelast rest)).
Proof.
  revert i prev last. induction rest as [|c rest IH]; intros i prev last Hne Hlen;
    [congruence|].
  destruct rest as [|c2 rest].
  - (* the last frame: the segment is closed whatever its class *)
    simpl in Hlen. replace (i =? frames - 1) with true by (symmetry; apply Z.eqb_eq; lia).
    cbn [coverage_loop]. replace (i =? frames - 1) with true by (symmetry; apply Z.eqb_eq; lia).
    rewrite orb_true_r. reflexivity.
  - cbn [coverage_loop].
    assert (Hi : (i =? frames - 1) = false).
    { apply Z.eqb_neq. cbn [length] in Hlen. lia. }
    rewrite Hi. cbn [andb]. rewrite orb_false_r.
    change (removelast (c :: c2 :: rest)) with (c :: removelast (c2 :: rest)).
    cbn [map run_classes].
    destruct (coverage_eqb (coverage_from_count c) prev) eqn:E; cbn [negb].
    + apply coverage_eqb_eq in E. rewrite E.
      rewrite <- E at 2. rewrite E.
      apply IH; [discriminate|cbn [length] in *; lia].
    + cbn [map coverage]. f_equal.
      apply IH; [discriminate|cbn [length] in *; lia].
Qed.

Lemma coverage_loop_chained (rest : list Z) (i frames start_fr : Z)
  (prev : coverage_class) (last : Z) :
  last <= i - 1 + start_fr ->
  chained last (coverage_loop rest i frames start_fr prev last).
Proof.
  revert i prev last. induction rest as [|c rest IH]; intros i prev last Hlast;
    [exact I|].
  cbn [coverage_loop].
  destruct (negb _ || (i =? frames - 1)).
  - cbn [chained start_frame end_frame]. split; [reflexivity|].
    destruct (i - 1 + start_fr =? last) eqn:E.
    + apply Z.eqb_eq in E. split; [lia|]. apply IH. lia.
    + apply Z.eqb_neq in E. split; [lia|]. apply IH. lia.
  - apply IH. lia.
Qed.

(** *** The frame range *)

Lemma bounds_min_shift (tracks : list Track) (s x : Z) :
  fold_right (fun t acc => match markers t with
                           | m :: _ => Z.min (framenr m) acc
                           | [] => acc
                           end) (Z.min s x) tracks
  = Z.min x (fold_right (fun t acc => match markers t with
                                      | m :: _ => Z.min (framenr m) acc
                                      | [] => acc
                                      end) s tracks).
Proof.
  induction tracks as [|t tracks IH]; simpl; [lia|].
  destruct (markers t); rewrite IH; lia.
Qed.

Lemma bounds_max_shift (tracks : list Track) (e x : Z) :
  fold_right (fun t acc => match rev (markers t) with
                           | m :: _ => Z.max (framenr m) acc
                           | [] => acc
                           end) (Z.max e x) tracks
  = Z.max x (fold_right (fun t acc => match rev (markers t) with
                                      | m :: _ => Z.max (framenr m) acc
                                      | [] => acc
                                      end) e tracks).
Proof.
  induction tracks as [|t tracks IH]; simpl; [lia|].
  destruct (rev (markers t)); rewrite IH; lia.
Qed.

Lemma last_marker_at (ms : list Marker) :
  ms <> [] ->
  exists m, marker_at ms (Z.of_nat (length ms) - 1) = Done m /\
            exists front, rev ms = m :: front.
Proof.
  intros Hne. destruct (exists_last Hne) as (front & m & ->).
  exists m. rewrite length_app. simpl length.
  replace (Z.of_nat (length front + 1) - 1) with (Z.of_nat (length front)) by lia.
  split.
  - apply marker_at_of_nat. rewrite nth_error_app2 by lia.
    rewrite Nat.sub_diag. reflexivity.
  - exists (rev front). rewrite rev_app_distr. reflexivity.
Qed.

Lemma coverage_bounds_spec (tracks : list Track) (s e : Z) :
  (forall t, In t tracks -> markers t <> []) ->
  coverage_bounds tracks s e =
  Done (fold_right (fun t acc => match markers t with
                                 | m :: _ => Z.min (framenr m) acc
                                 | [] => acc
                                 end) s tracks,
        fold_right (fun t acc => match rev (markers t) with
                                 | m :: _ => Z.max (framenr m) acc
                                 | [] => acc
                                 end) e tracks).
Proof.
  revert s e. induction tracks as [|t tracks IH]; intros s e Hall; [reflexivity|].
  cbn [coverage_bounds].
  assert (Hne : markers t <> []) by (apply Hall; left; reflexivity).
  destruct (markers t) as [|first ms] eqn:Hms; [congruence|].
  change (marker_at (first :: ms) 0) with (@Done Marker first). cbn [bind].
  destruct (last_marker_at (first :: ms) Hne) as (lastm & Hat & front & Hrev).
  unfold markersnr. rewrite Hms, Hat. cbn [bind].
  rewrite IH by (intros; apply Hall; right; assumption).
  cbn [fold_right]. rewrite Hms, Hrev.
  rewrite bounds_min_shift, bounds_max_shift. reflexivity.
Qed.

(** *** The per-frame counters *)

Lemma counter_incr_spec (counters : list Z) (i : nat) :
  (i < length counters)%nat ->
  exists c', counter_incr counters i = Done c' /\
             length c' = length counters /\
             forall k, nth k c' 0 = nth k counters 0 + (if (k =? i)%nat then 1 else 0).
Proof.
  revert i. induction counters as [|c counters IH]; intros i Hi; simpl in Hi; [lia|].
  destruct i as [|i]; cbn [counter_incr].
  - eexists. split; [reflexivity|]. split; [reflexivity|].
    intros [|k]; simpl; lia.
  - destruct (IH i ltac:(lia)) as (c' & Hc & Hlen & Hnth). rewrite Hc. cbn [bind].
    eexists. split; [reflexivity|]. split; [simpl; lia|].
    intros [|k]; simpl; [lia|]. apply Hnth.
Qed.

Lemma count_markers_spec (ms : list Marker) (start_fr : Z) (counters : list Z) :
  (forall m, In m ms ->
             start_fr <= framenr m < start_fr + Z.of_nat (length counters)) ->
  exists c', count_markers ms start_fr counters = Done c' /\
             length c' = length counters /\
             forall k, nth k c' 0 = nth k counters 0 +
               Z.of_nat (length (filter (enabled_at (start_fr + Z.of_nat k)) ms)).
Proof.
  revert counters. induction ms as [|m ms IH]; intros counters Hall.
  - exists counters. split; [reflexivity|]. split; [reflexivity|]. intros k. simpl. lia.
  - cbn [count_markers filter]. unfold enabled_at at 1.
    pose proof (Hall m (or_introl eq_refl)) as Hm.
    destruct (Z.land (flag m) MARKER_DISABLED =? 0) eqn:Hen.
    + replace (framenr m - start_fr <? 0) with false by (symmetry; apply Z.ltb_ge; lia).
      destruct (counter_incr_spec counters (Z.to_nat (framenr m - start_fr)) ltac:(lia))
        as (c1 & Hc1 & Hlen1 & Hnth1).
      rewrite Hc1. cbn [bind].
      destruct (IH c1) as (c' & Hc & Hlen & Hnth).
      { intros x Hx. rewrite Hlen1. apply Hall. right. assumption. }
      exists c'. split; [assumption|]. split; [lia|].
      intros k. rewrite Hnth, Hnth1. cbn [andb].
      destruct (k =? Z.to_nat (framenr m - start_fr))%nat eqn:Ek.
      * apply Nat.eqb_eq in Ek.
        replace (framenr m =? start_fr + Z.of_nat k) with true
          by (symmetry; apply Z.eqb_eq; lia).
        cbn [length]. lia.
      * apply Nat.eqb_neq in Ek.
        replace (framenr m =? start_fr + Z.of_nat k) with false
          by (symmetry; apply Z.eqb_neq; lia).
        lia.
    + cbn [andb].
      destruct (IH counters) as (c' & Hc & Hlen & Hnth).
      { intros x Hx. apply Hall. right. assumption. }
      exists c'. split; [assumption|]. split; [assumption|]. exact Hnth.
Qed.

Lemma count_tracks_spec (tracks : list Track) (start_fr : Z) (counters : list Z) :
  (forall t m, In t tracks -> In m (markers t) ->
               start_fr <= framenr m < start_fr + Z.of_nat (length counters)) ->
  exists c', count_tracks tracks start_fr counters = Done c' /\
             length c' = length counters /\
             forall k, nth k c' 0 = nth k counters 0 +
                                    enabled_count tracks (start_fr + Z.of_nat k).
Proof.
  revert counters. induction tracks as [|t tracks IH]; intros counters Hall.
  - exists counters. split; [reflexivity|]. split; [reflexivity|]. intros k. simpl. lia.
  - cbn [count_tracks].
    destruct (count_markers_spec (markers t) start_fr counters) as (c1 & Hc1 & Hlen1 & Hnth1).
    { intros m Hm. apply (Hall t m); [left; reflexivity|assumption]. }
    rewrite Hc1. cbn [bind].
    destruct (IH c1) as (c' & Hc & Hlen & Hnth).
    { intros t' m Ht Hm. rewrite Hlen1. apply (Hall t' m); [right|]; assumption. }
    exists c'. split; [assumption|]. split; [lia|].
    intros k. rewrite Hnth, Hnth1. cbn [enabled_count fold_right]. unfold enabled_count. lia.
Qed.

Lemma list_as_map (l : list Z) (f : nat -> Z) (a : nat) :
  (forall k, (k < length l)%nat -> nth k l 0 = f (a + k)%nat) ->
  l = map f (seq a (length l)).
Proof.
  revert a. induction l as [|x l IH]; intros a H; [reflexivity|].
  cbn [length seq map]. f_equal.
  - specialize (H O ltac:(simpl; lia)). rewrite Nat.add_0_r in H. exact H.
  - apply IH. intros k Hk. specialize (H (S k) ltac:(simpl; lia)).
    rewrite Nat.add_succ_r in H. exact H.
Qed.

Lemma nth_repeat_zero (n k : nat) : nth k (repeat 0 n) 0 = 0.
Proof.
  revert k. induction n as [|n IH]; intros [|k]; simpl; auto.
Qed.

(** *** Frames of the markers lie inside the global range *)

Lemma global_min_le (tracks : list Track) (t : Track) (first : Marker) (ms : list Marker) :
  In t tracks -> markers t = first :: ms -> global_min tracks <= framenr first.
Proof.
  unfold global_min. induction tracks as [|t' tracks IH]; intros Hin Hms; [destruct Hin|].
  cbn [fold_right]. destruct Hin as [->|Hin].
  - rewrite Hms. lia.
  - specialize (IH Hin Hms). destruct (markers t'); lia.
Qed.

Lemma global_max_ge (tracks : list Track) (t : Track) (lastm : Marker) (front : list Marker) :
  In t tracks -> rev (markers t) = lastm :: front -> framenr lastm <= global_max tracks.
Proof.
  unfold global_max. induction tracks as [|t' tracks IH]; intros Hin Hms; [destruct Hin|].
  cbn [fold_right]. destruct Hin as [->|Hin].
  - rewrite Hms. lia.
  - specialize (IH Hin Hms). destruct (rev (markers t')); lia.
Qed.

Lemma ascending_between (ms : list Marker) (first lastm m : Marker) (front : list Marker) :
  strictly_ascending ms ->
  nth_error ms O = Some first -> rev ms = lastm :: front -> In m ms ->
  framenr first <= framenr m <= framenr lastm.
Proof.
  intros Hs Hfirst Hrev Hin.
  assert (Hlast : nth_error ms (length ms - 1) = Some lastm).
  { assert (E : ms = rev front ++ [lastm]).
    { rewrite <- (rev_involutive ms), Hrev. reflexivity. }
    rewrite E, length_app. simpl length.
    rewrite nth_error_app2 by lia.
    replace (length (rev front) + 1 - 1 - length (rev front))%nat with O by lia.
    reflexivity. }
  apply In_nth_error in Hin. destruct Hin as [j Hj].
  assert (Hjlen : (j < length ms)%nat) by (apply nth_error_Some; congruence).
  split.
  - destruct j as [|j]; [assert (m = first) by congruence; subst; lia|].
    pose proof (ascending_pairwise ms Hs O (S j) first m ltac:(lia) Hfirst Hj). lia.
  - destruct (Nat.eq_dec j (length ms - 1)) as [E|E].
    + rewrite E in Hj. assert (m = lastm) by congruence. subst. lia.
    + pose proof (ascending_pairwise ms Hs j (length ms - 1) m lastm ltac:(lia) Hj Hlast).
      lia.
Qed.

Lemma markers_in_global_range (tracks : list Track) (t : Track) (m : Marker) :
  coverage_input tracks -> In t tracks -> In m (markers t) ->
  global_min tracks <= framenr m <= global_max tracks.
Proof.
  intros [_ Hall] Ht Hm. destruct (Hall t Ht) as [Hne Hs].
  destruct (markers t) as [|first ms] eqn:Hms; [congruence|].
  destruct (last_marker_at (first :: ms) Hne) as (lastm & _ & front & Hrev).
  pose proof (global_min_le tracks t first ms Ht Hms).
  rewrite <- Hms in Hrev.
  pose proof (global_max_ge tracks t lastm front Ht Hrev).
  rewrite Hms in Hrev.
  pose proof (ascending_between (first :: ms) first lastm m front Hs eq_refl Hrev Hm).
  lia.
Qed.

Lemma removelast_map_seq (f : nat -> Z) (a n : nat) :
  removelast (map f (seq a (S n))) = map f (seq a n).
Proof.
  rewrite seq_S, map_app. cbn [map]. apply removelast_last.
Qed.

Lemma calc_coverage_runs (tracks : list Track) :
  coverage_input tracks ->
  1 <= global_max tracks - global_min tracks + 1 /\
  tracking_dopesheet_calc_coverage tracks =
  Done (match counts_from tracks (global_min tracks)
                (Z.to_nat (global_max tracks - global_min tracks + 1)) with
        | c0 :: rest =>
            coverage_loop rest 1 (global_max tracks - global_min tracks + 1)
              (global_min tracks) (frame_coverage true c0) (global_min tracks)
        | [] => []
        end).
Proof.
  intros Hin. pose proof Hin as [Hne Hall].
  assert (Hframes : 1 <= global_max tracks - global_min tracks + 1).
  { destruct tracks as [|t tracks]; [congruence|].
    destruct (Hall t (or_introl eq_refl)) as [Hmne _].
    destruct (markers t) as [|m ms] eqn:Hms; [congruence|].
    assert (Hm : In m (markers t)) by (rewrite Hms; left; reflexivity).
    pose proof (markers_in_global_range (t :: tracks) t m Hin (or_introl eq_refl) Hm). lia. }
  split; [assumption|].
  unfold tracking_dopesheet_calc_coverage.
  rewrite coverage_bounds_spec by (intros t Ht; apply Hall; assumption).
  cbn [bind]. fold (global_min tracks). fold (global_max tracks).
  set (start_fr := global_min tracks) in *. set (frames := global_max tracks - start_fr + 1) in *.
  replace (frames <=? 0) with false by (symmetry; apply Z.leb_gt; lia).
  destruct (count_tracks_spec tracks start_fr (repeat 0 (Z.to_nat frames)))
    as (c' & Hc & Hlen & Hnth).
  { intros t m Ht Hm. rewrite repeat_length.
    pose proof (markers_in_global_range tracks t m Hin Ht Hm). subst start_fr frames. lia. }
  rewrite Hc. cbn [bind]. rewrite repeat_length in Hlen.
  assert (Hc' : c' = counts_from tracks start_fr (Z.to_nat frames)).
  { unfold counts_from. rewrite <- Hlen. apply list_as_map.
    intros k _. rewrite Hnth, nth_repeat_zero. reflexivity. }
  rewrite Hc'. destruct (Z.to_nat frames) as [|n'] eqn:En; [lia|].
  unfold counts_from. cbn [seq map]. unfold frame_coverage. cbn [andb]. reflexivity.
Qed.


End CoverageFacts.

Example coverage_of_bracketed_track :
  tracking_dopesheet_calc_coverage [track_bracketed]
  = Done [ {| coverage := TRACKING_COVERAGE_OK; start_frame := 1; end_frame := 2 |};
           {| coverage := TRACKING_COVERAGE_BAD; start_frame := 2; end_frame := 3 |} ].
Proof. reflexivity. Qed.

Example coverage_S6 :
  tracking_dopesheet_calc_coverage tracks_S6
  = Done [ {| coverage := TRACKING_COVERAGE_BAD; start_frame := 1; end_frame := 29 |} ].
Proof. reflexivity. Qed.

Lemma track_bracketed_input : coverage_input [track_bracketed].
Proof.
  split; [discriminate|]. intros t [<-|[]].
  split; [discriminate | apply ascendingb_spec; reflexivity].
Qed.


(** ** Facts on the tracked segments of a dopesheet channel *)

Lemma array_set_at (pre post : list Z) (x v : Z) :
  array_set (pre ++ x :: post) (length pre) v = Done (pre ++ v :: post).
Proof.
  induction pre as [|p pre IH]; [reflexivity|].
  cbn [app length array_set]. rewrite IH. reflexivity.
Qed.

Lemma cell_pairs_app (runs : list (Z * Z)) (rest : list Z) :
  cell_pairs (run_cells runs ++ rest)
  = map (fun '(start, len) => (start, start + len)) runs ++ cell_pairs rest.
Proof.
  unfold run_cells. induction runs as [|[s l] runs IH]; [reflexivity|].
  cbn [flat_map app cell_pairs map]. f_equal. exact IH.
Qed.

Lemma run_cells_app (r1 r2 : list (Z * Z)) :
  run_cells (r1 ++ r2) = run_cells r1 ++ run_cells r2.
Proof. unfold run_cells. apply flat_map_app. Qed.

Lemma run_cells_length (runs : list (Z * Z)) :
  length (run_cells runs) = (2 * length runs)%nat.
Proof.
  unfold run_cells. induction runs as [|[s l] runs IH]; [reflexivity|].
  cbn [flat_map app length]. rewrite IH. lia.
Qed.

Section SegmentFacts.

Context {F : Type}.

Local Abbreviation Marker := (MovieTrackingMarker F).
Local Abbreviation Track := (MovieTrackingTrack F).

Lemma segment_scan_frames_eq (rest : list Marker) (prev_fra len total : Z) (i : nat) :
  segment_scan_frames rest prev_fra len total i
  = (fst (segment_scan rest prev_fra len i),
     total + (fst (segment_scan rest prev_fra len i) - len),
     snd (segment_scan rest prev_fra len i)).
Proof.
  revert prev_fra len total i. induction rest as [|m rest IH]; intros prev_fra len total i.
  - cbn. f_equal. f_equal. lia.
  - cbn [segment_scan_frames segment_scan].
    destruct (negb (framenr m =? prev_fra + 1)); [cbn; f_equal; f_equal; lia|].
    destruct (has_flag (flag m) MARKER_DISABLED); [cbn; f_equal; f_equal; lia|].
    rewrite IH. f_equal. f_equal. lia.
Qed.

(** What the inner loop has walked over when it stops. *)
Lemma segment_scan_spec (rest : list Marker) (prev_fra len : Z) (i : nat) :
  exists n : nat,
    segment_scan rest prev_fra len i = (len + Z.of_nat n, (i + n)%nat) /\
    (n <= length rest)%nat /\
    (forall k, (k < n)%nat ->
       exists m, nth_error rest k = Some m /\
                 framenr m = prev_fra + 1 + Z.of_nat k /\ marker_disabled m = false) /\
    (forall m, nth_error rest n = Some m ->
       framenr m <> prev_fra + 1 + Z.of_nat n \/ marker_disabled m = true).
Proof.
  revert prev_fra len i. induction rest as [|m rest IH]; intros prev_fra len i.
  - exists O. split; [cbn; f_equal; lia|]. split; [reflexivity|].
    split; [intros k Hk; lia|]. intros m Hm. discriminate Hm.
  - cbn [segment_scan].
    destruct (framenr m =? prev_fra + 1) eqn:Hfr; cbn [negb].
    + apply Z.eqb_eq in Hfr.
      destruct (has_flag (flag m) MARKER_DISABLED) eqn:Hdis.
      * exists O. split; [f_equal; lia|]. split; [cbn; lia|].
        split; [intros k Hk; lia|]. intros m' Hm'. inversion Hm'; subst m'.
        right. exact Hdis.
      * destruct (IH (framenr m) (len + 1) (S i)) as (n & E & Hn & Hrun & Hstop).
        exists (S n). split; [rewrite E; f_equal; lia|]. split; [cbn; lia|].
        split.
        -- intros [|k] Hk.
           ++ exists m. split; [reflexivity|]. split; [lia|exact Hdis].
           ++ destruct (Hrun k ltac:(lia)) as (mk & Hmk & Hfk & Hdk).
              exists mk. split; [exact Hmk|]. split; [lia|exact Hdk].
        -- intros m' Hm'. destruct (Hstop m' Hm') as [Hne|Hd]; [left; lia|right; exact Hd].
    + apply Z.eqb_neq in Hfr. exists O. split; [f_equal; lia|]. split; [cbn; lia|].
      split; [intros k Hk; lia|]. intros m' Hm'. inversion Hm'; subst m'.
      left. lia.
Qed.

Lemma nth_error_skipn_at (ms : list Marker) (i k : nat) :
  nth_error (skipn i ms) k = nth_error ms (i + k).
Proof.
  revert i. induction ms as [|m ms IH]; intros [|i]; try reflexivity.
  - destruct k; reflexivity.
  - cbn [skipn Nat.add nth_error]. apply IH.
Qed.

Lemma tracked_runs_placed (fuel : nat) (ms : list Marker) (i : nat) :
  (length ms <= fuel + i)%nat ->
  runs_placed ms i (tracked_runs fuel ms i) /\
  (forall k m, (i <= k)%nat -> nth_error ms k = Some m -> marker_disabled m = false ->
     (exists s len, In (s, len) (tracked_runs fuel ms i) /\ s <= framenr m <= s + len) \/
     (i < k)%nat /\
     exists p, nth_error ms (k - 1) = Some p /\ marker_disabled p = false /\
               framenr m <> framenr p + 1).
Proof.
  revert i. induction fuel as [|fuel IH]; intros i Hfuel.
  - assert (Hnone : nth_error ms i = None) by (apply nth_error_None; lia).
    cbn [tracked_runs]. rewrite Hnone.
    split; [exact I|]. intros k m Hk Hm.
    assert (k < length ms)%nat by (apply nth_error_Some; rewrite Hm; discriminate). lia.
  - cbn [tracked_runs].
    destruct (nth_error ms i) as [marker|] eqn:Hi.
    2:{ split; [exact I|]. intros k m Hk Hm.
        apply nth_error_None in Hi.
        assert (k < length ms)%nat by (apply nth_error_Some; rewrite Hm; discriminate).
        lia. }
    destruct (Z.land (flag marker) MARKER_DISABLED =? 0) eqn:Hen.
    + rewrite marker_disabled_test in Hen. apply negb_true_iff in Hen.
      destruct (segment_scan_spec (skipn (S i) ms) (framenr marker) 0 (S i))
        as (n & E & Hn & Hrun & Hstop).
      rewrite E.
      assert (Hrun_at : run_at ms i (framenr marker) n).
      { intros [|k] Hk.
        - exists marker. rewrite Nat.add_0_r. split; [exact Hi|]. split; [lia|exact Hen].
        - destruct (Hrun k ltac:(lia)) as (mk & Hmk & Hfk & Hdk).
          rewrite nth_error_skipn_at in Hmk.
          exists mk. replace (i + S k)%nat with (S i + k)%nat by lia.
          split; [exact Hmk|]. split; [lia|exact Hdk]. }
      rewrite length_skipn in Hn.
      destruct (IH (S (S i + n)) ltac:(lia)) as [Hplaced Hcover].
      split.
      * exists i, n. split; [lia|]. split; [lia|]. split; [exact Hrun_at|].
        split.
        { intros m Hm.
          destruct (Hstop m) as [Hgap|Hd]; [|left; lia|right; exact Hd].
          rewrite nth_error_skipn_at.
          replace (S i + n)%nat with (i + n + 1)%nat by lia. exact Hm. }
        split; [intros k m Hk; lia|].
        replace (i + n + 2)%nat with (S (S i + n)) by lia. exact Hplaced.
      * intros k m Hk Hm Hdis.
        destruct (Nat.le_gt_cases k (i + n)) as [Hin|Hout].
        { left. exists (framenr marker), (0 + Z.of_nat n).
          split; [left; reflexivity|].
          destruct (Hrun_at (k - i)%nat ltac:(lia)) as (mk & Hmk & Hfk & _).
          replace (i + (k - i))%nat with k in Hmk by lia.
          rewrite Hm in Hmk. inversion Hmk; subst mk. lia. }
        destruct (Nat.eq_dec k (S (i + n))) as [->|Hne].
        { right. split; [lia|].
          destruct (Hrun_at n ltac:(lia)) as (p & Hp & Hfp & Hdp).
          exists p. replace (S (i + n) - 1)%nat with (i + n)%nat by lia.
          split; [exact Hp|]. split; [exact Hdp|].
          destruct (Hstop m) as [Hgap|Hd].
          - rewrite nth_error_skipn_at.
            replace (S i + n)%nat with (S (i + n)) by lia. exact Hm.
          - lia.
          - congruence. }
        destruct (Hcover k m ltac:(lia) Hm Hdis) as [(s & len & Hin & Hfr)|(Hlt & Hp)].
        { left. exists s, len. split; [right; exact Hin|exact Hfr]. }
        right. split; [lia|exact Hp].
    + rewrite marker_disabled_test in Hen. apply negb_false_iff in Hen.
      destruct (IH (S i) ltac:(lia)) as [Hplaced Hcover].
      split.
      * destruct (tracked_runs fuel ms (S i)) as [|[s len] rest]; [exact I|].
        destruct Hplaced as (j & n & Hj & Hlen & Hrun & Hstop & Hskip & Hrest).
        exists j, n. split; [lia|]. split; [exact Hlen|]. split; [exact Hrun|].
        split; [exact Hstop|]. split; [|exact Hrest].
        intros k m Hk Hm. destruct (Nat.eq_dec k i) as [->|Hne].
        -- rewrite Hi in Hm. inversion Hm; subst m. exact Hen.
        -- apply (Hskip k m); [lia|exact Hm].
      * intros k m Hk Hm Hdis.
        destruct (Nat.eq_dec k i) as [->|Hne].
        { rewrite Hi in Hm. inversion Hm; subst m. congruence. }
        destruct (Hcover k m ltac:(lia) Hm Hdis) as [Hc|(Hlt & Hp)]; [left; exact Hc|].
        right. split; [lia|exact Hp].
Qed.

(** The first pass counts the runs. *)
Lemma segments_count_runs (fuel : nat) (ms : list Marker) (i : nat) (tot : Z) :
  (length ms <= fuel + i)%nat ->
  segments_count fuel ms i tot
  = Done (tot + Z.of_nat (length (tracked_runs fuel ms i))).
Proof.
  revert i tot. induction fuel as [|fuel IH]; intros i tot Hfuel.
  - assert (Hnone : nth_error ms i = None) by (apply nth_error_None; lia).
    cbn [segments_count tracked_runs]. rewrite Hnone. cbn [length]. f_equal. lia.
  - cbn [segments_count tracked_runs].
    destruct (nth_error ms i) as [marker|] eqn:Hi; [|cbn [length]; f_equal; lia].
    destruct (Z.land (flag marker) MARKER_DISABLED =? 0).
    + destruct (segment_scan_spec (skipn (S i) ms) (framenr marker) 0 (S i))
        as (n & E & Hn & _).
      rewrite E. rewrite IH by lia. cbn [length]. f_equal. lia.
    + apply IH. lia.
Qed.

Lemma runs_longest_cons (from : Z) (s len : Z) (runs : list (Z * Z)) :
  runs_longest from ((s, len) :: runs) = runs_longest (Z.max from len) runs.
Proof. reflexivity. Qed.

(** The second pass writes the runs into the cells from [2 * segment] on
    and leaves the cells after them as they were. *)
Lemma segments_fill_runs (fuel : nat) (ms : list Marker) (i : nat)
  (pre : list Z) (room : nat) (segment : nat) (total maxseg : Z) :
  (length ms <= fuel + i)%nat ->
  length pre = (2 * segment)%nat ->
  (length (tracked_runs fuel ms i) <= room)%nat ->
  segments_fill fuel ms i (pre ++ repeat 0 (2 * room)) segment total maxseg
  = Done (pre ++ run_cells (tracked_runs fuel ms i)
              ++ repeat 0 (2 * (room - length (tracked_runs fuel ms i))),
          total + runs_total (tracked_runs fuel ms i),
          runs_longest maxseg (tracked_runs fuel ms i)).
Proof.
  revert i pre room segment total maxseg.
  induction fuel as [|fuel IH]; intros i pre room segment total maxseg Hfuel Hpre Hroom.
  - assert (Hnone : nth_error ms i = None) by (apply nth_error_None; lia).
    cbn [segments_fill tracked_runs]. rewrite Hnone.
    cbn [run_cells flat_map app length runs_total fold_right runs_longest fold_left].
    rewrite Nat.sub_0_r, Z.add_0_r. reflexivity.
  - cbn [segments_fill tracked_runs] in *.
    destruct (nth_error ms i) as [marker|] eqn:Hi.
    2:{ cbn [run_cells flat_map app length runs_total fold_right runs_longest fold_left].
        rewrite Nat.sub_0_r, Z.add_0_r. reflexivity. }
    destruct (Z.land (flag marker) MARKER_DISABLED =? 0).
    + cbv zeta. rewrite segment_scan_frames_eq.
      destruct (segment_scan_spec (skipn (S i) ms) (framenr marker) 0 (S i))
        as (n & E & Hn & _).
      rewrite E in *. cbn [fst snd length] in *.
      destruct room as [|room]; [lia|].
      replace (2 * S room)%nat with (S (S (2 * room))) by lia. cbn [repeat].
      rewrite <- Hpre. rewrite array_set_at. cbn [bind].
      replace (length pre + 1)%nat with (length (pre ++ [framenr marker]))
        by (rewrite length_app; reflexivity).
      replace (pre ++ framenr marker :: 0 :: repeat 0 (2 * room))
        with ((pre ++ [framenr marker]) ++ 0 :: repeat 0 (2 * room))
        by (rewrite <- app_assoc; reflexivity).
      rewrite array_set_at. cbn [bind].
      replace ((pre ++ [framenr marker])
               ++ framenr marker + (0 + Z.of_nat n) :: repeat 0 (2 * room))
        with ((pre ++ [framenr marker; framenr marker + (0 + Z.of_nat n)])
              ++ repeat 0 (2 * room))
        by (rewrite <- !app_assoc; reflexivity).
      rewrite (IH (S (S i + n)) _ room (S segment)); [| lia | | lia].
      2:{ rewrite length_app. cbn [length]. lia. }
      rewrite runs_longest_cons. unfold run_cells at 2. cbn [flat_map].
      fold (run_cells (tracked_runs fuel ms (S (S i + n)))).
      cbn [runs_total fold_right].
      replace (S room - S (length (tracked_runs fuel ms (S (S i + n)))))%nat
        with (room - length (tracked_runs fuel ms (S (S i + n))))%nat by lia.
      rewrite <- !app_assoc. cbn [app]. f_equal. f_equal. f_equal.
      unfold runs_total. lia.
    + apply IH; [lia|exact Hpre|exact Hroom].
Qed.

Lemma runs_placed_in (ms : list Marker) (i : nat) (runs : list (Z * Z)) (s len : Z) :
  runs_placed ms i runs -> In (s, len) runs ->
  exists j n, (i <= j)%nat /\ len = Z.of_nat n /\ run_at ms j s n.
Proof.
  revert i. induction runs as [|[s1 l1] runs IH]; intros i Hp Hin; [destruct Hin|].
  destruct Hp as (j & n & Hj & Hlen & Hrun & _ & _ & Hrest).
  destruct Hin as [E|Hin].
  - inversion E; subst. exists j, n. repeat split; assumption.
  - destruct (IH _ Hrest Hin) as (j' & n' & Hj' & Hlen' & Hrun').
    exists j', n'. split; [lia|]. split; assumption.
Qed.

Lemma runs_longest_spec (runs : list (Z * Z)) (from : Z) :
  from <= runs_longest from runs /\
  (forall s len, In (s, len) runs -> len <= runs_longest from runs) /\
  (runs_longest from runs = from \/
   exists s len, In (s, len) runs /\ len = runs_longest from runs).
Proof.
  revert from. induction runs as [|[s1 l1] runs IH]; intros from.
  - cbn. split; [lia|]. split; [intros s len []|left; reflexivity].
  - rewrite runs_longest_cons. destruct (IH (Z.max from l1)) as (Hge & Hall & Hex).
    split; [lia|]. split.
    + intros s len [E|Hin]; [inversion E; subst; lia|exact (Hall s len Hin)].
    + destruct Hex as [E|(s & len & Hin & E)].
      * destruct (Z.max_spec from l1) as [[_ Hm]|[_ Hm]].
        -- right. exists s1, l1. split; [left; reflexivity|lia].
        -- left. lia.
      * right. exists s, len. split; [right; exact Hin|exact E].
Qed.

Lemma segments_total_runs (runs : list (Z * Z)) :
  segments_total (map (fun '(start, len) => (start, start + len)) runs)
  = runs_total runs.
Proof.
  unfold segments_total, runs_total.
  induction runs as [|[s l] runs IH]; [reflexivity|].
  cbn [map fold_right]. rewrite IH. lia.
Qed.

Lemma run_at_enabled (ms : list Marker) (j : nat) (s : Z) (n : nat) (f : Z) :
  run_at ms j s n -> s <= f <= s + Z.of_nat n -> frame_enabled ms f.
Proof.
  intros Hrun Hf.
  destruct (Hrun (Z.to_nat (f - s)) ltac:(lia)) as (m & Hm & Hfr & Hdis).
  exists m. split; [exact (nth_error_In _ _ Hm)|]. split; [lia|exact Hdis].
Qed.

Lemma no_runs_all_disabled (ms : list Marker) :
  tracked_runs (length ms) ms 0 = [] ->
  forall k m, nth_error ms k = Some m -> marker_disabled m = true.
Proof.
  intros Hnone.
  destruct (tracked_runs_placed (length ms) ms 0 ltac:(lia)) as [_ Hcover].
  rewrite Hnone in Hcover.
  intros k. induction k as [k IH] using lt_wf_ind. intros m Hm.
  destruct (marker_disabled m) eqn:Hdis; [reflexivity|].
  destruct (Hcover k m ltac:(lia) Hm Hdis) as [(s & len & [] & _)|(Hk & p & Hp & Hdp & _)].
  rewrite (IH (k - 1)%nat ltac:(lia) p Hp) in Hdp. discriminate Hdp.
Qed.

(** What the function computes, track by track. *)
Lemma segments_calc_runs (track : Track) :
  let runs := tracked_runs (length (markers track)) (markers track) 0 in
  tracking_dopesheet_channels_segments_calc track =
    Done (match runs with
          | [] => {| tot_segment := 0; max_segment := 0; total_frames := 0;
                     segments := None |}
          | _ => {| tot_segment := Z.of_nat (length runs);
                    max_segment := runs_longest 0 runs;
                    total_frames := runs_total runs;
                    segments := Some (run_cells runs) |}
          end).
Proof.
  cbv zeta. unfold tracking_dopesheet_channels_segments_calc. cbv zeta.
  rewrite segments_count_runs by lia. cbn [bind].
  set (runs := tracked_runs (length (markers track)) (markers track) 0).
  destruct runs as [|r runs'] eqn:Eruns; [reflexivity|].
  replace (0 + Z.of_nat (length (r :: runs')) =? 0) with false
    by (symmetry; apply Z.eqb_neq; cbn [length]; lia).
  replace (Z.to_nat (2 * (0 + Z.of_nat (length (r :: runs')))))
    with (2 * length (r :: runs'))%nat by lia.
  pose proof (segments_fill_runs (length (markers track)) (markers track) 0 []
                (length (r :: runs')) 0 0 0 ltac:(lia) eq_refl) as Hfill.
  fold runs in Hfill. rewrite Eruns in Hfill. cbn [app] in Hfill.
  rewrite Hfill by lia. cbn [bind].
  rewrite Nat.sub_diag. cbn [Nat.mul repeat]. rewrite app_nil_r.
  reflexivity.
Qed.

(** X9.  The segments of any track.  The function returns: the second pass
    writes inside the array the first pass sized, and fills it.  Without
    an enabled marker no array is made.  Else the array holds
    [tot_segment] pairs [start, end]; every frame of a segment holds an
    enabled marker; [total_frames] is the sum of [end - start] over the
    segments and [max_segment] the largest [end - start]. *)
Theorem channel_segments_sound (track : Track) :
  exists ch,
    tracking_dopesheet_channels_segments_calc track = Done ch /\
    match segments ch with
    | None =>
        tot_segment ch = 0 /\ total_frames ch = 0 /\ max_segment ch = 0 /\
        forall m, In m (markers track) -> marker_disabled m = true
    | Some cells =>
        0 < tot_segment ch /\
        Z.of_nat (length cells) = 2 * tot_segment ch /\
        Z.of_nat (length (cell_pairs cells)) = tot_segment ch /\
        total_frames ch = segments_total (cell_pairs cells) /\
        (forall s e, In (s, e) (cell_pairs cells) ->
           s <= e /\ e - s <= max_segment ch /\
           forall f, s <= f <= e -> frame_enabled (markers track) f) /\
        (exists s e, In (s, e) (cell_pairs cells) /\ e - s = max_segment ch)
    end.
Proof.
  rewrite segments_calc_runs. cbv zeta.
  set (ms := markers track).
  pose proof (tracked_runs_placed (length ms) ms 0 ltac:(lia)) as [Hplaced _].
  pose proof (no_runs_all_disabled ms) as Hnone.
  set (runs := tracked_runs (length ms) ms 0) in *.
  eexists. split; [reflexivity|].
  destruct runs as [|r runs'] eqn:Eruns.
  - cbn [segments tot_segment total_frames max_segment].
    repeat split. intros m Hin. destruct (In_nth_error _ _ Hin) as [k Hk].
    exact (Hnone eq_refl k m Hk).
  - rewrite <- Eruns in *. cbn [segments tot_segment total_frames max_segment].
    assert (Hpairs : cell_pairs (run_cells runs)
                     = map (fun '(start, len) => (start, start + len)) runs).
    { rewrite <- (app_nil_r (run_cells runs)), cell_pairs_app.
      cbn [cell_pairs]. apply app_nil_r. }
    rewrite Hpairs.
    destruct (runs_longest_spec runs 0) as (Hge & Hall & Hex).
    split; [rewrite Eruns; cbn [length]; lia|].
    split; [rewrite run_cells_length; lia|].
    split; [rewrite length_map; reflexivity|].
    split; [symmetry; apply segments_total_runs|].
    split.
    + intros s e Hin. apply in_map_iff in Hin.
      destruct Hin as ([s' len] & E & Hin). inversion E; subst s' e.
      destruct (runs_placed_in ms 0 runs s len Hplaced Hin) as (j & n & _ & -> & Hrun).
      split; [lia|]. split; [specialize (Hall s _ Hin); lia|].
      intros f Hf. exact (run_at_enabled ms j s n f Hrun Hf).
    + destruct Hex as [E|(s & len & Hin & E)].
      * destruct r as [s len].
        assert (Hin : In (s, len) runs) by (rewrite Eruns; left; reflexivity).
        destruct (runs_placed_in ms 0 runs s len Hplaced Hin) as (j & n & _ & Hlen & _).
        pose proof (Hall s len Hin) as Hle.
        exists s, (s + len). split.
        -- apply in_map_iff. exists (s, len). split; [reflexivity|exact Hin].
        -- lia.
      * exists s, (s + len). split.
        -- apply in_map_iff. exists (s, len). split; [reflexivity|exact Hin].
        -- lia.
Qed.

Lemma ascending_step (ms : list Marker) (d i : nat) (mi mj : Marker) :
  strictly_ascending ms ->
  nth_error ms i = Some mi -> nth_error ms (i + d) = Some mj ->
  framenr mi + Z.of_nat d <= framenr mj.
Proof.
  intros Hs. revert mj. induction d as [|d IH]; intros mj Hi Hj.
  - rewrite Nat.add_0_r, Hi in Hj. inversion Hj; subst. lia.
  - destruct (nth_error ms (i + d)) as [mk|] eqn:Hk.
    + pose proof (IH mk Hi eq_refl) as H1.
      replace (i + S d)%nat with (S (i + d)) in Hj by lia.
      pose proof (Hs (i + d)%nat mk mj Hk Hj) as H2. lia.
    + apply nth_error_None in Hk.
      assert (i + S d < length ms)%nat by (apply nth_error_Some; rewrite Hj; discriminate).
      lia.
Qed.

Lemma runs_placed_apart (ms : list Marker) (i : nat) (runs : list (Z * Z)) :
  strictly_ascending ms -> runs_placed ms i runs ->
  segments_apart (map (fun '(start, len) => (start, start + len)) runs).
Proof.
  intros Hs. revert i. induction runs as [|[s1 l1] runs IH]; intros i Hp; [exact I|].
  destruct Hp as (j & n & _ & -> & Hrun & _ & _ & Hrest).
  destruct runs as [|[s2 l2] runs]; [exact I|].
  cbn [map segments_apart]. split; [|exact (IH _ Hrest)].
  destruct Hrest as (j2 & n2 & Hj2 & _ & Hrun2 & _).
  destruct (Hrun n ltac:(lia)) as (m1 & Hm1 & Hf1 & _).
  destruct (Hrun2 O ltac:(lia)) as (m2 & Hm2 & Hf2 & _).
  rewrite Nat.add_0_r in Hm2.
  pose proof (ascending_step ms (j2 - (j + n)) (j + n) m1 m2 Hs Hm1) as Hstep.
  replace (j + n + (j2 - (j + n)))%nat with j2 in Hstep by lia.
  specialize (Hstep Hm2). lia.
Qed.

Lemma frame_in_run_cells (runs : list (Z * Z)) (f : Z) :
  frame_in_segments (run_cells runs) f <->
  exists s len, In (s, len) runs /\ s <= f <= s + len.
Proof.
  unfold frame_in_segments.
  rewrite <- (app_nil_r (run_cells runs)), cell_pairs_app.
  cbn [cell_pairs]. rewrite app_nil_r. split.
  - intros (s & e & Hin & Hf). apply in_map_iff in Hin.
    destruct Hin as ([s' len] & E & Hin). inversion E; subst.
    exists s, len. split; assumption.
  - intros (s & len & Hin & Hf). exists s, (s + len). split; [|exact Hf].
    apply in_map_iff. exists (s, len). split; [reflexivity|exact Hin].
Qed.

(** X10.  Which markers the segments cover.  An enabled marker lies in a
    segment, unless it follows an enabled marker across a gap of frames:
    the marker that ends a run is passed over, enabled or not.  So when no
    enabled marker follows an enabled one across a gap, the frames of the
    segments are exactly the frames that hold an enabled marker.  On a
    track sorted by frame the segments come in ascending order, with at
    least one frame between two of them. *)
Theorem channel_segments_cover (track : Track) (ch : MovieTrackingDopesheetChannel) :
  tracking_dopesheet_channels_segments_calc track = Done ch ->
  (forall k m, nth_error (markers track) k = Some m -> marker_disabled m = false ->
     (exists cells, segments ch = Some cells /\ frame_in_segments cells (framenr m)) \/
     (exists p, (0 < k)%nat /\ nth_error (markers track) (k - 1) = Some p /\
                marker_disabled p = false /\ framenr m <> framenr p + 1)) /\
  (runs_closed_off (markers track) ->
   forall f, frame_enabled (markers track) f <->
             exists cells, segments ch = Some cells /\ frame_in_segments cells f) /\
  (strictly_ascending (markers track) ->
   forall cells, segments ch = Some cells -> segments_apart (cell_pairs cells)).
Proof.
  rewrite segments_calc_runs. cbv zeta.
  set (ms := markers track).
  pose proof (tracked_runs_placed (length ms) ms 0 ltac:(lia)) as [Hplaced Hcover].
  set (runs := tracked_runs (length ms) ms 0) in *.
  intros Hch.
  assert (Hsegs : segments ch
                  = match runs with [] => None | _ => Some (run_cells runs) end).
  { assert (E : forall a b : MovieTrackingDopesheetChannel, Done a = Done b -> a = b)
      by (intros a b Hab; inversion Hab; reflexivity).
    rewrite <- (E _ _ Hch). destruct runs; reflexivity. }
  clear Hch.
  assert (Hseg : forall f,
            (exists s len, In (s, len) runs /\ s <= f <= s + len) <->
            exists cells, segments ch = Some cells /\ frame_in_segments cells f).
  { intros f. rewrite Hsegs. destruct runs as [|r runs'] eqn:Eruns.
    - split; [intros (s & len & [] & _)|intros (cells & E & _); discriminate E].
    - rewrite <- Eruns. split.
      + intros Hin. eexists. split; [reflexivity|]. apply frame_in_run_cells. exact Hin.
      + intros (cells & E & Hin). injection E as <-.
        apply frame_in_run_cells. exact Hin. }
  assert (Hcov : forall k m, nth_error ms k = Some m -> marker_disabled m = false ->
            (exists cells, segments ch = Some cells /\
                           frame_in_segments cells (framenr m)) \/
            (exists p, (0 < k)%nat /\ nth_error ms (k - 1) = Some p /\
                       marker_disabled p = false /\ framenr m <> framenr p + 1)).
  { intros k m Hm Hdis.
    destruct (Hcover k m ltac:(lia) Hm Hdis) as [Hin|(Hk & p & Hp & Hdp & Hgap)].
    - left. apply Hseg. exact Hin.
    - right. exists p. repeat split; assumption. }
  split; [exact Hcov|]. split.
  - intros Hclosed f. split.
    + intros (m & Hin & Hfr & Hdis). destruct (In_nth_error _ _ Hin) as [k Hk].
      destruct (Hcov k m Hk Hdis) as [Hc|(p & Hk0 & Hp & Hdp & Hgap)].
      * rewrite <- Hfr. exact Hc.
      * destruct Hgap. apply (Hclosed (k - 1)%nat p m Hp); [|exact Hdp|exact Hdis].
        replace (S (k - 1)) with k by lia. exact Hk.
    + intros Hin. apply Hseg in Hin. destruct Hin as (s & len & Hin & Hf).
      destruct (runs_placed_in ms 0 runs s len Hplaced Hin) as (j & n & _ & -> & Hrun).
      exact (run_at_enabled ms j s n f Hrun Hf).
  - intros Hs cells Hcells. rewrite Hsegs in Hcells.
    assert (E : cells = run_cells runs)
      by (destruct runs; [discriminate Hcells|injection Hcells as <-; reflexivity]).
    rewrite E, <- (app_nil_r (run_cells runs)), cell_pairs_app.
    cbn [cell_pairs]. rewrite app_nil_r.
    exact (runs_placed_apart ms 0 runs Hs Hplaced).
Qed.

End SegmentFacts.

Example segments_of_bracketed_runs :
  option_map (fun ch => (tot_segment ch, max_segment ch, total_frames ch, segments ch))
    (match tracking_dopesheet_channels_segments_calc
             (track_of (enabled_run 1 3 ++ [marker_at_frame 4 MARKER_DISABLED b32_zero b32_zero]
                        ++ enabled_run 10 2) 0) with
     | Done ch => Some ch
     | Crash => None
     end)
  = Some (2, 2, 3, Some [1; 3; 10; 11]).
Proof. reflexivity. Qed.

(** Two runs with nothing between them: the marker of frame 10 ends the
    first run and is passed over. *)
Example segments_of_adjacent_runs :
  option_map (fun ch => (tot_segment ch, max_segment ch, total_frames ch, segments ch))
    (match tracking_dopesheet_channels_segments_calc
             (track_of (enabled_run 1 3 ++ enabled_run 10 3) 0) with
     | Done ch => Some ch
     | Crash => None
     end)
  = Some (2, 2, 3, Some [1; 3; 11; 12]).
Proof. reflexivity. Qed.

Lemma channel_segments_cover_witness :
  exists ch,
    tracking_dopesheet_channels_segments_calc
      (track_of (enabled_run 1 3 ++ enabled_run 10 3) 0) = Done ch /\
    (forall cells, segments ch = Some cells -> segments_apart (cell_pairs cells)) /\
    ((exists cells, segments ch = Some cells /\ frame_in_segments cells 10) \/
     (exists p, nth_error (enabled_run 1 3 ++ enabled_run 10 3) 2 = Some p /\
                marker_disabled p = false /\ 10 <> framenr p + 1)).
Proof.
  eexists. split; [reflexivity|].
  destruct (channel_segments_cover
              (track_of (enabled_run 1 3 ++ enabled_run 10 3) 0) _ eq_refl)
    as (Hcover & _ & Hapart).
  split.
  - apply Hapart. apply ascendingb_spec. reflexivity.
  - destruct (Hcover 3%nat (marker_at_frame 10 0 b32_zero b32_zero) eq_refl eq_refl)
      as [Hc|(p & _ & Hp & Hdp & Hgap)].
    + left. exact Hc.
    + right. exists p. repeat split; assumption.
Defined.

(** ** Clamping *)

Section ClampFacts.

Context {F : Type} `{FloatOps F}.

Local Abbreviation Marker := (MovieTrackingMarker F).

(** Taking the minimum with the same bound twice changes nothing, whatever
    the comparison answers (also on NaN). *)
Lemma min_ff_idem (p s : F) : min_ff p (min_ff p s) = min_ff p s.
Proof.
  unfold min_ff. destruct (f_lt p s) eqn:E.
  - destruct (f_lt p p); reflexivity.
  - rewrite E. reflexivity.
Qed.

Lemma max_ff_idem (p s : F) : max_ff p (max_ff p s) = max_ff p s.
Proof.
  unfold max_ff, f_gt. destruct (f_lt s p) eqn:E.
  - destruct (f_lt p p); reflexivity.
  - rewrite E. reflexivity.
Qed.

Lemma pattern_minmax_set_search (m : Marker) (smin smax : vec2 F) :
  BKE_tracking_marker_pattern_minmax (set_search m smin smax)
  = BKE_tracking_marker_pattern_minmax m.
Proof. reflexivity. Qed.

Lemma clamp_pat_dim_search (m : Marker) :
  let pm := BKE_tracking_marker_pattern_minmax m in
  BKE_tracking_marker_clamp m CLAMP_PAT_DIM =
  set_search m
    (min_ff (fst (fst pm)) (fst (search_min m)), min_ff (snd (fst pm)) (snd (search_min m)))
    (max_ff (fst (snd pm)) (fst (search_max m)), max_ff (snd (snd pm)) (snd (search_max m))).
Proof.
  cbv zeta. unfold BKE_tracking_marker_clamp.
  destruct (BKE_tracking_marker_pattern_minmax m) as [pat_min pat_max]. reflexivity.
Qed.

(** Clamp idempotence, for every arithmetic. *)
Lemma clamp_pat_dim_idem (m : Marker) :
  BKE_tracking_marker_clamp (BKE_tracking_marker_clamp m CLAMP_PAT_DIM) CLAMP_PAT_DIM
  = BKE_tracking_marker_clamp m CLAMP_PAT_DIM.
Proof.
  rewrite (clamp_pat_dim_search m). cbv zeta.
  rewrite clamp_pat_dim_search. cbv zeta. rewrite pattern_minmax_set_search.
  unfold set_search. cbn [pos pattern_corners search_min search_max framenr flag fst snd].
  rewrite !min_ff_idem, !max_ff_idem. reflexivity.
Qed.

(** With an irreflexive [<] the clamped search area is nowhere inside the
    pattern box. *)
Lemma min_ff_not_above (p s : F) :
  f_lt p p = false -> f_lt p (min_ff p s) = false.
Proof.
  intros Hirr. unfold min_ff. destruct (f_lt p s) eqn:E; assumption.
Qed.

Lemma max_ff_not_below (p s : F) :
  f_lt p p = false -> f_lt (max_ff p s) p = false.
Proof.
  intros Hirr. unfold max_ff, f_gt. destruct (f_lt s p) eqn:E; assumption.
Qed.

End ClampFacts.

(** *** Order of binary32 *)

Lemma SFcompare_refl (x : binary32) :
  b32_is_nan x = false -> SFcompare x x = Some Eq.
Proof.
  destruct x as [s|s| |s m e]; simpl; intros Hn; try discriminate.
  - reflexivity.
  - destruct s; reflexivity.
  - rewrite Z.compare_refl, Pos.compare_cont_refl. destruct s; reflexivity.
Qed.

Lemma SFltb_irrefl (x : binary32) : SFltb x x = false.
Proof.
  unfold SFltb. destruct (b32_is_nan x) eqn:Hn.
  - destruct x; try discriminate. reflexivity.
  - rewrite SFcompare_refl by assumption. reflexivity.
Qed.

Lemma SFcompare_antisym (x y : binary32) :
  SFcompare y x = option_map CompOpp (SFcompare x y).
Proof.
  destruct x as [sx|sx| |sx mx ex], y as [sy|sy| |sy my ey]; simpl;
    try reflexivity; try (destruct sx; reflexivity); try (destruct sy; reflexivity);
    try (destruct sx, sy; reflexivity).
  assert (Hp : Pos.compare_cont Eq my mx = CompOpp (Pos.compare_cont Eq mx my)).
  { rewrite Pos.compare_cont_antisym. reflexivity. }
  rewrite (Z.compare_antisym ex ey), Hp.
  destruct sx, sy; simpl; try reflexivity;
    destruct (ex ?= ey); simpl; try reflexivity;
    rewrite ?CompOpp_involutive; reflexivity.
Qed.

Lemma SFltb_nan_r (x y : binary32) : SFltb x y = true -> b32_is_nan x = false /\ b32_is_nan y = false.
Proof.
  unfold SFltb. destruct x, y; simpl; intros Hlt; try discriminate; split; reflexivity.
Qed.

Lemma SFleb_of_not_ltb (x y : binary32) :
  b32_is_nan x = false -> b32_is_nan y = false ->
  SFltb y x = false -> SFleb x y = true.
Proof.
  intros Hx Hy. unfold SFltb, SFleb. rewrite (SFcompare_antisym x y).
  destruct (SFcompare x y) as [[| |]|] eqn:E; simpl; try reflexivity; try discriminate.
  destruct x, y; simpl in *; discriminate.
Qed.

Lemma SFleb_refl (x : binary32) : b32_is_nan x = false -> SFleb x x = true.
Proof.
  intros Hn. unfold SFleb. rewrite SFcompare_refl by assumption. reflexivity.
Qed.

(** *** The pattern box holds numbers *)

Lemma minmax_step_number (mm : vec2 binary32 * vec2 binary32) (vec : vec2 binary32) :
  box_is_number mm -> box_is_number (minmax_v2v2_v2 mm vec).
Proof.
  destruct mm as [[mn0 mn1] [mx0 mx1]], vec as [v0 v1].
  unfold box_is_number, minmax_v2v2_v2, f_gt. cbn [fst snd f_lt binary32_ops].
  intros (H0 & H1 & H2 & H3).
  repeat split.
  - destruct (SFltb v0 mn0) eqn:E; [apply SFltb_nan_r in E; tauto|assumption].
  - destruct (SFltb v1 mn1) eqn:E; [apply SFltb_nan_r in E; tauto|assumption].
  - destruct (SFltb mx0 v0) eqn:E; [apply SFltb_nan_r in E; tauto|assumption].
  - destruct (SFltb mx1 v1) eqn:E; [apply SFltb_nan_r in E; tauto|assumption].
Qed.

Lemma pattern_minmax_number (m : MovieTrackingMarker binary32) :
  box_is_number (BKE_tracking_marker_pattern_minmax m).
Proof.
  unfold BKE_tracking_marker_pattern_minmax.
  destruct (pattern_corners m) as [[[c0 c1] c2] c3].
  do 4 apply minmax_step_number.
  repeat split; vm_compute; reflexivity.
Qed.

Lemma min_ff_number (p s : binary32) :
  b32_is_nan p = false -> b32_is_nan s = false -> b32_is_nan (min_ff p s) = false.
Proof. intros Hp Hs. unfold min_ff. destruct (f_lt p s); assumption. Qed.

Lemma max_ff_number (p s : binary32) :
  b32_is_nan p = false -> b32_is_nan s = false -> b32_is_nan (max_ff p s) = false.
Proof. intros Hp Hs. unfold max_ff. destruct (f_gt p s); assumption. Qed.


Example clamp_S3 :
  let m' := BKE_tracking_marker_clamp marker_S3 CLAMP_PAT_DIM in
  search_min m' = (f_neg b32_0_1, f_neg b32_0_1) /\ search_max m' = (b32_0_1, b32_0_1).
Proof. split; vm_compute; reflexivity. Qed.

(** ** The marker a tracking step leaves: the segment stays bracketed *)

Section NewMarkerFacts.

Context {F : Type} `{FloatOps F}.

Local Abbreviation Marker := (MovieTrackingMarker F).
Local Abbreviation Track := (MovieTrackingTrack F).

Variable f_to_int : F -> outcome Z.
Variable D : Type.
Variable d_add : D -> D -> D.
Variable d_half : D.
Variable double_to_float : D -> F.

Local Abbreviation insert_new :=
  (tracking_insert_new_marker f_to_int D d_add d_half double_to_float).
Local Abbreviation new_tracked :=
  (tracked_marker f_to_int D d_add d_half double_to_float).

(** The coordinates leave the frame and the flags of the marker alone. *)
Lemma coords_keep_frame (w h : Z) (m m' : Marker) (dx dy : double5 D) :
  set_marker_coords_from_tracking f_to_int D d_add d_half double_to_float w h m dx dy
    = Done m' ->
  framenr m' = framenr m /\ flag m' = flag m.
Proof.
  unfold set_marker_coords_from_tracking.
  destruct dx as [[[[x0 x1] x2] x3] x4]. destruct dy as [[[[y0 y1] y2] y3] y4].
  destruct (pattern_corners m) as [[[c0 c1] c2] c3].
  repeat match goal with
         | |- bind ?c _ = Done _ -> _ =>
             destruct c; cbn [bind]; [|intros Hx; discriminate Hx]
         end.
  intros Hm. inversion Hm; subst m'. split; reflexivity.
Qed.

Lemma scale_search_keeps_frame (old_marker new_marker : Marker) :
  framenr (tracking_scale_marker_search old_marker new_marker) = framenr new_marker /\
  flag (tracking_scale_marker_search old_marker new_marker) = flag new_marker.
Proof.
  unfold tracking_scale_marker_search.
  destruct (BKE_tracking_marker_pattern_minmax old_marker) as [omin omax].
  destruct (BKE_tracking_marker_pattern_minmax new_marker) as [nmin nmax].
  split; reflexivity.
Qed.

Lemma tracked_marker_frame (old_marker nm : Marker) (nextfra w h : Z) (dx dy : double5 D) :
  new_tracked old_marker nextfra w h dx dy = Done nm ->
  framenr nm = nextfra /\ flag nm = Z.lor (flag old_marker) MARKER_TRACKED.
Proof.
  unfold tracked_marker.
  destruct (set_marker_coords_from_tracking _ _ _ _ _ _ _ _ _ _) as [m'|] eqn:Hc;
    cbn [bind]; [|intros Hx; discriminate Hx].
  intros Hm. inversion Hm; subst nm. clear Hm.
  destruct (coords_keep_frame _ _ _ _ _ _ Hc) as [_ Hfl].
  destruct (scale_search_keeps_frame old_marker
              (set_framenr (set_flag m' (Z.lor (flag m') MARKER_TRACKED)) nextfra))
    as [-> ->].
  cbn [framenr flag set_framenr set_flag]. rewrite Hfl. split; reflexivity.
Qed.

(** The two branches, on the marker they insert. *)
Lemma insert_new_marker_tracked (backwards first_time : bool) (t : Track)
  (old_marker : Marker) (curfra w h : Z) (dx dy : double5 D) :
  insert_new backwards first_time t old_marker curfra true w h dx dy =
  (nm <- new_tracked old_marker (curfra + (if backwards then -1 else 1)) w h dx dy ;;
   t1 <- (if first_time
          then tracking_marker_insert_disabled t old_marker (negb backwards) false
          else Done t) ;;
   '(_, t2) <- BKE_tracking_marker_insert t1 nm ;;
   tracking_marker_insert_disabled t2 nm backwards false).
Proof.
  unfold tracking_insert_new_marker, tracked_marker. cbv zeta.
  destruct (set_marker_coords_from_tracking _ _ _ _ _ _ _ _ _ _); reflexivity.
Qed.

(** [tracking_marker_insert_disabled] without overwrite, on a track with
    markers: the markers of the track stay, and the disabled neighbour is
    added when its frame is free. *)
Lemma insert_disabled_fill (t : Track) (ref_marker : Marker) (before : bool) :
  markers t <> [] -> track_ok t ->
  exists t',
    tracking_marker_insert_disabled t ref_marker before false = Done t' /\
    track_ok t' /\ markers t' <> [] /\
    forall x, In x (markers t') <->
              In x (markers t) \/
              (x = disabled_neighbour ref_marker before /\
               forall y, In y (markers t) -> framenr y <> framenr x).
Proof.
  intros Hne Hok.
  set (d := disabled_neighbour ref_marker before).
  assert (Hunf : tracking_marker_insert_disabled t ref_marker before false =
                 ('(has, t1) <- BKE_tracking_track_has_marker_at_frame t (framenr d) ;;
                  if negb has then
                    '(_, t2) <- BKE_tracking_marker_insert t1 d ;; Done t2
                  else Done t1)).
  { unfold tracking_marker_insert_disabled, d, disabled_neighbour.
    destruct before; reflexivity. }
  rewrite Hunf.
  destruct (frame_present_dec (markers t) (framenr d)) as [(j & mj & Hj & Hfr)|Hno].
  - destruct (has_marker_found t (framenr d) j mj Hok Hj Hfr) as [E _].
    rewrite E. cbn [bind negb]. eexists. split; [reflexivity|].
    cbn [markers set_last_marker].
    split; [split; [exact (proj1 Hok)|cbn [last_marker set_last_marker]; lia]|].
    split; [exact Hne|].
    intros x. split; [intros Hx; left; exact Hx|].
    intros [Hx|[-> Hfree]]; [exact Hx|].
    destruct (Hfree mj (nth_error_In _ _ Hj) Hfr).
  - destruct (has_marker_missing t (framenr d) Hne Hok Hno) as [E _].
    rewrite E. cbn [bind negb].
    destruct (insert_keeps_store t d Hok) as (i & t' & Hins & Hok' & Hne' & _).
    rewrite Hins. cbn [bind]. exists t'. split; [reflexivity|].
    split; [exact Hok'|]. split; [exact Hne'|].
    intros x. rewrite (marker_insert_in t t' d i Hok Hins x). split.
    + intros [->|[Hin _]]; [right; split; [reflexivity|exact Hno]|left; exact Hin].
    + intros [Hin|[-> _]]; [right; split; [exact Hin|exact (Hno x Hin)]|left; reflexivity].
Qed.

Lemma disabled_neighbour_frame (m : Marker) (before : bool) :
  framenr (disabled_neighbour m before)
  = if before then framenr m - 1 else framenr m + 1.
Proof. reflexivity. Qed.

Lemma frame_held_dec (ms : list Marker) (fr : Z) :
  frame_held ms fr \/ (forall y, In y ms -> framenr y <> fr).
Proof.
  destruct (frame_present_dec ms fr) as [(j & mj & Hj & Hfr)|Hno].
  - left. exists mj. split; [exact (nth_error_In _ _ Hj)|exact Hfr].
  - right. exact Hno.
Qed.

(** X17.  tracking_insert_new_marker on a sorted track.  When the tracker
    failed, a copy of the old marker with MARKER_DISABLED set is stored
    for the next frame, replacing the marker of that frame, and nothing
    else changes.  When it succeeded and the new coordinates are defined,
    the new marker has MARKER_TRACKED set and is stored for the next
    frame; the frame after it holds a marker afterwards, and at the first
    step so does the frame before the old marker; these two are existing
    markers, which are never overwritten, or new disabled ones.  No marker
    of another frame than the next one is lost.  At the first step on a
    track without markers, and when a coordinate does not fit an [int],
    there is no defined result. *)
Theorem insert_new_marker_brackets (backwards first_time : bool) (t : Track)
  (old_marker : Marker) (curfra w h : Z) (dx dy : double5 D) :
  track_ok t ->
  let delta := if backwards then -1 else 1 in
  let nextfra := curfra + delta in
  (exists t',
     insert_new backwards first_time t old_marker curfra false w h dx dy = Done t' /\
     strictly_ascending (markers t') /\
     forall x, In x (markers t') <->
               x = lost_marker old_marker nextfra \/
               (In x (markers t) /\ framenr x <> nextfra)) /\
  (new_tracked old_marker nextfra w h dx dy = Crash ->
   insert_new backwards first_time t old_marker curfra true w h dx dy = Crash) /\
  (forall nm,
     new_tracked old_marker nextfra w h dx dy = Done nm ->
     framenr nm = nextfra /\
     flag nm = Z.lor (flag old_marker) MARKER_TRACKED /\
     (first_time = true -> markers t = [] ->
      insert_new backwards first_time t old_marker curfra true w h dx dy = Crash) /\
     (first_time = false \/ markers t <> [] ->
      exists t',
        insert_new backwards first_time t old_marker curfra true w h dx dy = Done t' /\
        strictly_ascending (markers t') /\
        In nm (markers t') /\
        frame_held (markers t') (nextfra + delta) /\
        (first_time = true -> frame_held (markers t') (framenr old_marker - delta)) /\
        (forall x, In x (markers t) -> framenr x <> nextfra -> In x (markers t')) /\
        (forall x, In x (markers t') ->
           x = nm \/ In x (markers t) \/
           (marker_disabled x = true /\
            (framenr x = nextfra + delta \/
             (first_time = true /\ framenr x = framenr old_marker - delta)))))).
Proof.
  intros Hok delta nextfra.
  split; [|split].
  - (* the tracker failed *)
    unfold tracking_insert_new_marker. cbv zeta.
    fold delta. fold nextfra.
    change (set_flag (set_framenr old_marker nextfra)
              (Z.lor (flag (set_framenr old_marker nextfra)) MARKER_DISABLED))
      with (lost_marker old_marker nextfra).
    destruct (marker_insert_spec t (lost_marker old_marker nextfra) Hok)
      as (i & t' & Hins & _ & Hs' & _).
    rewrite Hins. cbn [bind]. exists t'. split; [reflexivity|]. split; [exact Hs'|].
    intros x. rewrite (marker_insert_in t t' _ i Hok Hins x). reflexivity.
  - intros Hc. rewrite insert_new_marker_tracked. fold delta. fold nextfra.
    rewrite Hc. reflexivity.
  - intros nm Hnm.
    destruct (tracked_marker_frame _ _ _ _ _ _ _ Hnm) as [Hfr Hfl].
    split; [exact Hfr|]. split; [exact Hfl|]. split.
    + intros -> He. rewrite insert_new_marker_tracked. fold delta. fold nextfra.
      rewrite Hnm. cbn [bind].
      unfold tracking_marker_insert_disabled, BKE_tracking_track_has_marker_at_frame.
      cbv zeta. rewrite get_exact_empty by (destruct (negb backwards); exact He).
      reflexivity.
    + intros Hpre. rewrite insert_new_marker_tracked. fold delta. fold nextfra.
      rewrite Hnm. cbn [bind].
      (* the disabled marker before the segment *)
      assert (H1 : exists t1,
                 (if first_time
                  then tracking_marker_insert_disabled t old_marker (negb backwards) false
                  else Done t) = Done t1 /\
                 track_ok t1 /\
                 (forall x, In x (markers t) -> In x (markers t1)) /\
                 (first_time = true ->
                  frame_held (markers t1) (framenr old_marker - delta)) /\
                 (forall x, In x (markers t1) ->
                    In x (markers t) \/
                    (marker_disabled x = true /\ first_time = true /\
                     framenr x = framenr old_marker - delta))).
      { destruct first_time.
        - assert (Hne : markers t <> []) by (destruct Hpre as [Hx|Hx]; [discriminate Hx|exact Hx]).
          destruct (insert_disabled_fill t old_marker (negb backwards) Hne Hok)
            as (t1 & E1 & Hok1 & _ & Hin1).
          assert (Hd : framenr (disabled_neighbour old_marker (negb backwards))
                       = framenr old_marker - delta)
            by (rewrite disabled_neighbour_frame; unfold delta; destruct backwards;
                cbn [negb]; lia).
          exists t1. split; [exact E1|]. split; [exact Hok1|].
          split; [intros x Hx; apply Hin1; left; exact Hx|]. split.
          + intros _.
            destruct (frame_held_dec (markers t) (framenr old_marker - delta))
              as [(y & Hy & Hyf)|Hfree].
            * exists y. split; [apply Hin1; left; exact Hy|exact Hyf].
            * exists (disabled_neighbour old_marker (negb backwards)).
              split; [|exact Hd]. apply Hin1. right. split; [reflexivity|].
              rewrite Hd. exact Hfree.
          + intros x Hx. apply Hin1 in Hx. destruct Hx as [Hx|[-> _]]; [left; exact Hx|].
            right. split; [apply disabled_neighbour_disabled|]. split; [reflexivity|exact Hd].
        - exists t. split; [reflexivity|]. split; [exact Hok|].
          split; [intros x Hx; exact Hx|].
          split; [intros Hx; discriminate Hx|]. intros x Hx. left. exact Hx. }
      destruct H1 as (t1 & E1 & Hok1 & Hkeep1 & Hheld1 & Hfrom1).
      rewrite E1. cbn [bind].
      (* the tracked marker *)
      destruct (insert_keeps_store t1 nm Hok1) as (i & t2 & Hins & Hok2 & Hne2 & _).
      rewrite Hins. cbn [bind].
      pose proof (marker_insert_in t1 t2 nm i Hok1 Hins) as Hin2.
      (* the disabled marker after it *)
      destruct (insert_disabled_fill t2 nm backwards Hne2 Hok2)
        as (t3 & E3 & Hok3 & _ & Hin3).
      assert (Hd3 : framenr (disabled_neighbour nm backwards) = nextfra + delta)
        by (rewrite disabled_neighbour_frame, Hfr; unfold delta; destruct backwards; lia).
      rewrite E3. exists t3. split; [reflexivity|].
      split; [exact (proj1 Hok3)|].
      split; [apply Hin3; left; apply Hin2; left; reflexivity|].
      split.
      { destruct (frame_held_dec (markers t2) (nextfra + delta)) as [(y & Hy & Hyf)|Hfree].
        - exists y. split; [apply Hin3; left; exact Hy|exact Hyf].
        - exists (disabled_neighbour nm backwards). split; [|exact Hd3].
          apply Hin3. right. split; [reflexivity|]. rewrite Hd3. exact Hfree. }
      split.
      { intros Hft. destruct (Hheld1 Hft) as (y & Hy & Hyf).
        destruct (Z.eq_dec (framenr y) (framenr nm)) as [Heq|Hneq].
        - exists nm. split; [apply Hin3; left; apply Hin2; left; reflexivity|].
          rewrite <- Heq. exact Hyf.
        - exists y. split; [|exact Hyf].
          apply Hin3. left. apply Hin2. right. split; [exact Hy|exact Hneq]. }
      split.
      { intros x Hx Hxf. apply Hin3. left. apply Hin2. right.
        split; [apply Hkeep1; exact Hx|rewrite Hfr; exact Hxf]. }
      intros x Hx. apply Hin3 in Hx. destruct Hx as [Hx|[-> _]].
      * apply Hin2 in Hx. destruct Hx as [->|[Hx _]]; [left; reflexivity|].
        destruct (Hfrom1 x Hx) as [Hin|(Hdis & Hft & Hxf)].
        -- right. left. exact Hin.
        -- right. right. split; [exact Hdis|]. right. split; [exact Hft|exact Hxf].
      * right. right. split; [apply disabled_neighbour_disabled|]. left. exact Hd3.
Qed.

End NewMarkerFacts.

(** A first step forwards from the marker of frame 10, tracked and lost;
    and a step from an empty track. *)
Example new_marker_steps :
  frames_and_flags
    (insert_new_b32 false true (track_5_10_20 0) (marker_at_frame 10 0 b32_zero b32_zero)
       10 true 100 100 double5_zero double5_zero)
  = Some [(5, 0); (9, MARKER_DISABLED); (10, 0); (11, MARKER_TRACKED);
          (12, MARKER_DISABLED); (20, 0)] /\
  frames_and_flags
    (insert_new_b32 false true (track_5_10_20 0) (marker_at_frame 10 0 b32_zero b32_zero)
       10 false 100 100 double5_zero double5_zero)
  = Some [(5, 0); (10, 0); (11, MARKER_DISABLED); (20, 0)] /\
  frames_and_flags
    (insert_new_b32 false true (track_of [] 0) (marker_at_frame 10 0 b32_zero b32_zero)
       10 true 100 100 double5_zero double5_zero)
  = None.
Proof. repeat split; vm_compute; reflexivity. Qed.

Lemma insert_new_marker_brackets_witness :
  exists t',
    insert_new_b32 false true (track_5_10_20 0) (marker_at_frame 10 0 b32_zero b32_zero)
      10 true 100 100 double5_zero double5_zero = Done t' /\
    frame_held (markers t') 12 /\ frame_held (markers t') 9.
Proof.
  assert (Hok : track_ok (track_5_10_20 0)) by (apply track_5_10_20_ok; lia).
  destruct (insert_new_marker_brackets b32_to_int binary32 f_add b32_half (fun d => d)
              false true (track_5_10_20 0) (marker_at_frame 10 0 b32_zero b32_zero)
              10 100 100 double5_zero double5_zero Hok) as (_ & _ & Htracked).
  assert (Hnm : exists nm,
             tracked_marker_b32 (marker_at_frame 10 0 b32_zero b32_zero) (10 + 1)
               100 100 double5_zero double5_zero = Done nm)
    by (eexists; vm_compute; reflexivity).
  destruct Hnm as [nm Hnm].
  destruct (Htracked nm Hnm) as (_ & _ & _ & Hrun).
  destruct Hrun as (t' & E & _ & _ & Hafter & Hbefore & _).
  - right. discriminate.
  - exists t'. split; [exact E|]. split; [exact Hafter|exact (Hbefore eq_refl)].
Defined.
(** ** Search-pixel coordinates and back, without rounding *)

Section CoordsRoundTrip.

(** The cast [(int)] is left open: the snapped search origin cancels. *)
Variable f_to_int : R -> outcome Z.

Local Abbreviation get_coords :=
  (get_marker_coords_for_tracking (F:=R) f_to_int R (fun x => x)).
Local Abbreviation set_coords :=
  (set_marker_coords_from_tracking (F:=R) f_to_int R Rplus (1 / 2)%R (fun x => x)).
Local Abbreviation search_origin := (get_search_origin_frame_pixel (F:=R) f_to_int).
Local Abbreviation to_search_pixel := (marker_unified_to_search_pixel (F:=R) f_to_int).
Local Abbreviation to_marker_unified := (search_pixel_to_marker_unified (F:=R) f_to_int).

Lemma search_origin_corners (w h : Z) (m : MovieTrackingMarker R)
  (cs : vec2 R * vec2 R * vec2 R * vec2 R) :
  search_origin w h (set_pattern_corners m cs) = search_origin w h m.
Proof. reflexivity. Qed.

Lemma to_marker_unified_corners (w h : Z) (m : MovieTrackingMarker R)
  (cs : vec2 R * vec2 R * vec2 R * vec2 R) (sp : vec2 R) :
  to_marker_unified w h (set_pattern_corners m cs) sp = to_marker_unified w h m sp.
Proof. reflexivity. Qed.

(** One point to the search window and back. *)
Lemma search_pixel_round (w h : Z) (m : MovieTrackingMarker R) (c p : vec2 R) :
  w <> 0 -> h <> 0 ->
  to_search_pixel w h m c = Done p ->
  to_marker_unified w h m
    ((fst p - f_half + 1 / 2)%R, (snd p - f_half + 1 / 2)%R) = Done c.
Proof.
  intros Hw Hh.
  unfold marker_unified_to_search_pixel, search_pixel_to_marker_unified.
  destruct (search_origin w h m) as [[ox oy]|]; cbn [bind]; [|intros Hx; discriminate Hx].
  intros Hp. inversion Hp; subst p. clear Hp.
  unfold marker_unified_to_frame_pixel_coordinates, unified_to_pixel,
    marker_to_frame_unified, pixel_to_unified, f_half, f_lit.
  cbn [fst snd f_add f_sub f_mul f_div f_of_int real_ops].
  destruct c as [cx cy]. cbn [fst snd].
  assert (HW : IZR w <> 0%R) by (apply not_0_IZR; exact Hw).
  assert (HH : IZR h <> 0%R) by (apply not_0_IZR; exact Hh).
  apply f_equal. apply f_equal2; field; assumption.
Qed.

Lemma to_search_pixel_defined (w h : Z) (m : MovieTrackingMarker R) (c : vec2 R)
  (o : vec2 R) :
  search_origin w h m = Done o -> exists p, to_search_pixel w h m c = Done p.
Proof.
  intros Ho. unfold marker_unified_to_search_pixel. rewrite Ho. cbn [bind].
  eexists. reflexivity.
Qed.


End CoordsRoundTrip.

Lemma R_to_int_zero (x : R) : x = 0%R -> R_to_int x = Done 0.
Proof.
  intros ->. unfold R_to_int. cbv zeta.
  assert (E : Int_part 0 = 0).
  { unfold Int_part. replace (up 0) with 1; [reflexivity|].
    apply tech_up; simpl; lra. }
  destruct (Rle_dec 0 0) as [_|Hn]; [|exfalso; apply Hn; lra].
  rewrite E. reflexivity.
Qed.


(** ** Joining two tracks *)

Example join_S2 :
  frames_and_positions (BKE_tracking_tracks_join dst_S2 src_S2)
  = Some [(1, (b32_zero, b32_zero)); (2, (b32_zero, b32_zero));
          (3, (b32_zero, b32_zero)); (4, (b32_half, b32_half));
          (5, (b32_one, b32_one));
          (6, (b32_one, b32_one)); (7, (b32_one, b32_one))].
Proof. vm_compute. reflexivity. Qed.

Example join_S2_gap :
  frames_and_positions (BKE_tracking_tracks_join dst_S2_gap src_S2)
  = Some [(1, (b32_zero, b32_zero)); (2, (b32_zero, b32_zero));
          (3, (b32_one, b32_one)); (4, (b32_half, b32_half));
          (5, (b32_zero, b32_zero));
          (6, (b32_one, b32_one)); (7, (b32_one, b32_one))].
Proof. vm_compute. reflexivity. Qed.

Example blend_factors_S2 :
  map (fun j => blend_fac 3 j false) [0; 1; 2] = [b32_zero; b32_half; b32_one] /\
  map (fun j => blend_fac 3 j true) [0; 1; 2] = [b32_one; b32_half; b32_zero] /\
  blend_fac 1 0 false = b32_half.
Proof. repeat split; vm_compute; reflexivity. Qed.

Section JoinFacts.

Context {F : Type} `{FloatOps F}.

Local Abbreviation Marker := (MovieTrackingMarker F).
Local Abbreviation Track := (MovieTrackingTrack F).

Lemma enabled_test (m : Marker) :
  (Z.land (flag m) MARKER_DISABLED =? 0) = negb (marker_disabled m).
Proof.
  unfold marker_disabled, has_flag. rewrite negb_involutive. reflexivity.
Qed.

Lemma enabled_frame_spec (ms : list Marker) (fr : Z) :
  enabled_frame ms fr = true <->
  exists m, In m ms /\ framenr m = fr /\ marker_disabled m = false.
Proof.
  unfold enabled_frame. rewrite existsb_exists. split.
  - intros (m & Hin & Hm). apply andb_true_iff in Hm. destruct Hm as [Hf He].
    exists m. split; [assumption|]. split; [now apply Z.eqb_eq|].
    now apply negb_true_iff.
  - intros (m & Hin & Hf & He). exists m. split; [assumption|].
    apply andb_true_iff. split; [now apply Z.eqb_eq | now apply negb_true_iff].
Qed.

Lemma ascending_next_index (ms : list Marker) (i j : nat) (mi mj : Marker) :
  strictly_ascending ms ->
  nth_error ms i = Some mi -> nth_error ms j = Some mj ->
  framenr mj = framenr mi + 1 -> j = S i.
Proof.
  intros Hs Hi Hj Hf.
  destruct (Nat.lt_trichotomy j (S i)) as [Hlt|[Heq|Hgt]]; [exfalso|assumption|exfalso].
  - destruct (Nat.eq_dec j i) as [->|Hne].
    + assert (mi = mj) by congruence. subst. lia.
    + pose proof (ascending_pairwise ms Hs j i mj mi ltac:(lia) Hj Hi). lia.
  - destruct (nth_error ms (S i)) as [mk|] eqn:Hk.
    + pose proof (ascending_pairwise ms Hs i (S i) mi mk ltac:(lia) Hi Hk).
      pose proof (ascending_pairwise ms Hs (S i) j mk mj ltac:(lia) Hk Hj). lia.
    + apply nth_error_None in Hk.
      assert (Hjn : nth_error ms j <> None) by congruence.
      apply nth_error_Some in Hjn. lia.
Qed.

(** *** The length of the intersection *)

Lemma intersection_len_le (src_rest dst_rest : list Marker) (frame : Z) :
  (intersection_len src_rest dst_rest frame <= length src_rest)%nat /\
  (intersection_len src_rest dst_rest frame <= length dst_rest)%nat.
Proof.
  revert dst_rest frame. induction src_rest as [|ma sr IH]; intros [|mb dr] frame;
    simpl; try lia.
  destruct (marker_disabled ma || marker_disabled mb); [lia|].
  destruct (negb (framenr ma =? frame) || negb (framenr mb =? frame)); [lia|].
  destruct (IH dr (frame + 1)). lia.
Qed.

Lemma intersection_len_inside (src_rest dst_rest : list Marker) (frame : Z) (k : nat) :
  (k < intersection_len src_rest dst_rest frame)%nat ->
  exists ma mb,
    nth_error src_rest k = Some ma /\ nth_error dst_rest k = Some mb /\
    marker_disabled ma = false /\ marker_disabled mb = false /\
    framenr ma = frame + Z.of_nat k /\ framenr mb = frame + Z.of_nat k.
Proof.
  revert dst_rest frame k. induction src_rest as [|ma sr IH]; intros [|mb dr] frame k;
    simpl; try lia.
  destruct (marker_disabled ma || marker_disabled mb) eqn:Hd; [lia|].
  destruct (negb (framenr ma =? frame) || negb (framenr mb =? frame)) eqn:Hf; [lia|].
  apply orb_false_iff in Hd, Hf. destruct Hd as [Hda Hdb]. destruct Hf as [Hfa Hfb].
  apply negb_false_iff, Z.eqb_eq in Hfa, Hfb.
  intros Hk. destruct k as [|k].
  - exists ma, mb. repeat split; try assumption; simpl; lia.
  - destruct (IH dr (frame + 1) k ltac:(lia)) as (ma' & mb' & Ha & Hb & Hea & Heb & Fa & Fb).
    exists ma', mb'. repeat split; try assumption; lia.
Qed.

Lemma intersection_len_stop (src_rest dst_rest : list Marker) (frame : Z) (ma mb : Marker) :
  nth_error src_rest (intersection_len src_rest dst_rest frame) = Some ma ->
  nth_error dst_rest (intersection_len src_rest dst_rest frame) = Some mb ->
  marker_disabled ma = false -> marker_disabled mb = false ->
  framenr ma = frame + Z.of_nat (intersection_len src_rest dst_rest frame) ->
  framenr mb = frame + Z.of_nat (intersection_len src_rest dst_rest frame) ->
  False.
Proof.
  revert dst_rest frame. induction src_rest as [|ma0 sr IH]; intros [|mb0 dr] frame;
    simpl; try discriminate.
  destruct (marker_disabled ma0 || marker_disabled mb0) eqn:Hd.
  - simpl. intros Ha Hb Hea Heb _ _. inversion Ha; inversion Hb; subst.
    rewrite Hea, Heb in Hd. discriminate Hd.
  - destruct (negb (framenr ma0 =? frame) || negb (framenr mb0 =? frame)) eqn:Hf.
    + simpl. intros Ha Hb _ _ Fa Fb. inversion Ha; inversion Hb; subst.
      rewrite Z.add_0_r in Fa, Fb. rewrite Fa, Fb, Z.eqb_refl in Hf. discriminate Hf.
    + simpl. intros Ha Hb Hea Heb Fa Fb.
      apply (IH dr (frame + 1)); try assumption; lia.
Qed.

Lemma intersection_len_pos (ma mb : Marker) (sr dr : list Marker) :
  marker_disabled ma = false -> marker_disabled mb = false ->
  framenr mb = framenr ma ->
  (1 <= intersection_len (ma :: sr) (mb :: dr) (framenr ma))%nat.
Proof.
  intros Ha Hb Hf. simpl. rewrite Ha, Hb, Hf, Z.eqb_refl. simpl. lia.
Qed.

(** *** The interpolation loop *)

Lemma blend_loop_spec (src_rest dst_rest : list Marker) (n : nat) (j len : Z) (inverse : bool) :
  (n <= length src_rest)%nat -> (n <= length dst_rest)%nat ->
  exists out,
    blend_loop src_rest dst_rest n j len inverse = Done out /\
    length out = n /\
    forall k, (k < n)%nat ->
      exists ma mb,
        nth_error src_rest k = Some ma /\ nth_error dst_rest k = Some mb /\
        nth_error out k = Some (blended ma mb (blend_fac len (j + Z.of_nat k) inverse)).
Proof.
  revert src_rest dst_rest j. induction n as [|n IH]; intros src_rest dst_rest j Hs Hd.
  - exists []. split; [reflexivity|]. split; [reflexivity|]. intros; lia.
  - destruct src_rest as [|ma sr]; [simpl in Hs; lia|].
    destruct dst_rest as [|mb dr]; [simpl in Hd; lia|].
    simpl in Hs, Hd. destruct (IH sr dr (j + 1) ltac:(lia) ltac:(lia)) as (out & Hrun & Hlen & Hk).
    cbn [blend_loop]. rewrite Hrun. cbn [bind]. eexists. split; [reflexivity|].
    split; [simpl; lia|]. intros [|k] Hlt.
    + exists ma, mb. simpl. rewrite Z.add_0_r. repeat split; reflexivity.
    + destruct (Hk k ltac:(lia)) as (ma' & mb' & Ha & Hb & Ho).
      exists ma', mb'. simpl. repeat split; try assumption.
      rewrite Ho. do 3 f_equal. lia.
Qed.

(** *** Small facts on frames *)

Lemma has_frame_cons (m : Marker) (ms : list Marker) (fr : Z) :
  has_frame (m :: ms) fr <-> framenr m = fr \/ has_frame ms fr.
Proof.
  unfold has_frame. split.
  - intros (x & [<-|Hin] & Hf); [left; assumption|right; exists x; auto].
  - intros [Hf|(x & Hin & Hf)]; [exists m; simpl; auto|exists x; simpl; auto].
Qed.

Lemma has_frame_nil (fr : Z) : ~ has_frame (@nil Marker) fr.
Proof. intros (x & [] & _). Qed.

Lemma has_frame_app (l1 l2 : list Marker) (fr : Z) :
  has_frame (l1 ++ l2) fr <-> has_frame l1 fr \/ has_frame l2 fr.
Proof.
  unfold has_frame. split.
  - intros (x & Hin & Hf). apply in_app_or in Hin.
    destruct Hin; [left|right]; exists x; auto.
  - intros [(x & Hin & Hf)|(x & Hin & Hf)]; exists x; split; auto using in_or_app.
Qed.

Lemma frame_from_step (ms : list Marker) (a : nat) (m : Marker) (fr : Z) :
  nth_error ms a = Some m ->
  (frame_from ms a fr <-> framenr m = fr \/ frame_from ms (S a) fr).
Proof.
  intros Ha. unfold frame_from. split.
  - intros (i & x & Hi & Hx & Hf). destruct (Nat.eq_dec i a) as [->|Hne].
    + left. congruence.
    + right. exists i, x. repeat split; [lia|assumption|assumption].
  - intros [Hf|(i & x & Hi & Hx & Hf)].
    + exists a, m. repeat split; [lia|assumption|assumption].
    + exists i, x. repeat split; [lia|assumption|assumption].
Qed.

Lemma frame_from_end (ms : list Marker) (a : nat) (fr : Z) :
  (length ms <= a)%nat -> ~ frame_from ms a fr.
Proof.
  intros Hlen (i & x & Hi & Hx & _).
  assert (Hn : nth_error ms i <> None) by congruence.
  apply nth_error_Some in Hn. lia.
Qed.

Lemma frame_from_zero (ms : list Marker) (fr : Z) :
  frame_from ms 0 fr <-> has_frame ms fr.
Proof.
  unfold frame_from, has_frame. split.
  - intros (i & x & _ & Hx & Hf). exists x. split; [eapply nth_error_In; eassumption|assumption].
  - intros (x & Hin & Hf). apply In_nth_error in Hin. destruct Hin as [i Hi].
    exists i, x. repeat split; [lia|assumption|assumption].
Qed.

Lemma frame_from_gt (ms : list Marker) (a : nat) (m : Marker) (fr : Z) :
  strictly_ascending ms -> nth_error ms a = Some m ->
  frame_from ms (S a) fr -> framenr m < fr.
Proof.
  intros Hs Ha (i & x & Hi & Hx & <-).
  apply (ascending_pairwise ms Hs a i m x); [lia|assumption|assumption].
Qed.

Lemma frame_from_ge (ms : list Marker) (a : nat) (m : Marker) (fr : Z) :
  strictly_ascending ms -> nth_error ms a = Some m ->
  frame_from ms a fr -> framenr m <= fr.
Proof.
  intros Hs Ha Hfr. apply (frame_from_step ms a m fr Ha) in Hfr.
  destruct Hfr as [<-|Hfr]; [lia|].
  pose proof (frame_from_gt ms a m fr Hs Ha Hfr). lia.
Qed.

Lemma ascending_app (l1 l2 : list Marker) :
  strictly_ascending l1 -> strictly_ascending l2 ->
  (forall x y, In x l1 -> In y l2 -> framenr x < framenr y) ->
  strictly_ascending (l1 ++ l2).
Proof.
  induction l1 as [|m l1 IH]; intros H1 H2 Hlt; [assumption|].
  simpl. apply ascending_cons_iff. apply ascending_cons_iff in H1. destruct H1 as [H1 Hm].
  split.
  - apply IH; [assumption|assumption|]. intros x y Hx Hy. apply Hlt; [right|]; assumption.
  - intros x Hx. apply in_app_or in Hx. destruct Hx as [Hx|Hx].
    + apply Hm. assumption.
    + apply Hlt; [left; reflexivity|assumption].
Qed.

Lemma ascending_by_index (l : list Marker) (f0 : Z) :
  (forall k m, nth_error l k = Some m -> framenr m = f0 + Z.of_nat k) ->
  strictly_ascending l.
Proof.
  intros Hk i mi mj Hi Hj. rewrite (Hk i mi Hi), (Hk (S i) mj Hj). lia.
Qed.

Lemma skipn_nth_cons (l : list Marker) (a : nat) (x : Marker) :
  nth_error l a = Some x -> skipn a l = x :: skipn (S a) l.
Proof.
  revert l. induction a as [|a IH]; intros [|y l] Ha; try discriminate Ha.
  - simpl in Ha. inversion Ha. reflexivity.
  - simpl in Ha. simpl. apply IH. assumption.
Qed.

(** *** The round that blends a segment *)

Lemma blend_round (src dst : list Marker) (a b : nat) (ma mb : Marker) :
  strictly_ascending src -> strictly_ascending dst ->
  merged_before src dst a b -> run_closed src dst a b ->
  nth_error src a = Some ma -> nth_error dst b = Some mb ->
  framenr mb = framenr ma ->
  marker_disabled ma = false -> marker_disabled mb = false ->
  let frame := framenr ma in
  let len := intersection_len (skipn a src) (skipn b dst) frame in
  (1 <= len)%nat /\ (a + len <= length src)%nat /\ (b + len <= length dst)%nat /\
  (forall k, (k < len)%nat ->
     exists ma_k mb_k,
       nth_error src (a + k) = Some ma_k /\ nth_error dst (b + k) = Some mb_k /\
       marker_disabled ma_k = false /\ marker_disabled mb_k = false /\
       framenr ma_k = frame + Z.of_nat k /\ framenr mb_k = frame + Z.of_nat k) /\
  blend_run src dst frame len /\
  (if (b =? 0)%nat then Done true
   else prev <- marker_at dst (Z.of_nat b - 1) ;;
        Done (has_flag (flag prev) MARKER_DISABLED || negb (framenr prev =? frame - 1)))
  = Done (negb (enabled_frame dst (frame - 1))) /\
  merged_before src dst (a + len) (b + len) /\
  run_closed src dst (a + len) (b + len).
Proof.
  intros Hss Hsd [Hm1 Hm2] Hrc Ha Hb Hf Hea Heb frame len.
  pose proof (skipn_nth_cons src a ma Ha) as Hska.
  pose proof (skipn_nth_cons dst b mb Hb) as Hskb.
  assert (Hpos : (1 <= len)%nat).
  { subst len frame. rewrite Hska, Hskb. apply intersection_len_pos; assumption. }
  destruct (intersection_len_le (skipn a src) (skipn b dst) frame) as [Hla Hlb].
  fold len in Hla, Hlb. rewrite length_skipn in Hla, Hlb.
  assert (Halen : (a < length src)%nat) by (apply nth_error_Some; congruence).
  assert (Hblen : (b < length dst)%nat) by (apply nth_error_Some; congruence).
  assert (Hin : forall k, (k < len)%nat ->
            exists ma_k mb_k,
              nth_error src (a + k) = Some ma_k /\ nth_error dst (b + k) = Some mb_k /\
              marker_disabled ma_k = false /\ marker_disabled mb_k = false /\
              framenr ma_k = frame + Z.of_nat k /\ framenr mb_k = frame + Z.of_nat k).
  { intros k Hk.
    destruct (intersection_len_inside (skipn a src) (skipn b dst) frame k Hk)
      as (x & y & Hx & Hy & R).
    rewrite nth_error_skipn in Hx, Hy. exists x, y. split; [assumption|].
    split; assumption. }
  split; [assumption|]. split; [lia|]. split; [lia|]. split; [exact Hin|].
  assert (Hstop : forall ea eb, In ea src -> In eb dst ->
            marker_disabled ea = false -> marker_disabled eb = false ->
            framenr ea = frame + Z.of_nat len -> framenr eb = frame + Z.of_nat len -> False).
  { intros ea eb Hia Hib Hda Hdb Hfa Hfb.
    apply In_nth_error in Hia, Hib. destruct Hia as [ia Hia]. destruct Hib as [ib Hib].
    destruct (Hin (len - 1)%nat ltac:(lia)) as (x & y & Hx & Hy & _ & _ & Fx & Fy).
    assert (ia = S (a + (len - 1))) by (eapply (ascending_next_index src); try eassumption; lia).
    assert (ib = S (b + (len - 1))) by (eapply (ascending_next_index dst); try eassumption; lia).
    subst ia ib.
    apply (intersection_len_stop (skipn a src) (skipn b dst) frame ea eb); fold len;
      try assumption; rewrite nth_error_skipn.
    - replace (a + len)%nat with (S (a + (len - 1))) by lia. assumption.
    - replace (b + len)%nat with (S (b + (len - 1))) by lia. assumption. }
  split.
  { (* the segment is a maximal run *)
    split; [assumption|]. split; [|split].
    - intros k Hk. destruct (Hin k Hk) as (x & y & Hx & Hy & Dx & Dy & Fx & Fy).
      split; apply enabled_frame_spec; [exists x|exists y];
        (split; [eapply nth_error_In; eassumption|split; assumption]).
    - intros [Hsa Hsb]. apply enabled_frame_spec in Hsa, Hsb.
      destruct Hsa as (ea & Hia & Hfa & Hda). destruct Hsb as (eb & Hib & Hfb & Hdb).
      apply In_nth_error in Hia, Hib. destruct Hia as [ia Hia]. destruct Hib as [ib Hib].
      assert (a = S ia) by (eapply (ascending_next_index src); try eassumption; subst frame; lia).
      assert (b = S ib) by (eapply (ascending_next_index dst); try eassumption; subst frame; lia).
      apply (Hrc ia ib ea eb ma mb); try assumption; try congruence; subst frame; lia.
    - intros [Hsa Hsb]. apply enabled_frame_spec in Hsa, Hsb.
      destruct Hsa as (ea & Hia & Hfa & Hda). destruct Hsb as (eb & Hib & Hfb & Hdb).
      eapply Hstop; eassumption. }
  split.
  { (* the inverse flag *)
    destruct b as [|b'].
    - cbn [Nat.eqb]. f_equal. symmetry. apply negb_true_iff.
      destruct (enabled_frame dst (frame - 1)) eqn:E; [exfalso|reflexivity].
      apply enabled_frame_spec in E. destruct E as (eb & Hib & Hfb & _).
      apply In_nth_error in Hib. destruct Hib as [ib Hib].
      assert (O = S ib) by (eapply (ascending_next_index dst); try eassumption; subst frame; lia).
      discriminate.
    - cbn [Nat.eqb].
      destruct (nth_error dst b') as [prev|] eqn:Hp.
      2:{ apply nth_error_None in Hp. lia. }
      replace (Z.of_nat (S b') - 1) with (Z.of_nat b') by lia.
      rewrite (marker_at_of_nat _ _ _ Hp). cbn [bind]. f_equal.
      fold (marker_disabled prev).
      destruct (enabled_frame dst (frame - 1)) eqn:E; cbn [negb].
      + apply enabled_frame_spec in E. destruct E as (eb & Hib & Hfb & Hdb).
        apply In_nth_error in Hib. destruct Hib as [ib Hib].
        assert (S b' = S ib) by (eapply (ascending_next_index dst); try eassumption; subst frame; lia).
        assert (ib = b') by lia. subst ib. assert (eb = prev) by congruence. subst eb.
        rewrite Hdb, Hfb, Z.eqb_refl. reflexivity.
      + destruct (marker_disabled prev) eqn:Dp; [reflexivity|]. cbn [orb].
        destruct (framenr prev =? frame - 1) eqn:Fp; [exfalso|reflexivity].
        apply Z.eqb_eq in Fp.
        assert (enabled_frame dst (frame - 1) = true); [|congruence].
        apply enabled_frame_spec. exists prev.
        split; [eapply nth_error_In; eassumption|split; assumption]. }
  split.
  { (* what is merged lies before what is left *)
    destruct (Hin (len - 1)%nat ltac:(lia)) as (x & y & Hx & Hy & _ & _ & Fx & Fy).
    split.
    - intros i j mi mj Hi Hj Hmi Hmj.
      assert (framenr y < framenr mj).
      { apply (ascending_pairwise dst Hsd (b + (len - 1)) j y mj); [lia|assumption|assumption]. }
      destruct (Nat.lt_ge_cases i a) as [Hlt|Hge].
      + pose proof (Hm1 i b mi mb Hlt (le_n b) Hmi Hb) as Hlt'.
        assert (framenr mb <= framenr y).
        { apply (frame_from_ge dst b mb (framenr y) Hsd Hb).
          exists (b + (len - 1))%nat, y. split; [lia|]. split; [assumption|reflexivity]. }
        lia.
      + destruct (Nat.eq_dec i (a + (len - 1))) as [->|Hne].
        * assert (mi = x) by congruence. subst. lia.
        * pose proof (ascending_pairwise src Hss i (a + (len - 1)) mi x ltac:(lia) Hmi Hx). lia.
    - intros i j mi mj Hj Hi Hmi Hmj.
      assert (framenr x < framenr mi).
      { apply (ascending_pairwise src Hss (a + (len - 1)) i x mi); [lia|assumption|assumption]. }
      destruct (Nat.lt_ge_cases j b) as [Hlt|Hge].
      + pose proof (Hm2 a j ma mj Hlt (le_n a) Ha Hmj) as Hlt'.
        assert (framenr ma <= framenr x).
        { apply (frame_from_ge src a ma (framenr x) Hss Ha).
          exists (a + (len - 1))%nat, x. split; [lia|]. split; [assumption|reflexivity]. }
        lia.
      + destruct (Nat.eq_dec j (b + (len - 1))) as [->|Hne].
        * assert (mj = y) by congruence. subst. lia.
        * pose proof (ascending_pairwise dst Hsd j (b + (len - 1)) mj y ltac:(lia) Hmj Hy). lia. }
  (* the run is closed *)
  intros a' b' pa pb xa xb Ea Eb Hpa Hpb Hxa Hxb Dpa Dpb Dxa Dxb Fp Fxa Fxb.
  destruct (Hin (len - 1)%nat ltac:(lia)) as (x & y & Hx & Hy & _ & _ & Fx & Fy).
  assert (a' = (a + (len - 1))%nat) by lia. assert (b' = (b + (len - 1))%nat) by lia.
  subst a' b'. assert (pa = x) by congruence. assert (pb = y) by congruence. subst pa pb.
  apply (Hstop xa xb); try assumption; try (eapply nth_error_In; eassumption); lia.
Qed.

(** *** The merge loop *)

Lemma join_loop_spec (src dst : list Marker) :
  strictly_ascending src -> strictly_ascending dst ->
  forall fuel a b,
    (a <= length src)%nat -> (b <= length dst)%nat ->
    (length src - a + (length dst - b) <= fuel)%nat ->
    merged_before src dst a b -> run_closed src dst a b ->
    exists out,
      join_loop fuel src dst a b = Done out /\
      (forall m, In m out -> joined src dst m) /\
      (forall fr, has_frame out fr <-> frame_from src a fr \/ frame_from dst b fr) /\
      strictly_ascending out.
Proof.
  intros Hss Hsd. induction fuel as [|fuel IH]; intros a b Hla Hlb Hfuel Hmb Hrc.
  { (* no round left: both arrays are used up *)
    assert (a = length src) by lia. assert (b = length dst) by lia. subst a b.
    cbn [join_loop]. rewrite !Nat.ltb_irrefl. cbn [orb negb].
    exists []. split; [reflexivity|]. split; [intros m []|]. split.
    - intros fr. split; [intros Hf; exfalso; eapply has_frame_nil; eassumption|].
      intros [Hf|Hf]; exfalso;
        [exact (frame_from_end src _ fr (le_n _) Hf)
        |exact (frame_from_end dst _ fr (le_n _) Hf)].
    - intros i ? ? Hi. destruct i; discriminate Hi. }
  cbn [join_loop].
  destruct ((a <? length src)%nat || (b <? length dst)%nat) eqn:Hcond; cbn [negb].
  2:{ apply orb_false_iff in Hcond. destruct Hcond as [Ca Cb].
      apply Nat.ltb_ge in Ca, Cb.
      exists []. split; [reflexivity|]. split; [intros m []|]. split.
      - intros fr. split; [intros Hf; exfalso; eapply has_frame_nil; eassumption|].
        intros [Hf|Hf]; exfalso;
          [exact (frame_from_end src a fr Ca Hf)|exact (frame_from_end dst b fr Cb Hf)].
      - intros i ? ? Hi. destruct i; discriminate Hi. }
  pose proof Hmb as [Hm1 Hm2].
  destruct (length dst <=? b)%nat eqn:Cb.
  { (* dst is used up: the marker of src *)
    apply Nat.leb_le in Cb.
    assert (Ca : (a < length src)%nat).
    { apply orb_true_iff in Hcond. destruct Hcond as [C|C]; apply Nat.ltb_lt in C; lia. }
    destruct (nth_error src a) as [ma|] eqn:Ha.
    2:{ apply nth_error_None in Ha. lia. }
    rewrite (marker_at_of_nat _ _ _ Ha). cbn [bind].
    destruct (IH (S a) b ltac:(lia) Hlb ltac:(lia)) as (rest & Hrun & Hj & Hfr & Hasc).
    { split; [|intros i j mi mj Hj0 Hi; apply Hm2; [assumption|lia]].
      intros i j mi mj _ Hj0 _ Hmj. exfalso.
      assert (Hn : nth_error dst j <> None) by congruence. apply nth_error_Some in Hn. lia. }
    { intros a' b' pa pb xa xb _ _ _ _ _ Hxb. exfalso.
      assert (Hn : nth_error dst b <> None) by congruence. apply nth_error_Some in Hn. lia. }
    assert (Hnodst : forall fr, ~ frame_from dst b fr)
      by (intros fr; apply frame_from_end; assumption).
    rewrite Hrun. cbn [bind]. eexists. split; [reflexivity|]. split; [|split].
    - intros m [<-|Hin]; [|auto]. apply joined_src_only; [eapply nth_error_In; eassumption|].
      intros (x & Hx & Hf). apply In_nth_error in Hx. destruct Hx as [j Hx].
      assert (Hn : nth_error dst j <> None) by congruence. apply nth_error_Some in Hn.
      pose proof (Hm2 a j ma x ltac:(lia) ltac:(lia) Ha Hx). lia.
    - intros fr. rewrite has_frame_cons, Hfr, (frame_from_step src a ma fr Ha). tauto.
    - apply ascending_cons_iff. split; [assumption|].
      intros x Hx. assert (Hfx : has_frame rest (framenr x)) by (exists x; auto).
      apply Hfr in Hfx. destruct Hfx as [Hfx|Hfx]; [|exfalso; eapply Hnodst; eassumption].
      exact (frame_from_gt src a ma _ Hss Ha Hfx). }
  apply Nat.leb_gt in Cb.
  destruct (nth_error dst b) as [mb|] eqn:Hb.
  2:{ apply nth_error_None in Hb. lia. }
  destruct (length src <=? a)%nat eqn:Ca.
  { (* src is used up: the marker of dst *)
    apply Nat.leb_le in Ca.
    rewrite (marker_at_of_nat _ _ _ Hb). cbn [bind].
    destruct (IH a (S b) Hla ltac:(lia) ltac:(lia)) as (rest & Hrun & Hj & Hfr & Hasc).
    { split; [intros i j mi mj Hi Hj0; apply Hm1; [assumption|lia]|].
      intros i j mi mj _ Hi Hmi _. exfalso.
      assert (Hn : nth_error src i <> None) by congruence. apply nth_error_Some in Hn. lia. }
    { intros a' b' pa pb xa xb _ _ _ _ Hxa. exfalso.
      assert (Hn : nth_error src a <> None) by congruence. apply nth_error_Some in Hn. lia. }
    assert (Hnosrc : forall fr, ~ frame_from src a fr)
      by (intros fr; apply frame_from_end; assumption).
    rewrite Hrun. cbn [bind]. eexists. split; [reflexivity|]. split; [|split].
    - intros m [<-|Hin]; [|auto]. apply joined_dst_only; [eapply nth_error_In; eassumption|].
      intros (x & Hx & Hf). apply In_nth_error in Hx. destruct Hx as [i Hx].
      assert (Hn : nth_error src i <> None) by congruence. apply nth_error_Some in Hn.
      pose proof (Hm1 i b x mb ltac:(lia) ltac:(lia) Hx Hb). lia.
    - intros fr. rewrite has_frame_cons, Hfr, (frame_from_step dst b mb fr Hb). tauto.
    - apply ascending_cons_iff. split; [assumption|].
      intros x Hx. assert (Hfx : has_frame rest (framenr x)) by (exists x; auto).
      apply Hfr in Hfx. destruct Hfx as [Hfx|Hfx]; [exfalso; eapply Hnosrc; eassumption|].
      exact (frame_from_gt dst b mb _ Hsd Hb Hfx). }
  apply Nat.leb_gt in Ca.
  destruct (nth_error src a) as [ma|] eqn:Ha.
  2:{ apply nth_error_None in Ha. lia. }
  rewrite (marker_at_of_nat _ _ _ Ha), (marker_at_of_nat _ _ _ Hb). cbn [bind].
  assert (Hafter_a : forall j x, (b <= j)%nat -> nth_error dst j = Some x ->
                                 framenr mb <= framenr x).
  { intros j x Hj Hx. apply (frame_from_ge dst b mb (framenr x) Hsd Hb).
    exists j, x. repeat split; assumption. }
  assert (Hafter_b : forall i x, (a <= i)%nat -> nth_error src i = Some x ->
                                 framenr ma <= framenr x).
  { intros i x Hi Hx. apply (frame_from_ge src a ma (framenr x) Hss Ha).
    exists i, x. repeat split; assumption. }
  destruct (framenr ma <? framenr mb) eqn:Clt.
  { (* the marker of src comes first *)
    apply Z.ltb_lt in Clt.
    destruct (IH (S a) b ltac:(lia) Hlb ltac:(lia)) as (rest & Hrun & Hj & Hfr & Hasc).
    { split; [|intros i j mi mj Hj0 Hi; apply Hm2; [assumption|lia]].
      intros i j mi mj Hi Hj0 Hmi Hmj. destruct (Nat.eq_dec i a) as [->|Hne].
      - assert (mi = ma) by congruence. subst. pose proof (Hafter_a j mj Hj0 Hmj). lia.
      - apply (Hm1 i j); [lia|assumption|assumption|assumption]. }
    { intros a' b' pa pb xa xb Ea Eb Hpa Hpb _ _ _ _ _ _ Fp _ _.
      assert (a' = a) by lia. subst a'. assert (pa = ma) by congruence. subst pa.
      pose proof (Hm2 a b' ma pb ltac:(lia) ltac:(lia) Ha Hpb). lia. }
    rewrite Hrun. cbn [bind]. eexists. split; [reflexivity|]. split; [|split].
    - intros m [<-|Hin]; [|auto]. apply joined_src_only; [eapply nth_error_In; eassumption|].
      intros (x & Hx & Hf). apply In_nth_error in Hx. destruct Hx as [j Hx].
      destruct (Nat.lt_ge_cases j b) as [Hlt|Hge].
      + pose proof (Hm2 a j ma x Hlt ltac:(lia) Ha Hx). lia.
      + pose proof (Hafter_a j x Hge Hx). lia.
    - intros fr. rewrite has_frame_cons, Hfr, (frame_from_step src a ma fr Ha). tauto.
    - apply ascending_cons_iff. split; [assumption|].
      intros x Hx. assert (Hfx : has_frame rest (framenr x)) by (exists x; auto).
      apply Hfr in Hfx. destruct Hfx as [Hfx|Hfx].
      + exact (frame_from_gt src a ma _ Hss Ha Hfx).
      + pose proof (frame_from_ge dst b mb (framenr x) Hsd Hb Hfx). lia. }
  apply Z.ltb_ge in Clt.
  destruct (framenr ma >? framenr mb) eqn:Cgt.
  { (* the marker of dst comes first *)
    apply Z.gtb_lt in Cgt.
    destruct (IH a (S b) Hla ltac:(lia) ltac:(lia)) as (rest & Hrun & Hj & Hfr & Hasc).
    { split; [intros i j mi mj Hi Hj0; apply Hm1; [assumption|lia]|].
      intros i j mi mj Hj0 Hi Hmi Hmj. destruct (Nat.eq_dec j b) as [->|Hne].
      - assert (mj = mb) by congruence. subst. pose proof (Hafter_b i mi Hi Hmi). lia.
      - apply (Hm2 i j); [lia|assumption|assumption|assumption]. }
    { intros a' b' pa pb xa xb Ea Eb Hpa Hpb _ _ _ _ _ _ Fp _ _.
      assert (b' = b) by lia. subst b'. assert (pb = mb) by congruence. subst pb.
      pose proof (Hm1 a' b pa mb ltac:(lia) ltac:(lia) Hpa Hb). lia. }
    rewrite Hrun. cbn [bind]. eexists. split; [reflexivity|]. split; [|split].
    - intros m [<-|Hin]; [|auto]. apply joined_dst_only; [eapply nth_error_In; eassumption|].
      intros (x & Hx & Hf). apply In_nth_error in Hx. destruct Hx as [i Hx].
      destruct (Nat.lt_ge_cases i a) as [Hlt|Hge].
      + pose proof (Hm1 i b x mb Hlt ltac:(lia) Hx Hb). lia.
      + pose proof (Hafter_b i x Hge Hx). lia.
    - intros fr. rewrite has_frame_cons, Hfr, (frame_from_step dst b mb fr Hb). tauto.
    - apply ascending_cons_iff. split; [assumption|].
      intros x Hx. assert (Hfx : has_frame rest (framenr x)) by (exists x; auto).
      apply Hfr in Hfx. destruct Hfx as [Hfx|Hfx].
      + pose proof (frame_from_ge src a ma (framenr x) Hss Ha Hfx). lia.
      + exact (frame_from_gt dst b mb _ Hsd Hb Hfx). }
  rewrite Z.gtb_ltb in Cgt. apply Z.ltb_ge in Cgt.
  assert (Hf : framenr mb = framenr ma) by lia.
  rewrite !enabled_test.
  (* one marker of each track on this frame *)
  assert (Hstep : merged_before src dst (S a) (S b)).
  { split.
    - intros i j mi mj Hi Hj0 Hmi Hmj.
      pose proof (ascending_pairwise dst Hsd b j mb mj ltac:(lia) Hb Hmj).
      destruct (Nat.eq_dec i a) as [->|Hne].
      + assert (mi = ma) by congruence. subst. lia.
      + pose proof (Hm1 i b mi mb ltac:(lia) ltac:(lia) Hmi Hb). lia.
    - intros i j mi mj Hj0 Hi Hmi Hmj.
      pose proof (ascending_pairwise src Hss a i ma mi ltac:(lia) Ha Hmi).
      destruct (Nat.eq_dec j b) as [->|Hne].
      + assert (mj = mb) by congruence. subst. lia.
      + pose proof (Hm2 a j ma mj ltac:(lia) ltac:(lia) Ha Hmj). lia. }
  assert (Hone : forall m rest,
            joined src dst m -> framenr m = framenr ma ->
            (forall x, In x rest -> joined src dst x) ->
            (forall fr, has_frame rest fr <-> frame_from src (S a) fr \/ frame_from dst (S b) fr) ->
            strictly_ascending rest ->
            (forall x, In x (m :: rest) -> joined src dst x) /\
            (forall fr, has_frame (m :: rest) fr <-> frame_from src a fr \/ frame_from dst b fr) /\
            strictly_ascending (m :: rest)).
  { intros m rest Hjm Hfm Hj Hfr Hasc. split; [|split].
    - intros x [<-|Hin]; auto.
    - intros fr. rewrite has_frame_cons, Hfr, (frame_from_step src a ma fr Ha),
        (frame_from_step dst b mb fr Hb). rewrite Hfm, Hf. tauto.
    - apply ascending_cons_iff. split; [assumption|].
      intros x Hx. assert (Hfx : has_frame rest (framenr x)) by (exists x; auto).
      apply Hfr in Hfx. rewrite Hfm. destruct Hfx as [Hfx|Hfx].
      + exact (frame_from_gt src a ma _ Hss Ha Hfx).
      + rewrite <- Hf. exact (frame_from_gt dst b mb _ Hsd Hb Hfx). }
  destruct (marker_disabled ma) eqn:Da; cbn [negb].
  { (* src disabled: the marker of dst *)
    destruct (IH (S a) (S b) ltac:(lia) ltac:(lia) ltac:(lia) Hstep)
      as (rest & Hrun & Hj & Hfr & Hasc).
    { intros a' b' pa pb xa xb Ea Eb Hpa Hpb _ _ Dpa.
      assert (a' = a) by lia. subst a'. congruence. }
    rewrite Hrun. cbn [bind]. eexists. split; [reflexivity|].
    apply Hone; try assumption.
    apply (joined_src_disabled src dst ma mb); try assumption;
      try (eapply nth_error_In; eassumption). congruence. }
  destruct (marker_disabled mb) eqn:Db; cbn [negb].
  { (* dst disabled: the marker of src *)
    destruct (IH (S a) (S b) ltac:(lia) ltac:(lia) ltac:(lia) Hstep)
      as (rest & Hrun & Hj & Hfr & Hasc).
    { intros a' b' pa pb xa xb Ea Eb Hpa Hpb _ _ _ Dpb.
      assert (b' = b) by lia. subst b'. congruence. }
    rewrite Hrun. cbn [bind]. eexists. split; [reflexivity|].
    apply Hone; try assumption; [|reflexivity].
    apply (joined_src_enabled src dst ma mb); try assumption;
      try (eapply nth_error_In; eassumption). congruence. }
  (* both enabled: a segment is blended *)
  destruct (blend_round src dst a b ma mb Hss Hsd Hmb Hrc Ha Hb Hf Da Db)
    as (Hpos & Hlena & Hlenb & Hin & Hblend & Hinv & Hmb' & Hrc').
  set (len := intersection_len (skipn a src) (skipn b dst) (framenr ma)) in *.
  rewrite Hinv. cbn [bind].
  destruct (blend_loop_spec (skipn a src) (skipn b dst) len 0 (Z.of_nat len)
              (negb (enabled_frame dst (framenr ma - 1))))
    as (seg & Hseg & Hseglen & Hsegk).
  { rewrite length_skipn. lia. }
  { rewrite length_skipn. lia. }
  rewrite Hseg. cbn [bind].
  destruct (IH (a + len)%nat (b + len)%nat Hlena Hlenb ltac:(lia) Hmb' Hrc')
    as (rest & Hrun & Hj & Hfr & Hasc).
  rewrite Hrun. cbn [bind]. eexists. split; [reflexivity|].
  assert (Hsegm : forall k m, nth_error seg k = Some m ->
            exists ma_k mb_k,
              (k < len)%nat /\
              nth_error src (a + k) = Some ma_k /\ nth_error dst (b + k) = Some mb_k /\
              marker_disabled ma_k = false /\ marker_disabled mb_k = false /\
              framenr ma_k = framenr ma + Z.of_nat k /\
              framenr mb_k = framenr ma + Z.of_nat k /\
              m = blended ma_k mb_k
                    (blend_fac (Z.of_nat len) (Z.of_nat k)
                               (negb (enabled_frame dst (framenr ma - 1))))).
  { intros k m Hk.
    assert (Hklen : (k < len)%nat).
    { rewrite <- Hseglen. apply nth_error_Some. congruence. }
    destruct (Hsegk k Hklen) as (x & y & Hx & Hy & Hout).
    destruct (Hin k Hklen) as (x' & y' & Hx' & Hy' & R).
    rewrite nth_error_skipn in Hx, Hy.
    assert (x' = x) by congruence. assert (y' = y) by congruence. subst x' y'.
    exists x, y. split; [assumption|]. split; [assumption|]. split; [assumption|].
    destruct R as (R1 & R2 & R3 & R4).
    repeat split; try assumption. rewrite Hout in Hk. simpl in Hk. congruence. }
  assert (Hsegfr : forall fr, has_frame seg fr <->
                              exists k, (k < len)%nat /\ fr = framenr ma + Z.of_nat k).
  { intros fr. split.
    - intros (m & Hm & Hfm). apply In_nth_error in Hm. destruct Hm as [k Hk].
      destruct (Hsegm k m Hk) as (x & y & Hkl & _ & _ & _ & _ & _ & Fy & ->).
      exists k. split; [assumption|]. rewrite <- Hfm. exact Fy.
    - intros (k & Hk & ->).
      destruct (nth_error seg k) as [m|] eqn:Hm.
      2:{ apply nth_error_None in Hm. lia. }
      destruct (Hsegm k m Hm) as (x & y & _ & _ & _ & _ & _ & _ & Fy & ->).
      eexists. split; [eapply nth_error_In; eassumption|exact Fy]. }
  assert (Hrange : forall (ms : list Marker) (c : nat) (m0 : Marker),
            strictly_ascending ms ->
            (forall k, (k < len)%nat ->
               exists x, nth_error ms (c + k) = Some x /\ framenr x = framenr ma + Z.of_nat k) ->
            nth_error ms c = Some m0 ->
            forall fr, frame_from ms c fr <->
                       (exists k, (k < len)%nat /\ fr = framenr ma + Z.of_nat k) \/
                       frame_from ms (c + len) fr).
  { intros ms c m0 Hs Hall Hc fr. split.
    - intros (i & x & Hi & Hx & Hfx).
      destruct (Nat.lt_ge_cases i (c + len)) as [Hlt|Hge].
      + left. exists (i - c)%nat. split; [lia|].
        destruct (Hall (i - c)%nat ltac:(lia)) as (x' & Hx' & Fx').
        replace (c + (i - c))%nat with i in Hx' by lia.
        assert (x' = x) by congruence. subst. lia.
      + right. exists i, x. repeat split; assumption.
    - intros [(k & Hk & ->)|(i & x & Hi & Hx & Hfx)].
      + destruct (Hall k Hk) as (x & Hx & Fx). exists (c + k)%nat, x.
        repeat split; [lia|assumption|assumption].
      + exists i, x. repeat split; [lia|assumption|assumption]. }
  split; [|split].
  - intros m Hm. apply in_app_or in Hm. destruct Hm as [Hm|Hm]; [|auto].
    apply In_nth_error in Hm. destruct Hm as [k Hk].
    destruct (Hsegm k m Hk) as (x & y & Hkl & Hx & Hy & Dx & Dy & Fx & Fy & ->).
    apply (joined_blend src dst x y (framenr ma) len k); try assumption;
      try (eapply nth_error_In; eassumption).
  - intros fr. rewrite has_frame_app, Hfr, Hsegfr.
    rewrite (Hrange src a ma Hss) by
      (try assumption; intros k Hk; destruct (Hin k Hk) as (x & y & Hx & _ & _ & _ & Fx & _);
       exists x; split; assumption).
    rewrite (Hrange dst b mb Hsd) by
      (try assumption; intros k Hk; destruct (Hin k Hk) as (x & y & _ & Hy & _ & _ & _ & Fy);
       exists y; split; assumption).
    tauto.
  - apply ascending_app; [|assumption|].
    + apply (ascending_by_index seg (framenr ma)). intros k m Hk.
      destruct (Hsegm k m Hk) as (x & y & _ & _ & _ & _ & _ & _ & Fy & ->). exact Fy.
    + intros x y Hx Hy.
      assert (Hfx : has_frame seg (framenr x)) by (exists x; auto).
      apply Hsegfr in Hfx. destruct Hfx as (k & Hk & ->).
      assert (Hfy : has_frame rest (framenr y)) by (exists y; auto).
      apply Hfr in Hfy.
      destruct (Hin (len - 1)%nat ltac:(lia)) as (xa & xb & Hxa & Hxb & _ & _ & Fxa & Fxb).
      destruct Hfy as [Hfy|Hfy].
      * assert (framenr xa < framenr y).
        { apply (frame_from_gt src (a + (len - 1)) xa _ Hss Hxa).
          replace (S (a + (len - 1))) with (a + len)%nat by lia. assumption. }
        lia.
      * assert (framenr xb < framenr y).
        { apply (frame_from_gt dst (b + (len - 1)) xb _ Hsd Hxb).
          replace (S (b + (len - 1))) with (b + len)%nat by lia. assumption. }
        lia.
Qed.

(** *** Reading the joined array *)

Lemma ascending_same_frame (ms : list Marker) (x y : Marker) :
  strictly_ascending ms -> In x ms -> In y ms -> framenr x = framenr y -> x = y.
Proof.
  intros Hs Hx Hy Hf. apply In_nth_error in Hx, Hy.
  destruct Hx as [i Hi]. destruct Hy as [j Hj].
  assert (i = j) by (eapply ascending_frame_inj; eassumption). subst. congruence.
Qed.

Lemma blend_run_unique (src dst : list Marker) (f0 f0' : Z) (len len' j j' : nat) :
  blend_run src dst f0 len -> blend_run src dst f0' len' ->
  (j < len)%nat -> (j' < len')%nat -> f0 + Z.of_nat j = f0' + Z.of_nat j' ->
  f0 = f0' /\ len = len' /\ j = j'.
Proof.
  intros (_ & Hin & Hbefore & Hafter) (_ & Hin' & Hbefore' & Hafter') Hj Hj' Hf.
  assert (E0 : f0 = f0').
  { destruct (Z.lt_trichotomy f0 f0') as [Hlt|[E|Hgt]]; [exfalso|assumption|exfalso].
    - apply Hbefore'. replace (f0' - 1) with (f0 + Z.of_nat (Z.to_nat (f0' - 1 - f0))) by lia.
      apply Hin. lia.
    - apply Hbefore. replace (f0 - 1) with (f0' + Z.of_nat (Z.to_nat (f0 - 1 - f0'))) by lia.
      apply Hin'. lia. }
  subst f0'. split; [reflexivity|]. split; [|lia].
  destruct (Nat.lt_trichotomy len len') as [Hlt|[E|Hgt]]; [exfalso|assumption|exfalso].
  - apply Hafter. apply Hin'. assumption.
  - apply Hafter'. apply Hin. assumption.
Qed.

Lemma joined_frame_cases (src dst : list Marker) (m : Marker) :
  joined src dst m ->
  (exists ma, In ma src /\ framenr ma = framenr m) \/
  (exists mb, In mb dst /\ framenr mb = framenr m).
Proof.
  intros Hj. destruct Hj.
  - left. eexists. split; [eassumption|reflexivity].
  - right. eexists. split; [eassumption|reflexivity].
  - left. eexists. split; [eassumption|reflexivity].
  - right. eexists. split; [eassumption|reflexivity].
  - right. eexists. split; [eassumption|reflexivity].
Qed.

(** The marker the joined array holds on a frame, by the four cases of the
    merge. *)
Lemma joined_on_frame (src dst : list Marker) (m : Marker) :
  strictly_ascending src -> strictly_ascending dst ->
  joined src dst m ->
  (forall ma, In ma src -> framenr ma = framenr m ->
              ~ has_frame dst (framenr ma) -> m = ma) /\
  (forall mb, In mb dst -> framenr mb = framenr m ->
              ~ has_frame src (framenr mb) -> m = mb) /\
  (forall ma mb, In ma src -> In mb dst ->
                 framenr ma = framenr m -> framenr mb = framenr m ->
                 marker_disabled ma = false -> marker_disabled mb = true -> m = ma) /\
  (forall ma mb, In ma src -> In mb dst ->
                 framenr ma = framenr m -> framenr mb = framenr m ->
                 marker_disabled ma = true -> m = mb) /\
  (forall ma mb f0 len j, In ma src -> In mb dst ->
     framenr ma = framenr m -> framenr mb = framenr m ->
     marker_disabled ma = false -> marker_disabled mb = false ->
     blend_run src dst f0 len -> (j < len)%nat -> framenr m = f0 + Z.of_nat j ->
     m = blended ma mb
           (blend_fac (Z.of_nat len) (Z.of_nat j) (negb (enabled_frame dst (f0 - 1))))).
Proof.
  intros Hss Hsd Hj.
  assert (Hsrc : forall x y, In x src -> In y src -> framenr x = framenr y -> x = y)
    by (intros x y; apply (ascending_same_frame src x y Hss)).
  assert (Hdst : forall x y, In x dst -> In y dst -> framenr x = framenr y -> x = y)
    by (intros x y; apply (ascending_same_frame dst x y Hsd)).
  destruct Hj as [xa Hxa Hno | xb Hxb Hno | xa xb Hxa Hxb Hfx Dxa Dxb
                 | xa xb Hxa Hxb Hfx Dxa | xa xb g0 glen gj Hxa Hxb Fxa Fxb Dxa Dxb Hrun Hgj].
  - (* only src holds the frame *)
    repeat split.
    + intros ma Hma Hf _. symmetry. auto.
    + intros mb Hmb Hf _. exfalso. apply Hno. exists mb. auto.
    + intros ma mb _ Hmb _ Hf. exfalso. apply Hno. exists mb. auto.
    + intros ma mb _ Hmb _ Hf. exfalso. apply Hno. exists mb. auto.
    + intros ma mb f0 len j _ Hmb _ Hf. exfalso. apply Hno. exists mb. auto.
  - (* only dst holds the frame *)
    repeat split.
    + intros ma Hma Hf _. exfalso. apply Hno. exists ma. auto.
    + intros mb Hmb Hf _. symmetry. auto.
    + intros ma mb Hma _ Hf. exfalso. apply Hno. exists ma. auto.
    + intros ma mb Hma _ Hf. exfalso. apply Hno. exists ma. auto.
    + intros ma mb f0 len j Hma _ Hf. exfalso. apply Hno. exists ma. auto.
  - (* src enabled, dst disabled *)
    repeat split.
    + intros ma Hma Hf Hn. exfalso. apply Hn. exists xb. split; [assumption|congruence].
    + intros mb Hmb Hf Hn. exfalso. apply Hn. exists xa. split; [assumption|congruence].
    + intros ma mb Hma _ Hf _ _ _. symmetry. auto.
    + intros ma mb Hma _ Hf _ Dma. assert (ma = xa) by auto. congruence.
    + intros ma mb f0 len j _ Hmb _ Hf _ Dmb.
      assert (mb = xb) by (apply Hdst; [assumption|assumption|congruence]). congruence.
  - (* src disabled *)
    repeat split.
    + intros ma Hma Hf Hn. exfalso. apply Hn. exists xb. split; [assumption|congruence].
    + intros mb Hmb Hf Hn. exfalso. apply Hn. exists xa. split; [assumption|congruence].
    + intros ma mb Hma _ Hf _ Dma.
      assert (ma = xa) by (apply Hsrc; [assumption|assumption|congruence]). congruence.
    + intros ma mb _ Hmb _ Hf _. symmetry. auto.
    + intros ma mb f0 len j Hma _ Hf _ Dma.
      assert (ma = xa) by (apply Hsrc; [assumption|assumption|congruence]). congruence.
  - (* a blended marker *)
    assert (Hfm : forall fac, framenr (blended xa xb fac) = framenr xb) by reflexivity.
    repeat split.
    + intros ma Hma Hf Hn. exfalso. apply Hn. exists xb. split; [assumption|].
      rewrite Hf, Hfm. reflexivity.
    + intros mb Hmb Hf Hn. exfalso. apply Hn. exists xa. split; [assumption|].
      rewrite Hf, Hfm. congruence.
    + intros ma mb _ Hmb _ Hf _ Dmb. rewrite Hfm in Hf.
      assert (mb = xb) by auto. congruence.
    + intros ma mb Hma _ Hf _ Dma. rewrite Hfm in Hf.
      assert (ma = xa) by (apply Hsrc; [assumption|assumption|congruence]). congruence.
    + intros ma mb f0 len j Hma Hmb Hfa Hfb _ _ Hrun' Hj' Hf. rewrite Hfm in Hfa, Hfb, Hf.
      assert (ma = xa) by (apply Hsrc; [assumption|assumption|congruence]).
      assert (mb = xb) by auto. subst ma mb.
      destruct (blend_run_unique src dst g0 f0 glen len gj j Hrun Hrun' Hgj Hj'
                  ltac:(lia)) as (-> & -> & ->).
      reflexivity.
Qed.

End JoinFacts.


(** *** The blend factor over the reals *)

Lemma blend_fac_real (len j : Z) :
  (1 < len ->
   @blend_fac R real_ops len j false = (IZR j / IZR (len - 1))%R /\
   @blend_fac R real_ops len j true = (1 - IZR j / IZR (len - 1))%R) /\
  (len = 1 -> forall inverse, @blend_fac R real_ops len j inverse = (1 / 2)%R).
Proof.
  unfold blend_fac, f_half, f_lit, f_one. cbn [f_div f_mul f_sub f_of_int real_ops].
  split.
  - intros Hlen. replace (1 <? len) with true by (symmetry; apply Z.ltb_lt; lia).
    assert (Hnz : IZR (len - 1) <> 0%R) by (apply not_0_IZR; lia).
    split; field; assumption.
  - intros -> inverse. change (1 <? 1) with false. cbv iota.
    destruct inverse; lra.
Qed.

Lemma interp_real (a b : vec2 R) (t : R) :
  @interp_v2_v2v2 R real_ops a b t
  = (((1 - t) * fst a + t * fst b)%R, ((1 - t) * snd a + t * snd b)%R).
Proof. reflexivity. Qed.

Section JoinTheorem.

Context {F : Type} `{FloatOps F}.

Local Abbreviation Marker := (MovieTrackingMarker F).
Local Abbreviation Track := (MovieTrackingTrack F).


End JoinTheorem.

(** ** Position of a track at a fractional frame: no extrapolation *)

Section SubframeFacts.

Context {F : Type} `{FloatOps F}.

Local Abbreviation Marker := (MovieTrackingMarker F).
Local Abbreviation Track := (MovieTrackingTrack F).

Variable f_to_int : F -> outcome Z.

Local Abbreviation subframe_position :=
  (BKE_tracking_marker_get_subframe_position f_to_int).

(** X24.  BKE_tracking_marker_get_subframe_position.  With [fr] the frame
    number cut to an [int], the position is taken from the marker the
    lookup gives for [fr] (the last one at or before [fr], the first one
    for a frame before the track).  It is interpolated towards the next
    marker of the array only when that marker sits on the very next frame,
    with the factor [(framenr - fr) / 1]; in every other case, also after
    the last marker, it is the position of the marker itself.  The offset
    of the track is added, and the marker array is not changed.  On a
    track without markers, and when the frame number does not fit an
    [int], there is no defined result. *)
Theorem subframe_position_cases (t : Track) (offset : vec2 F) (framenr_f : F) :
  (f_to_int framenr_f = Crash -> subframe_position t offset framenr_f = Crash) /\
  (forall fr, f_to_int framenr_f = Done fr -> markers t = [] ->
     subframe_position t offset framenr_f = Crash) /\
  (forall fr, f_to_int framenr_f = Done fr -> markers t <> [] -> track_ok t ->
     exists i m t',
       nth_error (markers t) i = Some m /\ nearest_left (markers t) fr i /\
       markers t' = markers t /\
       let p := subframe_between m (nth_error (markers t) (S i)) framenr_f fr in
       subframe_position t offset framenr_f
       = Done ((f_add (fst p) (fst offset), f_add (snd p) (snd offset)), t')).
Proof.
  unfold BKE_tracking_marker_get_subframe_position.
  split; [intros ->; reflexivity|]. split.
  - intros fr -> He. cbn [bind]. rewrite (marker_get_empty t fr He). reflexivity.
  - intros fr -> Hne Hok. cbn [bind].
    destruct (marker_get_spec t fr Hne Hok) as (i & m & Hi & Hnl & Hget).
    rewrite Hget. cbn [bind].
    set (t' := if framenr m =? fr then set_last_marker t (Z.of_nat i) else t).
    assert (Hms : markers t' = markers t) by (unfold t'; destruct (framenr m =? fr); reflexivity).
    exists i, m, t'. split; [exact Hi|]. split; [exact Hnl|]. split; [exact Hms|].
    cbv zeta. unfold markersnr. rewrite Hms.
    rewrite (marker_at_of_nat _ _ _ Hi). cbn [bind].
    assert (Hlt : (i < length (markers t))%nat) by (apply nth_error_Some; congruence).
    unfold subframe_between.
    destruct (Z.eqb_spec (Z.of_nat i) (Z.of_nat (length (markers t)) - 1)) as [Hlast|Hmid];
      cbn [negb].
    + assert (Hnone : nth_error (markers t) (S i) = None) by (apply nth_error_None; lia).
      rewrite Hnone. cbn [bind]. reflexivity.
    + destruct (nth_error (markers t) (S i)) as [m_next|] eqn:Hnext;
        [|apply nth_error_None in Hnext; lia].
      replace (Z.of_nat i + 1) with (Z.of_nat (S i)) by lia.
      rewrite (marker_at_of_nat _ _ _ Hnext). cbn [bind].
      destruct (Z.eqb_spec (framenr m_next) (framenr m + 1)) as [Heq|Hneq].
      * replace (framenr m_next - framenr m) with 1 by lia. cbn [bind]. reflexivity.
      * cbn [bind]. reflexivity.
Qed.

End SubframeFacts.

(** The position at the frames 1.5, 2.5 and 4.5, and at the frame 0.5
    before the track, where the first marker is taken and blended with the
    second one. *)
Example positions_on_ramp :
  map (fun n => position_at n 2) [3; 5; 9; 1]
  = [Some (b32_half, b32_half); Some (b32_one, b32_one);
     Some (b32_int 3, b32_int 3); Some (b32_half, b32_half)].
Proof. vm_compute. reflexivity. Qed.

Lemma subframe_position_cases_witness :
  exists t',
    BKE_tracking_marker_get_subframe_position b32_to_int track_ramp
      (b32_zero, b32_zero) (f_lit 5 2)
    = Done ((b32_one, b32_one), t').
Proof.
  destruct (subframe_position_cases b32_to_int track_ramp (b32_zero, b32_zero) (f_lit 5 2))
    as (_ & _ & Hrun).
  destruct (Hrun 2) as (i & m & t' & Hi & Hnl & _ & E).
  - vm_compute. reflexivity.
  - discriminate.
  - split; [apply ascendingb_spec; reflexivity|cbn; lia].
  - exists t'. rewrite E. clear E.
    assert (Hidx : i = 1%nat).
    { destruct Hnl as (m0 & first & Hm0 & Hfirst & _ & Hle).
      cbn in Hfirst. inversion Hfirst; subst first. clear Hfirst.
      destruct (Hle ltac:(cbn; lia)) as [Hm0le Hmax].
      pose proof (Hmax 1%nat _ eq_refl ltac:(cbn; lia)) as H1.
      destruct i as [|[|[|i]]].
      - lia.
      - reflexivity.
      - cbn in Hm0. inversion Hm0; subst m0. cbn in Hm0le. lia.
      - destruct i; discriminate Hm0. }
    subst i. cbn in Hi. inversion Hi; subst m. vm_compute. reflexivity.
Defined.

(** ** Channel disabling *)

Example scale_all_enabled :
  SFltb f_zero (channels_scale false false false) = true.
Proof. vm_compute. reflexivity. Qed.

Example grey_only_blue_kept :
  option_map rect_float
    (match BKE_tracking_disable_channels grey_image true true false true with
     | Done i => Some i
     | Crash => None
     end)
  = Some (Some [(b32_half, b32_half, b32_half, b32_one)]).
Proof. vm_compute. reflexivity. Qed.

(** The denominator is the sum of the weights of the enabled channels; it
    is a positive number as soon as one channel is enabled and zero when
    all three are disabled. *)
Lemma channels_scale_sign (disable_red disable_green disable_blue : bool) :
  if disable_red && disable_green && disable_blue
  then channels_scale disable_red disable_green disable_blue = S754_zero false
  else SFltb f_zero (channels_scale disable_red disable_green disable_blue) = true.
Proof.
  destruct disable_red, disable_green, disable_blue; vm_compute; reflexivity.
Qed.

(** C9, at the failing input.  The luminance is divided by the sum of the
    weights of the enabled channels, and nothing keeps that sum away from
    zero: with red, green and blue disabled and grayscale on, every pixel
    of a float buffer becomes NaN in its three colour channels, and on an
    8-bit buffer the NaN is converted to [char], which is undefined.
    Without grayscale the same flags give black. *)
Theorem disable_channels_all_disabled :
  (forall px,
     disable_channels_float true true true true (channels_scale true true true) px
     = (S754_nan, S754_nan, S754_nan, snd px)) /\
  (forall px,
     disable_channels_byte true true true true (channels_scale true true true) px
     = Crash) /\
  (forall px,
     is_black (disable_channels_float true true true false
                 (channels_scale true true true) px)) /\
  BKE_tracking_disable_channels grey_image true true true true
  = Done {| ib_x := 1; ib_y := 1;
            rect_float := Some [(S754_nan, S754_nan, S754_nan, b32_one)];
            rect := None; userflags := IB_RECT_INVALID |} /\
  BKE_tracking_disable_channels grey_image_byte true true true true = Crash.
Proof.
  split; [|split; [|split; [|split]]].
  - intros [[[p0 p1] p2] p3]. reflexivity.
  - intros [[[p0 p1] p2] p3]. reflexivity.
  - intros [[[p0 p1] p2] p3]. repeat split; reflexivity.
  - vm_compute. reflexivity.
  - vm_compute. reflexivity.
Qed.
(** ** Channel disabling without the grayscale preview *)

Lemma map_outcome_done {A B : Type} (f : A -> outcome B) (g : A -> B) (l : list A) :
  (forall a, f a = Done (g a)) -> map_outcome f l = Done (map g l).
Proof.
  intros Hf. induction l as [|a l IH]; [reflexivity|].
  cbn [map_outcome map]. rewrite Hf, IH. reflexivity.
Qed.

(** The pixel the loop writes without grayscale. *)
Lemma disable_channels_float_plain (dr dg db : bool) (scale : binary32)
  (px : binary32 * binary32 * binary32 * binary32) :
  disable_channels_float dr dg db false scale px
  = (let '(r, g, b, a) := px in
     (if dr then f_zero else r, if dg then f_zero else g, if db then f_zero else b, a)).
Proof. destruct px as [[[r g] b] a]. reflexivity. Qed.

Lemma disable_channels_byte_plain (dr dg db : bool) (scale : binary32)
  (px : Z * Z * Z * Z) :
  disable_channels_byte dr dg db false scale px
  = Done (let '(r, g, b, a) := px in
          (if dr then 0 else r, if dg then 0 else g, if db then 0 else b, a)).
Proof. destruct px as [[[r g] b] a]. reflexivity. Qed.

(** X23.  BKE_tracking_disable_channels without grayscale, on an image that has
    a buffer.  The call returns, for 8-bit buffers too; the size and the
    number of pixels stay; in every pixel a disabled channel is 0, an
    enabled channel and alpha keep their value bit for bit; a float
    buffer is tagged IB_RECT_INVALID (unless no channel is disabled, when
    nothing at all is written) and the 8-bit buffer next to it is left
    alone.  A second call with the same flags changes nothing. *)
Theorem disable_channels_zeroing (ibuf : ImBuf) (dr dg db : bool) :
  rect_float ibuf <> None \/ rect ibuf <> None ->
  exists ibuf',
    BKE_tracking_disable_channels ibuf dr dg db false = Done ibuf' /\
    ib_x ibuf' = ib_x ibuf /\ ib_y ibuf' = ib_y ibuf /\
    (dr || dg || db = false -> ibuf' = ibuf) /\
    (forall pixels,
       rect_float ibuf = Some pixels ->
       exists pixels',
         rect_float ibuf' = Some pixels' /\ length pixels' = length pixels /\
         rect ibuf' = rect ibuf /\
         (dr || dg || db = true ->
          userflags ibuf' = Z.lor (userflags ibuf) IB_RECT_INVALID) /\
         forall i r g b a,
           nth_error pixels i = Some (r, g, b, a) ->
           nth_error pixels' i
           = Some (if dr then f_zero else r, if dg then f_zero else g,
                   if db then f_zero else b, a)) /\
    (forall pixels,
       rect_float ibuf = None -> rect ibuf = Some pixels ->
       exists pixels',
         rect ibuf' = Some pixels' /\ length pixels' = length pixels /\
         rect_float ibuf' = None /\ userflags ibuf' = userflags ibuf /\
         forall i r g b a,
           nth_error pixels i = Some (r, g, b, a) ->
           nth_error pixels' i
           = Some (if dr then 0 else r, if dg then 0 else g, if db then 0 else b, a)) /\
    BKE_tracking_disable_channels ibuf' dr dg db false = Done ibuf'.
Proof.
  intros Hbuf.
  destruct ibuf as [x y rf rb uf]. cbn [rect_float rect] in Hbuf.
  unfold BKE_tracking_disable_channels. cbn [rect_float rect ib_x ib_y userflags].
  destruct (negb dr && negb dg && negb db && negb false) eqn:Hnone.
  - (* nothing to do *)
    eexists. split; [reflexivity|].
    cbn [rect_float rect ib_x ib_y userflags].
    assert (Hflags : dr = false /\ dg = false /\ db = false)
      by (destruct dr, dg, db; try discriminate Hnone; repeat split).
    destruct Hflags as (-> & -> & ->).
    split; [reflexivity|]. split; [reflexivity|]. split; [reflexivity|].
    split; [|split; [|reflexivity]].
    + intros pixels Hp. exists pixels. split; [exact Hp|]. split; [reflexivity|].
      split; [reflexivity|]. split; [intros Hx; discriminate Hx|].
      intros i r g b a Hi. exact Hi.
    + intros pixels Hrf Hp. exists pixels. split; [exact Hp|]. split; [reflexivity|].
      split; [exact Hrf|]. split; [reflexivity|].
      intros i r g b a Hi. exact Hi.
  - assert (Hsome : dr || dg || db = true)
      by (destruct dr, dg, db; try reflexivity; discriminate Hnone).
    set (scale := channels_scale dr dg db).
    destruct rf as [pixels|].
    + (* float buffer *)
      eexists. split; [reflexivity|].
      cbn [rect_float rect ib_x ib_y userflags].
      split; [reflexivity|]. split; [reflexivity|].
      split; [intros Hx; rewrite Hsome in Hx; discriminate Hx|].
      split; [|split].
      * intros pixels0 Hp. inversion Hp; subst pixels0. eexists.
        split; [reflexivity|]. split; [apply length_map|]. split; [reflexivity|].
        split; [intros _; reflexivity|].
        intros i r g b a Hi. rewrite nth_error_map, Hi. cbn [option_map].
        rewrite disable_channels_float_plain. reflexivity.
      * intros pixels0 Hx. discriminate Hx.
      * f_equal. f_equal.
        -- f_equal. rewrite map_map. apply map_ext. intros [[[r g] b] a].
           rewrite !disable_channels_float_plain.
           destruct dr, dg, db; reflexivity.
        -- rewrite <- Z.lor_assoc, Z.lor_diag. reflexivity.
    + destruct rb as [pixels|]; [|destruct Hbuf as [Hx|Hx]; contradiction].
      (* 8-bit buffer *)
      set (plain := fun px : Z * Z * Z * Z =>
                      let '(r, g, b, a) := px in
                      (if dr then 0 else r, if dg then 0 else g, if db then 0 else b, a)).
      rewrite (map_outcome_done _ plain pixels)
        by (intros px; apply disable_channels_byte_plain).
      cbn [bind]. eexists. split; [reflexivity|].
      cbn [rect_float rect ib_x ib_y userflags].
      split; [reflexivity|]. split; [reflexivity|].
      split; [intros Hx; rewrite Hsome in Hx; discriminate Hx|].
      split; [|split].
      * intros pixels0 Hx. discriminate Hx.
      * intros pixels0 _ Hp. inversion Hp; subst pixels0. eexists.
        split; [reflexivity|]. split; [apply length_map|]. split; [reflexivity|].
        split; [reflexivity|].
        intros i r g b a Hi. rewrite nth_error_map, Hi. reflexivity.
      * rewrite (map_outcome_done _ plain (map plain pixels))
          by (intros px; apply disable_channels_byte_plain).
        cbn [bind]. f_equal. f_equal. f_equal.
        rewrite map_map. apply map_ext. intros [[[r g] b] a].
        unfold plain. destruct dr, dg, db; reflexivity.
Qed.

Example red_and_blue_disabled :
  option_map rect
    (match BKE_tracking_disable_channels grey_image_byte true false true false with
     | Done i => Some i
     | Crash => None
     end)
  = Some (Some [(0, 100, 0, 127)]).
Proof. reflexivity. Qed.

Lemma disable_channels_zeroing_witness :
  exists ibuf',
    BKE_tracking_disable_channels grey_image_byte true false true false = Done ibuf' /\
    BKE_tracking_disable_channels ibuf' true false true false = Done ibuf'.
Proof.
  destruct (disable_channels_zeroing grey_image_byte true false true)
    as (ibuf' & E & _ & _ & _ & _ & _ & Hagain).
  - right. discriminate.
  - exists ibuf'. split; [exact E|exact Hagain].
Defined.

(** ** Retrieval of the reconstruction *)

Lemma has_flag_set (fl bit : Z) : bit <> 0 -> has_flag (Z.lor fl bit) bit = true.
Proof.
  intros Hb. unfold has_flag. apply negb_true_iff, Z.eqb_neq.
  rewrite Z.land_comm, Z.lor_comm, Z.land_lor_distr_r, Z.land_diag.
  intros E. apply Z.lor_eq_0_iff in E. tauto.
Qed.

Lemma has_flag_cleared (fl bit : Z) : has_flag (Z.land fl (Z.lnot bit)) bit = false.
Proof.
  unfold has_flag. apply negb_false_iff, Z.eqb_eq.
  rewrite <- Z.land_assoc, (Z.land_comm (Z.lnot bit)), Z.land_lnot_diag, Z.land_0_r.
  reflexivity.
Qed.

Section ReconstructionFacts.

Context {F : Type}.

Local Abbreviation Track := (MovieTrackingTrack F).

Variable M4 : Type.
Variable unit_m4 : M4.
Variable invert_m4_m4 : M4 -> M4.
Variable mul_m4_m4m4 : M4 -> M4 -> M4.
Variable mul_v3_m4v3 : M4 -> F * F * F -> F * F * F.
Variable D : Type.
Variable MD : Type.
Variable double_to_float : D -> F.
Variable m4_of_double : MD -> M4.
Variable point_for_track : nat -> option (D * D * D).
Variable error_for_track : nat -> D.
Variable camera_for_image : Z -> option MD.
Variable error_for_image : Z -> D.

Local Abbreviation Camera := (MovieReconstructedCamera (F:=F) M4).
Local Abbreviation cameras_of :=
  (retrieve_cameras M4 unit_m4 invert_m4_m4 mul_m4_m4m4 D MD double_to_float
     m4_of_double camera_for_image error_for_image).
Local Abbreviation after imat :=
  (camera_after M4 mul_m4_m4m4 D MD double_to_float m4_of_double camera_for_image
     error_for_image imat).
Local Abbreviation bundles_of :=
  (retrieve_bundles D double_to_float point_for_track error_for_track).

Lemma frames_from_S (a : Z) (n : nat) :
  frames_from a (S n) = a :: frames_from (a + 1) n.
Proof.
  unfold frames_from. cbn [seq map]. rewrite Z.add_0_r. f_equal.
  rewrite <- seq_shift, map_map. apply map_ext. intros k. lia.
Qed.

(** Once the origin is set every pose is multiplied by [imat], which does
    not change any more. *)
Lemma retrieve_cameras_after_origin (n : nat) (a : Z) (imat : M4) (ok : bool) :
  exists ok',
    cameras_of n a true imat ok
    = (flat_map (after imat) (frames_from a n), (true, imat, ok')).
Proof.
  revert a ok. induction n as [|n IH]; intros a ok.
  - exists ok. reflexivity.
  - rewrite frames_from_S. cbn [retrieve_cameras flat_map]. unfold camera_after at 1.
    destruct (camera_for_image a) as [matd|].
    + cbn [negb]. destruct (IH (a + 1) ok) as [ok' E]. rewrite E.
      exists ok'. reflexivity.
    + destruct (IH (a + 1) false) as [ok' E]. rewrite E. exists ok'. reflexivity.
Qed.

(** Up to the first camera nothing is stored; that camera is stored as the
    unit matrix and its inverse becomes [imat]. *)
Lemma retrieve_cameras_to_origin (n : nat) (a f0 : Z) (m0 : MD) (imat : M4) (ok : bool) :
  a <= f0 < a + Z.of_nat n ->
  camera_for_image f0 = Some m0 ->
  (forall f, a <= f < f0 -> camera_for_image f = None) ->
  exists ok',
    cameras_of n a false imat ok
    = ({| cam_framenr := f0;
          cam_error := double_to_float (error_for_image f0);
          cam_mat := unit_m4 |}
       :: flat_map (after (invert_m4_m4 (m4_of_double m0)))
            (frames_from (f0 + 1) (Z.to_nat (a + Z.of_nat n - f0 - 1))),
       (true, invert_m4_m4 (m4_of_double m0), ok')).
Proof.
  revert a ok. induction n as [|n IH]; intros a ok Hrange Hcam Hnone; [lia|].
  cbn [retrieve_cameras].
  destruct (Z.eq_dec a f0) as [->|Hne].
  - rewrite Hcam. cbn [negb].
    destruct (retrieve_cameras_after_origin n (f0 + 1)
                (invert_m4_m4 (m4_of_double m0)) ok) as [ok' E].
    rewrite E. exists ok'.
    replace (Z.to_nat (f0 + Z.of_nat (S n) - f0 - 1)) with n by lia. reflexivity.
  - rewrite (Hnone a) by lia.
    destruct (IH (a + 1) false) as [ok' E]; [lia|assumption|intros; apply Hnone; lia|].
    rewrite E. exists ok'.
    replace (Z.to_nat (a + 1 + Z.of_nat n - f0 - 1))
      with (Z.to_nat (a + Z.of_nat (S n) - f0 - 1)) by lia.
    reflexivity.
Qed.

Lemma retrieve_bundles_spec (tracks : list Track) (tracknr : nat) (ok : bool) :
  length (fst (bundles_of tracks tracknr ok)) = length tracks /\
  forall k track, nth_error tracks k = Some track ->
    exists track',
      nth_error (fst (bundles_of tracks tracknr ok)) k = Some track' /\
      markers track' = markers track /\
      match point_for_track (tracknr + k) with
      | Some (p0, p1, p2) =>
          bundle_pos track' = (double_to_float p0, double_to_float p1, double_to_float p2) /\
          has_flag (track_flag track') TRACK_HAS_BUNDLE = true
      | None =>
          bundle_pos track' = bundle_pos track /\
          has_flag (track_flag track') TRACK_HAS_BUNDLE = false
      end.
Proof.
  revert tracknr ok. induction tracks as [|t tracks IH]; intros tracknr ok.
  - split; [reflexivity|]. intros k track Hk. destruct k; discriminate Hk.
  - cbn [retrieve_bundles].
    destruct (point_for_track tracknr) as [[[p0 p1] p2]|] eqn:Hp.
    + destruct (IH (S tracknr) ok) as [Hlen Hnth].
      destruct (bundles_of tracks (S tracknr) ok) as [rest' ok'].
      cbn [fst] in *. split; [simpl; lia|].
      intros [|k] track Hk.
      * inversion Hk; subst. eexists. split; [reflexivity|]. split; [reflexivity|].
        rewrite Nat.add_0_r, Hp. split; [reflexivity|].
        apply has_flag_set. discriminate.
      * destruct (Hnth k track Hk) as (track' & Hn & Hm & Hb). exists track'.
        split; [exact Hn|]. split; [exact Hm|].
        replace (tracknr + S k)%nat with (S tracknr + k)%nat by lia. exact Hb.
    + destruct (IH (S tracknr) false) as [Hlen Hnth].
      destruct (bundles_of tracks (S tracknr) false) as [rest' ok'].
      cbn [fst] in *. split; [simpl; lia|].
      intros [|k] track Hk.
      * inversion Hk; subst. eexists. split; [reflexivity|]. split; [reflexivity|].
        rewrite Nat.add_0_r, Hp. split; [reflexivity|].
        apply has_flag_cleared.
      * destruct (Hnth k track Hk) as (track' & Hn & Hm & Hb). exists track'.
        split; [exact Hn|]. split; [exact Hm|].
        replace (tracknr + S k)%nat with (S tracknr + k)%nat by lia. exact Hb.
Qed.

Lemma in_frames_from (a : Z) (n : nat) (f : Z) :
  In f (frames_from a n) <-> a <= f < a + Z.of_nat n.
Proof.
  unfold frames_from. rewrite in_map_iff. split.
  - intros (k & <- & Hk). apply in_seq in Hk. lia.
  - intros Hf. exists (Z.to_nat (f - a)). split; [lia|]. apply in_seq. lia.
Qed.

Lemma in_cameras_after (imat : M4) (fs : list Z) (cam : Camera) :
  In cam (flat_map (after imat) fs) <->
  exists f matd,
    In f fs /\ camera_for_image f = Some matd /\
    cam = {| cam_framenr := f;
             cam_error := double_to_float (error_for_image f);
             cam_mat := mul_m4_m4m4 imat (m4_of_double matd) |}.
Proof.
  rewrite in_flat_map. unfold camera_after. split.
  - intros (f & Hf & Hin). destruct (camera_for_image f) as [matd|] eqn:E; [|destruct Hin].
    destruct Hin as [<-|[]]. exists f, matd. repeat split; assumption.
  - intros (f & matd & Hf & E & ->). exists f. split; [assumption|].
    rewrite E. left. reflexivity.
Qed.

(** C3.  When the solver has a camera pose for some frame of
    [sfra..efra], let [f0] be the first such frame and [m0] its pose.  The
    camera stored for [f0] is the unit matrix; the camera stored for every
    later frame with a pose is the inverse of [m0] multiplied by that
    frame's pose ([mul_m4_m4m4 imat mat]); the bundle of every track that
    received one is moved by the same inverse, and the other tracks keep
    their position. *)
Theorem reconstruction_origin (tracks : list Track) (sfra efra f0 : Z) (m0 : MD) :
  first_camera MD camera_for_image sfra efra f0 m0 ->
  let imat := invert_m4_m4 (m4_of_double m0) in
  let result :=
    reconstruct_retrieve_libmv_tracks M4 unit_m4 invert_m4_m4 mul_m4_m4m4 mul_v3_m4v3
      D MD double_to_float m4_of_double point_for_track error_for_track
      camera_for_image error_for_image tracks sfra efra in
  let tracks' := fst (fst result) in
  let cams := snd (fst result) in
  (* the first camera is the origin *)
  (exists later,
     cams = {| cam_framenr := f0;
               cam_error := double_to_float (error_for_image f0);
               cam_mat := unit_m4 |} :: later /\
     forall cam, In cam later -> f0 < cam_framenr cam <= efra) /\
  (* the later cameras *)
  (forall f matd, f0 < f <= efra -> camera_for_image f = Some matd ->
     In {| cam_framenr := f;
           cam_error := double_to_float (error_for_image f);
           cam_mat := mul_m4_m4m4 imat (m4_of_double matd) |} cams) /\
  (forall cam, In cam cams ->
     (cam_framenr cam = f0 /\ cam_mat cam = unit_m4) \/
     (exists matd, f0 < cam_framenr cam <= efra /\
                   camera_for_image (cam_framenr cam) = Some matd /\
                   cam_mat cam = mul_m4_m4m4 imat (m4_of_double matd))) /\
  (* the bundles *)
  length tracks' = length tracks /\
  (forall k track, nth_error tracks k = Some track ->
     exists track',
       nth_error tracks' k = Some track' /\
       match point_for_track k with
       | Some (p0, p1, p2) =>
           has_flag (track_flag track') TRACK_HAS_BUNDLE = true /\
           bundle_pos track'
           = mul_v3_m4v3 imat (double_to_float p0, double_to_float p1, double_to_float p2)
       | None =>
           has_flag (track_flag track') TRACK_HAS_BUNDLE = false /\
           bundle_pos track' = bundle_pos track
       end).
Proof.
  intros (Hrange & Hcam & Hnone) imat result tracks' cams.
  subst tracks' cams result. unfold reconstruct_retrieve_libmv_tracks.
  pose proof (retrieve_bundles_spec tracks 0 true) as [Hlen Hnth].
  destruct (bundles_of tracks 0 true) as [tracks1 ok1]. cbn [fst] in Hlen, Hnth.
  destruct (retrieve_cameras_to_origin (Z.to_nat (efra - sfra + 1)) sfra f0 m0 unit_m4 ok1)
    as [ok' E]; [lia|assumption|assumption|].
  rewrite E. cbn [fst snd].
  replace (Z.to_nat (sfra + Z.of_nat (Z.to_nat (efra - sfra + 1)) - f0 - 1))
    with (Z.to_nat (efra - f0)) by lia.
  fold imat.
  set (later := flat_map (after imat) (frames_from (f0 + 1) (Z.to_nat (efra - f0)))).
  assert (Hlater : forall cam, In cam later <->
            exists f matd, f0 < f <= efra /\ camera_for_image f = Some matd /\
              cam = {| cam_framenr := f;
                       cam_error := double_to_float (error_for_image f);
                       cam_mat := mul_m4_m4m4 imat (m4_of_double matd) |}).
  { intros cam. unfold later. rewrite in_cameras_after. split.
    - intros (f & matd & Hf & Ec & ->). apply in_frames_from in Hf.
      exists f, matd. split; [lia|]. split; [assumption|reflexivity].
    - intros (f & matd & Hf & Ec & ->). exists f, matd.
      split; [apply in_frames_from; lia|]. split; [assumption|reflexivity]. }
  split.
  { exists later. split; [reflexivity|]. intros cam Hin. apply Hlater in Hin.
    destruct Hin as (f & matd & Hf & _ & ->). exact Hf. }
  split.
  { intros f matd Hf Ec. right. apply Hlater. exists f, matd.
    split; [assumption|]. split; [assumption|reflexivity]. }
  split.
  { intros cam [<-|Hin]; [left; split; reflexivity|right].
    apply Hlater in Hin. destruct Hin as (f & matd & Hf & Ec & ->).
    exists matd. cbn [cam_framenr cam_mat]. split; [assumption|]. split; [assumption|reflexivity]. }
  split.
  { unfold transform_bundles. rewrite length_map. exact Hlen. }
  intros k track Hk. destruct (Hnth k track Hk) as (track1 & Hn1 & _ & Hb).
  unfold transform_bundles. rewrite nth_error_map, Hn1. cbn [option_map].
  eexists. split; [reflexivity|]. cbn [Nat.add] in Hb.
  destruct (point_for_track k) as [[[p0 p1] p2]|].
  - destruct Hb as [Hpos Hflag]. rewrite Hflag. cbn [track_flag bundle_pos set_bundle].
    split; [assumption|]. rewrite Hpos. reflexivity.
  - destruct Hb as [Hpos Hflag]. rewrite Hflag. split; assumption.
Qed.

End ReconstructionFacts.

Example synthetic_cameras_5_and_10 :
  let cams := snd (fst (synthetic_retrieve [track_5_10_20 0] 1 30)) in
  map (fun cam => (cam_framenr cam, cam_mat cam)) (firstn 6 cams)
  = [(5, 0); (6, 1); (7, 2); (8, 3); (9, 4); (10, 5)].
Proof. vm_compute. reflexivity. Qed.

Lemma reconstruction_origin_witness :
  let cams := snd (fst (synthetic_retrieve [track_5_10_20 0] 1 30)) in
  (exists later,
     cams = {| cam_framenr := 5; cam_error := b32_of_int 0; cam_mat := 0 |} :: later) /\
  In {| cam_framenr := 10; cam_error := b32_of_int 0; cam_mat := Z.add (Z.opp 5) 10 |} cams.
Proof.
  assert (Hfirst : first_camera Z synthetic_camera 1 30 5 5).
  { split; [lia|]. split; [reflexivity|].
    intros f Hf. unfold synthetic_camera.
    replace (5 <=? f) with false by (symmetry; apply Z.leb_gt; lia). reflexivity. }
  destruct (reconstruction_origin Z 0 Z.opp Z.add translate_v3 Z Z b32_of_int (fun m => m)
              synthetic_point (fun _ => 0) synthetic_camera (fun _ => 0)
              [track_5_10_20 0] 1 30 5 5 Hfirst)
    as ((later & Hcams & _) & Hlater & _).
  split.
  - exists later. exact Hcams.
  - apply (Hlater 10 10); [lia|reflexivity].
Defined.
(** ** Facts on the lookup of a reconstructed camera *)

Section CameraIndexFacts.

Context {F : Type}.
Variable M4 : Type.

Local Abbreviation Camera := (MovieReconstructedCamera (F:=F) M4).
Local Abbreviation Reconstruction := (MovieTrackingReconstruction (F:=F) M4).

Lemma cameras_ascending_tail (c : Camera) (cams : list Camera) :
  cameras_ascending M4 (c :: cams) -> cameras_ascending M4 cams.
Proof.
  intros Hs i ci cj Hi Hj. exact (Hs (S i) ci cj Hi Hj).
Qed.

Lemma cameras_ascendingb_spec (cams : list Camera) :
  cameras_ascendingb M4 cams = true <-> cameras_ascending M4 cams.
Proof.
  induction cams as [|c1 [|c2 rest] IH].
  - split; [intros _ i ci cj Hi; destruct i; discriminate Hi|reflexivity].
  - split; [intros _ i ci cj Hi Hj; destruct i as [|[|i]]; discriminate Hj|reflexivity].
  - cbn [cameras_ascendingb]. rewrite andb_true_iff, Z.ltb_lt, IH. split.
    + intros [Hlt Hs] i ci cj Hi Hj. destruct i as [|i].
      * cbn in Hi, Hj. inversion Hi; inversion Hj; subst. exact Hlt.
      * exact (Hs i ci cj Hi Hj).
    + intros Hs. split.
      * exact (Hs O c1 c2 eq_refl eq_refl).
      * exact (cameras_ascending_tail c1 _ Hs).
Qed.

Lemma cameras_pairwise (cams : list Camera) :
  cameras_ascending M4 cams ->
  forall (d i : nat) (ci cj : Camera),
    nth_error cams i = Some ci -> nth_error cams (S (i + d)) = Some cj ->
    cam_framenr ci < cam_framenr cj.
Proof.
  intros Hs d. induction d as [|d IH]; intros i ci cj Hi Hj.
  - rewrite Nat.add_0_r in Hj. exact (Hs i ci cj Hi Hj).
  - assert (Hlen : (S (i + d) < length cams)%nat).
    { apply Nat.lt_succ_l. apply nth_error_Some.
      replace (S (S (i + d))) with (S (i + S d)) by lia. rewrite Hj. discriminate. }
    destruct (nth_error cams (S (i + d))) as [ck|] eqn:Hk;
      [|apply nth_error_None in Hk; lia].
    pose proof (IH i ci ck Hi Hk) as H1.
    replace (S (i + S d)) with (S (S (i + d))) in Hj by lia.
    pose proof (Hs (S (i + d)) ck cj Hk Hj) as H2. lia.
Qed.

Lemma cameras_lt (cams : list Camera) (i j : nat) (ci cj : Camera) :
  cameras_ascending M4 cams -> (i < j)%nat ->
  nth_error cams i = Some ci -> nth_error cams j = Some cj ->
  cam_framenr ci < cam_framenr cj.
Proof.
  intros Hs Hij Hi Hj.
  apply (cameras_pairwise cams Hs (j - i - 1) i ci cj Hi).
  replace (S (i + (j - i - 1))) with j by lia. exact Hj.
Qed.

Lemma cameras_frame_inj (cams : list Camera) (i j : nat) (ci cj : Camera) :
  cameras_ascending M4 cams ->
  nth_error cams i = Some ci -> nth_error cams j = Some cj ->
  cam_framenr ci = cam_framenr cj -> i = j.
Proof.
  intros Hs Hi Hj E.
  destruct (Nat.lt_trichotomy i j) as [Hlt|[Heq|Hgt]]; [|exact Heq|].
  - pose proof (cameras_lt cams i j ci cj Hs Hlt Hi Hj). lia.
  - pose proof (cameras_lt cams j i cj ci Hs Hgt Hj Hi). lia.
Qed.

(** The upward scan over [skipn a cams]. *)
Lemma camera_scan_up_spec (cams : list Camera) (fr : Z) (nearest : bool) :
  cameras_ascending M4 cams ->
  forall (k : nat),
    (k <= length cams)%nat ->
    (forall j cj, (j < k)%nat -> nth_error cams j = Some cj -> cam_framenr cj < fr) ->
    match camera_scan_up M4 (skipn k cams) (Z.of_nat k) fr nearest with
    | inl a' =>
        exists i ci, a' = Z.of_nat i /\ nth_error cams i = Some ci /\ cam_framenr ci = fr
    | inr r =>
        (forall cj, In cj cams -> cam_framenr cj <> fr) /\
        (nearest = false -> r = -1) /\
        (nearest = true ->
         (exists i ci, r = Z.of_nat i - 1 /\ nth_error cams i = Some ci /\
                       fr < cam_framenr ci /\
                       forall j cj, (j < i)%nat -> nth_error cams j = Some cj ->
                                    cam_framenr cj < fr) \/
         (r = -1 /\ forall cj, In cj cams -> cam_framenr cj < fr))
    end.
Proof.
  intros Hs k Hk. remember (length cams - k)%nat as n eqn:En.
  revert k Hk En. induction n as [|n IH]; intros k Hk En Hbelow.
  - assert (k = length cams) by lia. subst k.
    rewrite skipn_all. cbn [camera_scan_up].
    assert (Hall : forall cj, In cj cams -> cam_framenr cj < fr).
    { intros cj Hin. destruct (In_nth_error _ _ Hin) as [j Hj].
      apply (Hbelow j cj); [|exact Hj]. apply nth_error_Some. rewrite Hj. discriminate. }
    split; [intros cj Hin; specialize (Hall cj Hin); lia|].
    split; [reflexivity|]. intros _. right. split; [reflexivity|exact Hall].
  - destruct (nth_error cams k) as [c|] eqn:Hc;
      [|apply nth_error_None in Hc; lia].
    rewrite (skipn_cons_nth cams k c Hc). cbn [camera_scan_up]. cbv zeta.
    destruct (cam_framenr c >? fr) eqn:Hgt.
    + apply Z.gtb_lt in Hgt.
      assert (Hno : forall cj, In cj cams -> cam_framenr cj <> fr).
      { intros cj Hin. destruct (In_nth_error _ _ Hin) as [j Hj].
        destruct (Nat.lt_ge_cases j k) as [Hjk|Hjk].
        - specialize (Hbelow j cj Hjk Hj). lia.
        - destruct (Nat.eq_dec j k) as [->|Hne].
          + rewrite Hc in Hj. inversion Hj; subst. lia.
          + pose proof (cameras_lt cams k j c cj Hs ltac:(lia) Hc Hj). lia. }
      destruct nearest.
      * split; [exact Hno|]. split; [discriminate|]. intros _. left.
        exists k, c. split; [lia|]. split; [exact Hc|]. split; [exact Hgt|exact Hbelow].
      * split; [exact Hno|]. split; [reflexivity|discriminate].
    + destruct (cam_framenr c =? fr) eqn:Heq.
      * apply Z.eqb_eq in Heq. exists k, c. split; [reflexivity|]. split; assumption.
      * apply Z.eqb_neq in Heq.
        assert (Hlt : cam_framenr c < fr).
        { destruct (Z.gtb_spec (cam_framenr c) fr); [discriminate|lia]. }
        replace (Z.of_nat k + 1) with (Z.of_nat (S k)) by lia.
        apply IH; [lia|lia|].
        intros j cj Hj Hnj. destruct (Nat.eq_dec j k) as [->|Hne].
        -- rewrite Hc in Hnj. inversion Hnj; subst. exact Hlt.
        -- apply (Hbelow j cj); [lia|exact Hnj].
Qed.

(** The downward scan from index [n - 1]. *)
Lemma camera_scan_down_spec (cams : list Camera) (fr : Z) (nearest : bool) :
  cameras_ascending M4 cams ->
  forall (n : nat),
    (n <= length cams)%nat ->
    (forall j cj, (n <= j)%nat -> nth_error cams j = Some cj -> fr < cam_framenr cj) ->
    exists r,
      camera_scan_down M4 cams n fr nearest = Done r /\
      match r with
      | inl a' =>
          exists i ci, a' = Z.of_nat i /\ nth_error cams i = Some ci /\ cam_framenr ci = fr
      | inr r =>
          (forall cj, In cj cams -> cam_framenr cj <> fr) /\
          (nearest = false -> r = -1) /\
          (nearest = true ->
           (exists i ci, r = Z.of_nat i /\ nth_error cams i = Some ci /\
                         cam_framenr ci < fr /\
                         forall j cj, (i < j)%nat -> nth_error cams j = Some cj ->
                                      fr < cam_framenr cj) \/
           (r = -1 /\ forall cj, In cj cams -> fr < cam_framenr cj))
      end.
Proof.
  intros Hs n. induction n as [|n IH]; intros Hn Habove.
  - eexists. split; [reflexivity|].
    assert (Hall : forall cj, In cj cams -> fr < cam_framenr cj).
    { intros cj Hin. destruct (In_nth_error _ _ Hin) as [j Hj].
      apply (Habove j cj); [lia|exact Hj]. }
    split; [intros cj Hin; specialize (Hall cj Hin); lia|].
    split; [reflexivity|]. intros _. right. split; [reflexivity|exact Hall].
  - cbn [camera_scan_down].
    destruct (nth_error cams n) as [c|] eqn:Hc;
      [|apply nth_error_None in Hc; lia].
    cbv zeta. destruct (cam_framenr c <? fr) eqn:Hlt.
    + apply Z.ltb_lt in Hlt.
      assert (Hno : forall cj, In cj cams -> cam_framenr cj <> fr).
      { intros cj Hin. destruct (In_nth_error _ _ Hin) as [j Hj].
        destruct (Nat.lt_trichotomy j n) as [Hjn|[->|Hjn]].
        - pose proof (cameras_lt cams j n cj c Hs Hjn Hj Hc). lia.
        - rewrite Hc in Hj. inversion Hj; subst. lia.
        - specialize (Habove j cj ltac:(lia) Hj). lia. }
      destruct nearest; eexists; (split; [reflexivity|]).
      * split; [exact Hno|]. split; [discriminate|]. intros _. left.
        exists n, c. split; [reflexivity|]. split; [exact Hc|]. split; [exact Hlt|].
        intros j cj Hj Hnj. apply (Habove j cj); [lia|exact Hnj].
      * split; [exact Hno|]. split; [reflexivity|discriminate].
    + destruct (cam_framenr c =? fr) eqn:Heq.
      * apply Z.eqb_eq in Heq. eexists. split; [reflexivity|].
        exists n, c. split; [reflexivity|]. split; assumption.
      * apply Z.eqb_neq in Heq. apply Z.ltb_ge in Hlt.
        apply IH; [lia|].
        intros j cj Hj Hnj. destruct (Nat.eq_dec j n) as [->|Hne].
        -- rewrite Hc in Hnj. inversion Hnj; subst. lia.
        -- apply (Habove j cj); [lia|exact Hnj].
Qed.

Lemma camera_at_in_range (cams : list Camera) (a : Z) :
  0 <= a < Z.of_nat (length cams) ->
  exists c, camera_at M4 cams a = Done c /\ nth_error cams (Z.to_nat a) = Some c.
Proof.
  intros Ha. unfold camera_at.
  destruct (a <? 0) eqn:Hneg; [apply Z.ltb_lt in Hneg; lia|].
  destruct (nth_error cams (Z.to_nat a)) as [c|] eqn:Hc.
  - exists c. split; reflexivity.
  - apply nth_error_None in Hc. lia.
Qed.

Lemma camera_exact_nearest (cams : list Camera) (fr : Z) (i : nat) (ci : Camera) :
  cameras_ascending M4 cams ->
  nth_error cams i = Some ci -> cam_framenr ci = fr ->
  camera_nearest_left M4 cams fr (Z.of_nat i).
Proof.
  intros Hs Hi Hfr.
  destruct cams as [|first rest]; [destruct i; discriminate Hi|].
  exists ci, first. rewrite Nat2Z.id.
  split; [lia|]. split; [exact Hi|]. split; [reflexivity|].
  split.
  - intros Hlt. destruct i as [|i]; [reflexivity|].
    pose proof (cameras_lt (first :: rest) O (S i) first ci Hs ltac:(lia) eq_refl Hi). lia.
  - intros _. split; [lia|]. intros j cj Hj Hle.
    destruct (Nat.le_gt_cases j i) as [Hji|Hji]; [lia|].
    pose proof (cameras_lt (first :: rest) i j ci cj Hs Hji Hi Hj). lia.
Qed.

(** What the lookup returns on a sorted array with a cursor that is not
    negative. *)
Lemma camera_index_get_spec (r : Reconstruction) (fr : Z) (nearest : bool) :
  cameras r <> [] -> cameras_ascending M4 (cameras r) -> 0 <= last_camera r ->
  exists a r',
    reconstructed_camera_index_get M4 r fr nearest = Done (a, r') /\
    ((exists i ci, a = Z.of_nat i /\ nth_error (cameras r) i = Some ci /\
                   cam_framenr ci = fr /\ r' = set_last_camera M4 r a) \/
     (r' = r /\ ~ camera_held M4 (cameras r) fr /\
      (nearest = false -> a = -1) /\
      (nearest = true -> camera_nearest_left M4 (cameras r) fr a))).
Proof.
  intros Hne Hs Hcur. unfold reconstructed_camera_index_get. cbv zeta.
  destruct (cameras r) as [|first rest] eqn:Hcams; [destruct (Hne eq_refl)|].
  set (cams := first :: rest) in *.
  assert (Hnot : (forall cj, In cj cams -> cam_framenr cj <> fr) ->
                 ~ camera_held M4 cams fr).
  { intros Hno (c & Hin & Hc). exact (Hno c Hin Hc). }
  unfold camnr. rewrite Hcams. fold cams.
  assert (Hlen : 0 < Z.of_nat (length cams)) by (cbn [cams length]; lia).
  destruct (fr <? cam_framenr first) eqn:Hbefore.
  { apply Z.ltb_lt in Hbefore. do 2 eexists. split; [reflexivity|]. right.
    split; [reflexivity|]. split.
    - apply Hnot. intros cj Hin. destruct (In_nth_error _ _ Hin) as [[|j] Hj].
      + cbn in Hj. inversion Hj; subst. lia.
      + pose proof (cameras_lt cams O (S j) first cj Hs ltac:(lia) eq_refl Hj). lia.
    - split; [intros ->; reflexivity|]. intros ->.
      exists first, first. split; [lia|]. split; [reflexivity|]. split; [reflexivity|].
      split; [reflexivity|lia]. }
  apply Z.ltb_ge in Hbefore.
  destruct (camera_at_in_range cams (Z.of_nat (length cams) - 1) ltac:(lia))
    as (last & Elast & Hlast).
  rewrite Elast. cbn [bind].
  replace (Z.to_nat (Z.of_nat (length cams) - 1)) with (length cams - 1)%nat in Hlast by lia.
  destruct (fr >? cam_framenr last) eqn:Hafter.
  { apply Z.gtb_lt in Hafter. do 2 eexists. split; [reflexivity|]. right.
    split; [reflexivity|].
    assert (Hall : forall j cj, nth_error cams j = Some cj -> cam_framenr cj < fr).
    { intros j cj Hj.
      assert (j < length cams)%nat by (apply nth_error_Some; rewrite Hj; discriminate).
      destruct (Nat.eq_dec j (length cams - 1)) as [->|Hnj].
      - rewrite Hlast in Hj. inversion Hj; subst. exact Hafter.
      - pose proof (cameras_lt cams j (length cams - 1) cj last Hs ltac:(lia) Hj Hlast).
        lia. }
    split.
    - apply Hnot. intros cj Hin. destruct (In_nth_error _ _ Hin) as [j Hj].
      specialize (Hall j cj Hj). lia.
    - split; [intros ->; reflexivity|]. intros ->.
      exists last, first. split; [lia|].
      replace (Z.to_nat (Z.of_nat (length cams) - 1)) with (length cams - 1)%nat by lia.
      split; [exact Hlast|]. split; [reflexivity|].
      split; [lia|]. intros _. split; [lia|].
      intros j cj Hj _.
      assert (j < length cams)%nat by (apply nth_error_Some; rewrite Hj; discriminate).
      lia. }
  assert (Hin_range : fr <= cam_framenr last)
    by (destruct (Z.gtb_spec fr (cam_framenr last)); [discriminate|lia]).
  set (a := if last_camera r <? Z.of_nat (length cams) then last_camera r else 0).
  assert (Ha : 0 <= a < Z.of_nat (length cams)).
  { unfold a. destruct (last_camera r <? Z.of_nat (length cams)) eqn:E;
      [apply Z.ltb_lt in E; lia|lia]. }
  destruct (camera_at_in_range cams a Ha) as (c_a & Ec & Hca).
  rewrite Ec. cbn [bind].
  assert (Hresult : forall res : Z + Z,
    match res with
    | inl a' =>
        exists i ci, a' = Z.of_nat i /\ nth_error cams i = Some ci /\ cam_framenr ci = fr
    | inr r0 =>
        (forall cj, In cj cams -> cam_framenr cj <> fr) /\
        (nearest = false -> r0 = -1) /\
        (nearest = true -> camera_nearest_left M4 cams fr r0)
    end ->
    exists a0 r',
      match res with
      | inl a' => Done (a', set_last_camera M4 r a')
      | inr a' => Done (a', r)
      end = Done (a0, r') /\
      ((exists i ci, a0 = Z.of_nat i /\ nth_error cams i = Some ci /\
                     cam_framenr ci = fr /\ r' = set_last_camera M4 r a0) \/
       (r' = r /\ ~ camera_held M4 cams fr /\
        (nearest = false -> a0 = -1) /\
        (nearest = true -> camera_nearest_left M4 cams fr a0)))).
  { intros [a'|r0] Hres.
    - destruct Hres as (i & ci & -> & Hi & Hfr).
      do 2 eexists. split; [reflexivity|]. left.
      exists i, ci. repeat split; assumption.
    - destruct Hres as (Hno & Hf & Ht).
      do 2 eexists. split; [reflexivity|]. right.
      split; [reflexivity|]. split; [exact (Hnot Hno)|]. split; assumption. }
  destruct (cam_framenr c_a >=? fr) eqn:Hdir.
  - assert (Hge : fr <= cam_framenr c_a)
      by (destruct (Z.geb_spec (cam_framenr c_a) fr); [lia|discriminate]).
    destruct (camera_scan_down_spec cams fr nearest Hs (S (Z.to_nat a)) ltac:(lia))
      as (res & Eres & Hres).
    { intros j cj Hj Hnj.
      pose proof (cameras_lt cams (Z.to_nat a) j c_a cj Hs ltac:(lia) Hca Hnj). lia. }
    rewrite Eres. cbn [bind]. apply Hresult.
    destruct res as [a'|r0]; [exact Hres|].
    destruct Hres as (Hno & Hf & Ht). split; [exact Hno|]. split; [exact Hf|].
    intros Hn. destruct (Ht Hn) as [(i & ci & -> & Hi & Hlt & Hup)|[_ Hall]].
    + exists ci, first. rewrite Nat2Z.id.
      split; [lia|]. split; [exact Hi|]. split; [reflexivity|].
      split; [lia|]. intros _. split; [lia|].
      intros j cj Hj Hle. destruct (Nat.le_gt_cases j i) as [Hji|Hji]; [lia|].
      specialize (Hup j cj Hji Hj). lia.
    + specialize (Hall first (or_introl eq_refl)). lia.
  - assert (Hlt : cam_framenr c_a < fr)
      by (destruct (Z.geb_spec (cam_framenr c_a) fr); [discriminate|lia]).
    cbn [bind]. apply Hresult.
    pose proof (camera_scan_up_spec cams fr nearest Hs (Z.to_nat a) ltac:(lia)) as Hup.
    rewrite Z2Nat.id in Hup by lia.
    assert (Hbelow : forall j cj, (j < Z.to_nat a)%nat -> nth_error cams j = Some cj ->
                                  cam_framenr cj < fr).
    { intros j cj Hj Hnj.
      pose proof (cameras_lt cams j (Z.to_nat a) cj c_a Hs Hj Hnj Hca). lia. }
    specialize (Hup Hbelow).
    destruct (camera_scan_up M4 (skipn (Z.to_nat a) cams) a fr nearest) as [a'|r0];
      [exact Hup|].
    destruct Hup as (Hno & Hf & Ht). split; [exact Hno|]. split; [exact Hf|].
    intros Hn. destruct (Ht Hn) as [(i & ci & -> & Hi & Hgt & Hdown)|[_ Hall]].
    + destruct i as [|i].
      { cbn in Hi. inversion Hi; subst. lia. }
      destruct (nth_error cams i) as [cp|] eqn:Hp.
      2:{ apply nth_error_None in Hp.
          assert (S i < length cams)%nat by (apply nth_error_Some; rewrite Hi; discriminate).
          lia. }
      exists cp, first.
      replace (Z.to_nat (Z.of_nat (S i) - 1)) with i by lia.
      split; [lia|]. split; [exact Hp|]. split; [reflexivity|].
      split; [lia|]. intros _.
      split; [pose proof (Hdown i cp ltac:(lia) Hp); lia|].
      intros j cj Hj Hle. destruct (Nat.le_gt_cases j i) as [Hji|Hji]; [lia|].
      destruct (Nat.eq_dec j (S i)) as [->|Hnj].
      * rewrite Hi in Hj. inversion Hj; subst. lia.
      * pose proof (cameras_lt cams (S i) j ci cj Hs ltac:(lia) Hi Hj). lia.
    + assert (Hin : In last cams) by exact (nth_error_In _ _ Hlast).
      specialize (Hall last Hin). lia.
Qed.

Lemma camera_nearest_left_unique (cams : list Camera) (fr : Z) (a b : Z) :
  cameras_ascending M4 cams ->
  camera_nearest_left M4 cams fr a -> camera_nearest_left M4 cams fr b -> a = b.
Proof.
  intros Hs (ca & fa & Ha0 & Hna & Hfa & Hlo_a & Hhi_a)
            (cb & fb & Hb0 & Hnb & Hfb & Hlo_b & Hhi_b).
  rewrite Hfa in Hfb. inversion Hfb; subst fb.
  destruct (Z.lt_ge_cases fr (cam_framenr fa)) as [Hlt|Hge].
  - rewrite (Hlo_a Hlt), (Hlo_b Hlt). reflexivity.
  - destruct (Hhi_a Hge) as [Hca Hmax_a]. destruct (Hhi_b Hge) as [Hcb Hmax_b].
    pose proof (Hmax_a _ _ Hnb Hcb). pose proof (Hmax_b _ _ Hna Hca). lia.
Qed.

(** X5.  The exact lookup and [BKE_tracking_camera_get_reconstructed].  On
    cameras sorted by frame, with a cursor that is not negative, the
    function returns: the camera of the frame when there is one, with the
    cursor moved onto it; [NULL] when there is none, also when no camera is
    stored at all, with the reconstruction untouched. *)
Theorem camera_get_reconstructed_exact (r : Reconstruction) (fr : Z) :
  cameras_ascending M4 (cameras r) -> 0 <= last_camera r ->
  exists p r',
    BKE_tracking_camera_get_reconstructed M4 r fr = Done (p, r') /\
    cameras r' = cameras r /\
    (forall j cj, nth_error (cameras r) j = Some cj -> cam_framenr cj = fr ->
                  p = Some (Z.of_nat j) /\ r' = set_last_camera M4 r (Z.of_nat j)) /\
    (~ camera_held M4 (cameras r) fr -> p = None /\ r' = r).
Proof.
  intros Hs Hcur. unfold BKE_tracking_camera_get_reconstructed.
  assert (Hdec : cameras r = [] \/ cameras r <> [])
    by (destruct (cameras r); [left; reflexivity|right; discriminate]).
  destruct Hdec as [Hcams|Hne].
  - unfold reconstructed_camera_index_get. rewrite Hcams. cbn [bind].
    change (-1 =? -1) with true. cbv iota.
    exists None, r. split; [reflexivity|]. split; [exact Hcams|].
    split; [intros j cj Hj; destruct j; discriminate Hj|].
    intros _. split; reflexivity.
  - destruct (camera_index_get_spec r fr false Hne Hs Hcur) as (a & r' & Eget & Hcase).
    rewrite Eget. cbn [bind].
    destruct Hcase as [(i & ci & -> & Hi & Hfr & ->)|(-> & Hnone & Hf & _)].
    + replace (Z.of_nat i =? -1) with false by (symmetry; apply Z.eqb_neq; lia).
      do 2 eexists. split; [reflexivity|]. split; [reflexivity|].
      split.
      * intros j cj Hj Hcj.
        assert (j = i)
          by (apply (cameras_frame_inj (cameras r) j i cj ci Hs Hj Hi); congruence).
        subst j. split; reflexivity.
      * intros Hn. destruct Hn. exists ci.
        split; [exact (nth_error_In _ _ Hi)|exact Hfr].
    + rewrite (Hf eq_refl). change (-1 =? -1) with true. cbv iota.
      do 2 eexists. split; [reflexivity|]. split; [reflexivity|].
      split.
      * intros j cj Hj Hcj. destruct Hnone. exists cj.
        split; [exact (nth_error_In _ _ Hj)|exact Hcj].
      * intros _. split; reflexivity.
Qed.

(** X6.  The lookup with [nearest].  On cameras sorted by frame, with a cursor
    that is not negative, [reconstructed_camera_index_get] returns -1 only
    when no camera is stored; else the index of the first camera for a
    frame before all of them, and the index of the last camera at or
    before the frame otherwise.  The index does not depend on the cursor,
    and the cursor is written only when the camera of the frame itself is
    found. *)
Theorem camera_index_get_nearest (r : Reconstruction) (fr : Z) :
  cameras_ascending M4 (cameras r) -> 0 <= last_camera r ->
  exists a r',
    reconstructed_camera_index_get M4 r fr true = Done (a, r') /\
    cameras r' = cameras r /\
    (cameras r = [] -> a = -1 /\ r' = r) /\
    (cameras r <> [] -> camera_nearest_left M4 (cameras r) fr a) /\
    (camera_held M4 (cameras r) fr -> r' = set_last_camera M4 r a) /\
    (~ camera_held M4 (cameras r) fr -> r' = r) /\
    (forall h, 0 <= h ->
       exists r'', reconstructed_camera_index_get M4 (set_last_camera M4 r h) fr true
                   = Done (a, r'')).
Proof.
  intros Hs Hcur.
  assert (Hdec : cameras r = [] \/ cameras r <> [])
    by (destruct (cameras r); [left; reflexivity|right; discriminate]).
  destruct Hdec as [Hcams|Hne].
  - exists (-1), r. unfold reconstructed_camera_index_get.
    cbn [cameras set_last_camera]. rewrite Hcams.
    split; [reflexivity|]. split; [reflexivity|].
    split; [intros _; split; reflexivity|].
    split; [intros Hn; destruct (Hn eq_refl)|].
    split; [intros (c & [] & _)|].
    split; [reflexivity|].
    intros h _. eexists. reflexivity.
  - destruct (camera_index_get_spec r fr true Hne Hs Hcur) as (a & r' & Eget & Hcase).
    assert (Hnear : camera_nearest_left M4 (cameras r) fr a).
    { destruct Hcase as [(i & ci & -> & Hi & Hfr & _)|(_ & _ & _ & Ht)].
      - exact (camera_exact_nearest (cameras r) fr i ci Hs Hi Hfr).
      - exact (Ht eq_refl). }
    exists a, r'. split; [exact Eget|].
    split; [destruct Hcase as [(i & ci & _ & _ & _ & ->)|(-> & _)]; reflexivity|].
    split; [intros He; destruct (Hne He)|].
    split; [intros _; exact Hnear|].
    split.
    { intros Hheld. destruct Hcase as [(i & ci & _ & _ & _ & E)|(_ & Hn & _)];
        [exact E|destruct (Hn Hheld)]. }
    split.
    { intros Hn. destruct Hcase as [(i & ci & _ & Hi & Hfr & _)|(E & _)]; [|exact E].
      destruct Hn. exists ci. split; [exact (nth_error_In _ _ Hi)|exact Hfr]. }
    intros h Hh.
    destruct (camera_index_get_spec (set_last_camera M4 r h) fr true Hne Hs Hh)
      as (b & r'' & Eget' & Hcase').
    cbn [cameras set_last_camera] in Hcase'.
    assert (Hnear' : camera_nearest_left M4 (cameras r) fr b).
    { destruct Hcase' as [(i & ci & -> & Hi & Hfr & _)|(_ & _ & _ & Ht)].
      - exact (camera_exact_nearest (cameras r) fr i ci Hs Hi Hfr).
      - exact (Ht eq_refl). }
    rewrite (camera_nearest_left_unique (cameras r) fr a b Hs Hnear Hnear').
    exists r''. exact Eget'.
Qed.

End CameraIndexFacts.

Example camera_lookups_5_6_8 :
  map (fun fr => option_map fst
                   (match reconstructed_camera_index_get Z (cameras_5_6_8 2) fr true with
                    | Done r => Some r
                    | Crash => None
                    end)) [3; 5; 7; 8; 9]
  = [Some 0; Some 0; Some 1; Some 2; Some 2] /\
  map (fun fr => option_map fst
                   (match BKE_tracking_camera_get_reconstructed Z (cameras_5_6_8 0) fr with
                    | Done r => Some r
                    | Crash => None
                    end)) [3; 5; 7; 8; 9]
  = [Some None; Some (Some 0); Some None; Some (Some 2); Some None].
Proof. split; reflexivity. Qed.

Lemma cameras_5_6_8_ascending (cursor : Z) :
  cameras_ascending Z (cameras (cameras_5_6_8 cursor)).
Proof. apply cameras_ascendingb_spec. reflexivity. Qed.

Lemma camera_get_reconstructed_exact_witness :
  exists r',
    BKE_tracking_camera_get_reconstructed Z (cameras_5_6_8 0) 8 = Done (Some 2, r') /\
    r' = cameras_5_6_8 2.
Proof.
  destruct (camera_get_reconstructed_exact Z (cameras_5_6_8 0) 8
              (cameras_5_6_8_ascending 0) ltac:(simpl; lia))
    as (p & r' & Eget & _ & Hfound & _).
  destruct (Hfound 2%nat (camera_of_frame 8) eq_refl eq_refl) as [-> ->].
  exists (set_last_camera Z (cameras_5_6_8 0) (Z.of_nat 2)).
  split; [exact Eget|reflexivity].
Defined.

Lemma camera_index_get_nearest_witness :
  exists a r',
    reconstructed_camera_index_get Z (cameras_5_6_8 2) 7 true = Done (a, r') /\
    camera_nearest_left Z (cameras (cameras_5_6_8 2)) 7 a /\
    r' = cameras_5_6_8 2.
Proof.
  destruct (camera_index_get_nearest Z (cameras_5_6_8 2) 7
              (cameras_5_6_8_ascending 2) ltac:(simpl; lia))
    as (a & r' & Eget & _ & _ & Hnear & _ & Hkeep & _).
  exists a, r'. split; [exact Eget|]. split; [apply Hnear; discriminate|].
  apply Hkeep. intros (c & Hin & Hc).
  simpl in Hin. destruct Hin as [<-|[<-|[<-|[]]]]; discriminate Hc.
Defined.
(** ** Retrieval of the reconstruction: what is stored and what is returned *)

Section RetrievalFacts.

Context {F : Type}.

Local Abbreviation Track := (MovieTrackingTrack F).

Variable M4 : Type.
Variable unit_m4 : M4.
Variable invert_m4_m4 : M4 -> M4.
Variable mul_m4_m4m4 : M4 -> M4 -> M4.
Variable mul_v3_m4v3 : M4 -> F * F * F -> F * F * F.
Variable D : Type.
Variable MD : Type.
Variable double_to_float : D -> F.
Variable m4_of_double : MD -> M4.
Variable point_for_track : nat -> option (D * D * D).
Variable error_for_track : nat -> D.
Variable camera_for_image : Z -> option MD.
Variable error_for_image : Z -> D.

Local Abbreviation Camera := (MovieReconstructedCamera (F:=F) M4).
Local Abbreviation cameras_of :=
  (retrieve_cameras M4 unit_m4 invert_m4_m4 mul_m4_m4m4 D MD double_to_float
     m4_of_double camera_for_image error_for_image).
Local Abbreviation bundles_of :=
  (retrieve_bundles D double_to_float point_for_track error_for_track).
Local Abbreviation retrieve :=
  (reconstruct_retrieve_libmv_tracks M4 unit_m4 invert_m4_m4 mul_m4_m4m4 mul_v3_m4v3
     D MD double_to_float m4_of_double point_for_track error_for_track
     camera_for_image error_for_image).

Lemma cameras_ascending_cons (c : Camera) (cams : list Camera) :
  cameras_ascending M4 cams ->
  (forall x, In x cams -> cam_framenr c < cam_framenr x) ->
  cameras_ascending M4 (c :: cams).
Proof.
  intros Hs Hlt [|i] ci cj Hi Hj.
  - cbn in Hi. inversion Hi; subst ci. apply Hlt. exact (nth_error_In cams O Hj).
  - exact (Hs i ci cj Hi Hj).
Qed.

(** The second loop stores one camera per frame with a pose, in the order
    of the frames. *)
Lemma retrieve_cameras_frames (n : nat) (a : Z) (origin_set : bool) (imat : M4)
  (ok : bool) :
  cameras_ascending M4 (fst (cameras_of n a origin_set imat ok)) /\
  forall f, camera_held M4 (fst (cameras_of n a origin_set imat ok)) f <->
            a <= f < a + Z.of_nat n /\ camera_for_image f <> None.
Proof.
  revert a origin_set imat ok. induction n as [|n IH]; intros a origin_set imat ok.
  - cbn [retrieve_cameras fst]. split.
    + intros i ci cj Hi. destruct i; discriminate Hi.
    + intros f. split; [intros (c & [] & _)|intros [Hf _]; lia].
  - cbn [retrieve_cameras].
    destruct (camera_for_image a) as [matd|] eqn:Ha.
    + set (st := if negb origin_set
                 then (invert_m4_m4 (m4_of_double matd), unit_m4)
                 else (imat, mul_m4_m4m4 imat (m4_of_double matd))).
      destruct st as [imat' mat'].
      destruct (IH (a + 1) true imat' ok) as [Hs Hheld].
      destruct (cameras_of n (a + 1) true imat' ok) as [cams st']. cbn [fst] in *.
      split.
      * apply cameras_ascending_cons; [exact Hs|].
        intros x Hx. cbn [cam_framenr].
        assert (Hh : camera_held M4 cams (cam_framenr x)) by (exists x; split; auto).
        apply Hheld in Hh. lia.
      * intros f. split.
        -- intros (c & [<-|Hin] & Hc).
           ++ cbn [cam_framenr] in Hc. subst f. split; [lia|congruence].
           ++ assert (Hh : camera_held M4 cams f) by (exists c; split; auto).
              apply Hheld in Hh. split; [lia|tauto].
        -- intros [Hf Hcam]. destruct (Z.eq_dec f a) as [->|Hne].
           ++ eexists. split; [left; reflexivity|reflexivity].
           ++ destruct (proj2 (Hheld f)) as (c & Hin & Hc); [split; [lia|exact Hcam]|].
              exists c. split; [right; exact Hin|exact Hc].
    + destruct (IH (a + 1) origin_set imat false) as [Hs Hheld].
      split; [exact Hs|].
      intros f. rewrite Hheld. split.
      * intros [Hf Hcam]. split; [lia|exact Hcam].
      * intros [Hf Hcam]. split; [|exact Hcam].
        destruct (Z.eq_dec f a) as [->|Hne]; [congruence|lia].
Qed.

Lemma retrieve_cameras_ok (n : nat) (a : Z) (origin_set : bool) (imat : M4) (ok : bool) :
  snd (snd (cameras_of n a origin_set imat ok)) = true <->
  ok = true /\ forall f, a <= f < a + Z.of_nat n -> camera_for_image f <> None.
Proof.
  revert a origin_set imat ok. induction n as [|n IH]; intros a origin_set imat ok.
  - cbn [retrieve_cameras snd]. split; [intros ->; split; [reflexivity|intros; lia]|tauto].
  - cbn [retrieve_cameras].
    destruct (camera_for_image a) as [matd|] eqn:Ha.
    + set (st := if negb origin_set
                 then (invert_m4_m4 (m4_of_double matd), unit_m4)
                 else (imat, mul_m4_m4m4 imat (m4_of_double matd))).
      destruct st as [imat' mat'].
      specialize (IH (a + 1) true imat' ok).
      destruct (cameras_of n (a + 1) true imat' ok) as [cams st']. cbn [snd] in *.
      rewrite IH. split.
      * intros [Hok Hall]. split; [exact Hok|]. intros f Hf.
        destruct (Z.eq_dec f a) as [->|Hne]; [congruence|apply Hall; lia].
      * intros [Hok Hall]. split; [exact Hok|]. intros f Hf. apply Hall. lia.
    + rewrite IH. split; [intros [Hf _]; discriminate Hf|].
      intros [_ Hall]. destruct (Hall a ltac:(lia) Ha).
Qed.

Lemma retrieve_bundles_ok (tracks : list Track) (tracknr : nat) (ok : bool) :
  snd (bundles_of tracks tracknr ok) = true <->
  ok = true /\
  forall k, (k < length tracks)%nat -> point_for_track (tracknr + k) <> None.
Proof.
  revert tracknr ok. induction tracks as [|t tracks IH]; intros tracknr ok.
  - cbn [retrieve_bundles snd length]. split; [intros ->; split; [reflexivity|intros; lia]|tauto].
  - cbn [retrieve_bundles].
    destruct (point_for_track tracknr) as [[[p0 p1] p2]|] eqn:Hp.
    + specialize (IH (S tracknr) ok).
      destruct (bundles_of tracks (S tracknr) ok) as [rest' ok']. cbn [snd] in *.
      rewrite IH. cbn [length]. split.
      * intros [Hok Hall]. split; [exact Hok|]. intros [|k] Hk.
        -- rewrite Nat.add_0_r, Hp. discriminate.
        -- replace (tracknr + S k)%nat with (S tracknr + k)%nat by lia.
           apply Hall. lia.
      * intros [Hok Hall]. split; [exact Hok|]. intros k Hk.
        replace (S tracknr + k)%nat with (tracknr + S k)%nat by lia.
        apply Hall. lia.
    + specialize (IH (S tracknr) false).
      destruct (bundles_of tracks (S tracknr) false) as [rest' ok']. cbn [snd] in *.
      rewrite IH. cbn [length]. split; [intros [Hf _]; discriminate Hf|].
      intros [_ Hall]. specialize (Hall O ltac:(lia)).
      rewrite Nat.add_0_r in Hall. destruct (Hall Hp).
Qed.

(** X7.  The return value of the retrieval.  It is true exactly when the solver
    gave a point for every track of the list and a pose for every frame of
    [sfra..efra]; the tracks keep their number and the cameras stored are
    those of the frames with a pose, whatever the return value. *)
Theorem reconstruct_retrieve_return_value (tracks : list Track) (sfra efra : Z) :
  let result := retrieve tracks sfra efra in
  (snd result = true <->
   (forall k, (k < length tracks)%nat -> point_for_track k <> None) /\
   (forall f, sfra <= f <= efra -> camera_for_image f <> None)) /\
  length (fst (fst result)) = length tracks /\
  (forall f, camera_held M4 (snd (fst result)) f <->
             sfra <= f <= efra /\ camera_for_image f <> None).
Proof.
  cbv zeta. unfold reconstruct_retrieve_libmv_tracks.
  pose proof (retrieve_bundles_ok tracks 0 true) as Hbok.
  pose proof (retrieve_bundles_spec D double_to_float point_for_track error_for_track
                tracks 0 true) as [Hlen _].
  destruct (bundles_of tracks 0 true) as [tracks1 ok1]. cbn [fst snd] in Hbok, Hlen.
  pose proof (retrieve_cameras_ok (Z.to_nat (efra - sfra + 1)) sfra false unit_m4 ok1)
    as Hcok.
  pose proof (retrieve_cameras_frames (Z.to_nat (efra - sfra + 1)) sfra false unit_m4 ok1)
    as [_ Hheld].
  destruct (cameras_of (Z.to_nat (efra - sfra + 1)) sfra false unit_m4 ok1)
    as [cams [[origin_set imat] ok]].
  cbn [fst snd] in *. split; [|split].
  - rewrite Hcok, Hbok. split.
    + intros [[_ Hpts] Hcams]. split; [exact Hpts|]. intros f Hf. apply Hcams. lia.
    + intros [Hpts Hcams]. split; [split; [reflexivity|exact Hpts]|].
      intros f Hf. apply Hcams. lia.
  - destruct origin_set; [unfold transform_bundles; rewrite length_map|]; exact Hlen.
  - intros f. rewrite Hheld. split; intros [Hf Hc]; (split; [lia|exact Hc]).
Qed.

(** X8.  Retrieval followed by the lookup.  Whatever the cursor (not negative),
    [BKE_tracking_camera_get_reconstructed] on the cameras the retrieval
    has stored returns a camera for the frame exactly when the frame lies
    in [sfra..efra] and the solver had a pose for it, and the camera it
    returns carries that frame number; it returns [NULL] otherwise, also
    when no camera was stored at all. *)
Theorem retrieved_camera_lookup (tracks : list Track) (sfra efra : Z) (h fr : Z) :
  0 <= h ->
  let cams := snd (fst (retrieve tracks sfra efra)) in
  exists p r',
    BKE_tracking_camera_get_reconstructed M4
      {| cameras := cams; last_camera := h |} fr = Done (p, r') /\
    (p <> None <-> sfra <= fr <= efra /\ camera_for_image fr <> None) /\
    (forall a, p = Some a ->
       exists c, nth_error cams (Z.to_nat a) = Some c /\ 0 <= a /\ cam_framenr c = fr).
Proof.
  intros Hh cams.
  assert (Hs : cameras_ascending M4 cams /\
               forall f, camera_held M4 cams f <->
                         sfra <= f <= efra /\ camera_for_image f <> None).
  { subst cams. unfold reconstruct_retrieve_libmv_tracks.
    destruct (bundles_of tracks 0 true) as [tracks1 ok1].
    pose proof (retrieve_cameras_frames (Z.to_nat (efra - sfra + 1)) sfra false unit_m4 ok1)
      as [Hasc Hheld].
    destruct (cameras_of (Z.to_nat (efra - sfra + 1)) sfra false unit_m4 ok1)
      as [cams [[origin_set imat] ok]].
    cbn [fst snd] in *. split; [exact Hasc|].
    intros f. rewrite Hheld. split; intros [Hf Hc]; (split; [lia|exact Hc]). }
  destruct Hs as [Hasc Hheld].
  destruct (camera_get_reconstructed_exact M4 {| cameras := cams; last_camera := h |} fr
              Hasc Hh) as (p & r' & Eget & _ & Hfound & Hmissing).
  cbn [cameras] in Hfound, Hmissing.
  exists p, r'. split; [exact Eget|].
  assert (Hdec : camera_held M4 cams fr \/ ~ camera_held M4 cams fr).
  { destruct (camera_for_image fr) eqn:E.
    - destruct (Z_le_dec sfra fr); [destruct (Z_le_dec fr efra)|].
      + left. apply Hheld. split; [lia|congruence].
      + right. intros Hc. apply Hheld in Hc. lia.
      + right. intros Hc. apply Hheld in Hc. lia.
    - right. intros Hc. apply Hheld in Hc. tauto. }
  destruct Hdec as [(c & Hin & Hc)|Hno].
  - destruct (In_nth_error _ _ Hin) as [j Hj].
    destruct (Hfound j c Hj Hc) as [-> _].
    split.
    + split; [intros _|discriminate]. apply Hheld. exists c. split; assumption.
    + intros a Ha. inversion Ha; subst a. exists c. rewrite Nat2Z.id.
      split; [exact Hj|]. split; [lia|exact Hc].
  - destruct (Hmissing Hno) as [-> _].
    split.
    + split; [intros Hp; destruct (Hp eq_refl)|].
      intros Hf. destruct Hno. apply Hheld. exact Hf.
    + intros a Ha. discriminate Ha.
Qed.

End RetrievalFacts.

Lemma retrieved_camera_lookup_witness :
  exists p r',
    BKE_tracking_camera_get_reconstructed Z
      {| cameras := snd (fst (synthetic_retrieve [track_5_10_20 0] 1 30));
         last_camera := 3 |} 10 = Done (p, r') /\
    p <> None.
Proof.
  destruct (retrieved_camera_lookup Z 0 Z.opp Z.add translate_v3 Z Z b32_of_int
              (fun m => m) synthetic_point (fun _ => 0) synthetic_camera (fun _ => 0)
              [track_5_10_20 0] 1 30 3 10 ltac:(lia))
    as (p & r' & Eget & Hiff & _).
  exists p, r'. split; [exact Eget|]. apply Hiff. split; [lia|discriminate].
Defined.

Example synthetic_retrieve_incomplete :
  snd (synthetic_retrieve [track_5_10_20 0] 1 30) = false /\
  snd (synthetic_retrieve [track_5_10_20 0] 5 20) = true /\
  snd (synthetic_retrieve [track_5_10_20 0; track_5_10_20 0] 5 20) = false.
Proof. vm_compute. repeat split. Qed.
(** ** Facts on the check before a reconstruction *)

Section ReconstructionCheckFacts.

Context {F : Type}.

Local Abbreviation Marker := (MovieTrackingMarker F).
Local Abbreviation Track := (MovieTrackingTrack F).

Lemma enabled_frame_iff (ms : list Marker) (fr : Z) :
  enabled_frame ms fr = true <-> frame_enabled ms fr.
Proof.
  unfold enabled_frame, frame_enabled. rewrite existsb_exists. split.
  - intros (m & Hin & H). apply andb_true_iff in H. destruct H as [Hfr Hen].
    exists m. split; [exact Hin|]. split; [apply Z.eqb_eq; exact Hfr|].
    apply negb_true_iff. exact Hen.
  - intros (m & Hin & Hfr & Hen). exists m. split; [exact Hin|].
    rewrite Hen. apply andb_true_iff. split; [apply Z.eqb_eq; exact Hfr|reflexivity].
Qed.

(** The test on a sorted track with markers: its answer, and the track it
    leaves. *)
Lemma has_enabled_marker_value (t : Track) (fr : Z) :
  markers t <> [] -> track_ok t ->
  exists t',
    BKE_tracking_track_has_enabled_marker_at_frame t fr
      = Done (enabled_frame (markers t) fr, t') /\
    markers t' = markers t /\ track_ok t'.
Proof.
  intros Hne Hok.
  destruct (frame_present_dec (markers t) fr) as [(j & mj & Hj & Hfr)|Hno].
  - destruct (has_marker_found t fr j mj Hok Hj Hfr) as [_ E].
    exists (set_last_marker t (Z.of_nat j)). rewrite E.
    split; [|split; [reflexivity|split; [exact (proj1 Hok)|cbn; lia]]].
    f_equal. f_equal.
    destruct (marker_disabled mj) eqn:Hdis; cbn [negb]; symmetry.
    + destruct (enabled_frame (markers t) fr) eqn:He; [|reflexivity].
      apply enabled_frame_iff in He. destruct He as (m & Hin & Hm & Hen).
      destruct (In_nth_error _ _ Hin) as [k Hk].
      assert (k = j)
        by (apply (ascending_frame_inj (markers t) k j m mj (proj1 Hok) Hk Hj); congruence).
      subst k. rewrite Hj in Hk. inversion Hk; subst m. congruence.
    + apply enabled_frame_iff. exists mj.
      split; [exact (nth_error_In _ _ Hj)|]. split; assumption.
  - destruct (has_marker_missing t fr Hne Hok Hno) as [_ E].
    exists t. rewrite E. split; [|split; [reflexivity|exact Hok]].
    f_equal. f_equal. symmetry.
    destruct (enabled_frame (markers t) fr) eqn:He; [|reflexivity].
    apply enabled_frame_iff in He. destruct He as (m & Hin & Hm & _).
    destruct (Hno m Hin Hm).
Qed.

Lemma has_enabled_marker_empty (t : Track) (fr : Z) :
  markers t = [] -> BKE_tracking_track_has_enabled_marker_at_frame t fr = Crash.
Proof.
  intros He. unfold BKE_tracking_track_has_enabled_marker_at_frame.
  rewrite get_exact_empty by exact He. reflexivity.
Qed.

Lemma count_common_tracks (tracks : list Track) (frame1 frame2 tot : Z) :
  (forall t, In t tracks -> markers t <> [] /\ track_ok t) ->
  exists tracks',
    reconstruct_count_tracks_on_both_keyframes tracks frame1 frame2 tot
      = Done (tot + Z.of_nat (length (common_tracks tracks frame1 frame2)), tracks') /\
    map markers tracks' = map markers tracks /\
    forall t, In t tracks' -> markers t <> [] /\ track_ok t.
Proof.
  revert tot. induction tracks as [|t tracks IH]; intros tot Hall.
  - exists []. cbn. split; [f_equal; f_equal; lia|]. split; [reflexivity|intros t []].
  - destruct (Hall t (or_introl eq_refl)) as [Hne Hok].
    cbn [reconstruct_count_tracks_on_both_keyframes common_tracks filter].
    fold (common_tracks tracks frame1 frame2).
    destruct (has_enabled_marker_value t frame1 Hne Hok) as (t1 & E1 & Hm1 & Hok1).
    rewrite E1. cbn [bind].
    assert (Hne1 : markers t1 <> []) by (rewrite Hm1; exact Hne).
    destruct (has_enabled_marker_value t1 frame2 Hne1 Hok1) as (t2 & E2 & Hm2 & Hok2).
    rewrite Hm1 in E2.
    assert (Hrest : forall x, In x tracks -> markers x <> [] /\ track_ok x)
      by (intros x Hx; apply Hall; right; exact Hx).
    destruct (enabled_frame (markers t) frame1) eqn:H1; cbn [andb].
    + rewrite E2. cbn [bind].
      destruct (enabled_frame (markers t) frame2) eqn:H2.
      * destruct (IH (tot + 1) Hrest) as (rest' & E & Hms & Hall').
        rewrite E. cbn [bind]. exists (t2 :: rest').
        split; [cbn [length]; f_equal; f_equal; lia|].
        split; [cbn [map]; rewrite Hms, Hm2, Hm1; reflexivity|].
        intros x [<-|Hx]; [|exact (Hall' x Hx)].
        split; [rewrite Hm2; exact Hne1|exact Hok2].
      * destruct (IH tot Hrest) as (rest' & E & Hms & Hall').
        rewrite E. cbn [bind]. exists (t2 :: rest').
        split; [reflexivity|].
        split; [cbn [map]; rewrite Hms, Hm2, Hm1; reflexivity|].
        intros x [<-|Hx]; [|exact (Hall' x Hx)].
        split; [rewrite Hm2; exact Hne1|exact Hok2].
    + cbv iota. cbn [bind].
      destruct (IH tot Hrest) as (rest' & E & Hms & Hall').
      rewrite E. cbn [bind]. exists (t1 :: rest').
      split; [reflexivity|].
      split; [cbn [map]; rewrite Hms, Hm1; reflexivity|].
      intros x [<-|Hx]; [|exact (Hall' x Hx)]. split; assumption.
Qed.

Lemma count_crashes_on_empty_track (tracks : list Track) (frame1 frame2 tot : Z) :
  (forall t, In t tracks -> track_ok t) ->
  (exists t, In t tracks /\ markers t = []) ->
  reconstruct_count_tracks_on_both_keyframes tracks frame1 frame2 tot = Crash.
Proof.
  revert tot. induction tracks as [|t tracks IH]; intros tot Hall (x & Hin & Hx);
    [destruct Hin|].
  cbn [reconstruct_count_tracks_on_both_keyframes].
  destruct (markers t) as [|m ms] eqn:Hm.
  - rewrite has_enabled_marker_empty by exact Hm. reflexivity.
  - assert (Hne : markers t <> []) by (rewrite Hm; discriminate).
    destruct Hin as [->|Hin]; [congruence|].
    assert (Hok : track_ok t) by (apply Hall; left; reflexivity).
    assert (Hrest : reconstruct_count_tracks_on_both_keyframes tracks frame1 frame2 tot
                    = Crash /\
                    reconstruct_count_tracks_on_both_keyframes tracks frame1 frame2
                      (tot + 1) = Crash).
    { split; apply IH; try (intros y Hy; apply Hall; right; exact Hy);
        exists x; split; assumption. }
    destruct Hrest as [Hc0 Hc1].
    destruct (has_enabled_marker_value t frame1 Hne Hok) as (t1 & E1 & Hm1 & Hok1).
    rewrite E1. cbn [bind].
    assert (Hne1 : markers t1 <> []) by (rewrite Hm1; exact Hne).
    destruct (has_enabled_marker_value t1 frame2 Hne1 Hok1) as (t2 & E2 & _).
    destruct (enabled_frame (markers t) frame1).
    + rewrite E2. cbn [bind].
      destruct (enabled_frame (markers t1) frame2); [rewrite Hc1|rewrite Hc0];
        reflexivity.
    + cbv iota. cbn [bind]. rewrite Hc0. reflexivity.
Qed.

Variable TRACKING_MOTION_MODAL : Z.
Variable TRACKING_USE_KEYFRAME_SELECTION : Z.
Variable WITH_LIBMV : bool.

(** X12.  The check before a reconstruction.  With the modal solver it succeeds
    without looking at the tracks.  Else, with the keyframes given by the
    user, it counts the tracks with an enabled marker on both keyframes,
    on sorted tracks with markers, and fails with the message about 8
    common tracks when they are fewer than 8; past that test it succeeds
    exactly when the solver is compiled in.  The marker arrays are left
    alone.  A track without markers makes the count undefined. *)
Theorem reconstruction_check_counts_common_tracks
  (motion_flag reconstruction_flag : Z) (tracks : list Track) (frame1 frame2 : Z) :
  let check :=
    BKE_tracking_reconstruction_check TRACKING_MOTION_MODAL
      TRACKING_USE_KEYFRAME_SELECTION WITH_LIBMV motion_flag reconstruction_flag
      tracks frame1 frame2 in
  let common := Z.of_nat (length (common_tracks tracks frame1 frame2)) in
  (has_flag motion_flag TRACKING_MOTION_MODAL = true ->
   check = Done (true, None, tracks)) /\
  (has_flag motion_flag TRACKING_MOTION_MODAL = false ->
   Z.land reconstruction_flag TRACKING_USE_KEYFRAME_SELECTION = 0 ->
   (forall t, In t tracks -> markers t <> [] /\ track_ok t) ->
   exists tracks',
     map markers tracks' = map markers tracks /\
     reconstruct_count_tracks_on_both_keyframes tracks frame1 frame2 0
       = Done (common, tracks') /\
     check = Done (if common <? 8 then (false, Some MSG_TOO_FEW_COMMON_TRACKS)
                   else if WITH_LIBMV then (true, None)
                   else (false, Some MSG_NO_LIBMV),
                   tracks')) /\
  (has_flag motion_flag TRACKING_MOTION_MODAL = false ->
   Z.land reconstruction_flag TRACKING_USE_KEYFRAME_SELECTION = 0 ->
   (forall t, In t tracks -> track_ok t) ->
   (exists t, In t tracks /\ markers t = []) ->
   check = Crash).
Proof.
  cbv zeta. unfold BKE_tracking_reconstruction_check. split; [|split].
  - intros ->. reflexivity.
  - intros -> Hsel Hall. rewrite Hsel. cbn [Z.eqb].
    destruct (count_common_tracks tracks frame1 frame2 0 Hall) as (tracks' & E & Hms & _).
    cbn [Z.add] in E. rewrite E. cbn [bind]. exists tracks'.
    split; [exact Hms|]. split; [reflexivity|].
    destruct (Z.of_nat (length (common_tracks tracks frame1 frame2)) <? 8);
      [reflexivity|destruct WITH_LIBMV; reflexivity].
  - intros -> Hsel Hall Hempty. rewrite Hsel. cbn [Z.eqb].
    rewrite (count_crashes_on_empty_track tracks frame1 frame2 0 Hall Hempty).
    reflexivity.
Qed.

End ReconstructionCheckFacts.

Lemma reconstruction_check_counts_common_tracks_witness :
  exists tracks',
    BKE_tracking_reconstruction_check 1 2 true 0 0 tracks_S6 5 10
    = Done (false, Some MSG_TOO_FEW_COMMON_TRACKS, tracks') /\
    reconstruct_count_tracks_on_both_keyframes tracks_S6 5 10 0 = Done (2, tracks').
Proof.
  destruct (reconstruction_check_counts_common_tracks 1 2 true 0 0 tracks_S6 5 10)
    as (_ & Hcount & _).
  destruct (Hcount eq_refl eq_refl) as (tracks' & _ & Ecount & Echeck).
  { intros t Hin. simpl in Hin.
    destruct Hin as [<-|[<-|[<-|[]]]];
      (split; [discriminate|split; [apply ascendingb_spec; reflexivity|simpl; lia]]). }
  exists tracks'. split; [exact Echeck|exact Ecount].
Defined.
(** ** Camera pose between the reconstructed frames: what is blended *)

Section CameraInterpolateFacts.

Context {F : Type} `{FloatOps F}.
Variable M4 : Type.
Variable unit_m4 : M4.
Variable blend_m4_m4m4 : M4 -> M4 -> F -> M4.
Variable scale_m4_fl : F -> M4.
Variable mul_m4_m4m4 : M4 -> M4 -> M4.
Variable TRACKING_OBJECT_CAMERA : Z.

Local Abbreviation Camera := (MovieReconstructedCamera (F:=F) M4).
Local Abbreviation Reconstruction := (MovieTrackingReconstruction (F:=F) M4).
Local Abbreviation interpolate :=
  (BKE_tracking_camera_get_reconstructed_interpolate
     M4 unit_m4 blend_m4_m4m4 scale_m4_fl mul_m4_m4m4 TRACKING_OBJECT_CAMERA).
Local Abbreviation scale_set :=
  (reconstructed_camera_scale_set M4 scale_m4_fl mul_m4_m4m4 TRACKING_OBJECT_CAMERA).

Lemma camera_before_first_nearest (cams : list Camera) (fr : Z) (first : Camera) :
  nth_error cams 0 = Some first -> fr < cam_framenr first ->
  camera_nearest_left M4 cams fr 0.
Proof.
  intros Hf Hlt. exists first, first. repeat split; try assumption; try lia.
Qed.

Lemma camera_after_last_nearest (cams : list Camera) (fr : Z) (last : Camera) :
  cameras_ascending M4 cams ->
  nth_error cams (length cams - 1) = Some last -> cam_framenr last < fr ->
  camera_nearest_left M4 cams fr (Z.of_nat (length cams - 1)).
Proof.
  intros Hs Hl Hlt.
  destruct cams as [|first rest]; [discriminate Hl|].
  exists last, first. rewrite Nat2Z.id.
  split; [lia|]. split; [exact Hl|]. split; [reflexivity|]. split.
  - intros Hb.
    destruct (length (first :: rest) - 1)%nat as [|k] eqn:Hk; [reflexivity|].
    assert (Hlt' : cam_framenr first < cam_framenr last).
    { apply (cameras_lt M4 (first :: rest) O (S k) first last Hs); [lia|reflexivity|exact Hl]. }
    lia.
  - intros _. split; [lia|].
    intros j cj Hj _.
    assert (j < length (first :: rest))%nat by (apply nth_error_Some; congruence).
    lia.
Qed.

Lemma camera_between_nearest (cams : list Camera) (fr : Z) (i : nat) (c c_next : Camera) :
  cameras_ascending M4 cams ->
  nth_error cams i = Some c -> nth_error cams (S i) = Some c_next ->
  cam_framenr c < fr < cam_framenr c_next ->
  camera_nearest_left M4 cams fr (Z.of_nat i).
Proof.
  intros Hs Hi Hn [Hlo Hhi].
  destruct cams as [|first rest]; [destruct i; discriminate Hi|].
  exists c, first. rewrite Nat2Z.id.
  split; [lia|]. split; [exact Hi|]. split; [reflexivity|]. split.
  - intros Hb. destruct i as [|k]; [reflexivity|].
    assert (cam_framenr first < cam_framenr c).
    { apply (cameras_lt M4 (first :: rest) O (S k) first c Hs); [lia|reflexivity|exact Hi]. }
    lia.
  - intros _. split; [lia|].
    intros j cj Hj Hle.
    destruct (Nat.le_gt_cases j i) as [Hji|Hji]; [lia|].
    destruct (Nat.eq_dec j (S i)) as [->|Hne].
    + rewrite Hn in Hj. inversion Hj; subst. lia.
    + assert (cam_framenr c_next < cam_framenr cj).
      { apply (cameras_lt M4 (first :: rest) (S i) j c_next cj Hs); [lia|exact Hn|exact Hj]. }
      lia.
Qed.

(** X15.  What BKE_tracking_camera_get_reconstructed_interpolate writes to
    [mat], on cameras sorted by frame and a cursor that is not negative.
    The function returns and leaves the cameras as they are.  Without
    cameras the matrix is the unit matrix, and the object scale is not
    applied.  Else the object scale is applied to: the pose of the frame's
    own camera when there is one; the pose of the first camera for a frame
    before it and of the last camera for a frame after it (no
    extrapolation); and for a frame strictly between two neighbouring
    cameras the blend of their poses with the factor
    [(fr - frame) / (next frame - frame)], except between the first two
    cameras, where the pose of the first camera is taken unblended. *)
Theorem camera_interpolate_cases (r : Reconstruction) (object_flag : Z)
  (object_scale : F) (fr : Z) :
  cameras_ascending M4 (cameras r) -> 0 <= last_camera r ->
  exists mat r',
    interpolate r object_flag object_scale fr = Done (mat, r') /\
    cameras r' = cameras r /\
    (cameras r = [] -> mat = unit_m4) /\
    (forall i c, nth_error (cameras r) i = Some c -> cam_framenr c = fr ->
       mat = scale_set object_flag object_scale (cam_mat c)) /\
    (forall first, nth_error (cameras r) 0 = Some first -> fr < cam_framenr first ->
       mat = scale_set object_flag object_scale (cam_mat first)) /\
    (forall last, nth_error (cameras r) (length (cameras r) - 1) = Some last ->
       cam_framenr last < fr ->
       mat = scale_set object_flag object_scale (cam_mat last)) /\
    (forall i c c_next,
       nth_error (cameras r) i = Some c -> nth_error (cameras r) (S i) = Some c_next ->
       cam_framenr c < fr < cam_framenr c_next ->
       mat = scale_set object_flag object_scale
               (if (i =? 0)%nat then cam_mat c
                else blend_m4_m4m4 (cam_mat c) (cam_mat c_next)
                       (blend_factor M4 fr c c_next))).
Proof.
  intros Hs Hcur.
  assert (Hdec : cameras r = [] \/ cameras r <> [])
    by (destruct (cameras r); [left; reflexivity|right; discriminate]).
  destruct Hdec as [He|Hne].
  - exists unit_m4, r.
    unfold BKE_tracking_camera_get_reconstructed_interpolate, reconstructed_camera_index_get.
    cbv zeta. rewrite He. cbn [bind]. change (-1 =? -1) with true. cbv iota.
    split; [reflexivity|]. split; [reflexivity|]. split; [reflexivity|].
    split; [intros [|i] c Hi; discriminate Hi|].
    split; [intros first Hi; discriminate Hi|].
    split; [intros last Hi; discriminate Hi|].
    intros [|i] c c_next Hi; discriminate Hi.
  - destruct (camera_index_get_spec M4 r fr true Hne Hs Hcur) as (a & r' & Hget & Hcases).
    assert (Hr' : cameras r' = cameras r).
    { destruct Hcases as [(i & ci & _ & _ & _ & ->)|(-> & _)]; reflexivity. }
    assert (Hnl : camera_nearest_left M4 (cameras r) fr a).
    { destruct Hcases as [(i & ci & -> & Hi & Hfr & _)|(_ & _ & _ & Hn)].
      - exact (camera_exact_nearest M4 (cameras r) fr i ci Hs Hi Hfr).
      - exact (Hn eq_refl). }
    clear Hcases.
    pose proof Hnl as (c_a & first & Ha0 & Hca & Hfirst & _).
    assert (Hin : 0 <= a < Z.of_nat (length (cameras r))).
    { split; [exact Ha0|].
      assert (Z.to_nat a < length (cameras r))%nat by (apply nth_error_Some; congruence).
      lia. }
    destruct (camera_at_in_range M4 (cameras r) a Hin) as (c_a' & Hat & Hca').
    rewrite Hca in Hca'. inversion Hca'; subst c_a'. clear Hca'.
    assert (Hneq : (a =? -1) = false) by (apply Z.eqb_neq; lia).
    assert (Hcamnr : camnr M4 r' = Z.of_nat (length (cameras r)))
      by (unfold camnr; rewrite Hr'; reflexivity).
    (* the index and the camera decide the matrix *)
    assert (Hrun : forall mat,
              (if negb (cam_framenr c_a =? fr) && (a >? 0) && (a <? camnr M4 r' - 1)
               then
                 c_next <- camera_at M4 (cameras r) (a + 1) ;;
                 Done (blend_m4_m4m4 (cam_mat c_a) (cam_mat c_next)
                         (blend_factor M4 fr c_a c_next))
               else Done (cam_mat c_a)) = Done mat ->
              interpolate r object_flag object_scale fr
              = Done (scale_set object_flag object_scale mat, r')).
    { intros mat Hmat.
      unfold BKE_tracking_camera_get_reconstructed_interpolate. cbv zeta.
      rewrite Hget. cbn [bind]. rewrite Hneq. rewrite Hat. cbn [bind].
      unfold blend_factor in Hmat. rewrite Hmat. cbn [bind]. reflexivity. }
    (* where the index lies *)
    assert (Hidx : forall b, camera_nearest_left M4 (cameras r) fr b -> a = b)
      by (intros b Hb; exact (camera_nearest_left_unique M4 (cameras r) fr a b Hs Hnl Hb)).
    destruct (negb (cam_framenr c_a =? fr) && (a >? 0) && (a <? camnr M4 r' - 1)) eqn:Hcond.
    + apply andb_true_iff in Hcond. destruct Hcond as [Hcond Hlast].
      apply andb_true_iff in Hcond. destruct Hcond as [Hnot Hpos].
      apply negb_true_iff, Z.eqb_neq in Hnot.
      apply Z.gtb_lt in Hpos. apply Z.ltb_lt in Hlast. rewrite Hcamnr in Hlast.
      assert (Hin1 : 0 <= a + 1 < Z.of_nat (length (cameras r))) by lia.
      destruct (camera_at_in_range M4 (cameras r) (a + 1) Hin1) as (c_n & Hatn & Hcn).
      rewrite Hatn in Hrun. cbn [bind] in Hrun.
      eexists. exists r'. split; [exact (Hrun _ eq_refl)|]. split; [exact Hr'|].
      split; [intros He; contradiction|].
      split.
      { intros i c Hi Hfr.
        pose proof (Hidx _ (camera_exact_nearest M4 (cameras r) fr i c Hs Hi Hfr)) as Hai.
        subst a. rewrite Nat2Z.id in Hca. rewrite Hi in Hca. inversion Hca; subst c_a.
        contradiction. }
      split.
      { intros f0 Hf0 Hlt.
        pose proof (Hidx _ (camera_before_first_nearest (cameras r) fr f0 Hf0 Hlt)). lia. }
      split.
      { intros last Hl Hlt.
        pose proof (Hidx _ (camera_after_last_nearest (cameras r) fr last Hs Hl Hlt)). lia. }
      intros i c c_next Hi Hn Hbetween.
      pose proof (Hidx _ (camera_between_nearest (cameras r) fr i c c_next Hs Hi Hn Hbetween))
        as Hai.
      subst a. rewrite Nat2Z.id in Hca. rewrite Hi in Hca. inversion Hca; subst c_a.
      replace (Z.to_nat (Z.of_nat i + 1)) with (S i) in Hcn by lia.
      rewrite Hn in Hcn. inversion Hcn; subst c_n.
      destruct i as [|k]; [lia|]. reflexivity.
    + exists (scale_set object_flag object_scale (cam_mat c_a)), r'.
      split; [exact (Hrun _ eq_refl)|]. split; [exact Hr'|].
      split; [intros He; contradiction|].
      split.
      { intros i c Hi Hfr.
        pose proof (Hidx _ (camera_exact_nearest M4 (cameras r) fr i c Hs Hi Hfr)) as Hai.
        subst a. rewrite Nat2Z.id in Hca. rewrite Hi in Hca. inversion Hca; subst c_a.
        reflexivity. }
      split.
      { intros f0 Hf0 Hlt.
        pose proof (Hidx _ (camera_before_first_nearest (cameras r) fr f0 Hf0 Hlt)) as Hai.
        subst a. change (Z.to_nat 0) with O in Hca. rewrite Hf0 in Hca. inversion Hca; subst c_a. reflexivity. }
      split.
      { intros last Hl Hlt.
        pose proof (Hidx _ (camera_after_last_nearest (cameras r) fr last Hs Hl Hlt)) as Hai.
        subst a. rewrite Nat2Z.id in Hca. rewrite Hl in Hca. inversion Hca; subst c_a.
        reflexivity. }
      intros i c c_next Hi Hn Hbetween.
      pose proof (Hidx _ (camera_between_nearest (cameras r) fr i c c_next Hs Hi Hn Hbetween))
        as Hai.
      subst a. rewrite Nat2Z.id in Hca. rewrite Hi in Hca. inversion Hca; subst c_a.
      destruct i as [|k]; [reflexivity|].
      exfalso.
      assert (S (S k) < length (cameras r))%nat by (apply nth_error_Some; congruence).
      assert (E1 : negb (cam_framenr c =? fr) = true)
        by (apply negb_true_iff, Z.eqb_neq; lia).
      assert (E2 : (Z.of_nat (S k) >? 0) = true) by (apply Z.gtb_lt; lia).
      assert (E3 : (Z.of_nat (S k) <? camnr M4 r' - 1) = true)
        by (apply Z.ltb_lt; rewrite Hcamnr; lia).
      rewrite E1, E2, E3 in Hcond. discriminate Hcond.
Qed.

End CameraInterpolateFacts.

Example interpolated_poses_2_5_6_8 :
  map (interpolated_pose 1) [1; 2; 3; 7; 9]
  = [Some (pose_of 2); Some (pose_of 2); Some (pose_of 2);
     Some (pose_blend (pose_of 6) (pose_of 8) b32_half); Some (pose_of 8)] /\
  interpolated_pose 0 7
  = Some (pose_mul (pose_blend (pose_of 6) (pose_of 8) b32_half) (pose_scale b32_half)).
Proof. split; vm_compute; reflexivity. Qed.

Lemma camera_interpolate_cases_witness :
  exists r',
    BKE_tracking_camera_get_reconstructed_interpolate pose pose_unit pose_blend
      pose_scale pose_mul 1 cameras_2_5_6_8 1 f_two 7
    = Done (pose_blend (pose_of 6) (pose_of 8) b32_half, r').
Proof.
  destruct (camera_interpolate_cases pose pose_unit pose_blend pose_scale pose_mul 1
              cameras_2_5_6_8 1 f_two 7)
    as (mat & r' & Hrun & _ & _ & _ & _ & _ & Hbetween).
  - apply cameras_ascendingb_spec. reflexivity.
  - cbn. lia.
  - exists r'. rewrite Hrun.
    rewrite (Hbetween 2%nat _ _ eq_refl eq_refl ltac:(cbn; lia)).
    vm_compute. reflexivity.
Defined.
(** ** Joining two tracks: no tracked frame is lost *)

Section JoinEnabledFacts.

Context {F : Type} `{FloatOps F}.

Local Abbreviation Marker := (MovieTrackingMarker F).
Local Abbreviation Track := (MovieTrackingTrack F).

Lemma joined_enabled (src dst : list Marker) (m : Marker) :
  strictly_ascending src -> strictly_ascending dst ->
  joined src dst m ->
  marker_disabled m = false <->
  enabled_frame src (framenr m) = true \/ enabled_frame dst (framenr m) = true.
Proof.
  intros Hss Hsd Hj. rewrite !enabled_frame_spec.
  destruct Hj as [ma Hma Hno|mb Hmb Hno|ma mb Hma Hmb Hf Da Db|ma mb Hma Hmb Hf Da
                  |ma mb f0 len j Hma Hmb Fa Fb Da Db Hrun Hjl].
  - split.
    + intros Hd. left. exists ma. repeat split; assumption.
    + intros [(x & Hx & Hxf & Hxd)|(x & Hx & Hxf & _)].
      * rewrite <- (ascending_same_frame src x ma Hss Hx Hma Hxf). exact Hxd.
      * destruct Hno. exists x. split; assumption.
  - split.
    + intros Hd. right. exists mb. repeat split; assumption.
    + intros [(x & Hx & Hxf & _)|(x & Hx & Hxf & Hxd)].
      * destruct Hno. exists x. split; assumption.
      * rewrite <- (ascending_same_frame dst x mb Hsd Hx Hmb Hxf). exact Hxd.
  - split; [|intros _; exact Da].
    intros _. left. exists ma. repeat split; assumption.
  - split.
    + intros Hd. right. exists mb. repeat split; assumption.
    + intros [(x & Hx & Hxf & Hxd)|(x & Hx & Hxf & Hxd)].
      * rewrite (ascending_same_frame src x ma Hss Hx Hma) in Hxd by congruence.
        congruence.
      * rewrite <- (ascending_same_frame dst x mb Hsd Hx Hmb Hxf). exact Hxd.
  - cbn [blended framenr set_pos]. unfold marker_disabled. cbn [blended flag set_pos].
    fold (marker_disabled mb). split; [|intros _; exact Db].
    intros _. right. exists mb. repeat split; assumption.
Qed.

(** X26.  BKE_tracking_tracks_join keeps the tracked frames of both tracks, and
    adds none: on sorted tracks the joined track holds an enabled marker
    for a frame exactly when [src] or [dst] does.  On a destination track
    with a cursor that is not negative,
    BKE_tracking_track_has_enabled_marker_at_frame on the joined track
    answers just that, for every frame, unless both tracks were empty,
    where the test has no defined result. *)
Theorem tracks_join_keeps_enabled_frames (dst_track src_track : Track) :
  track_ok dst_track -> strictly_ascending (markers src_track) ->
  exists joined_track,
    BKE_tracking_tracks_join dst_track src_track = Done joined_track /\
    track_ok joined_track /\
    (markers joined_track = [] <->
     markers src_track = [] /\ markers dst_track = []) /\
    forall fr,
      enabled_frame (markers joined_track) fr
      = enabled_frame (markers src_track) fr || enabled_frame (markers dst_track) fr /\
      (markers joined_track <> [] ->
       exists t',
         BKE_tracking_track_has_enabled_marker_at_frame joined_track fr
         = Done (enabled_frame (markers src_track) fr
                 || enabled_frame (markers dst_track) fr, t')) /\
      (markers joined_track = [] ->
       BKE_tracking_track_has_enabled_marker_at_frame joined_track fr = Crash).
Proof.
  intros [Hsd Hcur] Hss.
  set (src := markers src_track). set (dst := markers dst_track).
  destruct (join_loop_spec src dst Hss Hsd (length dst + length src) 0 0)
    as (out & Hrun & Hj & Hfr & Hasc).
  { lia. } { lia. } { lia. }
  { split; intros i j mi mj Hi; lia. }
  { intros a' b' pa pb ma mb Ha. discriminate Ha. }
  unfold BKE_tracking_tracks_join. fold src. fold dst. rewrite Hrun. cbn [bind].
  eexists. split; [reflexivity|]. cbn [markers set_markers].
  assert (Hfr' : forall fr, has_frame out fr <-> has_frame src fr \/ has_frame dst fr).
  { intros fr. rewrite Hfr, !frame_from_zero. reflexivity. }
  assert (Hok : track_ok (set_markers dst_track out))
    by (split; [exact Hasc|exact Hcur]).
  split; [exact Hok|]. split.
  { split.
    - intros He.
      assert (Hnone : forall fr, ~ (has_frame src fr \/ has_frame dst fr)).
      { intros fr Hx. apply Hfr' in Hx. destruct Hx as (m & Hm & _).
        rewrite He in Hm. destruct Hm. }
      split.
      + destruct src as [|m ms]; [reflexivity|].
        destruct (Hnone (framenr m)). left. exists m. split; [left|]; reflexivity.
      + destruct dst as [|m ms]; [reflexivity|].
        destruct (Hnone (framenr m)). right. exists m. split; [left|]; reflexivity.
    - intros [Es Ed]. destruct out as [|m ms]; [reflexivity|].
      assert (Hx : has_frame src (framenr m) \/ has_frame dst (framenr m))
        by (apply Hfr'; exists m; split; [left|]; reflexivity).
      rewrite Es, Ed in Hx. destruct Hx as [(x & [] & _)|(x & [] & _)]. }
  intros fr.
  assert (Hen : enabled_frame out fr = enabled_frame src fr || enabled_frame dst fr).
  { apply eq_true_iff_eq. rewrite orb_true_iff. split.
    - intros He. apply enabled_frame_spec in He. destruct He as (m & Hm & Hfm & Hd).
      subst fr. apply (joined_enabled src dst m Hss Hsd (Hj m Hm)). exact Hd.
    - intros He.
      assert (Hheld : has_frame src fr \/ has_frame dst fr).
      { destruct He as [He|He]; apply enabled_frame_spec in He;
          destruct He as (x & Hx & Hxf & _); [left|right]; exists x; split; assumption. }
      apply Hfr' in Hheld. destruct Hheld as (m & Hm & Hfm). subst fr.
      apply enabled_frame_spec. exists m. split; [exact Hm|]. split; [reflexivity|].
      apply (joined_enabled src dst m Hss Hsd (Hj m Hm)). exact He. }
  split; [exact Hen|]. split.
  - intros Hne.
    destruct (has_enabled_marker_value (set_markers dst_track out) fr Hne Hok)
      as (t' & E & _).
    exists t'. rewrite E. cbn [markers set_markers]. rewrite Hen. reflexivity.
  - intros He. apply has_enabled_marker_empty. exact He.
Qed.

End JoinEnabledFacts.

Lemma tracks_join_keeps_enabled_frames_witness :
  exists joined_track,
    BKE_tracking_tracks_join dst_S2_gap src_S2 = Done joined_track /\
    enabled_frame (markers joined_track) 2 = false /\
    enabled_frame (markers joined_track) 7 = true.
Proof.
  destruct (tracks_join_keeps_enabled_frames dst_S2_gap src_S2)
    as (joined_track & E & _ & _ & Hall).
  - split; [apply ascendingb_spec; reflexivity|cbn; lia].
  - apply ascendingb_spec. reflexivity.
  - exists joined_track. split; [exact E|].
    split; [rewrite (proj1 (Hall 2))|rewrite (proj1 (Hall 7))]; reflexivity.
Defined.
(** ** Facts on 2D stabilization *)

Section StabilizationFacts.

Context {F : Type} `{FloatOps F} `{LibmOps F}.

Local Abbreviation Marker := (MovieTrackingMarker F).
Local Abbreviation Track := (MovieTrackingTrack F).

Lemma marker_pos_at_steady (t : Track) (fr : Z) (p : vec2 F) :
  markers t <> [] -> track_ok t ->
  (forall m, In m (markers t) -> pos m = p) ->
  marker_pos_at t fr = Done p.
Proof.
  intros Hne Hok Hp.
  destruct (marker_get_spec t fr Hne Hok) as (i & m & Hi & _ & Hget).
  unfold marker_pos_at. rewrite Hget. cbn [bind].
  unfold deref. rewrite get_cursor_markers.
  rewrite (marker_at_of_nat _ _ _ Hi). cbn [bind].
  rewrite (Hp m (nth_error_In _ _ Hi)). reflexivity.
Qed.

Lemma median_minmax_unflagged (trks : list Track) (fr : Z) (ok : bool)
  (mm : vec2 F * vec2 F) :
  (forall t, In t trks -> has_flag (track_flag t) TRACK_USE_2D_STAB = false) ->
  median_minmax trks fr ok mm = Done (ok, mm).
Proof.
  induction trks as [|t rest IH]; intros Hfl; [reflexivity|].
  cbn [median_minmax]. rewrite (Hfl t (or_introl eq_refl)).
  apply IH. intros t' Ht'. apply Hfl. right. exact Ht'.
Qed.

Lemma median_minmax_app (l1 l2 : list Track) (fr : Z) (ok : bool)
  (mm : vec2 F * vec2 F) :
  (forall t, In t l1 -> has_flag (track_flag t) TRACK_USE_2D_STAB = false) ->
  median_minmax (l1 ++ l2) fr ok mm = median_minmax l2 fr ok mm.
Proof.
  induction l1 as [|t rest IH]; intros Hfl; [reflexivity|].
  cbn [app median_minmax]. rewrite (Hfl t (or_introl eq_refl)).
  apply IH. intros t' Ht'. apply Hfl. right. exact Ht'.
Qed.

(** With one steady track the median is the same at every frame. *)
Lemma median_point_steady (tracking : MovieTracking) (fr : Z) (p : vec2 F) :
  one_steady_track (tracks tracking) p ->
  stabilization_median_point_get tracking fr = Done (true, steady_median p).
Proof.
  intros (before & t & after & Htr & Hfl & Hothers & Hne & Hok & Hp).
  unfold stabilization_median_point_get. rewrite Htr.
  rewrite median_minmax_app
    by (intros t' Ht'; apply Hothers, in_or_app; left; exact Ht').
  cbn [median_minmax]. rewrite Hfl.
  rewrite (marker_pos_at_steady t fr p Hne Hok Hp). cbn [bind].
  rewrite median_minmax_unflagged
    by (intros t' Ht'; apply Hothers, in_or_app; right; exact Ht').
  cbn [bind]. unfold steady_median.
  destruct (minmax_v2v2_v2 INIT_MINMAX2 p) as [mn mx]. reflexivity.
Qed.

Lemma calculate_data_no_rotation (tracking : MovieTracking) (fr : Z)
  (width height : F) (firstmedian median : vec2 F) :
  rotation_active (stabilization tracking) = false ->
  stabilization_calculate_data tracking fr width height firstmedian median =
    Done (plain_translation (stabilization tracking) width height firstmedian median,
          f_add (f_mul (f_sub (stab_scale (stabilization tracking)) f_one)
                       (scaleinf (stabilization tracking))) f_one,
          f_zero).
Proof.
  unfold rotation_active, stabilization_calculate_data, plain_translation.
  cbv zeta.
  destruct (rot_track (stabilization tracking)) as [rot|]; [|reflexivity].
  intros Hr. rewrite Hr. reflexivity.
Qed.

Variable autoscale_scale : MovieTracking (F:=F) -> Z -> Z -> F.

Lemma effective_stab_rotation (tracking : MovieTracking) (width height : Z) :
  rotation_active (effective_stab autoscale_scale tracking width height) =
  rotation_active (stabilization tracking).
Proof.
  unfold effective_stab. cbv zeta.
  destruct (Z.land (stab_flag (stabilization tracking)) TRACKING_AUTOSCALE =? 0) eqn:Ha.
  - cbn [set_stab_scale stab_flag stab_ok]. rewrite Ha.
    cbn [negb andb]. rewrite andb_false_r. reflexivity.
  - rewrite Ha. cbn [negb]. rewrite andb_true_r.
    destruct (stab_ok (stabilization tracking)); reflexivity.
Qed.

Lemma effective_stab_locinf (tracking : MovieTracking) (width height : Z) :
  locinf (effective_stab autoscale_scale tracking width height) =
  locinf (stabilization tracking).
Proof.
  unfold effective_stab. cbv zeta.
  destruct (Z.land (stab_flag (stabilization tracking)) TRACKING_AUTOSCALE =? 0);
    match goal with
    | |- context [if ?c then _ else _] => destruct c
    end; reflexivity.
Qed.

(** With stabilization switched on and a median at frame 1,
    [BKE_tracking_stabilization_data_get] is [stabilization_calculate_data]
    on the effective settings. *)
Lemma data_get_calculate (tracking : MovieTracking) (fr width height : Z)
  (ok : bool) (firstmedian median : vec2 F) :
  has_flag (stab_flag (stabilization tracking)) TRACKING_2D_STABILIZATION = true ->
  stabilization_median_point_get tracking 1 = Done (true, firstmedian) ->
  stabilization_median_point_get tracking fr = Done (ok, median) ->
  exists tracking',
    BKE_tracking_stabilization_data_get autoscale_scale tracking fr width height =
      (r <- stabilization_calculate_data
              (set_stabilization tracking (effective_stab autoscale_scale tracking width height))
              fr (f_of_int width) (f_of_int height) firstmedian median ;;
       Done (tracking', r)).
Proof.
  intros Hon H1 Hfr.
  unfold BKE_tracking_stabilization_data_get. cbv zeta.
  unfold has_flag in Hon. apply negb_true_iff in Hon. rewrite Hon.
  rewrite H1. cbn [bind]. rewrite Hfr. cbn [bind].
  unfold effective_stab. cbv zeta.
  destruct (Z.land (stab_flag (stabilization tracking)) TRACKING_AUTOSCALE =? 0) eqn:Ha.
  - cbn [set_stab_scale stab_flag stab_ok]. rewrite Ha.
    cbn [negb]. rewrite andb_false_r.
    destruct (stab_ok (stabilization tracking)); cbn [negb];
      eexists; reflexivity.
  - rewrite Ha. cbn [negb]. rewrite andb_true_r.
    destruct (stab_ok (stabilization tracking)); cbn [negb];
      eexists; reflexivity.
Qed.

Lemma data_get_steady (tracking : MovieTracking) (fr width height : Z) (p : vec2 F) :
  has_flag (stab_flag (stabilization tracking)) TRACKING_2D_STABILIZATION = true ->
  one_steady_track (tracks tracking) p ->
  rotation_active (stabilization tracking) = false ->
  exists tracking',
    BKE_tracking_stabilization_data_get autoscale_scale tracking fr width height =
      Done (tracking',
            (plain_translation (effective_stab autoscale_scale tracking width height)
               (f_of_int width) (f_of_int height) (steady_median p) (steady_median p),
             f_add (f_mul (f_sub (stab_scale (effective_stab autoscale_scale tracking width height)) f_one)
                          (scaleinf (effective_stab autoscale_scale tracking width height))) f_one,
             f_zero)).
Proof.
  intros Hon Hone Hrot.
  destruct (data_get_calculate tracking fr width height true
              (steady_median p) (steady_median p) Hon
              (median_point_steady tracking 1 p Hone)
              (median_point_steady tracking fr p Hone)) as [tracking' E].
  exists tracking'. rewrite E.
  rewrite calculate_data_no_rotation
    by (cbn [set_stabilization stabilization];
        rewrite effective_stab_rotation; exact Hrot).
  reflexivity.
Qed.

Variable Img : Type.
Variable img_x : Img -> Z.
Variable img_y : Img -> Z.
Variable warp : Img -> vec2 F -> F -> F -> Img.

Lemma stabilize_frame_off (tracking : MovieTracking) (fr : Z) (ibuf : Img) :
  has_flag (stab_flag (stabilization tracking)) TRACKING_2D_STABILIZATION = false ->
  BKE_tracking_stabilize_frame autoscale_scale Img img_x img_y warp tracking fr ibuf =
    Done (tracking, ibuf, ((f_zero, f_zero), f_one, f_zero)).
Proof.
  intros Hoff. unfold BKE_tracking_stabilize_frame. cbv zeta.
  unfold has_flag in Hoff. apply negb_false_iff in Hoff. rewrite Hoff. reflexivity.
Qed.

Lemma stabilize_frame_on (tracking : MovieTracking) (fr : Z) (ibuf : Img) :
  has_flag (stab_flag (stabilization tracking)) TRACKING_2D_STABILIZATION = true ->
  BKE_tracking_stabilize_frame autoscale_scale Img img_x img_y warp tracking fr ibuf =
    ('(tracking', (tloc, tscale, tangle)) <-
       BKE_tracking_stabilization_data_get autoscale_scale tracking fr
         (img_x ibuf) (img_y ibuf) ;;
     Done (tracking', warp ibuf tloc tscale tangle, (tloc, tscale, tangle))).
Proof.
  intros Hon. unfold BKE_tracking_stabilize_frame. cbv zeta.
  unfold has_flag in Hon. apply negb_true_iff in Hon. rewrite Hon. reflexivity.
Qed.

End StabilizationFacts.

(** *** binary32: [x - x] and products with a zero *)

Lemma b32_sub_self (x : binary32) :
  b32_finite x = true -> SFsub b32_prec b32_emax x x = S754_zero false.
Proof.
  destruct x as [s|s| |s m e]; try discriminate; intros _.
  - destruct s; reflexivity.
  - unfold SFsub. rewrite Z.sub_diag. reflexivity.
Qed.

Lemma b32_mul_zero (x y : binary32) :
  b32_is_zero x = true -> b32_finite y = true ->
  b32_is_zero (SFmul b32_prec b32_emax x y) = true.
Proof.
  destruct x as [sx|sx| |sx mx ex]; try discriminate; intros _.
  destruct y as [sy|sy| |sy my ey]; try discriminate; intros _; reflexivity.
Qed.

Lemma plain_translation_b32 (stab : MovieTrackingStabilization (F:=binary32))
  (width height : binary32) (m : vec2 binary32) :
  b32_finite (fst m) = true -> b32_finite (snd m) = true ->
  b32_finite width = true -> b32_finite height = true ->
  b32_finite (f_add (f_mul (f_sub (stab_scale stab) f_one) (scaleinf stab)) f_one) = true ->
  b32_finite (locinf stab) = true ->
  b32_is_zero (fst (plain_translation stab width height m m)) = true /\
  b32_is_zero (snd (plain_translation stab width height m m)) = true.
Proof.
  intros Hm0 Hm1 Hw Hh Hs Hl. unfold plain_translation. cbv zeta. cbn [fst snd].
  change (f_sub (fst m) (fst m)) with (SFsub b32_prec b32_emax (fst m) (fst m)).
  change (f_sub (snd m) (snd m)) with (SFsub b32_prec b32_emax (snd m) (snd m)).
  rewrite (b32_sub_self _ Hm0), (b32_sub_self _ Hm1).
  split; repeat (apply b32_mul_zero; [|assumption]); reflexivity.
Qed.

(** *** The reals *)

Lemma plain_translation_real (stab : MovieTrackingStabilization (F:=R))
  (width height : R) (m : vec2 R) :
  plain_translation stab width height m m = (0%R, 0%R).
Proof.
  unfold plain_translation. cbv zeta. cbn [f_add f_sub f_mul real_ops].
  f_equal; ring.
Qed.

Lemma R_ltb_true (a b : R) : (a < b)%R -> R_ltb a b = true.
Proof. intros Hab. unfold R_ltb. destruct (Rlt_dec a b); [reflexivity|contradiction]. Qed.

Lemma R_ltb_false (a b : R) : (b <= a)%R -> R_ltb a b = false.
Proof. intros Hab. unfold R_ltb. destruct (Rlt_dec a b); [lra|reflexivity]. Qed.

Lemma R_eqb_false (a b : R) : a <> b -> R_eqb a b = false.
Proof. intros Hab. unfold R_eqb. destruct (Req_dec_T a b); [contradiction|reflexivity]. Qed.

(** A position within +-1.0e30 is its own median. *)
Lemma steady_median_real (x y : R) :
  (- IZR (10 ^ 30) < x < IZR (10 ^ 30))%R -> (- IZR (10 ^ 30) < y < IZR (10 ^ 30))%R ->
  @steady_median R real_ops (x, y) = (x, y).
Proof.
  intros Hx Hy.
  unfold steady_median, minmax_v2v2_v2, INIT_MINMAX2, f_gt, f_1e30, f_two.
  cbn [f_lt f_neg f_add f_div f_of_int real_ops fst snd].
  rewrite !R_ltb_true by lra. cbn [fst snd]. f_equal; field.
Qed.

(** *** The steady track of the examples *)

Lemma steady_track_alone {F : Type} `{FloatOps F} (p : vec2 F)
  (others : list (MovieTrackingTrack F)) :
  (forall t, In t others -> has_flag (track_flag t) TRACK_USE_2D_STAB = false) ->
  one_steady_track (steady_track p :: others) p.
Proof.
  intros Hothers. exists [], (steady_track p), others.
  split; [reflexivity|]. split; [reflexivity|].
  split; [exact Hothers|].
  split; [discriminate|].
  split.
  - split; [|cbn; lia]. apply ascendingb_spec. reflexivity.
  - intros m [<-|[<-|[]]]; reflexivity.
Qed.

Lemma half_turn_one_steady :
  one_steady_track (tracks tracking_half_turn) (1 / 4, 0)%R.
Proof.
  apply (steady_track_alone (F:=R)). intros t [<-|[]]. reflexivity.
Qed.

Lemma median_quarter : @steady_median R real_ops (1 / 4, 0)%R = (1 / 4, 0)%R.
Proof.
  apply steady_median_real;
    change (10 ^ 30)%Z with 1000000000000000000000000000000%Z; lra.
Qed.

(** [atan2(0, -4)] is half a turn. *)
Lemma R_atan2_half_turn : R_atan2 0 (-4) = PI.
Proof.
  unfold R_atan2.
  destruct (Rlt_dec 0 (-4)) as [Hlt|_]; [lra|].
  destruct (Rlt_dec (-4) 0) as [_|Hn]; [|lra].
  destruct (Rle_dec 0 0) as [_|Hn]; [|lra].
  replace (0 / -4)%R with 0%R by field. rewrite atan_0. ring.
Qed.

(** binary32, stabilization switched off: the frame and the identity
    transform come back. *)
Example stabilize_off_b32 :
  BKE_tracking_stabilize_frame (H0:=libm_nan) (fun _ _ _ => b32_one) frame_size fst snd
    no_warp (tracking_b32 0) 7 (640, 480)
  = Done (tracking_b32 0, (640, 480), ((b32_zero, b32_zero), b32_one, b32_zero)).
Proof. vm_compute. reflexivity. Qed.

(** binary32, stabilization switched on, one steady track at (0.25, 0.5),
    no rotation: translation +0, scale 1, angle 0 on a 640x480 frame. *)
Example stabilize_steady_b32 :
  BKE_tracking_stabilize_frame (H0:=libm_nan) (fun _ _ _ => b32_one) frame_size fst snd
    no_warp (tracking_b32 TRACKING_2D_STABILIZATION) 7 (640, 480)
  = Done (tracking_b32 TRACKING_2D_STABILIZATION, (640, 480),
          ((S754_zero false, S754_zero false), b32_one, b32_zero)).
Proof. vm_compute. reflexivity. Qed.

(** With rotation stabilization in use the claim of a zero translation
    fails.  Over the reals, on a 2x2 frame: the only track used for the
    median stays at (1/4, 0); the rotation track goes from (5/4, 0) at frame
    1 to (-3/4, 0) at frame 2, so [a = (2, 0)], [b = (-2, 0)] and the angle
    is [-atan2(0, -4) = -PI].  The rotation is turned into one around the
    image centre (1, 1), which moves the median (1/2, 0): the translation at
    frame 2 is (-1, -2). *)
Lemma steady_track_moved_by_rotation :
  has_flag (stab_flag (stabilization tracking_half_turn)) TRACKING_2D_STABILIZATION = true /\
  one_steady_track (tracks tracking_half_turn) (1 / 4, 0)%R /\
  exists tracking' tscale tangle,
    BKE_tracking_stabilize_frame (fun _ _ _ => 1%R) frame_size fst snd no_warp
      tracking_half_turn 2 (2, 2)
    = Done (tracking', (2, 2), ((-1, -2)%R, tscale, tangle)) /\
    (-1)%R <> 0%R /\ (-2)%R <> 0%R.
Proof.
  split; [reflexivity|]. split; [exact half_turn_one_steady|].
  rewrite stabilize_frame_on by reflexivity.
  destruct (data_get_calculate (fun _ _ _ => 1%R) tracking_half_turn 2 2 2 true
              _ _ eq_refl
              (median_point_steady _ 1 _ half_turn_one_steady)
              (median_point_steady _ 2 _ half_turn_one_steady)) as [tracking' E].
  cbn [fst snd]. rewrite E. clear E. rewrite median_quarter.
  change (effective_stab (fun _ _ _ => 1%R) tracking_half_turn 2 2)
    with (set_stab_scale (stabilization tracking_half_turn) 1%R).
  unfold stabilization_calculate_data. cbv zeta.
  cbn [stabilization set_stabilization set_stab_scale tracking_half_turn
       rot_track stab_flag rotinf locinf scaleinf stab_scale].
  change (has_flag (Z.lor TRACKING_2D_STABILIZATION TRACKING_STABILIZE_ROTATION)
            TRACKING_STABILIZE_ROTATION) with true.
  unfold f_zero, f_one, f_two.
  cbn [f_eqb f_of_int f_add f_sub f_mul f_div f_neg f_atan2 f_cos f_sin real_ops real_libm].
  rewrite (R_eqb_false 1 0) by lra. cbn [andb negb].
  change (marker_pos_at (moving_track (5 / 4, 0)%R (- 3 / 4, 0)%R) 1)
    with (Done (A:=vec2 R) (5 / 4, 0)%R).
  change (marker_pos_at (moving_track (5 / 4, 0)%R (- 3 / 4, 0)%R) 2)
    with (Done (A:=vec2 R) (- 3 / 4, 0)%R).
  cbn [bind fst snd].
  replace ((5 / 4 - 1 / 4) * 2 * ((0 - 0) * 2) -
           (0 - 0) * 2 * ((-3 / 4 - 1 / 4) * 2))%R with 0%R by lra.
  replace ((5 / 4 - 1 / 4) * 2 * ((-3 / 4 - 1 / 4) * 2) +
           (0 - 0) * 2 * ((0 - 0) * 2))%R with (-4)%R by lra.
  rewrite R_atan2_half_turn.
  replace (- PI * 1)%R with (- PI)%R by ring.
  rewrite cos_neg, sin_neg, cos_PI, sin_PI.
  unfold no_warp.
  exists tracking', ((1 - 1) * 1 + 1)%R, (- PI)%R.
  split; [repeat f_equal; lra|]. split; lra.
Qed.

(** C7.  With the flag TRACKING_2D_STABILIZATION off,
    [BKE_tracking_stabilize_frame] gives back the frame it was given and
    reports translation (0, 0), scale 1 and angle 0, at every frame and in
    any arithmetic.  With the flag on, exactly one track flagged
    USE_2D_STAB, whose markers (at least one, sorted by frame) are all at
    the same position, and rotation stabilization not in use (flag
    STABILIZE_ROTATION off, no rotation track, or [rotinf] zero), the
    median is the same at frame 1 and at every frame, and the translation
    reported is zero at every frame: in binary32 when the median, the
    frame size as a float, [locinf] and the scale are finite numbers; over
    the reals always. *)
Theorem stabilization_identity :
  (forall (F : Type) (ops : FloatOps F) (libm : LibmOps F)
          (autoscale_scale : MovieTracking -> Z -> Z -> F)
          (Img : Type) (img_x img_y : Img -> Z) (warp : Img -> vec2 F -> F -> F -> Img)
          (tracking : MovieTracking) (fr : Z) (ibuf : Img),
      has_flag (stab_flag (stabilization tracking)) TRACKING_2D_STABILIZATION = false ->
      BKE_tracking_stabilize_frame autoscale_scale Img img_x img_y warp tracking fr ibuf =
        Done (tracking, ibuf, ((f_zero, f_zero), f_one, f_zero)))
  /\
  (forall (libm : LibmOps binary32)
          (autoscale_scale : MovieTracking -> Z -> Z -> binary32)
          (Img : Type) (img_x img_y : Img -> Z)
          (warp : Img -> vec2 binary32 -> binary32 -> binary32 -> Img)
          (tracking : MovieTracking) (fr : Z) (ibuf : Img) (p : vec2 binary32),
      has_flag (stab_flag (stabilization tracking)) TRACKING_2D_STABILIZATION = true ->
      one_steady_track (tracks tracking) p ->
      rotation_active (stabilization tracking) = false ->
      b32_finite (fst (steady_median p)) = true ->
      b32_finite (snd (steady_median p)) = true ->
      b32_finite (b32_of_int (img_x ibuf)) = true ->
      b32_finite (b32_of_int (img_y ibuf)) = true ->
      b32_finite (locinf (stabilization tracking)) = true ->
      exists tracking' tloc tscale tangle,
        BKE_tracking_stabilize_frame autoscale_scale Img img_x img_y warp tracking fr ibuf =
          Done (tracking', warp ibuf tloc tscale tangle, (tloc, tscale, tangle)) /\
        (b32_finite tscale = true ->
         b32_is_zero (fst tloc) = true /\ b32_is_zero (snd tloc) = true))
  /\
  (forall (libm : LibmOps R)
          (autoscale_scale : MovieTracking -> Z -> Z -> R)
          (Img : Type) (img_x img_y : Img -> Z) (warp : Img -> vec2 R -> R -> R -> Img)
          (tracking : MovieTracking) (fr : Z) (ibuf : Img) (p : vec2 R),
      has_flag (stab_flag (stabilization tracking)) TRACKING_2D_STABILIZATION = true ->
      one_steady_track (tracks tracking) p ->
      rotation_active (stabilization tracking) = false ->
      exists tracking' tscale,
        BKE_tracking_stabilize_frame autoscale_scale Img img_x img_y warp tracking fr ibuf =
          Done (tracking', warp ibuf (0, 0)%R tscale 0%R, ((0, 0)%R, tscale, 0%R))).
Proof.
  split; [|split].
  - intros F ops libm autoscale_scale Img img_x img_y warp tracking fr ibuf Hoff.
    apply stabilize_frame_off. exact Hoff.
  - intros libm autoscale_scale Img img_x img_y warp tracking fr ibuf p
      Hon Hone Hrot Hm0 Hm1 Hw Hh Hl.
    rewrite stabilize_frame_on by exact Hon.
    destruct (data_get_steady autoscale_scale tracking fr (img_x ibuf) (img_y ibuf) p
                Hon Hone Hrot) as [tracking' E].
    rewrite E. cbn [bind].
    eexists _, _, _, _. split; [reflexivity|].
    intros Hs. apply plain_translation_b32; try assumption.
    rewrite effective_stab_locinf. exact Hl.
  - intros libm autoscale_scale Img img_x img_y warp tracking fr ibuf p Hon Hone Hrot.
    rewrite stabilize_frame_on by exact Hon.
    destruct (data_get_steady autoscale_scale tracking fr (img_x ibuf) (img_y ibuf) p
                Hon Hone Hrot) as [tracking' E].
    rewrite E. cbn [bind]. rewrite plain_translation_real.
    eexists _, _. reflexivity.
Qed.

Lemma stabilization_identity_witness :
  BKE_tracking_stabilize_frame (H0:=libm_nan) (fun _ _ _ => b32_one) frame_size fst snd
    no_warp (tracking_b32 0) 7 (640, 480)
  = Done (tracking_b32 0, (640, 480), ((b32_zero, b32_zero), b32_one, b32_zero))
  /\
  (exists tracking' tloc tscale tangle,
     BKE_tracking_stabilize_frame (H0:=libm_nan) (fun _ _ _ => b32_one) frame_size fst snd
       no_warp (tracking_b32 TRACKING_2D_STABILIZATION) 7 (640, 480)
     = Done (tracking', (640, 480), (tloc, tscale, tangle)) /\
     (b32_finite tscale = true ->
      b32_is_zero (fst tloc) = true /\ b32_is_zero (snd tloc) = true))
  /\
  (exists tracking' tscale,
     BKE_tracking_stabilize_frame (fun _ _ _ => 1%R) frame_size fst snd no_warp
       tracking_no_rotation 2 (2, 2)
     = Done (tracking', (2, 2), ((0, 0)%R, tscale, 0%R))).
Proof.
  destruct stabilization_identity as (Hoff & Hb32 & Hreal).
  split; [|split].
  - apply (Hoff binary32 binary32_ops libm_nan). reflexivity.
  - apply (Hb32 libm_nan (fun _ _ _ => b32_one) frame_size fst snd no_warp
             (tracking_b32 TRACKING_2D_STABILIZATION) 7 (640, 480)
             (f_lit 1 4, b32_half)).
    + reflexivity.
    + apply (steady_track_alone (F:=binary32)). intros t [].
    + reflexivity.
    + vm_compute. reflexivity.
    + vm_compute. reflexivity.
    + vm_compute. reflexivity.
    + vm_compute. reflexivity.
    + reflexivity.
  - apply (Hreal real_libm (fun _ _ _ => 1%R) frame_size fst snd no_warp
             tracking_no_rotation 2 (2, 2) (1 / 4, 0)%R).
    + reflexivity.
    + exact half_turn_one_steady.
    + reflexivity.
Defined.
(** ** 2D stabilization: no track to follow, and the scale without autoscale *)

Section StabilizationEdges.

Context {F : Type} `{FloatOps F} `{LibmOps F}.

Local Abbreviation Marker := (MovieTrackingMarker F).
Local Abbreviation Track := (MovieTrackingTrack F).

Variable autoscale_scale : MovieTracking (F:=F) -> Z -> Z -> F.
Variable Img : Type.
Variable img_x : Img -> Z.
Variable img_y : Img -> Z.
Variable warp : Img -> vec2 F -> F -> F -> Img.

Lemma marker_pos_at_empty (t : Track) (fr : Z) :
  markers t = [] -> marker_pos_at t fr = Crash.
Proof.
  intros He. unfold marker_pos_at. rewrite (marker_get_empty t fr He). reflexivity.
Qed.

Lemma marker_pos_at_defined (t : Track) (fr : Z) :
  markers t <> [] -> track_ok t -> exists p, marker_pos_at t fr = Done p.
Proof.
  intros Hne Hok.
  destruct (marker_get_spec t fr Hne Hok) as (i & m & Hi & _ & Hget).
  unfold marker_pos_at. rewrite Hget. cbn [bind].
  unfold deref. rewrite get_cursor_markers.
  rewrite (marker_at_of_nat _ _ _ Hi). cbn [bind]. exists (pos m). reflexivity.
Qed.

(** The median loop returns when the flagged tracks have markers, and
    tells whether a track is flagged. *)
Lemma median_minmax_defined (trks : list Track) (fr : Z) (ok : bool)
  (mm : vec2 F * vec2 F) :
  (forall t, In t trks -> has_flag (track_flag t) TRACK_USE_2D_STAB = true ->
             markers t <> [] /\ track_ok t) ->
  exists mm',
    median_minmax trks fr ok mm
    = Done (ok || existsb (fun t => has_flag (track_flag t) TRACK_USE_2D_STAB) trks, mm').
Proof.
  revert ok mm. induction trks as [|t rest IH]; intros ok mm Hall.
  - exists mm. cbn. rewrite orb_false_r. reflexivity.
  - cbn [median_minmax existsb].
    assert (Hrest : forall x, In x rest ->
                      has_flag (track_flag x) TRACK_USE_2D_STAB = true ->
                      markers x <> [] /\ track_ok x)
      by (intros x Hx; apply Hall; right; exact Hx).
    destruct (has_flag (track_flag t) TRACK_USE_2D_STAB) eqn:Hfl.
    + destruct (Hall t (or_introl eq_refl) Hfl) as [Hne Hok].
      destruct (marker_pos_at_defined t fr Hne Hok) as [p Ep]. rewrite Ep. cbn [bind].
      destruct (IH true (minmax_v2v2_v2 mm p) Hrest) as [mm' E]. rewrite E.
      exists mm'. cbn [orb]. rewrite orb_true_r. reflexivity.
    + destruct (IH ok mm Hrest) as [mm' E]. rewrite E. exists mm'. reflexivity.
Qed.

(** X13.  Stabilization switched on with nothing to follow.  When no track is
    flagged USE_2D_STAB, [BKE_tracking_stabilization_data_get] reports
    translation (0, 0), scale 1 and angle 0 without touching the settings,
    and [BKE_tracking_stabilize_frame] resamples the frame with that
    identity.  When the first flagged track has no marker, the median
    reads the position of a [NULL] marker: no defined result. *)
Theorem stabilization_without_tracks (tracking : MovieTracking) (fr : Z) (ibuf : Img) :
  has_flag (stab_flag (stabilization tracking)) TRACKING_2D_STABILIZATION = true ->
  ((forall t, In t (tracks tracking) ->
              has_flag (track_flag t) TRACK_USE_2D_STAB = false) ->
   BKE_tracking_stabilization_data_get autoscale_scale tracking fr (img_x ibuf) (img_y ibuf)
     = Done (tracking, ((f_zero, f_zero), f_one, f_zero)) /\
   BKE_tracking_stabilize_frame autoscale_scale Img img_x img_y warp tracking fr ibuf
     = Done (tracking, warp ibuf (f_zero, f_zero) f_one f_zero,
             ((f_zero, f_zero), f_one, f_zero))) /\
  (forall before t after,
     tracks tracking = before ++ t :: after ->
     (forall t', In t' before -> has_flag (track_flag t') TRACK_USE_2D_STAB = false) ->
     has_flag (track_flag t) TRACK_USE_2D_STAB = true ->
     markers t = [] ->
     BKE_tracking_stabilization_data_get autoscale_scale tracking fr (img_x ibuf) (img_y ibuf)
       = Crash /\
     BKE_tracking_stabilize_frame autoscale_scale Img img_x img_y warp tracking fr ibuf
       = Crash).
Proof.
  intros Hon.
  rewrite (stabilize_frame_on autoscale_scale Img img_x img_y warp tracking fr ibuf Hon).
  unfold BKE_tracking_stabilization_data_get. cbv zeta.
  assert (Hon' : (Z.land (stab_flag (stabilization tracking)) TRACKING_2D_STABILIZATION
                  =? 0) = false)
    by (unfold has_flag in Hon; apply negb_true_iff in Hon; exact Hon).
  rewrite Hon'. unfold stabilization_median_point_get. split.
  - intros Hnone. rewrite median_minmax_unflagged by exact Hnone. cbn [bind].
    split; reflexivity.
  - intros before t after Htr Hbefore Hfl Hempty. rewrite Htr.
    rewrite median_minmax_app by exact Hbefore.
    cbn [median_minmax]. rewrite Hfl, (marker_pos_at_empty t 1 Hempty).
    split; reflexivity.
Qed.

(** The tracking [BKE_tracking_stabilization_data_get] leaves when it has
    gone through [stabilization_calculate_data]: the effective settings
    with the cache marked valid. *)
Lemma data_get_calculate_settings (tracking : MovieTracking) (fr width height : Z)
  (ok : bool) (firstmedian median : vec2 F) :
  has_flag (stab_flag (stabilization tracking)) TRACKING_2D_STABILIZATION = true ->
  stabilization_median_point_get tracking 1 = Done (true, firstmedian) ->
  stabilization_median_point_get tracking fr = Done (ok, median) ->
  BKE_tracking_stabilization_data_get autoscale_scale tracking fr width height =
    (r <- stabilization_calculate_data
            (set_stabilization tracking (effective_stab autoscale_scale tracking width height))
            fr (f_of_int width) (f_of_int height) firstmedian median ;;
     Done (set_stabilization tracking
             (set_stab_ok (effective_stab autoscale_scale tracking width height) true),
           r)).
Proof.
  intros Hon H1 Hfr.
  unfold BKE_tracking_stabilization_data_get. cbv zeta.
  unfold has_flag in Hon. apply negb_true_iff in Hon. rewrite Hon.
  rewrite H1. cbn [bind]. rewrite Hfr. cbn [bind].
  unfold effective_stab. cbv zeta.
  destruct tracking as [trks stab]. destruct stab as [fl rot sc sci loci roti okc].
  cbn [stabilization stab_flag stab_ok set_stab_scale set_stabilization set_stab_ok tracks].
  destruct (Z.land fl TRACKING_AUTOSCALE =? 0) eqn:Ha;
    cbn [stab_flag stab_ok set_stab_scale]; rewrite ?Ha; cbn [negb];
    destruct okc; cbn [negb andb]; reflexivity.
Qed.

(** [stabilization_calculate_data] returns when the rotation track, where
    it is used, has markers; the scale does not depend on the rotation. *)
Lemma calculate_data_scale (tracking : MovieTracking) (fr : Z)
  (width height : F) (firstmedian median : vec2 F) :
  (rotation_active (stabilization tracking) = true ->
   exists rot, rot_track (stabilization tracking) = Some rot /\
               markers rot <> [] /\ track_ok rot) ->
  exists translation angle,
    stabilization_calculate_data tracking fr width height firstmedian median =
      Done (translation,
            f_add (f_mul (f_sub (stab_scale (stabilization tracking)) f_one)
                         (scaleinf (stabilization tracking))) f_one,
            angle).
Proof.
  unfold rotation_active, stabilization_calculate_data. cbv zeta.
  destruct (rot_track (stabilization tracking)) as [rot|];
    [|intros _; do 2 eexists; reflexivity].
  destruct (has_flag (stab_flag (stabilization tracking)) TRACKING_STABILIZE_ROTATION
            && negb (f_eqb (rotinf (stabilization tracking)) f_zero));
    [|intros _; do 2 eexists; reflexivity].
  intros Hrot. destruct (Hrot eq_refl) as (rot' & E & Hne & Hok).
  inversion E; subst rot'.
  destruct (marker_pos_at_defined rot 1 Hne Hok) as [p1 E1].
  destruct (marker_pos_at_defined rot fr Hne Hok) as [p2 E2].
  rewrite E1. cbn [bind]. rewrite E2. cbn [bind]. do 2 eexists. reflexivity.
Qed.

End StabilizationEdges.

Lemma b32_unit_scale (x : binary32) :
  b32_finite x = true ->
  f_add (f_mul (f_sub (f_one : binary32) f_one) x) f_one = (f_one : binary32).
Proof.
  destruct x as [s|s| |s m e]; try discriminate; intros _; destruct s; reflexivity.
Qed.


Lemma stabilization_without_tracks_witness :
  BKE_tracking_stabilize_frame (H0:=libm_nan) (fun _ _ _ => b32_one) frame_size fst snd
    no_warp tracking_unflagged 2 (640, 480)
  = Done (tracking_unflagged, (640, 480), ((b32_zero, b32_zero), b32_one, b32_zero))
  /\
  BKE_tracking_stabilize_frame (H0:=libm_nan) (fun _ _ _ => b32_one) frame_size fst snd
    no_warp tracking_flagged_empty 2 (640, 480)
  = Crash.
Proof.
  split.
  - apply (proj1 (stabilization_without_tracks (H0:=libm_nan) (fun _ _ _ => b32_one)
                    frame_size fst snd no_warp tracking_unflagged 2 (640, 480) eq_refl)).
    intros t [<-|[]]. reflexivity.
  - apply (proj2 (stabilization_without_tracks (H0:=libm_nan) (fun _ _ _ => b32_one)
                    frame_size fst snd no_warp tracking_flagged_empty 2 (640, 480) eq_refl)
             [] (flagged_track TRACK_USE_2D_STAB []) []).
    + reflexivity.
    + intros t' [].
    + reflexivity.
    + reflexivity.
Defined.

(** ** Scaling a reconstruction: the first camera stays at the origin *)

Lemma sub_v3_self_b32 (v : vec3 (F:=binary32)) :
  v3_finite v = true -> sub_v3_v3v3 v v = (b32_zero, b32_zero, b32_zero).
Proof.
  destruct v as [[x y] z]. unfold v3_finite. intros Hf.
  apply andb_true_iff in Hf. destruct Hf as [Hf Hz].
  apply andb_true_iff in Hf. destruct Hf as [Hx Hy].
  cbn [sub_v3_v3v3]. unfold f_sub. cbn [binary32_ops].
  rewrite (b32_sub_self x Hx), (b32_sub_self y Hy), (b32_sub_self z Hz). reflexivity.
Qed.

Lemma mat_row3_set {F : Type} (m : mat4 (F:=F)) (v : vec3 (F:=F)) :
  mat_row3 (set_mat_row3 m v) = v.
Proof.
  destruct m as [[[r0 r1] r2] [[[x y] z] w]]. destruct v as [[a b] c]. reflexivity.
Qed.

(** X16.  tracking_scale_reconstruction, in binary32.  The cameras keep their
    number, frames and errors, the cursor stays, and of a pose only the
    first three entries of [mat[3]] change.  When the reconstruction has a
    camera and the product of its translation with the scale is finite,
    the first camera ends with the translation (0, 0, 0).  The track list
    keeps its length; a track without a bundle is not changed, and a track
    with one keeps its markers, flags and error. *)
Theorem scale_reconstruction_origin (tracks : list (MovieTrackingTrack binary32))
  (r : MovieTrackingReconstruction (F:=binary32) mat4) (scale : vec3) :
  let tracks' := fst (tracking_scale_reconstruction tracks r scale) in
  let r' := snd (tracking_scale_reconstruction tracks r scale) in
  last_camera r' = last_camera r /\
  length (cameras r') = length (cameras r) /\
  (forall i c c', nth_error (cameras r) i = Some c -> nth_error (cameras r') i = Some c' ->
     cam_framenr c' = cam_framenr c /\ cam_error c' = cam_error c /\
     forall v, set_mat_row3 (cam_mat c') v = set_mat_row3 (cam_mat c) v) /\
  (forall first rest,
     cameras r = first :: rest ->
     v3_finite (mul_v3_v3v3 (mat_row3 (cam_mat first)) scale) = true ->
     exists first' rest',
       cameras r' = first' :: rest' /\
       mat_row3 (cam_mat first') = (b32_zero, b32_zero, b32_zero)) /\
  length tracks' = length tracks /\
  (forall i t t', nth_error tracks i = Some t -> nth_error tracks' i = Some t' ->
     markers t' = markers t /\ last_marker t' = last_marker t /\
     track_flag t' = track_flag t /\ error t' = error t /\
     (has_flag (track_flag t) TRACK_HAS_BUNDLE = false -> t' = t)).
Proof.
  cbv zeta. unfold tracking_scale_reconstruction. cbv zeta. cbn [fst snd cameras last_camera].
  split; [reflexivity|]. split; [apply length_map|]. split.
  { intros i c c' Hi Hi'. rewrite nth_error_map, Hi in Hi'. cbn [option_map] in Hi'.
    inversion Hi'; subst c'. cbn [set_cam_mat cam_framenr cam_error cam_mat].
    split; [reflexivity|]. split; [reflexivity|].
    intros v. destruct (cam_mat c) as [[[r0 r1] r2] [[[x y] z] w]].
    destruct v as [[a b] d].
    destruct (sub_v3_v3v3 _ _) as [[p q] s]. reflexivity. }
  split.
  { intros first rest Hc Hfin. rewrite Hc. cbn [map].
    eexists. eexists. split; [reflexivity|].
    cbn [set_cam_mat cam_mat]. rewrite mat_row3_set. exact (sub_v3_self_b32 _ Hfin). }
  split; [apply length_map|].
  intros i t t' Hi Hi'. rewrite nth_error_map, Hi in Hi'. cbn [option_map] in Hi'.
  inversion Hi'; subst t'. clear Hi'.
  destruct (has_flag (track_flag t) TRACK_HAS_BUNDLE);
    cbn [set_bundle markers last_marker track_flag error].
  - repeat split; try reflexivity. intros Hx; discriminate Hx.
  - repeat split; reflexivity.
Qed.

Example scale_cameras_moved :
  let r := tracking_scale_reconstruction tracks_one_bundle cameras_moved
             (b32_int 2, b32_int 2, b32_int 2) in
  map (fun c => mat_row3 (cam_mat c)) (cameras (snd r))
  = [(b32_zero, b32_zero, b32_zero); (b32_int 2, b32_int 4, b32_int 6)] /\
  map bundle_pos (fst r)
  = [(b32_zero, f_neg (b32_int 2), f_neg (b32_int 4)); (b32_zero, b32_zero, b32_zero)].
Proof. split; vm_compute; reflexivity. Qed.

Lemma scale_reconstruction_origin_witness :
  exists first' rest',
    cameras (snd (tracking_scale_reconstruction tracks_one_bundle cameras_moved
                    (b32_int 2, b32_int 2, b32_int 2)))
    = first' :: rest' /\
    mat_row3 (cam_mat first') = (b32_zero, b32_zero, b32_zero).
Proof.
  destruct (scale_reconstruction_origin tracks_one_bundle cameras_moved
              (b32_int 2, b32_int 2, b32_int 2)) as (_ & _ & _ & Horigin & _).
  exact (Horigin _ _ eq_refl eq_refl).
Defined.
(** ** Tracking objects: the camera object stays, the active object is there *)

Lemma remove_at_nth {A : Type} (l : list A) (p j : nat) :
  nth_error (remove_at l p) j = nth_error l (if (j <? p)%nat then j else S j).
Proof.
  revert p j. induction l as [|x l IH]; intros p j.
  - destruct p, j; cbn [remove_at nth_error]; destruct (_ <? _)%nat; reflexivity.
  - destruct p as [|p]; cbn [remove_at].
    + reflexivity.
    + destruct j as [|j]; [reflexivity|].
      cbn [nth_error]. rewrite IH.
      change (S j <? S p)%nat with (j <? p)%nat.
      destruct (j <? p)%nat; reflexivity.
Qed.

Lemma remove_at_length {A : Type} (l : list A) (p : nat) :
  (p < length l)%nat -> S (length (remove_at l p)) = length l.
Proof.
  revert p. induction l as [|x l IH]; intros p Hp; [cbn in Hp; lia|].
  destruct p as [|p]; cbn [remove_at length]; [reflexivity|].
  rewrite IH by (cbn in Hp; lia). reflexivity.
Qed.

Section ObjectFacts.

Context {F : Type} `{FloatOps F}.
Variable M4 : Type.
Variable Name : Type.
Variable name_Camera : Name.
Variable name_Object : Name.
Variable BLI_strncpy : Name -> Name.
Variable BLI_uniquename : list Name -> Name -> Name -> Name.
Variable TRACKING_OBJECT_CAMERA : Z.

Local Abbreviation Tracking := (MovieTrackingObjects (F:=F) M4 Name).
Local Abbreviation Object := (MovieTrackingObject (F:=F) M4 Name).
Local Abbreviation object_add :=
  (BKE_tracking_object_add M4 Name name_Camera name_Object BLI_strncpy BLI_uniquename
     TRACKING_OBJECT_CAMERA).
Local Abbreviation object_delete :=
  (BKE_tracking_object_delete M4 Name TRACKING_OBJECT_CAMERA).
Local Abbreviation run_op :=
  (run_object_op M4 Name name_Camera name_Object BLI_strncpy BLI_uniquename
     TRACKING_OBJECT_CAMERA).
Local Abbreviation ok := (objects_ok M4 Name TRACKING_OBJECT_CAMERA).
Local Abbreviation camera_flagged := (is_camera M4 Name TRACKING_OBJECT_CAMERA).

Lemma object_add_ok (tracking : Tracking) (name : Name) :
  TRACKING_OBJECT_CAMERA <> 0 -> ok tracking -> ok (snd (object_add tracking name)).
Proof.
  intros Hc (Htot & Hcam & Hnr).
  unfold BKE_tracking_object_add, objects_ok.
  destruct (tot_object tracking =? 0) eqn:Hz;
    cbn [snd objects tot_object objectnr]; rewrite !length_app; cbn [length].
  - apply Z.eqb_eq in Hz.
    assert (He : objects tracking = []).
    { destruct (objects tracking); [reflexivity|]. cbn [length] in Htot. lia. }
    rewrite He. cbn [app length map].
    split; [lia|]. split; [|intros _; lia].
    intros [|i] object Hi; cbn [nth_error] in Hi.
    + inversion Hi; subst object. unfold is_camera. cbn [object_flag].
      rewrite ?Z.lor_0_l, Z.land_diag.
      replace (TRACKING_OBJECT_CAMERA =? 0) with false
        by (symmetry; apply Z.eqb_neq; exact Hc).
      split; reflexivity.
    + destruct i; discriminate Hi.
  - apply Z.eqb_neq in Hz.
    split; [lia|]. split; [|intros _; lia].
    intros i object Hi.
    destruct (Nat.lt_ge_cases i (length (objects tracking))) as [Hlt|Hge].
    + rewrite nth_error_app1 in Hi by exact Hlt. exact (Hcam i object Hi).
    + rewrite nth_error_app2 in Hi by exact Hge.
      destruct (i - length (objects tracking))%nat as [|k] eqn:Hk;
        [|destruct k; discriminate Hi].
      cbn [nth_error] in Hi. inversion Hi; subst object.
      unfold is_camera. cbn [object_flag]. rewrite Z.land_0_l. cbn.
      split; [intros Hx; discriminate Hx|].
      intros ->. cbn in Hk. lia.
Qed.

Lemma object_delete_ok (tracking : Tracking) (place : nat) :
  ok tracking -> ok (snd (object_delete tracking place)).
Proof.
  intros Hok. pose proof Hok as (Htot & Hcam & Hnr).
  unfold BKE_tracking_object_delete.
  destruct (nth_error (objects tracking) place) as [obj|] eqn:Hp; [|exact Hok].
  destruct (is_camera M4 Name TRACKING_OBJECT_CAMERA obj) eqn:Hc; [exact Hok|].
  cbn [snd].
  assert (Hp0 : place <> O).
  { intros ->. destruct (Hcam O obj Hp) as [_ Hx]. rewrite (Hx eq_refl) in Hc.
    discriminate Hc. }
  assert (Hlt : (place < length (objects tracking))%nat)
    by (apply nth_error_Some; congruence).
  pose proof (remove_at_length (objects tracking) place Hlt) as Hlen.
  unfold objects_ok. cbn [objects tot_object objectnr].
  split; [lia|]. split.
  - intros j object Hj. rewrite remove_at_nth in Hj.
    destruct (j <? place)%nat eqn:Hjp.
    + exact (Hcam j object Hj).
    + apply Nat.ltb_ge in Hjp. destruct (Hcam (S j) object Hj) as [H1 H2].
      split; [intros Hx; apply H1 in Hx; discriminate Hx|intros ->; lia].
  - intros _.
    assert (Hz : (Z.of_nat place =? 0) = false) by (apply Z.eqb_neq; lia).
    rewrite Hz. cbn [negb]. lia.
Qed.

Lemma camera_scan_first (rest : list Object) (i : nat) (first : Object) (tail : list Object) :
  rest = first :: tail -> camera_flagged first = true ->
  camera_scan M4 Name TRACKING_OBJECT_CAMERA rest i = Some i.
Proof. intros -> Hc. cbn [camera_scan]. rewrite Hc. reflexivity. Qed.

(** X19.  The objects of a tracking through their life, with a camera flag
    that is not 0.  [objects_ok] holds for a tracking without objects and
    is kept by every call of BKE_tracking_object_add and
    BKE_tracking_object_delete: [tot_object] counts the list, the first
    object is the camera object and the only one, and [objectnr] is a
    place of the list.  In such a state BKE_tracking_object_delete refuses
    the first object and changes nothing; once there is an object there
    always is one, and BKE_tracking_object_get_camera gives the first
    object. *)
Theorem objects_lifecycle (tracking : Tracking) (ops : list (object_op Name)) :
  TRACKING_OBJECT_CAMERA <> 0 ->
  (objects tracking = [] -> tot_object tracking = 0 -> ok tracking) /\
  (ok tracking ->
   let tracking' := fold_left run_op ops tracking in
   ok tracking' /\
   object_delete tracking' O = (false, tracking') /\
   (objects tracking <> [] -> objects tracking' <> []) /\
   (objects tracking' <> [] ->
    BKE_tracking_object_get_camera M4 Name TRACKING_OBJECT_CAMERA tracking' = Some O)).
Proof.
  intros Hc. split.
  { intros He Htot. unfold objects_ok. rewrite He, Htot. cbn [length].
    split; [reflexivity|]. split; [intros [|i] o Hi; discriminate Hi|].
    intros Hx. contradiction. }
  intros Hok. cbv zeta.
  assert (Hkeep : ok (fold_left run_op ops tracking) /\
                  (objects tracking <> [] ->
                   objects (fold_left run_op ops tracking) <> [])).
  { revert tracking Hok. induction ops as [|op ops IH]; intros tracking Hok.
    - split; [exact Hok|intros Hne; exact Hne].
    - cbn [fold_left].
      assert (Hstep : ok (run_op tracking op) /\
                      (objects tracking <> [] -> objects (run_op tracking op) <> [])).
      { destruct op as [name|place]; cbn [run_object_op].
        - split; [exact (object_add_ok tracking name Hc Hok)|].
          intros _. unfold BKE_tracking_object_add.
          destruct (tot_object tracking =? 0); cbn [snd objects];
            intros Hx; apply app_eq_nil in Hx; destruct Hx as [_ Hx]; discriminate Hx.
        - split; [exact (object_delete_ok tracking place Hok)|].
          intros Hne. unfold BKE_tracking_object_delete.
          destruct (nth_error (objects tracking) place) as [obj|] eqn:Hp; [|exact Hne].
          destruct (is_camera M4 Name TRACKING_OBJECT_CAMERA obj) eqn:Hcam; [exact Hne|].
          cbn [snd objects].
          destruct Hok as (_ & Hfirst & _).
          destruct place as [|place].
          + destruct (Hfirst O obj Hp) as [_ Hx]. rewrite (Hx eq_refl) in Hcam.
            discriminate Hcam.
          + destruct (objects tracking) as [|o rest]; [contradiction|].
            cbn [remove_at]. discriminate. }
      destruct Hstep as [Hok1 Hne1].
      destruct (IH _ Hok1) as [Hok2 Hne2].
      split; [exact Hok2|]. intros Hne. exact (Hne2 (Hne1 Hne)). }
  destruct Hkeep as [Hok' Hne'].
  set (tracking' := fold_left run_op ops tracking) in *.
  pose proof Hok' as (Htot & Hcam & Hnr).
  split; [exact Hok'|]. split.
  { unfold BKE_tracking_object_delete.
    destruct (nth_error (objects tracking') O) as [obj|] eqn:H0; [|reflexivity].
    destruct (Hcam O obj H0) as [_ Hx]. rewrite (Hx eq_refl). reflexivity. }
  split; [exact Hne'|].
  intros Hne. unfold BKE_tracking_object_get_camera.
  destruct (objects tracking') as [|first tail] eqn:Ho; [contradiction|].
  apply (camera_scan_first _ O first tail eq_refl).
  apply (Hcam O first); reflexivity.
Qed.

(** X28.  The active object and its lists.  Without objects
    BKE_tracking_object_get_active gives [NULL]:
    BKE_tracking_get_active_tracks then gives [tracking->tracks], while
    BKE_tracking_get_active_reconstruction reads the flag of the [NULL]
    object.  In a state with [objects_ok] and an object,
    BKE_tracking_object_get_active gives the object at [objectnr], and the
    track list and the reconstruction of the active object have the same
    owner: the tracking for the camera object (the first object), the
    object itself else. *)
Theorem active_object_lists (tracking : Tracking) :
  (objects tracking = [] ->
   BKE_tracking_object_get_active M4 Name tracking = None /\
   BKE_tracking_get_active_tracks M4 Name TRACKING_OBJECT_CAMERA tracking
   = tracks_of_tracking /\
   BKE_tracking_get_active_reconstruction M4 Name TRACKING_OBJECT_CAMERA tracking = Crash) /\
  (ok tracking -> objects tracking <> [] ->
   exists place object,
     Z.of_nat place = objectnr tracking /\
     nth_error (objects tracking) place = Some object /\
     BKE_tracking_object_get_active M4 Name tracking = Some place /\
     (place = O ->
      BKE_tracking_get_active_tracks M4 Name TRACKING_OBJECT_CAMERA tracking
      = tracks_of_tracking /\
      BKE_tracking_get_active_reconstruction M4 Name TRACKING_OBJECT_CAMERA tracking
      = Done (camera_reconstruction tracking)) /\
     (place <> O ->
      BKE_tracking_get_active_tracks M4 Name TRACKING_OBJECT_CAMERA tracking
      = tracks_of_object place /\
      BKE_tracking_get_active_reconstruction M4 Name TRACKING_OBJECT_CAMERA tracking
      = Done (object_reconstruction object))).
Proof.
  split.
  - intros He.
    assert (Hact : BKE_tracking_object_get_active M4 Name tracking = None).
    { unfold BKE_tracking_object_get_active. rewrite He.
      destruct (objectnr tracking <? 0); [reflexivity|].
      destruct (Z.to_nat (objectnr tracking)); reflexivity. }
    unfold BKE_tracking_get_active_reconstruction, BKE_tracking_get_active_tracks.
    rewrite Hact. repeat split.
  - intros (Htot & Hcam & Hnr) Hne.
    destruct (Hnr Hne) as [Hlo Hhi].
    assert (Hlt : (Z.to_nat (objectnr tracking) < length (objects tracking))%nat) by lia.
    destruct (nth_error (objects tracking) (Z.to_nat (objectnr tracking)))
      as [object|] eqn:Hobj; [|apply nth_error_None in Hobj; lia].
    assert (Hact : BKE_tracking_object_get_active M4 Name tracking
                   = Some (Z.to_nat (objectnr tracking))).
    { unfold BKE_tracking_object_get_active.
      assert (Hz : (objectnr tracking <? 0) = false) by (apply Z.ltb_ge; lia).
      rewrite Hz, Hobj. reflexivity. }
    exists (Z.to_nat (objectnr tracking)), object.
    split; [lia|]. split; [exact Hobj|]. split; [exact Hact|].
    unfold BKE_tracking_get_active_reconstruction, BKE_tracking_get_active_tracks,
      BKE_tracking_object_get_reconstruction.
    rewrite Hact, Hobj.
    destruct (Hcam _ object Hobj) as [Hto Hfrom].
    split.
    + intros H0. rewrite (Hfrom H0). cbn [negb]. split; reflexivity.
    + intros Hn0.
      destruct (is_camera M4 Name TRACKING_OBJECT_CAMERA object) eqn:Hc.
      * destruct (Hn0 (Hto eq_refl)).
      * cbn [negb]. split; reflexivity.
Qed.

Lemma clear_act_track_spec (tracks : list (track_node (F:=F))) (act : option Z) :
  (forall track, In track tracks ->
                 clear_act_track tracks act <> Some (track_addr track)) /\
  (clear_act_track tracks act = None \/ clear_act_track tracks act = act) /\
  ((forall track, In track tracks -> act <> Some (track_addr track)) ->
   clear_act_track tracks act = act).
Proof.
  revert act. induction tracks as [|t rest IH]; intros act.
  - split; [intros track []|]. split; [right; reflexivity|intros _; reflexivity].
  - cbn [clear_act_track].
    set (act' := match act with
                 | Some a => if track_addr t =? a then None else act
                 | None => act
                 end).
    destruct (IH act') as (Hno & Hcase & Hsame).
    assert (Hact' : act' <> Some (track_addr t)).
    { unfold act'. destruct act as [a|]; [|discriminate].
      destruct (Z.eqb_spec (track_addr t) a) as [->|Hne]; [discriminate|].
      intros Hx. inversion Hx. congruence. }
    assert (Hact'' : act' = None \/ act' = act).
    { unfold act'. destruct act as [a|]; [|left; reflexivity].
      destruct (track_addr t =? a); [left|right]; reflexivity. }
    split; [|split].
    + intros track [<-|Hin]; [|exact (Hno track Hin)].
      destruct Hcase as [->| ->]; [discriminate|exact Hact'].
    + destruct Hcase as [->| ->]; [left; reflexivity|exact Hact''].
    + intros Hfree.
      assert (E : act' = act).
      { unfold act'. destruct act as [a|]; [|reflexivity].
        destruct (Z.eqb_spec (track_addr t) a) as [Heq|Hne]; [|reflexivity].
        destruct (Hfree t (or_introl eq_refl)). rewrite Heq. reflexivity. }
      rewrite Hsame; [exact E|].
      intros track Hin. rewrite E. apply Hfree. right. exact Hin.
Qed.

(** X20.  BKE_tracking_object_delete.  For a pointer that is not in
    [tracking->objects] and for an object with the camera flag it returns
    FALSE and changes nothing.  Else it returns TRUE: the object is taken
    out of the list and the others keep their order, [tot_object] goes
    down by one, [objectnr] becomes the place before the object (0 for the
    first), the dopesheet is tagged, and [act_track] is set to [NULL] when
    it points to a track of the object and is left alone else: afterwards
    neither [act_track] nor BKE_tracking_track_get_active gives a track of
    the freed object. *)
Theorem object_delete_frees (tracking : Tracking) (place : nat) :
  (nth_error (objects tracking) place = None ->
   object_delete tracking place = (false, tracking)) /\
  (forall object,
     nth_error (objects tracking) place = Some object ->
     camera_flagged object = true ->
     object_delete tracking place = (false, tracking)) /\
  (forall object,
     nth_error (objects tracking) place = Some object ->
     camera_flagged object = false ->
     exists tracking',
       object_delete tracking place = (true, tracking') /\
       (forall j, nth_error (objects tracking') j
                  = nth_error (objects tracking) (if (j <? place)%nat then j else S j)) /\
       S (length (objects tracking')) = length (objects tracking) /\
       tot_object tracking' = tot_object tracking - 1 /\
       objectnr tracking' = Z.max 0 (Z.of_nat place - 1) /\
       dopesheet_ok tracking' = false /\
       camera_tracks tracking' = camera_tracks tracking /\
       (act_track tracking' = None \/ act_track tracking' = act_track tracking) /\
       ((forall track, In track (object_tracks object) ->
                       act_track tracking <> Some (track_addr track)) ->
        act_track tracking' = act_track tracking) /\
       (forall track, In track (object_tracks object) ->
          act_track tracking' <> Some (track_addr track) /\
          BKE_tracking_track_get_active M4 Name TRACKING_OBJECT_CAMERA tracking'
          <> Some (track_addr track))).
Proof.
  unfold BKE_tracking_object_delete.
  split; [intros ->; reflexivity|]. split.
  - intros object -> ->. reflexivity.
  - intros object Hp Hc. rewrite Hp, Hc. eexists. split; [reflexivity|].
    cbn [objects tot_object objectnr dopesheet_ok camera_tracks act_track].
    destruct (clear_act_track_spec (object_tracks object) (act_track tracking))
      as (Hno & Hcase & Hsame).
    split; [intros j; apply remove_at_nth|].
    split; [apply remove_at_length, nth_error_Some; congruence|].
    split; [reflexivity|].
    split.
    { destruct (Z.eqb_spec (Z.of_nat place) 0) as [E|E]; cbn [negb]; lia. }
    split; [reflexivity|]. split; [reflexivity|].
    split; [exact Hcase|]. split; [exact Hsame|].
    intros track Hin. split; [exact (Hno track Hin)|].
    unfold BKE_tracking_track_get_active. cbn [act_track].
    destruct (clear_act_track (object_tracks object) (act_track tracking)) as [a|] eqn:Ea;
      [|discriminate].
    destruct (existsb _ _); [|discriminate].
    exact (Hno track Hin).
Qed.

(** *** BKE_tracking_track_get_indexed *)

Lemma indexed_scan_spec (rest : list (track_node (F:=F))) (cur tracknr : Z) :
  indexed_scan rest cur tracknr
  = if cur <=? tracknr
    then match nth_error (filter has_bundle rest) (Z.to_nat (tracknr - cur)) with
         | Some track => inl track
         | None => inr (cur + Z.of_nat (length (filter has_bundle rest)))
         end
    else inr (cur + Z.of_nat (length (filter has_bundle rest))).
Proof.
  revert cur. induction rest as [|t rest IH]; intros cur.
  - cbn [indexed_scan filter length]. rewrite Z.add_0_r.
    destruct (cur <=? tracknr); [|reflexivity].
    destruct (Z.to_nat (tracknr - cur)); reflexivity.
  - cbn [indexed_scan filter].
    change (negb (Z.land (track_flag (track_data t)) TRACK_HAS_BUNDLE =? 0))
      with (has_bundle t).
    destruct (has_bundle t).
    + destruct (Z.eqb_spec cur tracknr) as [->|Hne].
      * rewrite Z.leb_refl, Z.sub_diag. reflexivity.
      * rewrite IH. cbn [length].
        destruct (Z.leb_spec cur tracknr) as [Hle|Hgt].
        -- assert (Hle' : (cur + 1 <=? tracknr) = true) by (apply Z.leb_le; lia).
           rewrite Hle'.
           replace (Z.to_nat (tracknr - cur)) with (S (Z.to_nat (tracknr - (cur + 1))))
             by lia.
           cbn [nth_error].
           destruct (nth_error _ _); [reflexivity|]. f_equal. lia.
        -- assert (Hgt' : (cur + 1 <=? tracknr) = false) by (apply Z.leb_gt; lia).
           rewrite Hgt'. f_equal. lia.
    + apply IH.
Qed.

Lemma indexed_scan_objects_spec (tracking : Tracking) (rest : list Object) (i : nat)
  (cur tracknr : Z) :
  let listed :=
    flat_map (fun '(i, object) =>
                let r := BKE_tracking_object_get_tracks M4 Name TRACKING_OBJECT_CAMERA
                           object i in
                map (fun track => (track, r))
                    (filter has_bundle (tracksbase M4 Name tracking r)))
             (combine (seq i (length rest)) rest) in
  indexed_scan_objects M4 Name TRACKING_OBJECT_CAMERA tracking rest i cur tracknr
  = if cur <=? tracknr then nth_error listed (Z.to_nat (tracknr - cur)) else None.
Proof.
  cbv zeta. revert i cur. induction rest as [|object rest IH]; intros i cur.
  - cbn. destruct (cur <=? tracknr); [|reflexivity].
    destruct (Z.to_nat (tracknr - cur)); reflexivity.
  - cbn [indexed_scan_objects length seq combine flat_map].
    rewrite indexed_scan_spec.
    set (r := BKE_tracking_object_get_tracks M4 Name TRACKING_OBJECT_CAMERA object i).
    set (here := filter has_bundle (tracksbase M4 Name tracking r)).
    destruct (Z.leb_spec cur tracknr) as [Hle|Hgt].
    + destruct (nth_error here (Z.to_nat (tracknr - cur))) as [track|] eqn:Hn.
      * rewrite nth_error_app1
          by (rewrite length_map; apply nth_error_Some; congruence).
        rewrite nth_error_map, Hn. reflexivity.
      * apply nth_error_None in Hn.
        rewrite IH.
        assert (Hle' : (cur + Z.of_nat (length here) <=? tracknr) = true)
          by (apply Z.leb_le; lia).
        rewrite Hle'.
        rewrite nth_error_app2 by (rewrite length_map; lia).
        rewrite length_map. f_equal. lia.
    + rewrite IH.
      assert (Hgt' : (cur + Z.of_nat (length here) <=? tracknr) = false)
        by (apply Z.leb_gt; lia).
      rewrite Hgt'. reflexivity.
Qed.

(** X21.  BKE_tracking_track_get_indexed numbers from 1 the tracks that have a
    bundle, object after object in the order of [tracking->objects] and in
    the order of each track list, with [tracking->tracks] as the list of an
    object with the camera flag.  It returns the track with the number
    [tracknr] together with its list, and [NULL] for both when [tracknr]
    is below 1 or above the count; so it finds no track in a tracking
    without objects. *)
Theorem track_get_indexed_numbering (tracking : Tracking) (tracknr : Z) :
  BKE_tracking_track_get_indexed M4 Name TRACKING_OBJECT_CAMERA tracking tracknr
  = (if tracknr <? 1 then None
     else nth_error (bundle_tracks M4 Name TRACKING_OBJECT_CAMERA tracking)
            (Z.to_nat (tracknr - 1))) /\
  (forall track r,
     BKE_tracking_track_get_indexed M4 Name TRACKING_OBJECT_CAMERA tracking tracknr
     = Some (track, r) ->
     In track (tracksbase M4 Name tracking r) /\ has_bundle track = true) /\
  (objects tracking = [] ->
   BKE_tracking_track_get_indexed M4 Name TRACKING_OBJECT_CAMERA tracking tracknr = None).
Proof.
  assert (Hspec :
    BKE_tracking_track_get_indexed M4 Name TRACKING_OBJECT_CAMERA tracking tracknr
    = (if tracknr <? 1 then None
       else nth_error (bundle_tracks M4 Name TRACKING_OBJECT_CAMERA tracking)
              (Z.to_nat (tracknr - 1)))).
  { unfold BKE_tracking_track_get_indexed, bundle_tracks.
    rewrite indexed_scan_objects_spec.
    destruct (Z.ltb_spec tracknr 1) as [Hlt|Hge].
    - assert (E : (1 <=? tracknr) = false) by (apply Z.leb_gt; lia). rewrite E. reflexivity.
    - assert (E : (1 <=? tracknr) = true) by (apply Z.leb_le; lia). rewrite E. reflexivity. }
  split; [exact Hspec|]. split.
  - intros track r Hget. rewrite Hspec in Hget.
    destruct (tracknr <? 1); [discriminate Hget|].
    apply nth_error_In in Hget. unfold bundle_tracks in Hget.
    apply in_flat_map in Hget. destruct Hget as ([i object] & _ & Hin).
    apply in_map_iff in Hin. destruct Hin as (track' & Heq & Hin).
    inversion Heq; subst. apply filter_In in Hin. exact Hin.
  - intros He. rewrite Hspec. unfold bundle_tracks. rewrite He. cbn.
    destruct (tracknr <? 1); [reflexivity|]. destruct (Z.to_nat (tracknr - 1)); reflexivity.
Qed.

End ObjectFacts.

(** Three objects added to a clip without objects, the second deleted:
    names, flags and the active object. *)
Example objects_added_and_deleted :
  let clip := fold_left clip_run_op
                [OpObjectAdd clip_name (name_of 7); OpObjectAdd clip_name (name_of 1);
                 OpObjectAdd clip_name (name_of 2); OpObjectDelete clip_name 1%nat;
                 OpObjectDelete clip_name 0%nat] clip_empty in
  map (fun object => (object_name object, object_flag object)) (objects clip)
  = [(name_camera, 1); (name_of 2, 0)] /\
  tot_object clip = 2 /\ objectnr clip = 0 /\ dopesheet_ok clip = false.
Proof. repeat split. Qed.

Example indexed_tracks_of_two_objects :
  map (fun tracknr =>
         option_map (fun '(track, r) => (track_addr track, r))
           (BKE_tracking_track_get_indexed pose clip_name 1 clip_two_objects tracknr))
      [0; 1; 2; 3; 4]
  = [None; Some (100, tracks_of_tracking); Some (200, tracks_of_object 1);
     Some (201, tracks_of_object 1); None].
Proof. reflexivity. Qed.

Lemma objects_lifecycle_witness :
  objects_ok pose clip_name 1 clip_camera_only /\
  BKE_tracking_object_delete pose clip_name 1 clip_camera_only O
  = (false, clip_camera_only).
Proof.
  destruct (objects_lifecycle pose clip_name name_camera name_object
              (fun name => name) (fun _ _ name => name) 1 clip_empty
              [OpObjectAdd clip_name (name_of 7); OpObjectAdd clip_name (name_of 1);
               OpObjectDelete clip_name 1%nat]) as [Hinit Hkept].
  - discriminate.
  - destruct (Hkept (Hinit eq_refl eq_refl)) as (Hok & Hcamera & _).
    split; [exact Hok|exact Hcamera].
Defined.

Lemma object_delete_frees_witness :
  exists clip,
    BKE_tracking_object_delete pose clip_name 1 clip_two_objects 1 = (true, clip) /\
    act_track clip = None /\ objectnr clip = 0.
Proof.
  destruct (object_delete_frees pose clip_name 1 clip_two_objects 1) as (_ & _ & Hfree).
  destruct (Hfree _ eq_refl eq_refl)
    as (clip & E & _ & _ & _ & Hnr & _ & _ & Hcase & _ & Hno).
  exists clip. split; [exact E|]. split; [|exact Hnr].
  destruct Hcase as [Hnone|Hsame]; [exact Hnone|].
  destruct (Hno (node_at 200 true) (or_introl eq_refl)) as [Hx _].
  exfalso. apply Hx. rewrite Hsame. reflexivity.
Defined.

Lemma track_get_indexed_numbering_witness :
  BKE_tracking_track_get_indexed pose clip_name 1 clip_empty 1 = None /\
  In (node_at 200 true) (tracksbase pose clip_name clip_two_objects (tracks_of_object 1)).
Proof.
  destruct (track_get_indexed_numbering pose clip_name 1 clip_empty 1) as (_ & _ & Hnone).
  destruct (track_get_indexed_numbering pose clip_name 1 clip_two_objects 2)
    as (_ & Hin & _).
  split; [exact (Hnone eq_refl)|].
  exact (proj1 (Hin (node_at 200 true) (tracks_of_object 1) eq_refl)).
Defined.

Lemma active_object_lists_witness :
  BKE_tracking_get_active_reconstruction pose clip_name 1 clip_empty = Crash /\
  BKE_tracking_get_active_tracks pose clip_name 1 clip_two_objects = tracks_of_object 1.
Proof.
  destruct (active_object_lists pose clip_name 1 clip_empty) as [Hnone _].
  destruct (active_object_lists pose clip_name 1 clip_two_objects) as [_ Hsome].
  split; [exact (proj2 (proj2 (Hnone eq_refl)))|].
  destruct Hsome as (place & object & Hplace & _ & _ & _ & Hother).
  - split; [reflexivity|]. split; [|intros _; cbn; lia].
    intros [|[|i]] o Hi; cbn in Hi;
      [inversion Hi; subst o; split; intros Hx; reflexivity
      |inversion Hi; subst o; split; intros Hx; discriminate Hx
      |destruct i; discriminate Hi].
  - discriminate.
  - assert (Hp : place = 1%nat) by (cbn in Hplace; lia). subst place.
    exact (proj1 (Hother ltac:(discriminate))).
Defined.
(** ** Clamping a marker's position, without rounding *)

Lemma R_ltb_cases (a b : R) :
  (R_ltb a b = true /\ (a < b)%R) \/ (R_ltb a b = false /\ (b <= a)%R).
Proof.
  unfold R_ltb. destruct (Rlt_dec a b); [left|right]; split; try reflexivity; lra.
Qed.

Lemma minmax_step_real (mm : vec2 R * vec2 R) (vec : vec2 R) :
  let mm' := minmax_v2v2_v2 mm vec in
  (fst (fst mm') <= fst (fst mm) /\ fst (fst mm') <= fst vec /\
   snd (fst mm') <= snd (fst mm) /\ snd (fst mm') <= snd vec /\
   fst (snd mm) <= fst (snd mm') /\ fst vec <= fst (snd mm') /\
   snd (snd mm) <= snd (snd mm') /\ snd vec <= snd (snd mm'))%R.
Proof.
  destruct mm as [[mn0 mn1] [mx0 mx1]]. destruct vec as [v0 v1].
  unfold minmax_v2v2_v2, f_gt. cbn [fst snd f_lt real_ops].
  destruct (R_ltb_cases v0 mn0) as [[-> ?]|[-> ?]],
           (R_ltb_cases v1 mn1) as [[-> ?]|[-> ?]],
           (R_ltb_cases mx0 v0) as [[-> ?]|[-> ?]],
           (R_ltb_cases mx1 v1) as [[-> ?]|[-> ?]];
    cbn [fst snd]; repeat split; lra.
Qed.

(** The corners lie in the pattern bounding box. *)
Lemma pattern_minmax_bounds_real (m : MovieTrackingMarker R) (c : vec2 R) :
  In c (corners_of m) ->
  inside_box (fst (BKE_tracking_marker_pattern_minmax m))
             (snd (BKE_tracking_marker_pattern_minmax m)) c.
Proof.
  unfold corners_of, BKE_tracking_marker_pattern_minmax, inside_box.
  destruct (pattern_corners m) as [[[c0 c1] c2] c3]. cbv zeta.
  pose proof (minmax_step_real INIT_MINMAX2 c0) as H0. cbv zeta in H0.
  set (mm0 := minmax_v2v2_v2 INIT_MINMAX2 c0) in *.
  pose proof (minmax_step_real mm0 c1) as H1. cbv zeta in H1.
  set (mm1 := minmax_v2v2_v2 mm0 c1) in *.
  pose proof (minmax_step_real mm1 c2) as H2. cbv zeta in H2.
  set (mm2 := minmax_v2v2_v2 mm1 c2) in *.
  pose proof (minmax_step_real mm2 c3) as H3. cbv zeta in H3.
  set (mm3 := minmax_v2v2_v2 mm2 c3) in *.
  intros [<-|[<-|[<-|[<-|[]]]]]; split; lra.
Qed.

Lemma clamp_pat_pos_axis_real (pat_min pat_max smin smax c : R) :
  (pat_min <= c <= pat_max)%R -> (pat_max - pat_min <= smax - smin)%R ->
  (smin <= clamp_pat_pos_axis pat_min pat_max smin smax c <= smax)%R.
Proof.
  intros Hc Hfit. unfold clamp_pat_pos_axis, f_gt. cbn [f_lt f_add f_sub real_ops].
  destruct (R_ltb_cases pat_min smin) as [[-> ?]|[-> ?]],
           (R_ltb_cases smax pat_max) as [[-> ?]|[-> ?]]; lra.
Qed.

Lemma clamp_search_pos_axis_real (pat_min pat_max smin smax : R) :
  (pat_max - pat_min <= smax - smin)%R ->
  let r := clamp_search_pos_axis pat_min pat_max (smax - smin)%R smin smax in
  (fst r <= pat_min /\ pat_max <= snd r /\ snd r - fst r = smax - smin)%R.
Proof.
  intros Hfit. unfold clamp_search_pos_axis, f_gt. cbn [f_lt f_add f_sub real_ops].
  destruct (R_ltb_cases pat_min smin) as [[-> ?]|[-> ?]]; cbv zeta.
  - destruct (R_ltb_cases (pat_min + (smax - smin)) pat_max) as [[-> ?]|[-> ?]];
      cbn [fst snd]; lra.
  - destruct (R_ltb_cases smax pat_max) as [[-> ?]|[-> ?]]; cbn [fst snd]; lra.
Qed.


Lemma marker_R_square_box :
  BKE_tracking_marker_pattern_minmax marker_R_square = ((-1, -1), (1, 1))%R.
Proof.
  unfold BKE_tracking_marker_pattern_minmax, marker_R_square, minmax_v2v2_v2,
    INIT_MINMAX2, f_gt, f_1e30.
  cbn [pattern_corners fst snd f_lt f_neg f_of_int real_ops].
  change (10 ^ 30)%Z with 1000000000000000000000000000000%Z.
  repeat (match goal with
          | |- context [R_ltb ?a ?b] =>
              first [rewrite (R_ltb_true a b) by lra | rewrite (R_ltb_false a b) by lra]
          end; cbv iota).
  reflexivity.
Qed.

(** ** A new track: its marker is settled *)

Lemma minmax_step_attained_real (mm : vec2 R * vec2 R) (vec : vec2 R) :
  let mm' := minmax_v2v2_v2 mm vec in
  (fst (fst mm') = fst (fst mm) \/ fst (fst mm') = fst vec) /\
  (snd (fst mm') = snd (fst mm) \/ snd (fst mm') = snd vec) /\
  (fst (snd mm') = fst (snd mm) \/ fst (snd mm') = fst vec) /\
  (snd (snd mm') = snd (snd mm) \/ snd (snd mm') = snd vec).
Proof.
  destruct mm as [[mn0 mn1] [mx0 mx1]]. destruct vec as [v0 v1].
  unfold minmax_v2v2_v2, f_gt. cbn [fst snd f_lt real_ops].
  destruct (R_ltb v0 mn0), (R_ltb v1 mn1), (R_ltb mx0 v0), (R_ltb mx1 v1);
    cbn [fst snd]; repeat split; auto.
Qed.

(** The bounding box of corners that lie in a box within +-1.0e30 lies in
    that box. *)
Lemma pattern_minmax_inside_real (m : MovieTrackingMarker R) (lo hi : vec2 R) :
  (forall c, In c (corners_of m) -> inside_box lo hi c) ->
  (fst lo <= IZR (10 ^ 30) /\ snd lo <= IZR (10 ^ 30) /\
   - IZR (10 ^ 30) <= fst hi /\ - IZR (10 ^ 30) <= snd hi)%R ->
  let pat_min := fst (BKE_tracking_marker_pattern_minmax m) in
  let pat_max := snd (BKE_tracking_marker_pattern_minmax m) in
  (fst lo <= fst pat_min /\ snd lo <= snd pat_min /\
   fst pat_max <= fst hi /\ snd pat_max <= snd hi)%R.
Proof.
  unfold corners_of, BKE_tracking_marker_pattern_minmax, inside_box.
  destruct (pattern_corners m) as [[[c0 c1] c2] c3]. intros Hin Hinit. cbv zeta.
  pose proof (Hin c0 ltac:(cbn [In]; tauto)) as I0.
  pose proof (Hin c1 ltac:(cbn [In]; tauto)) as I1.
  pose proof (Hin c2 ltac:(cbn [In]; tauto)) as I2.
  pose proof (Hin c3 ltac:(cbn [In]; tauto)) as I3.
  pose proof (minmax_step_attained_real INIT_MINMAX2 c0) as H0. cbv zeta in H0.
  set (mm0 := minmax_v2v2_v2 INIT_MINMAX2 c0) in *.
  pose proof (minmax_step_attained_real mm0 c1) as H1. cbv zeta in H1.
  set (mm1 := minmax_v2v2_v2 mm0 c1) in *.
  pose proof (minmax_step_attained_real mm1 c2) as H2. cbv zeta in H2.
  set (mm2 := minmax_v2v2_v2 mm1 c2) in *.
  pose proof (minmax_step_attained_real mm2 c3) as H3. cbv zeta in H3.
  set (mm3 := minmax_v2v2_v2 mm2 c3) in *.
  unfold INIT_MINMAX2, f_1e30 in H0. cbn [fst snd f_neg f_of_int real_ops] in H0.
  destruct H0 as (A0 & B0 & C0 & D0), H1 as (A1 & B1 & C1 & D1),
           H2 as (A2 & B2 & C2 & D2), H3 as (A3 & B3 & C3 & D3).
  repeat split.
  - destruct A3 as [->| ->]; [|lra]. destruct A2 as [->| ->]; [|lra].
    destruct A1 as [->| ->]; [|lra]. destruct A0 as [->| ->]; lra.
  - destruct B3 as [->| ->]; [|lra]. destruct B2 as [->| ->]; [|lra].
    destruct B1 as [->| ->]; [|lra]. destruct B0 as [->| ->]; lra.
  - destruct C3 as [->| ->]; [|lra]. destruct C2 as [->| ->]; [|lra].
    destruct C1 as [->| ->]; [|lra]. destruct C0 as [->| ->]; lra.
  - destruct D3 as [->| ->]; [|lra]. destruct D2 as [->| ->]; [|lra].
    destruct D1 as [->| ->]; [|lra]. destruct D0 as [->| ->]; lra.
Qed.

(** A marker whose pattern lies in its search area is left as it is by
    every clamp. *)
Lemma clamp_settled_real (m : MovieTrackingMarker R) (event : clamp_event) :
  (forall c, In c (corners_of m) -> inside_box (search_min m) (search_max m) c) ->
  (fst (search_min m) <= IZR (10 ^ 30) /\ snd (search_min m) <= IZR (10 ^ 30) /\
   - IZR (10 ^ 30) <= fst (search_max m) /\ - IZR (10 ^ 30) <= snd (search_max m))%R ->
  BKE_tracking_marker_clamp m event = m.
Proof.
  intros Hin Hinit.
  pose proof (pattern_minmax_inside_real m _ _ Hin Hinit) as (L0 & L1 & U0 & U1).
  cbv zeta in L0, L1, U0, U1.
  unfold BKE_tracking_marker_clamp.
  destruct (BKE_tracking_marker_pattern_minmax m) as [[pmin0 pmin1] [pmax0 pmax1]].
  cbn [fst snd] in *.
  destruct m as [p [[[c0 c1] c2] c3] [smin0 smin1] [smax0 smax1] fr fl].
  cbn [search_min search_max pattern_corners fst snd] in *.
  destruct event;
    unfold set_search, set_pattern_corners, min_ff, max_ff, clamp_pat_pos_axis,
      clamp_search_pos_axis, f_gt;
    cbn [pos search_min search_max pattern_corners framenr flag fst snd
         f_lt f_add f_sub real_ops];
    rewrite ?(R_ltb_false pmin0 smin0), ?(R_ltb_false pmin1 smin1),
      ?(R_ltb_false smax0 pmax0), ?(R_ltb_false smax1 pmax1) by lra;
    cbn [fst snd];
    rewrite ?(R_ltb_false smax0 pmax0), ?(R_ltb_false smax1 pmax1) by lra;
    destruct c0, c1, c2, c3; reflexivity.
Qed.

Lemma half_size_bounds (p s w : Z) :
  0 <= p <= s -> s < 2 ^ 31 -> 0 < w ->
  (0 <= IZR p / 2 / IZR w <= IZR s / 2 / IZR w /\ IZR s / 2 / IZR w <= IZR (2 ^ 31))%R.
Proof.
  intros [Hp Hps] Hs Hw.
  assert (HW : (1 <= IZR w)%R) by (apply IZR_le; lia).
  assert (HP : (0 <= IZR p)%R) by (apply IZR_le; lia).
  assert (HPS : (IZR p <= IZR s)%R) by (apply IZR_le; lia).
  assert (HS : (IZR s <= IZR (2 ^ 31))%R) by (apply IZR_le; lia).
  assert (Hinv : (0 < / IZR w <= 1)%R).
  { split; [apply Rinv_0_lt_compat; lra|].
    rewrite <- Rinv_1. apply Rinv_le_contravar; lra. }
  unfold Rdiv. split; [split|].
  - apply Rmult_le_pos; [lra|lra].
  - apply Rmult_le_compat_r; lra.
  - assert (0 <= IZR s * / 2)%R by lra.
    assert (IZR s * / 2 * / IZR w <= IZR s * / 2 * 1)%R
      by (apply Rmult_le_compat_l; lra).
    lra.
Qed.


